(** * A shallow embedding of the pseudo-spectral solver [src/fluid.py]

    The solver advances a vorticity field on a doubly periodic square with
    numpy arrays and numpy's FFT.  The embedding keeps the structure of the
    Python class [Fluid]: one record for the instance, one monadic function
    per method, Python exceptions as outcomes.

    Numbers: Python floats and numpy float64 values are modelled by the
    real numbers [R] of the standard library, complex128 values by pairs of
    reals.  All statements below are therefore statements of exact
    arithmetic; rounding is outside the model. *)

From Stdlib Require Import String Ascii.
From Stdlib Require Import Reals Lra Lia ZArith Bool Arith List.
Import ListNotations.

Set Implicit Arguments.

(* ================================================================= *)
(** ** Python outcomes *)

(** A Python expression either evaluates to a value or raises an exception;
    the exception is named by its class. *)
Inductive py (A : Type) : Type :=
| Val (a : A)
| Exc (e : string).
Arguments Val {A} a.
Arguments Exc {A} e.

Definition py_bind {A B : Type} (m : py A) (k : A -> py B) : py B :=
  match m with
  | Val a => k a
  | Exc e => Exc e
  end.

(** A method runs on the instance [S]: it returns a value and the updated
    instance, or raises and leaves the instance as it was at the raise. *)
Inductive outcome (S A : Type) : Type :=
| Returned (a : A) (s : S)
| Raised (e : string) (s : S).
Arguments Returned {S A} a s.
Arguments Raised {S A} e s.

Definition method (S A : Type) : Type := S -> outcome S A.

Definition ret {S A : Type} (a : A) : method S A := fun s => Returned a s.

Definition bind {S A B : Type} (m : method S A) (k : A -> method S B)
  : method S B :=
  fun s => match m s with
           | Returned a s' => k a s'
           | Raised e s' => Raised e s'
           end.

Definition eval {S A : Type} (m : py A) : method S A :=
  fun s => match m with
           | Val a => Returned a s
           | Exc e => Raised e s
           end.

Definition gets {S A : Type} (f : S -> A) : method S A :=
  fun s => Returned (f s) s.

Definition modify {S : Type} (f : S -> S) : method S unit :=
  fun s => Returned tt (f s).

Declare Scope py_scope.
Delimit Scope py_scope with py.
Declare Scope method_scope.
Delimit Scope method_scope with method.

Notation "x <- m ;; k" := (py_bind m (fun x => k))
  (at level 61, m at next level, right associativity) : py_scope.
Notation "x <- m ;; k" := (bind m (fun x => k))
  (at level 61, m at next level, right associativity) : method_scope.
Notation "m ;;; k" := (bind m (fun _ => k))
  (at level 61, right associativity) : method_scope.

(** [getattr]: reading an attribute that was never assigned. *)
Definition getattr {A : Type} (o : option A) : py A :=
  match o with
  | Some a => Val a
  | None => Exc "AttributeError"
  end.

Fixpoint mapM {A B : Type} (f : A -> py B) (l : list A) : py (list B) :=
  match l with
  | [] => Val []
  | a :: l' =>
      match f a with
      | Val b => match mapM f l' with
                 | Val bs => Val (b :: bs)
                 | Exc e => Exc e
                 end
      | Exc e => Exc e
      end
  end.

(* ================================================================= *)
(** ** Python scalars *)

Open Scope R_scope.

(** [a / b] on Python floats raises on a zero divisor (numpy scalars and
    arrays do not: they are divided with [Rdiv] below). *)
Definition py_truediv (a b : R) : py R :=
  if Req_dec_T b 0 then Exc "ZeroDivisionError" else Val (a / b).

(** [int(x)]: truncation towards zero. *)
Definition py_int (x : R) : Z :=
  if Rle_dec 0 x then Int_part x else (- Int_part (- x))%Z.

(** [a != b], [a <= b] on floats. *)
Definition Rneb (a b : R) : bool := if Req_dec_T a b then false else true.
Definition Rleb (a b : R) : bool := if Rle_dec a b then true else false.

(** [a // b] on non-negative ints. *)
Definition floordiv (a b : nat) : nat := (a / b)%nat.

(** A slice bound [i] on a sequence of length [len]: negative bounds count
    from the end, and every bound is clamped to the sequence. *)
Definition slice_bound (len : nat) (i : Z) : nat :=
  if (i <? 0)%Z
  then Z.to_nat (Z.max 0 (i + Z.of_nat len))
  else Nat.min (Z.to_nat i) len.

(** [range(s, 0, -1)]. *)
Definition range_down (s : Z) : list Z :=
  map (fun i => (s - Z.of_nat i)%Z) (seq 0 (Z.to_nat s)).

(** [fmt % arg] for a [str] argument.  Only the conversions [%s] and [%%]
    are interpreted; an argument that no conversion consumes is a
    [TypeError] ("not all arguments converted during string formatting"),
    as is a conversion with the argument already used. *)
Fixpoint percent_format (fmt arg : string) (used : bool) : py string :=
  match fmt with
  | EmptyString => if used then Val EmptyString else Exc "TypeError"
  | String "%" (String "s" rest) =>
      if used then Exc "TypeError"
      else match percent_format rest arg true with
           | Val r => Val (arg ++ r)%string
           | Exc e => Exc e
           end
  | String "%" (String "%" rest) =>
      match percent_format rest arg used with
      | Val r => Val (String "%" r)
      | Exc e => Exc e
      end
  | String "%" _ => Exc "ValueError"
  | String c rest =>
      match percent_format rest arg used with
      | Val r => Val (String c r)
      | Exc e => Exc e
      end
  end.

Definition py_mod_str (fmt arg : string) : py string :=
  percent_format fmt arg false.

(* ================================================================= *)
(** ** complex128 *)

Record complex : Type := mkC { re : R; im : R }.

Definition C0 : complex := mkC 0 0.
Definition Ci : complex := mkC 0 1.
Definition RtoC (x : R) : complex := mkC x 0.
Definition Cadd (a b : complex) : complex := mkC (re a + re b) (im a + im b).
Definition Csub (a b : complex) : complex := mkC (re a - re b) (im a - im b).
Definition Copp (a : complex) : complex := mkC (- re a) (- im a).
Definition Cmul (a b : complex) : complex :=
  mkC (re a * re b - im a * im b) (re a * im b + im a * re b).
Definition Cscale (x : R) (a : complex) : complex := mkC (x * re a) (x * im a).
Definition Cdivr (a : complex) (x : R) : complex := mkC (re a / x) (im a / x).
Definition Cconj (a : complex) : complex := mkC (re a) (- im a).
Definition Cabs (a : complex) : R := sqrt (re a * re a + im a * im a).

(** [exp(1j*t)]. *)
Definition cis (t : R) : complex := mkC (cos t) (sin t).

Fixpoint Csum (n : nat) (f : nat -> complex) : complex :=
  match n with
  | O => C0
  | S p => Cadd (Csum p f) (f p)
  end.

Fixpoint Rsum (n : nat) (f : nat -> R) : R :=
  match n with
  | O => 0
  | S p => Rsum p f + f p
  end.

(* ================================================================= *)
(** ** numpy arrays

    A one-dimensional array is a list, a two-dimensional array a list of
    rows.  [mk_matrix r c f] is the array of shape [(r, c)] with entry
    [f i j] at [[i, j]]. *)

Definition matrix (A : Type) : Type := list (list A).

Definition mk_matrix {A : Type} (r c : nat) (f : nat -> nat -> A) : matrix A :=
  map (fun i => map (fun j => f i j) (seq 0 c)) (seq 0 r).

Definition mget {A : Type} (d : A) (M : matrix A) (i j : nat) : A :=
  nth j (nth i M []) d.

Definition nrows {A : Type} (M : matrix A) : nat := length M.

Definition ncols {A : Type} (M : matrix A) : nat :=
  match M with
  | [] => O
  | row :: _ => length row
  end.

Definition shape {A : Type} (M : matrix A) : nat * nat := (nrows M, ncols M).

Definition rect {A : Type} (r c : nat) (M : matrix A) : Prop :=
  length M = r /\ Forall (fun row => length row = c) M.

Definition transpose {A : Type} (d : A) (M : matrix A) : matrix A :=
  mk_matrix (ncols M) (nrows M) (fun i j => mget d M j i).

Definition mmap {A B : Type} (f : A -> B) (M : matrix A) : matrix B :=
  map (map f) M.

(** [np.zeros((r, c))] and [np.empty((r, c))]; the latter hands out whatever
    the memory holds, here the function [junk]. *)
Definition np_zeros {A : Type} (z : A) (r c : nat) : matrix A :=
  mk_matrix r c (fun _ _ => z).
Definition np_empty (junk : nat -> nat -> R) (r c : nat) : matrix R :=
  mk_matrix r c junk.

(** Broadcasting of one dimension: equal sizes, or one of them 1. *)
Definition bdim (a b : nat) : option nat :=
  if (a =? b)%nat then Some a
  else if (a =? 1)%nat then Some b
  else if (b =? 1)%nat then Some a
  else None.

Definition bidx (size i : nat) : nat := if (size =? 1)%nat then O else i.

(** An elementwise binary operation on two 2-d arrays, with numpy's
    broadcasting; shapes that do not broadcast raise [ValueError]. *)
Definition broadcast2 {A B C : Type} (f : A -> B -> C) (da : A) (db : B)
    (X : matrix A) (Y : matrix B) : py (matrix C) :=
  match bdim (nrows X) (nrows Y), bdim (ncols X) (ncols Y) with
  | Some r, Some c =>
      Val (mk_matrix r c (fun i j =>
             f (mget da X (bidx (nrows X) i) (bidx (ncols X) j))
               (mget db Y (bidx (nrows Y) i) (bidx (ncols Y) j))))
  | _, _ => Exc "ValueError"
  end.

(** Broadcasting a value to the shape [(r, c)] of an assignment target or of
    the left operand of an in-place operation. *)
Definition broadcast_to {A : Type} (d : A) (r c : nat) (V : matrix A)
  : py (matrix A) :=
  if (((nrows V =? r) || (nrows V =? 1)) && ((ncols V =? c) || (ncols V =? 1)))%nat%bool
  then Val (mk_matrix r c (fun i j =>
              mget d V (bidx (nrows V) i) (bidx (ncols V) j)))
  else Exc "ValueError".

(** A 1-d array seen as a row [a[np.newaxis, :]] (what broadcasting does
    with it) and as a column [a[:, np.newaxis]]. *)
Definition as_row {A : Type} (a : list A) : matrix A := [a].
Definition as_col {A : Type} (a : list A) : matrix A := map (fun v => [v]) a.

(** [row op col[:, np.newaxis]] for two 1-d arrays: the array of shape
    [(len(col), len(row))] with entry [f row[j] col[i]] at [[i, j]]. *)
Definition outer {A B C : Type} (f : A -> B -> C) (row : list A) (col : list B)
  : matrix C :=
  map (fun c => map (fun r => f r c) row) col.

(** Indices selected by a boolean mask. *)
Fixpoint mask_indices (i : nat) (mask : list bool) : list nat :=
  match mask with
  | [] => []
  | true :: m => i :: mask_indices (S i) m
  | false :: m => mask_indices (S i) m
  end.

(** [a[mask, :n]]: the rows selected by [mask], their first [n] columns.
    A mask whose length is not the number of rows raises [IndexError]. *)
Definition take_rows_cols {A : Type} (M : matrix A) (mask : list bool) (n : nat)
  : py (matrix A) :=
  if (length mask =? nrows M)%nat
  then Val (map (fun i => firstn n (nth i M [])) (mask_indices 0 mask))
  else Exc "IndexError".

(** Position of [i] in a list of indices. *)
Fixpoint index_of (i : nat) (l : list nat) : option nat :=
  match l with
  | [] => None
  | k :: l' => if (k =? i)%nat then Some O
               else option_map S (index_of i l')
  end.

(** [a[mask, :n] = V]: the selected block is overwritten with [V] broadcast
    to the block's shape. *)
Definition put_rows_cols {A : Type} (d : A) (M : matrix A) (mask : list bool)
    (n : nat) (V : matrix A) : py (matrix A) :=
  if (length mask =? nrows M)%nat
  then
    let rows := mask_indices 0 mask in
    let w := Nat.min n (ncols M) in
    match broadcast_to d (length rows) w V with
    | Val B =>
        Val (mk_matrix (nrows M) (ncols M) (fun i j =>
               match index_of i rows with
               | Some t => if (j <? w)%nat then mget d B t j else mget d M i j
               | None => mget d M i j
               end))
    | Exc e => Exc e
    end
  else Exc "IndexError".

(** [a[mask] = b[mask] op c[mask]] for 2-d boolean masks: every array must
    have the mask's shape, else [IndexError]; entries off the mask keep the
    value they have in [M]. *)
Definition same_shape {A B : Type} (X : matrix A) (Y : matrix B) : bool :=
  ((nrows X =? nrows Y) && (ncols X =? ncols Y))%nat%bool.

Definition masked_update {A : Type} (d : A) (M : matrix A) (mask : matrix bool)
    (new : nat -> nat -> A) : matrix A :=
  mk_matrix (nrows M) (ncols M) (fun i j =>
    if mget false mask i j then new i j else mget d M i j).

(** [np.max(a)] of a 2-d array; an empty array raises [ValueError]. *)
Definition np_max (M : matrix R) : py R :=
  match concat M with
  | [] => Exc "ValueError"
  | v :: l => Val (fold_left Rmax l v)
  end.

Definition np_max1 (a : list R) : py R := np_max [a].

(** [a.sum()] and [a.mean()]. *)
Definition np_sum (M : matrix R) : R := fold_right Rplus 0 (concat M).
Definition np_mean (M : matrix R) : R :=
  np_sum M / INR (nrows M * ncols M).

(* ================================================================= *)
(** ** numpy.fft

    The transforms are the discrete Fourier transforms of numpy's
    documentation: [fft] is [A_k = sum_m a_m exp(-2 pi i m k / n)], [ifft]
    its inverse with the factor [1/n], [rfft] the first [n//2 + 1] entries
    of the transform of a real input, and [irfft] the real inverse transform
    of the Hermitian extension of its input to [n = 2 (m - 1)] points.  The
    two-dimensional versions transform the last axis with the real transform
    and the first axis with the complex one. *)

Definition dft_angle (n m k : nat) : R := 2 * PI * (INR m * INR k) / INR n.

Definition fft_list (a : list complex) : list complex :=
  let n := length a in
  map (fun k => Csum n (fun m => Cmul (nth m a C0) (cis (- dft_angle n m k))))
      (seq 0 n).

Definition ifft_list (a : list complex) : list complex :=
  let n := length a in
  map (fun m => Cscale (/ INR n)
                  (Csum n (fun k => Cmul (nth k a C0) (cis (dft_angle n m k)))))
      (seq 0 n).

Definition rfft_list (a : list R) : list complex :=
  firstn (length a / 2 + 1) (fft_list (map RtoC a)).

(** Entry [k] of the Hermitian spectrum of [n] points whose non-negative
    frequencies are [a]. *)
Definition hermitian (a : list complex) (n k : nat) : complex :=
  if (k <=? n / 2)%nat then nth k a C0 else Cconj (nth (n - k) a C0).

Definition irfft_list (a : list complex) : list R :=
  let n := (2 * (length a - 1))%nat in
  map (fun j => / INR n *
                re (Csum n (fun k => Cmul (hermitian a n k) (cis (dft_angle n j k)))))
      (seq 0 n).

(** A transform along the first axis. *)
Definition along_first (f : list complex -> list complex) (M : matrix complex)
  : matrix complex :=
  transpose C0 (map f (transpose C0 M)).

(** [np.fft.rfft2(a, axes=(-2,-1))]; no data points along an axis is a
    [ValueError]. *)
Definition rfft2 (a : matrix R) : py (matrix complex) :=
  if ((nrows a =? 0) || (ncols a =? 0))%nat%bool then Exc "ValueError"
  else Val (along_first fft_list (map rfft_list a)).

(** [np.fft.irfft2(a, axes=(-2,-1))]: the output has [2 (m - 1)] columns for
    [m] input columns. *)
Definition irfft2 (a : matrix complex) : py (matrix R) :=
  if ((nrows a =? 0) || (ncols a <=? 1))%nat%bool then Exc "ValueError"
  else Val (map irfft_list (along_first ifft_list a)).

(** [np.linspace(0, 2*np.pi, num, endpoint=False, retstep=True)]. *)
Definition linspace_step (num : nat) : R := (2 * PI - 0) / INR num.
Definition linspace (num : nat) : list R :=
  map (fun i => INR i * linspace_step num + 0) (seq 0 num).

(** [np.fft.fftfreq(n)]: the integers [0 .. (n-1)//2, -(n//2) .. -1] times
    [1.0/(n*d)] with [d = 1.0]; a Python division, which raises for [n = 0]. *)
Definition fftfreq_index (n : nat) : list Z :=
  map Z.of_nat (seq 0 ((n - 1) / 2 + 1))
  ++ map (fun i => (Z.of_nat i - Z.of_nat (n / 2))%Z) (seq 0 (n / 2)).

Definition fftfreq (n : nat) : py (list R) :=
  (val <- py_truediv 1 (INR n * 1) ;;
   Val (map (fun k => IZR k * val) (fftfreq_index n)))%py.

(** A size given as a Python int: negative dimensions raise. *)
Definition as_size (z : Z) : py nat :=
  if (z <? 0)%Z then Exc "ValueError" else Val (Z.to_nat z).

(* ================================================================= *)
(** ** The class [Fluid] *)

(** [w0] holds a real array after [init_solver] and a complex one after
    [update]. *)
Inductive ndarray : Type :=
| RealArr (a : matrix R)
| ComplexArr (a : matrix complex).

Record Fluid : Type := mkFluid {
  nx : nat;
  ny : nat;
  nk : nat;
  Re : R;
  ReI : R;
  dt : R;
  pad : R;
  time : R;
  it : Z;
  uptodate : bool;
  filterfac : R;
  x : list R;
  dx : R;
  y : list R;
  dy : R;
  kx : list R;
  ky : list R;
  u : matrix R;
  v : matrix R;
  w : matrix R;
  w0 : ndarray;
  dwdt : matrix R;
  k2 : option (matrix R);
  fk : option (matrix bool);
  wh : option (matrix complex);
  psih : option (matrix complex);
  dwhdt : option (matrix complex);
  mx : option Z;
  mk : option Z;
  my : option Z;
  padder : option (list bool);
  fltr : option (matrix R);
  printed : list string
}.

Definition set_dt (a : R) (s : Fluid) : Fluid :=
  mkFluid (nx s) (ny s) (nk s) (Re s) (ReI s) a (pad s) (time s) (it s)
    (uptodate s) (filterfac s) (x s) (dx s) (y s) (dy s) (kx s) (ky s) (u s)
    (v s) (w s) (w0 s) (dwdt s) (k2 s) (fk s) (wh s) (psih s) (dwhdt s) (mx
    s) (mk s) (my s) (padder s) (fltr s) (printed s).

Definition set_time (a : R) (s : Fluid) : Fluid :=
  mkFluid (nx s) (ny s) (nk s) (Re s) (ReI s) (dt s) (pad s) a (it s)
    (uptodate s) (filterfac s) (x s) (dx s) (y s) (dy s) (kx s) (ky s) (u s)
    (v s) (w s) (w0 s) (dwdt s) (k2 s) (fk s) (wh s) (psih s) (dwhdt s) (mx
    s) (mk s) (my s) (padder s) (fltr s) (printed s).

Definition set_it (a : Z) (s : Fluid) : Fluid :=
  mkFluid (nx s) (ny s) (nk s) (Re s) (ReI s) (dt s) (pad s) (time s) a
    (uptodate s) (filterfac s) (x s) (dx s) (y s) (dy s) (kx s) (ky s) (u s)
    (v s) (w s) (w0 s) (dwdt s) (k2 s) (fk s) (wh s) (psih s) (dwhdt s) (mx
    s) (mk s) (my s) (padder s) (fltr s) (printed s).

Definition set_u (a : matrix R) (s : Fluid) : Fluid :=
  mkFluid (nx s) (ny s) (nk s) (Re s) (ReI s) (dt s) (pad s) (time s) (it s)
    (uptodate s) (filterfac s) (x s) (dx s) (y s) (dy s) (kx s) (ky s) a (v
    s) (w s) (w0 s) (dwdt s) (k2 s) (fk s) (wh s) (psih s) (dwhdt s) (mx s)
    (mk s) (my s) (padder s) (fltr s) (printed s).

Definition set_v (a : matrix R) (s : Fluid) : Fluid :=
  mkFluid (nx s) (ny s) (nk s) (Re s) (ReI s) (dt s) (pad s) (time s) (it s)
    (uptodate s) (filterfac s) (x s) (dx s) (y s) (dy s) (kx s) (ky s) (u s)
    a (w s) (w0 s) (dwdt s) (k2 s) (fk s) (wh s) (psih s) (dwhdt s) (mx s)
    (mk s) (my s) (padder s) (fltr s) (printed s).

Definition set_w (a : matrix R) (s : Fluid) : Fluid :=
  mkFluid (nx s) (ny s) (nk s) (Re s) (ReI s) (dt s) (pad s) (time s) (it s)
    (uptodate s) (filterfac s) (x s) (dx s) (y s) (dy s) (kx s) (ky s) (u s)
    (v s) a (w0 s) (dwdt s) (k2 s) (fk s) (wh s) (psih s) (dwhdt s) (mx s)
    (mk s) (my s) (padder s) (fltr s) (printed s).

Definition set_w0 (a : ndarray) (s : Fluid) : Fluid :=
  mkFluid (nx s) (ny s) (nk s) (Re s) (ReI s) (dt s) (pad s) (time s) (it s)
    (uptodate s) (filterfac s) (x s) (dx s) (y s) (dy s) (kx s) (ky s) (u s)
    (v s) (w s) a (dwdt s) (k2 s) (fk s) (wh s) (psih s) (dwhdt s) (mx s)
    (mk s) (my s) (padder s) (fltr s) (printed s).

Definition set_k2 (a : option (matrix R)) (s : Fluid) : Fluid :=
  mkFluid (nx s) (ny s) (nk s) (Re s) (ReI s) (dt s) (pad s) (time s) (it s)
    (uptodate s) (filterfac s) (x s) (dx s) (y s) (dy s) (kx s) (ky s) (u s)
    (v s) (w s) (w0 s) (dwdt s) a (fk s) (wh s) (psih s) (dwhdt s) (mx s)
    (mk s) (my s) (padder s) (fltr s) (printed s).

Definition set_fk (a : option (matrix bool)) (s : Fluid) : Fluid :=
  mkFluid (nx s) (ny s) (nk s) (Re s) (ReI s) (dt s) (pad s) (time s) (it s)
    (uptodate s) (filterfac s) (x s) (dx s) (y s) (dy s) (kx s) (ky s) (u s)
    (v s) (w s) (w0 s) (dwdt s) (k2 s) a (wh s) (psih s) (dwhdt s) (mx s)
    (mk s) (my s) (padder s) (fltr s) (printed s).

Definition set_wh (a : option (matrix complex)) (s : Fluid) : Fluid :=
  mkFluid (nx s) (ny s) (nk s) (Re s) (ReI s) (dt s) (pad s) (time s) (it s)
    (uptodate s) (filterfac s) (x s) (dx s) (y s) (dy s) (kx s) (ky s) (u s)
    (v s) (w s) (w0 s) (dwdt s) (k2 s) (fk s) a (psih s) (dwhdt s) (mx s)
    (mk s) (my s) (padder s) (fltr s) (printed s).

Definition set_psih (a : option (matrix complex)) (s : Fluid) : Fluid :=
  mkFluid (nx s) (ny s) (nk s) (Re s) (ReI s) (dt s) (pad s) (time s) (it s)
    (uptodate s) (filterfac s) (x s) (dx s) (y s) (dy s) (kx s) (ky s) (u s)
    (v s) (w s) (w0 s) (dwdt s) (k2 s) (fk s) (wh s) a (dwhdt s) (mx s) (mk
    s) (my s) (padder s) (fltr s) (printed s).

Definition set_dwhdt (a : option (matrix complex)) (s : Fluid) : Fluid :=
  mkFluid (nx s) (ny s) (nk s) (Re s) (ReI s) (dt s) (pad s) (time s) (it s)
    (uptodate s) (filterfac s) (x s) (dx s) (y s) (dy s) (kx s) (ky s) (u s)
    (v s) (w s) (w0 s) (dwdt s) (k2 s) (fk s) (wh s) (psih s) a (mx s) (mk
    s) (my s) (padder s) (fltr s) (printed s).

Definition set_mx (a : option Z) (s : Fluid) : Fluid :=
  mkFluid (nx s) (ny s) (nk s) (Re s) (ReI s) (dt s) (pad s) (time s) (it s)
    (uptodate s) (filterfac s) (x s) (dx s) (y s) (dy s) (kx s) (ky s) (u s)
    (v s) (w s) (w0 s) (dwdt s) (k2 s) (fk s) (wh s) (psih s) (dwhdt s) a
    (mk s) (my s) (padder s) (fltr s) (printed s).

Definition set_mk (a : option Z) (s : Fluid) : Fluid :=
  mkFluid (nx s) (ny s) (nk s) (Re s) (ReI s) (dt s) (pad s) (time s) (it s)
    (uptodate s) (filterfac s) (x s) (dx s) (y s) (dy s) (kx s) (ky s) (u s)
    (v s) (w s) (w0 s) (dwdt s) (k2 s) (fk s) (wh s) (psih s) (dwhdt s) (mx
    s) a (my s) (padder s) (fltr s) (printed s).

Definition set_my (a : option Z) (s : Fluid) : Fluid :=
  mkFluid (nx s) (ny s) (nk s) (Re s) (ReI s) (dt s) (pad s) (time s) (it s)
    (uptodate s) (filterfac s) (x s) (dx s) (y s) (dy s) (kx s) (ky s) (u s)
    (v s) (w s) (w0 s) (dwdt s) (k2 s) (fk s) (wh s) (psih s) (dwhdt s) (mx
    s) (mk s) a (padder s) (fltr s) (printed s).

Definition set_padder (a : option (list bool)) (s : Fluid) : Fluid :=
  mkFluid (nx s) (ny s) (nk s) (Re s) (ReI s) (dt s) (pad s) (time s) (it s)
    (uptodate s) (filterfac s) (x s) (dx s) (y s) (dy s) (kx s) (ky s) (u s)
    (v s) (w s) (w0 s) (dwdt s) (k2 s) (fk s) (wh s) (psih s) (dwhdt s) (mx
    s) (mk s) (my s) a (fltr s) (printed s).

Definition set_fltr (a : option (matrix R)) (s : Fluid) : Fluid :=
  mkFluid (nx s) (ny s) (nk s) (Re s) (ReI s) (dt s) (pad s) (time s) (it s)
    (uptodate s) (filterfac s) (x s) (dx s) (y s) (dy s) (kx s) (ky s) (u s)
    (v s) (w s) (w0 s) (dwdt s) (k2 s) (fk s) (wh s) (psih s) (dwhdt s) (mx
    s) (mk s) (my s) (padder s) a (printed s).

Definition set_printed (a : list string) (s : Fluid) : Fluid :=
  mkFluid (nx s) (ny s) (nk s) (Re s) (ReI s) (dt s) (pad s) (time s) (it s)
    (uptodate s) (filterfac s) (x s) (dx s) (y s) (dy s) (kx s) (ky s) (u s)
    (v s) (w s) (w0 s) (dwdt s) (k2 s) (fk s) (wh s) (psih s) (dwhdt s) (mx
    s) (mk s) (my s) (padder s) (fltr s) a.


Local Open Scope method_scope.

(** The argument [field] of [init_field]: a [str], a numpy array, or a value
    of any other type. *)
Inductive field_arg : Type :=
| FieldStr (name : string)
| FieldArray (a : matrix R)
| FieldOther.

(** [self.attr] for an attribute that may not have been assigned yet. *)
Definition attr {A : Type} (f : Fluid -> option A) : method Fluid A :=
  fun s => eval (getattr (f s)) s.

(** [print(line)]; the lines written are kept with the instance. *)
Definition print (line : string) : method Fluid unit :=
  modify (fun s => set_printed (printed s ++ [line]) s).

(** [1j * k] for a real [k]. *)
Definition Cimul (k : R) : complex := Cmul Ci (RtoC k).

Definition to_complex (a : ndarray) : matrix complex :=
  match a with
  | RealArr m => mmap RtoC m
  | ComplexArr m => m
  end.

(** [__init__(self, nx, ny, Re, dt=0.0001, pad=3./2.)].  [junk] stands for
    the contents of the arrays obtained from [np.empty]. *)
Definition Fluid_attrs (junk : nat -> nat -> nat -> R) (nx ny : nat)
    (Re dt pad : R) (fx fy : list R) : Fluid :=
  let nk := (floordiv ny 2 + 1)%nat in
  let ReI := if Rneb Re 0 then 1 / Re else 0 in
  mkFluid nx ny nk Re ReI dt pad 0 0%Z false 23.6
    (linspace nx) (linspace_step nx) (linspace ny) (linspace_step ny)
    (map (fun f => f * INR nx) fx) (map (fun f => f * INR ny) fy)
    (np_empty (junk 0%nat) nx ny) (np_empty (junk 1%nat) nx ny)
    (np_empty (junk 2%nat) nx ny)
    (RealArr (np_empty (junk 3%nat) nx nk))
    (np_empty (junk 4%nat) nx ny)
    None None None None None None None None None None [].

Definition Fluid_init (junk : nat -> nat -> nat -> R) (nx ny : nat)
    (Re dt pad : R) : py Fluid :=
  (fx <- fftfreq nx ;;
   fy <- fftfreq ny ;;
   Val (Fluid_attrs junk nx ny Re dt pad fx fy))%py.

Definition default_dt : R := 0.0001.
Definition default_pad : R := 3 / 2.

(** [self.kx[:self.nk]**2 + self.ky[:,np.newaxis]**2]. *)
Definition wavenumber_sq (s : Fluid) : matrix R :=
  outer Rplus (map (fun k => k ^ 2) (firstn (nk s) (kx s)))
              (map (fun k => k ^ 2) (ky s)).

(** [self.k2 != 0.0]. *)
Definition nonzero_mask (k : matrix R) : matrix bool :=
  mmap (fun v => Rneb v 0) k.

Definition w_to_wh : method Fluid unit :=
  wv <- gets w ;;
  h <- eval (rfft2 wv) ;;
  modify (set_wh (Some h)).

Definition wh_to_w : method Fluid unit :=
  h <- attr wh ;;
  wv <- eval (irfft2 h) ;;
  modify (set_w wv).

Definition get_u : method Fluid unit :=
  kyv <- gets ky ;;
  p <- attr psih ;;
  d <- eval (broadcast2 Cmul C0 C0 (as_col (map Cimul kyv)) p) ;;
  uv <- eval (irfft2 d) ;;
  modify (set_u uv).

Definition get_v : method Fluid unit :=
  kxv <- gets kx ;;
  n <- gets nk ;;
  p <- attr psih ;;
  d <- eval (broadcast2 Cmul C0 C0 (as_row (map Cimul (firstn n kxv))) p) ;;
  vv <- eval (irfft2 d) ;;
  modify (set_v (mmap Ropp vv)).

Definition _init_filter : method Fluid unit :=
  kxv <- gets kx ;;
  top <- eval (np_max1 kxv) ;;
  let cphi := 0.65 * top in
  k <- attr k2 ;;
  ff <- gets filterfac ;;
  let wvx := mmap sqrt k in
  let filtr := mmap (fun wv => exp (- ff * (wv - cphi) ^ 4)) wvx in
  modify (set_fltr (Some
    (masked_update 0 filtr (mmap (fun wv => Rleb wv cphi) wvx) (fun _ _ => 1)))).

Definition init_solver : method Fluid unit :=
  (have <- gets k2 ;;
   match have with
   | Some _ => ret tt
   | None =>
       k <- gets wavenumber_sq ;;
       modify (set_k2 (Some k)) ;;;
       modify (set_fk (Some (nonzero_mask k)))
   end) ;;;
  n <- gets nx ;;
  m <- gets nk ;;
  modify (set_wh (Some (np_zeros C0 n m))) ;;;
  modify (set_psih (Some (np_zeros C0 n m))) ;;;
  modify (set_dwhdt (Some (np_zeros C0 n m))) ;;;
  p <- gets pad ;;
  modify (set_mx (Some (py_int (p * INR n)))) ;;;
  modify (set_mk (Some (py_int (p * INR m)))) ;;;
  modify (set_my (Some (py_int (p * INR m)))) ;;;
  len <- eval (as_size (py_int (p * INR n))) ;;
  let lo := slice_bound len (py_int (INR n / 2)) in
  let hi := slice_bound len (py_int (INR n * (p - 0.5))) in
  modify (set_padder (Some
    (map (fun i => negb ((lo <=? i) && (i <? hi))%nat) (seq 0 len)))) ;;;
  modify (fun s => set_w0 (RealArr (w s)) s) ;;;
  have <- gets fltr ;;
  match have with
  | Some _ => ret tt
  | None => _init_filter
  end.

(** [var_dens[..., c] /= 2]. *)
Definition halve_col (c : nat) (M : matrix R) : matrix R :=
  mk_matrix (nrows M) (ncols M) (fun i j =>
    if (j =? c)%nat then mget 0 M i j / 2 else mget 0 M i j).

Definition _spec_variance (ph : matrix complex) : method Fluid R :=
  n <- gets nx ;;
  m <- gets ny ;;
  let var_dens := mmap (fun z => 2 * Cabs z ^ 2 / INR (n * m) ^ 2) ph in
  if (ncols var_dens =? 0)%nat then eval (Exc "IndexError")
  else
    ret (np_sum (halve_col (ncols var_dens - 1) (halve_col 0 var_dens))).

(** [McWilliams1984]; [draws] are the two arrays that [np.random.randn]
    returns. *)
Definition McWilliams1984 (draws : (nat -> nat -> R) * (nat -> nat -> R))
  : method Fluid unit :=
  k <- gets wavenumber_sq ;;
  modify (set_k2 (Some k)) ;;;
  modify (set_fk (Some (nonzero_mask k))) ;;;
  n <- gets nx ;;
  m <- gets nk ;;
  let ck0 := np_zeros 0 n m in
  ck <- eval (if same_shape ck0 (nonzero_mask k)
              then Val (masked_update 0 ck0 (nonzero_mask k) (fun i j =>
                     / sqrt (mget 0 k i j * (1 + (mget 0 k i j / 36) ^ 2))))
              else Exc "IndexError") ;;
  let psih0 := mk_matrix n m (fun i j =>
                 mkC (fst draws i j * mget 0 ck i j)
                     (snd draws i j * mget 0 ck i j)) in
  psi <- eval (irfft2 psih0) ;;
  let mean := np_mean psi in
  psih1 <- eval (rfft2 (mmap (fun e => e - mean) psi)) ;;
  fl <- attr fltr ;;
  fk2 <- eval (broadcast2 Rmult 0 0 fl (mmap sqrt k)) ;;
  arg <- eval (broadcast2 Cscale 0 C0 fk2 psih1) ;;
  KEaux <- _spec_variance arg ;;
  let psi1 := mmap (fun z => Cdivr z (sqrt KEaux)) psih1 in
  h <- eval (broadcast2 Cscale 0 C0 k psi1) ;;
  wv <- eval (irfft2 h) ;;
  modify (set_w wv).

Definition dquote : string := String (ascii_of_nat 34) EmptyString.
Definition newline : string := String (ascii_of_nat 10) EmptyString.

Definition unknown_msg_head : string :=
  ("The specified field type %s is unknown." ++ newline
   ++ "Available initial fields are")%string.
Definition unknown_msg_tail : string :=
  (": " ++ dquote ++ "Taylor-Green" ++ dquote ++ ", "
   ++ dquote ++ "Shear Layer" ++ dquote ++ ".")%string.

Definition init_field (field : field_arg) (t kappa delta sigma : R)
    (draws : (nat -> nat -> R) * (nat -> nat -> R)) : method Fluid unit :=
  match field with
  | FieldStr name =>
      if ((name =? "TG") || (name =? "Taylor-Green"))%string then
        xs <- gets x ;;
        ys <- gets y ;;
        r <- gets Re ;;
        let ab := outer Rmult
                    (map (fun xv => 2 * kappa * cos (kappa * xv)) xs)
                    (map (fun yv => cos (kappa * yv)) ys) in
        q <- eval (py_truediv (-2 * kappa ^ 2 * t) r) ;;
        modify (set_w (mmap (fun e => e * exp q) ab))
      else if ((name =? "SL") || (name =? "Shear Layer"))%string then
        xs <- gets x ;;
        ys <- gets y ;;
        let w1 := outer Rminus
                    (map (fun xv => delta * cos xv) xs)
                    (map (fun yv =>
                       sigma * / cosh (sigma * (yv - 0.5 * PI)) ^ 2) ys) in
        modify (set_w w1) ;;;
        let w2 := outer Rplus
                    (map (fun xv => delta * cos xv) xs)
                    (map (fun yv =>
                       sigma * / cosh (sigma * (1.5 * PI - yv)) ^ 2) ys) in
        inc <- eval (broadcast_to 0 (nrows w1) (ncols w1) w2) ;;
        sum <- eval (broadcast2 Rplus 0 0 w1 inc) ;;
        modify (set_w sum)
      else if ((name =? "McWilliams") || (name =? "MW84"))%string then
        McWilliams1984 draws
      else
        msg <- eval (py_mod_str unknown_msg_tail name) ;;
        print (unknown_msg_head ++ msg)
  | FieldArray a =>
      n <- gets nx ;;
      m <- gets ny ;;
      if ((nrows a =? n) && (ncols a =? m))%nat%bool
      then modify (set_w a)
      else print "Specified velocity field does not match grid initialized."
  | FieldOther => ret tt
  end ;;;
  w_to_wh.

Definition _cfl_limit : method Fluid unit :=
  get_u ;;;
  get_v ;;;
  uv <- gets u ;;
  vv <- gets v ;;
  hx <- gets dx ;;
  hy <- gets dy ;;
  terms <- eval (broadcast2 (fun a b => PI * (a + b)) 0 0
                   (mmap (fun e => (1 + Rabs e) / hx) uv)
                   (mmap (fun e => (1 + Rabs e) / hy) vv)) ;;
  Dc <- eval (np_max terms) ;;
  let Dmu := PI ^ 2 * (/ hx ^ 2 + / hy ^ 2) in
  modify (set_dt (sqrt 3 / (Dc + Dmu))).

Definition _get_psih : method Fluid unit :=
  h <- attr wh ;;
  mask <- attr fk ;;
  k <- attr k2 ;;
  p <- attr psih ;;
  new <- eval (if (same_shape h mask && same_shape k mask && same_shape p mask)%bool
               then Val (masked_update C0 p mask (fun i j =>
                      Cdivr (mget C0 h i j) (mget 0 k i j)))
               else Exc "IndexError") ;;
  modify (set_psih (Some new)).

Definition _add_convection : method Fluid unit :=
  mxz <- attr mx ;;
  mkz <- attr mk ;;
  r <- eval (as_size mxz) ;;
  c <- eval (as_size mkz) ;;
  let zeros := np_zeros C0 r c in
  pd <- attr padder ;;
  n <- gets nk ;;
  kxv <- gets kx ;;
  kyv <- gets ky ;;
  p <- attr psih ;;
  h <- attr wh ;;
  let ikx := as_row (map Cimul (firstn n kxv)) in
  let iky := as_col (map Cimul kyv) in
  d1 <- eval (broadcast2 Cmul C0 C0 ikx p) ;;
  j1f <- eval (put_rows_cols C0 zeros pd n d1) ;;
  d2 <- eval (broadcast2 Cmul C0 C0 iky h) ;;
  j2f <- eval (put_rows_cols C0 zeros pd n d2) ;;
  d3 <- eval (broadcast2 Cmul C0 C0 iky p) ;;
  j3f <- eval (put_rows_cols C0 zeros pd n d3) ;;
  d4 <- eval (broadcast2 Cmul C0 C0 ikx h) ;;
  j4f <- eval (put_rows_cols C0 zeros pd n d4) ;;
  j1 <- eval (irfft2 j1f) ;;
  j2 <- eval (irfft2 j2f) ;;
  j3 <- eval (irfft2 j3f) ;;
  j4 <- eval (irfft2 j4f) ;;
  j12 <- eval (broadcast2 Rmult 0 0 j1 j2) ;;
  j34 <- eval (broadcast2 Rmult 0 0 j3 j4) ;;
  jac <- eval (broadcast2 Rminus 0 0 j12 j34) ;;
  jacpf <- eval (rfft2 jac) ;;
  blk <- eval (take_rows_cols jacpf pd n) ;;
  pv <- gets pad ;;
  old <- attr dwhdt ;;
  new <- eval (broadcast_to C0 (nrows old) (ncols old)
                 (mmap (Cscale (pv ^ 2)) blk)) ;;
  modify (set_dwhdt (Some new)).

Definition _add_diffusion : method Fluid unit :=
  old <- attr dwhdt ;;
  ri <- gets ReI ;;
  k <- attr k2 ;;
  h <- attr wh ;;
  visc <- eval (broadcast2 Cscale 0 C0 (mmap (fun e => ri * e) k) h) ;;
  dec <- eval (broadcast_to C0 (nrows old) (ncols old) visc) ;;
  new <- eval (broadcast2 Csub C0 C0 old dec) ;;
  modify (set_dwhdt (Some new)).

Definition _add_spec_filter : method Fluid unit :=
  old <- attr dwhdt ;;
  fl <- attr fltr ;;
  scaled <- eval (broadcast_to 0 (nrows old) (ncols old) fl) ;;
  new <- eval (broadcast2 (fun z a => Cscale a z) C0 0 old scaled) ;;
  modify (set_dwhdt (Some new)).

(** One pass of the loop body of [update], for the loop variable [k]. *)
Definition update_stage (k : Z) : method Fluid unit :=
  _get_psih ;;;
  _add_convection ;;;
  _add_diffusion ;;;
  base <- gets w0 ;;
  h <- gets dt ;;
  d <- attr dwhdt ;;
  new <- eval (broadcast2 Cadd C0 C0 (to_complex base)
                 (mmap (Cscale (h / IZR k)) d)) ;;
  modify (set_wh (Some new)).

Fixpoint for_each {A : Type} (l : list A) (body : A -> method Fluid unit)
  : method Fluid unit :=
  match l with
  | [] => ret tt
  | a :: l' => body a ;;; for_each l' body
  end.

Definition update (s : Z) : method Fluid unit :=
  h <- attr wh ;;
  modify (set_w0 (ComplexArr h)) ;;;
  for_each (range_down s) update_stage ;;;
  modify (fun f => set_time (time f + dt f) f) ;;;
  modify (fun f => set_it (it f + 1)%Z f) ;;;
  _cfl_limit.

(** [while(self.time <= stop): self.update()], the loop of [run_live] and of
    the solver's test, with a bound on the number of iterations. *)
Fixpoint run_until (fuel : nat) (stop : R) : method Fluid bool :=
  match fuel with
  | O => ret false
  | S fuel' =>
      now <- gets time ;;
      if Rleb now stop then update 3 ;;; run_until fuel' stop
      else ret true
  end.


(* ================================================================= *)
(** ** Diagnostics *)

(** [tke(self)]: half the spectral variance of [sqrt(k2) * psih]; the
    [sum()] of the scalar that [_spec_variance] returns is that scalar. *)
Definition tke : method Fluid R :=
  k <- attr k2 ;;
  p <- attr psih ;;
  arg <- eval (broadcast2 Cscale 0 C0 (mmap sqrt k) p) ;;
  var <- _spec_variance arg ;;
  ret (0.5 * var).

(** [enstrophy(self)]: transforms [wh] back into [w] and returns the sum
    of [.5 * abs(w)**2]. *)
Definition enstrophy : method Fluid R :=
  wh_to_w ;;;
  wv <- gets w ;;
  ret (np_sum (mmap (fun e => 0.5 * Rabs e ^ 2) wv)).

(* ================================================================= *)
(** ** Auxiliary definitions for the statements *)

(** A fluid on a 4 x 4 grid, as [Fluid(4, 4, Re)] builds it (all arrays from
    [np.empty] holding zeros). *)
Definition fluid4 (Re : R) : Fluid :=
  Fluid_attrs (fun _ _ _ => 0) 4 4 Re default_dt default_pad
    (map (fun k => IZR k * (1 / (INR 4 * 1))) (fftfreq_index 4))
    (map (fun k => IZR k * (1 / (INR 4 * 1))) (fftfreq_index 4)).

Definition no_draws : (nat -> nat -> R) * (nat -> nat -> R) :=
  (fun _ _ => 0, fun _ _ => 0).

(** The names that [init_field] recognises. *)
Definition recognized (name : string) : bool :=
  ((name =? "TG") || (name =? "Taylor-Green") || (name =? "SL")
   || (name =? "Shear Layer") || (name =? "McWilliams") || (name =? "MW84"))%string.

(** The outcome is the exception [e]. *)
Definition raises {S A : Type} (e : string) (o : outcome S A) : Prop :=
  match o with
  | Raised e' _ => e' = e
  | Returned _ _ => False
  end.

Definition final_state {S A : Type} (o : outcome S A) : S :=
  match o with
  | Raised _ s => s
  | Returned _ s => s
  end.

(** A fluid on a 4 x 6 grid. *)
Definition fluid46 : Fluid :=
  Fluid_attrs (fun _ _ _ => 0) 4 6 1 default_dt default_pad
    (map (fun k => IZR k * (1 / (INR 4 * 1))) (fftfreq_index 4))
    (map (fun k => IZR k * (1 / (INR 6 * 1))) (fftfreq_index 6)).

(** The fluid on the 4 x 4 grid with [k2] computed. *)
Definition fluid4_k2 : Fluid :=
  set_k2 (Some (wavenumber_sq (fluid4 1))) (fluid4 1).

(** The integer frequency at position [i]: [i] itself in the first half,
    [i - n] in the second. *)
Definition freq (n i : nat) : Z :=
  if (i <? (n - 1) / 2 + 1)%nat then Z.of_nat i
  else (Z.of_nat i - Z.of_nat n)%Z.

(** The wavenumbers of a constructed fluid are the integer frequencies. *)
Definition wavenumbers (n : nat) : list R :=
  map (fun f => f * INR n)
      (map (fun k => IZR k * (1 / (INR n * 1))) (fftfreq_index n)).

(** The value of the filter at wavenumber magnitude [wv]. *)
Definition filter_value (ff cphi wv : R) : R :=
  if Rleb wv cphi then 1 else exp (- ff * (wv - cphi) ^ 4).

(** The column [j] of an array. *)
Definition column {A : Type} (d : A) (M : matrix A) (j : nat) : list A :=
  map (fun i => mget d M i j) (seq 0 (nrows M)).

(** The instance with another Reynolds number and inverse. *)
Definition with_viscosity (r ri : R) (s : Fluid) : Fluid :=
  mkFluid (nx s) (ny s) (nk s) r ri (dt s) (pad s) (time s) (it s)
    (uptodate s) (filterfac s) (x s) (dx s) (y s) (dy s) (kx s) (ky s) (u s)
    (v s) (w s) (w0 s) (dwdt s) (k2 s) (fk s) (wh s) (psih s) (dwhdt s)
    (mx s) (mk s) (my s) (padder s) (fltr s) (printed s).

(* ----------------------------------------------------------------- *)
(** *** The operators as the specification words them

    These definitions follow the component descriptions of the
    specification (Poisson inversion, convection by padded transforms,
    diffusion, the Runge-Kutta stages, the CFL step); the theorems below
    compare the methods of the class with them. *)

(** The transform pair of the field representation. *)
Definition to_physical (a : matrix complex) : matrix R :=
  map irfft_list (along_first ifft_list a).
Definition to_spectral (a : matrix R) : matrix complex :=
  along_first fft_list (map rfft_list a).

(** [invert(wh, k2, fk)]: [wh / k2] where [k2 != 0], zero elsewhere. *)
Definition poisson_invert (K : matrix R) (W : matrix complex) : matrix complex :=
  mk_matrix (nrows W) (ncols W) (fun i j =>
    if Rneb (mget 0 K i j) 0
    then Cdivr (mget C0 W i j) (mget 0 K i j)
    else C0).

(** Spectral derivatives: multiplication by [i kx] along the last axis and
    by [i ky] along the first. *)
Definition ddx (kxs : list R) (A : matrix complex) : matrix complex :=
  mk_matrix (nrows A) (ncols A) (fun i j =>
    Cmul (Cimul (nth j kxs 0)) (mget C0 A i j)).
Definition ddy (kys : list R) (A : matrix complex) : matrix complex :=
  mk_matrix (nrows A) (ncols A) (fun i j =>
    Cmul (Cimul (nth i kys 0)) (mget C0 A i j)).

(** Zero padding into shape [(r, c)]: the rows of [A] go to the rows that
    [pd] selects, columns [[0, n)], every other entry is zero. *)
Definition zero_pad (r c : nat) (pd : list bool) (n : nat) (A : matrix complex)
  : matrix complex :=
  mk_matrix r c (fun i j =>
    match index_of i (mask_indices 0 pd) with
    | Some t => if (j <? n)%nat then mget C0 A t j else C0
    | None => C0
    end).

(** Truncation: the rows that [pd] selects, columns [[0, n)]. *)
Definition truncate (pd : list bool) (n : nat) (A : matrix complex)
  : matrix complex :=
  map (fun i => firstn n (nth i A [])) (mask_indices 0 pd).

(** The convection term from [psih] and [wh]: the four derivative fields
    are padded and inverse-transformed, [j1 j2 - j3 j4] is formed pointwise,
    transformed forward, truncated and rescaled by [pad^2]. *)
Definition convection (pd : list bool) (r c n : nat) (p : R)
    (kxs kys : list R) (P W : matrix complex) : matrix complex :=
  let j1 := to_physical (zero_pad r c pd n (ddx kxs P)) in
  let j2 := to_physical (zero_pad r c pd n (ddy kys W)) in
  let j3 := to_physical (zero_pad r c pd n (ddy kys P)) in
  let j4 := to_physical (zero_pad r c pd n (ddx kxs W)) in
  let jac := mk_matrix r (2 * (c - 1)) (fun i j =>
               mget 0 j1 i j * mget 0 j2 i j - mget 0 j3 i j * mget 0 j4 i j) in
  mmap (Cscale (p ^ 2)) (truncate pd n (to_spectral jac)).

(** [accumulator -= ReI * k2 * wh]. *)
Definition diffuse (ri : R) (K : matrix R) (W acc : matrix complex)
  : matrix complex :=
  mk_matrix (nrows acc) (ncols acc) (fun i j =>
    Csub (mget C0 acc i j) (Cscale (ri * mget 0 K i j) (mget C0 W i j))).

(** [w0 + (dt / k) * accumulator]. *)
Definition advance (W0 : matrix complex) (h : R) (k : Z) (acc : matrix complex)
  : matrix complex :=
  mk_matrix (nrows W0) (ncols W0) (fun i j =>
    Cadd (mget C0 W0 i j) (Cscale (h / IZR k) (mget C0 acc i j))).

(** The data that the stages of one step work on: the spectral vorticity,
    the stream function and the accumulator. *)
Record stage_data : Type := mkStage {
  sd_wh : matrix complex;
  sd_psih : matrix complex;
  sd_acc : matrix complex
}.

(** The grid data of an instance that the operators read. *)
Record grid_data : Type := mkGrid {
  gd_k2 : matrix R;
  gd_kx : list R;
  gd_ky : list R;
  gd_nk : nat;
  gd_rows : nat;
  gd_cols : nat;
  gd_padder : list bool;
  gd_pad : R;
  gd_ReI : R
}.

(** One stage [k] of the time step, from the saved [W0] and step size [h]. *)
Definition rk_stage (g : grid_data) (W0 : matrix complex) (h : R) (k : Z)
    (d : stage_data) : stage_data :=
  let psih := poisson_invert (gd_k2 g) (sd_wh d) in
  let conv := convection (gd_padder g) (gd_rows g) (gd_cols g) (gd_nk g)
                (gd_pad g) (firstn (gd_nk g) (gd_kx g)) (gd_ky g)
                psih (sd_wh d) in
  let acc := diffuse (gd_ReI g) (gd_k2 g) (sd_wh d) conv in
  mkStage (advance W0 h k acc) psih acc.

(** The stages [k = s, s - 1, ..., 1]. *)
Fixpoint rk_stages (g : grid_data) (W0 : matrix complex) (h : R)
    (ks : list Z) (d : stage_data) : stage_data :=
  match ks with
  | [] => d
  | k :: ks' => rk_stages g W0 h ks' (rk_stage g W0 h k d)
  end.

(** The maximum over a grid (0 for an empty one). *)
Definition grid_max (M : matrix R) : R :=
  match concat M with
  | [] => 0
  | v :: l => fold_left Rmax l v
  end.

(** The velocity components from the stream function. *)
Definition velocity_u (kys : list R) (P : matrix complex) : matrix R :=
  to_physical (ddy kys P).
Definition velocity_v (kxs : list R) (P : matrix complex) : matrix R :=
  mmap Ropp (to_physical (ddx kxs P)).

(** The convective limit at one grid point, and the CFL step. *)
Definition cfl_term (hx hy uv vv : R) : R :=
  PI * ((1 + Rabs uv) / hx + (1 + Rabs vv) / hy).

Definition cfl_Dc (hx hy : R) (U V : matrix R) : R :=
  grid_max (mk_matrix (nrows U) (ncols U) (fun i j =>
    cfl_term hx hy (mget 0 U i j) (mget 0 V i j))).

Definition cfl_Dmu (hx hy : R) : R := PI ^ 2 * (/ hx ^ 2 + / hy ^ 2).

Definition cfl_dt (hx hy : R) (U V : matrix R) : R :=
  sqrt 3 / (cfl_Dc hx hy U V + cfl_Dmu hx hy).

(* ----------------------------------------------------------------- *)
(** *** Solver states *)

Definition grid_of (s : Fluid) (r c : nat) (pd : list bool) : grid_data :=
  mkGrid (wavenumber_sq s) (kx s) (ky s) (nk s) r c pd (pad s) (ReI s).

(** The state of a solver on an [n x n] grid after [init_solver]: the
    spectral arrays [wh], [psih], [dwhdt] and [k2] have shape [(n, nk)], the
    stream function vanishes at the zero wavenumber, and the padded buffers
    have [r] rows, of which the mask [pd] selects [n], and [c] columns. *)
Record solver_ready (n r c : nat) (pd : list bool)
    (W P D : matrix complex) (s : Fluid) : Prop := {
  sr_size : (2 <= n)%nat;
  sr_nx : nx s = n;
  sr_ny : ny s = n;
  sr_nk : nk s = (n / 2 + 1)%nat;
  sr_kx : kx s = wavenumbers n;
  sr_ky : ky s = wavenumbers n;
  sr_k2 : k2 s = Some (wavenumber_sq s);
  sr_fk : fk s = Some (nonzero_mask (wavenumber_sq s));
  sr_wh : wh s = Some W;
  sr_wh_rect : rect n (n / 2 + 1) W;
  sr_psih : psih s = Some P;
  sr_psih_rect : rect n (n / 2 + 1) P;
  sr_psih_mean : mget C0 P 0 0 = C0;
  sr_dwhdt : dwhdt s = Some D;
  sr_dwhdt_rect : rect n (n / 2 + 1) D;
  sr_mx : mx s = Some (Z.of_nat r);
  sr_mk : mk s = Some (Z.of_nat c);
  sr_padder : padder s = Some pd;
  sr_padder_len : length pd = r;
  sr_padder_sel : length (mask_indices 0 pd) = n;
  sr_cols : (n / 2 + 1 <= c)%nat
}.

(** The mask of the padded rows for [n = 2 h] grid points and the default
    padding: rows [[h, 2 h)] of [3 h] are the inserted zeros. *)
Definition padder_of (h : nat) : list bool :=
  map (fun i => negb ((h <=? i) && (i <? 2 * h))%nat) (seq 0 (3 * h)).

(** The instance that [Fluid(n, n, Re, dt)] builds. *)
Definition fresh (J : nat -> nat -> nat -> R) (n : nat) (Re dt : R) : Fluid :=
  Fluid_attrs J n n Re dt default_pad
    (map (fun k => IZR k * (1 / (INR n * 1))) (fftfreq_index n))
    (map (fun k => IZR k * (1 / (INR n * 1))) (fftfreq_index n)).

(** The solver on the 4 x 4 grid after [init_solver]. *)
Definition solver4 : Fluid := final_state (init_solver (fluid4 1)).

(** The instance with the arrays of the stages installed. *)
Definition install (d : stage_data) (s : Fluid) : Fluid :=
  set_wh (Some (sd_wh d))
    (set_dwhdt (Some (sd_acc d)) (set_psih (Some (sd_psih d)) s)).

(** The instance after [_cfl_limit]: the velocities and the new step. *)
Definition after_cfl (s : Fluid) (P : matrix complex) : Fluid :=
  let U := velocity_u (ky s) P in
  let V := velocity_v (firstn (nk s) (kx s)) P in
  set_dt (cfl_dt (dx s) (dy s) U V) (set_v V (set_u U s)).

(** The method returned. *)
Definition returns {S A : Type} (o : outcome S A) : Prop :=
  match o with
  | Returned _ _ => True
  | Raised _ _ => False
  end.

(** A fluid on a 3 x 3 grid holding an explicit field. *)
Definition field33 : matrix R := [[1; 2; 3]; [4; 5; 6]; [7; 8; 9]].
Definition fluid33 : Fluid :=
  set_w field33 (fresh (fun _ _ _ => 0) 3 1 default_dt).

(** [w_to_wh] followed by [wh_to_w]. *)
Definition round_trip : method Fluid unit := w_to_wh ;;; wh_to_w.

(* ----------------------------------------------------------------- *)
(** *** Taylor-Green fields on the grid

    With [q] the (integer) wavenumber, [dft_angle n q j] is [q x_j] and
    [dft_angle n q i] is [q y_i].  Rows are indexed by [y], columns by
    [x]. *)

(** [a cos(q x) cos(q y)], [a cos(q x) sin(q y)] and [a sin(q x) cos(q y)]
    sampled on the [n x n] grid. *)
Definition cc_field (n q : nat) (a : R) : matrix R :=
  mk_matrix n n (fun i j => a * (cos (dft_angle n q j) * cos (dft_angle n q i))).
Definition cs_field (n q : nat) (a : R) : matrix R :=
  mk_matrix n n (fun i j => a * (cos (dft_angle n q j) * sin (dft_angle n q i))).
Definition sc_field (n q : nat) (a : R) : matrix R :=
  mk_matrix n n (fun i j => a * (sin (dft_angle n q j) * cos (dft_angle n q i))).

(** A half spectrum that vanishes off the modes [[q, q]] and [[n - q, q]]. *)
Definition two_modes (n q : nat) (top bottom : complex) : matrix complex :=
  mk_matrix n (n / 2 + 1) (fun i j =>
    if (j =? q)%nat
    then if (i =? q)%nat then top
         else if (i =? n - q)%nat then bottom else C0
    else C0).

(** The spectra of the three fields. *)
Definition cc_spec (n q : nat) (a : R) : matrix complex :=
  two_modes n q (RtoC (a * (INR n * INR n / 4))) (RtoC (a * (INR n * INR n / 4))).
Definition cs_spec (n q : nat) (a : R) : matrix complex :=
  two_modes n q (mkC 0 (- (a * (INR n * INR n / 4))))
                (mkC 0 (a * (INR n * INR n / 4))).
Definition sc_spec (n q : nat) (a : R) : matrix complex :=
  two_modes n q (mkC 0 (- (a * (INR n * INR n / 4))))
                (mkC 0 (- (a * (INR n * INR n / 4)))).

(** The polynomials of the three-stage step: [stage3 z] is the factor of
    the amplitude over one step, [stage2 z] the factor before the last
    stage. *)
Definition stage3 (z : R) : R := 1 + z + z ^ 2 / 2 + z ^ 3 / 6.
Definition stage2 (z : R) : R := 1 + z / 2 + z ^ 2 / 6.

(** A ready solver whose vorticity is the Taylor-Green field of amplitude
    [a] and wavenumber [q] on the [n x n] grid. *)
Record tg_state (n q r c : nat) (pd : list bool) (a : R) (s : Fluid) : Prop := {
  tg_ready : exists P D : matrix complex,
      solver_ready n r c pd (cc_spec n q a) P D s;
  tg_dx : dx s = linspace_step n;
  tg_dy : dy s = linspace_step n;
  tg_x : x s = linspace n;
  tg_y : y s = linspace n
}.

(** The analytic Taylor-Green vorticity
    [2 kappa cos(kappa x) cos(kappa y) exp(-2 kappa^2 t / Re)]. *)
Definition taylor_green (kappa re0 t xv yv : R) : R :=
  2 * kappa * cos (kappa * xv) * cos (kappa * yv)
  * exp (-2 * kappa ^ 2 * t / re0).

(** The solver test: [Fluid(n, n, Re)], [init_solver()],
    [init_field("Taylor-Green")] with the default parameters, updates while
    [time <= 0.1], and [wh_to_w()]. *)
Definition default_delta : R := 0.005.
Definition default_sigma : R := 15 / PI.

Definition taylor_green_run (fuel : nat) : method Fluid bool :=
  init_solver ;;;
  init_field (FieldStr "Taylor-Green") 0 2 default_delta default_sigma no_draws ;;;
  done <- run_until fuel 0.1 ;;
  wh_to_w ;;;
  ret done.

(** Polynomials by their coefficients, lowest degree first, and their
    derivatives; they carry the Taylor bounds of [exp]. *)
Fixpoint peval (l : list R) (x : R) : R :=
  match l with
  | [] => 0
  | a :: l' => a + x * peval l' x
  end.

Fixpoint pderiv (l : list R) (x : R) : R :=
  match l with
  | [] => 0
  | _ :: l' => peval l' x + x * pderiv l' x
  end.

(** Constants of the 32 x 32 run: a cap on the step size that the CFL
    estimate returns, and the relative defect per unit time of the three
    stages against the exponential. *)
Definition cfl_cap : R := 31443 / 10000000.
Definition rk_defect : R := 5443 / 1000000000.

(** What the loop of the solver test keeps on the 32 x 32 grid: a
    Taylor-Green state whose amplitude [a] stays within the relative defect
    [rk_defect * time] below the analytic amplitude [4 exp(-8 time)]. *)
Definition tg32_inv (s : Fluid) : Prop :=
  exists a,
    tg_state 32 2 48 25 (padder_of 16) a s
    /\ Re s = 1 /\ ReI s = 1
    /\ 0 <= time s <= 1 / 10 + cfl_cap
    /\ 1 / 10000 <= dt s <= cfl_cap
    /\ 4 * exp (- (8 * time s)) * (1 - rk_defect * time s) <= a
       <= 4 * exp (- (8 * time s)).

(** What the same loop keeps on the 16 x 16 grid: once [time] has passed
    [0.1] the amplitude is at least [2e-6] below the analytic one. *)
Definition tg16_inv (s : Fluid) : Prop :=
  exists a,
    tg_state 16 2 24 13 (padder_of 8) a s
    /\ Re s = 1 /\ ReI s = 1
    /\ 0 <= time s <= 113 / 1000
    /\ ((time s = 0 /\ dt s = 1 / 10000)
        \/ sqrt 3 / 152 <= dt s <= sqrt 3 / 144)
    /\ 4 * exp (- (16 * time s)) <= a <= 4 * exp (- (8 * time s))
    /\ (time s <= 1 / 10
        \/ 2 / 1000000 <= 4 * exp (- (8 * time s)) - a).

(** The fluid of the solver test on the 16 x 16 grid, with all
    uninitialised memory zero. *)
Definition fluid16 : Fluid := fresh (fun _ _ _ => 0) 16 1 default_dt.

(* ----------------------------------------------------------------- *)
(** *** Auxiliary definitions of the further properties *)

(** The double shear layer at the point [(xv, yv)]:
    [2 delta cos(x) + sigma (sech^2(sigma (3 pi / 2 - y))
                             - sech^2(sigma (y - pi / 2)))]. *)
Definition shear_layer (delta sigma xv yv : R) : R :=
  2 * delta * cos xv
  + sigma * (/ cosh (sigma * (1.5 * PI - yv)) ^ 2
             - / cosh (sigma * (yv - 0.5 * PI)) ^ 2).

(** The solver of the 8 x 8 grid with [Re = 1] after [init_solver()] and
    [init_field("Taylor-Green")], all uninitialised memory zero. *)
Definition tg8 : Fluid :=
  final_state
    (init_field (FieldStr "Taylor-Green") 0 2 default_delta default_sigma
       no_draws
       (final_state (init_solver (fresh (fun _ _ _ => 0) 8 1 default_dt)))).

(** The squared modulus of a complex number. *)
Definition Cnorm2 (z : complex) : R := re z * re z + im z * im z.

(** The weight that [_spec_variance] gives to column [j] of an array of
    [c] columns: the first and the last column are halved. *)
Definition spec_weight (c j : nat) : R :=
  (if (j =? c - 1)%nat then / 2 else 1) * (if (j =? 0)%nat then / 2 else 1).

(* ----------------------------------------------------------------- *)
(** *** Solvers on square grids, and a solver that holds a flow *)

(** The state of a solver on a square [n x n] grid, [n] even or odd, as far
    as [_get_psih], [get_u], [get_v] and [_cfl_limit] read it: the
    wavenumbers, [k2] and its mask, and the spectral arrays [wh] and [psih]
    of shape [(n, nk)], the stream function zero at the zero wavenumber (as
    [init_solver] leaves it and [_get_psih] keeps it). *)
Record square_solver (n : nat) (W P : matrix complex) (s : Fluid) : Prop := {
  sq_size : (2 <= n)%nat;
  sq_nx : nx s = n;
  sq_ny : ny s = n;
  sq_nk : nk s = (n / 2 + 1)%nat;
  sq_kx : kx s = wavenumbers n;
  sq_ky : ky s = wavenumbers n;
  sq_k2 : k2 s = Some (wavenumber_sq s);
  sq_fk : fk s = Some (nonzero_mask (wavenumber_sq s));
  sq_wh : wh s = Some W;
  sq_wh_rect : rect n (n / 2 + 1) W;
  sq_psih : psih s = Some P;
  sq_psih_rect : rect n (n / 2 + 1) P;
  sq_psih_mean : mget C0 P 0 0 = C0
}.

(** The field [w[i, j] = i + j] on the 4 x 4 grid, and the fluid
    [Fluid(4, 4, 1.)] that holds it. *)
Definition field44 : matrix R := mk_matrix 4 4 (fun i j => INR i + INR j).
Definition fluid44 : Fluid := set_w field44 (fluid4 1).

(** The solver on the 4 x 4 grid with [Re = 1] after [init_solver()] and
    [init_field(field44)]: it holds the spectrum [flow4_wh] of the field,
    whose entry [[0, 1]] is [-8 + 8i]; the stream function is still zero. *)
Definition flow4_wh : matrix complex := to_spectral field44.
Definition loaded4 : Fluid :=
  final_state
    (init_field (FieldArray field44) 0 2 default_delta default_sigma no_draws
       solver4).

(** The same solver after [_get_psih()]: it holds the stream function
    [flow4_psih = flow4_wh / k2] as well, so its velocities do not vanish. *)
Definition flow4_psih : matrix complex :=
  poisson_invert (wavenumber_sq solver4) flow4_wh.
Definition flow4 : Fluid := final_state (_get_psih loaded4).

(** An array of the spectral shape [(4, 3)] without a zero entry, and a
    filter of that shape with the values [1], [1/2] and [1/3] along each
    row. *)
Definition ramp43 : matrix complex :=
  mk_matrix 4 3 (fun i j => mkC (INR i + 1) (INR j + 1)).
Definition taper43 : matrix R := mk_matrix 4 3 (fun _ j => / (INR j + 1)).

(** The solvers after [init_solver()] on the 4 x 6 grid and on the 5 x 5
    grid (default padding, [Re = 1], uninitialised memory zero). *)
Definition solver46 : Fluid := final_state (init_solver fluid46).
Definition fluid5 : Fluid := fresh (fun _ _ _ => 0) 5 1 default_dt.
Definition solver5 : Fluid := final_state (init_solver fluid5).

(** The mask [padder] that [init_solver] builds for [nx = n] and the
    default padding: [int(1.5 n)] entries, those of
    [[int(n / 2), int(n))] false.  For an even [n = 2 h] it is
    [padder_of h] and selects [n] rows; for an odd [n] it selects
    [n - 1]. *)
Definition default_padder (n : nat) : list bool :=
  map (fun i => negb ((n / 2 <=? i) && (i <? n))%nat) (seq 0 (3 * n / 2)).
(* ================================================================= *)
(** * Properties *)

Unset Implicit Arguments.

(** ** Construction *)

Lemma fftfreq_pos {n : nat} :
  (1 <= n)%nat ->
  fftfreq n = Val (map (fun k => IZR k * (1 / (INR n * 1))) (fftfreq_index n)).
Proof.
  intros Hn. unfold fftfreq, py_truediv, py_bind.
  destruct (Req_dec_T (INR n * 1) 0) as [E | _]; [ | reflexivity ].
  exfalso. rewrite Rmult_1_r in E.
  apply (INR_eq n 0) in E. lia.
Qed.

Lemma Fluid_init_4 (Re : R) :
  Fluid_init (fun _ _ _ => 0) 4 4 Re default_dt default_pad = Val (fluid4 Re).
Proof.
  unfold Fluid_init. rewrite fftfreq_pos by lia. reflexivity.
Qed.

(** ** Initial fields *)

(** C10.  On a fluid whose Reynolds number is the inviscid value [Re = 0],
    asking [init_field] for the Taylor-Green vortex (under either of its
    names, at any time [t] and with any other parameters) raises
    [ZeroDivisionError]: the decay factor divides by [Re] unguarded.  The
    exception leaves the instance untouched, so the Taylor-Green field is
    never installed in the inviscid configuration. *)
Theorem taylor_green_inviscid_raises :
  forall (s : Fluid) (name : string) (t kappa delta sigma : R)
         (draws : (nat -> nat -> R) * (nat -> nat -> R)),
    Re s = 0 ->
    name = "TG"%string \/ name = "Taylor-Green"%string ->
    init_field (FieldStr name) t kappa delta sigma draws s
    = Raised "ZeroDivisionError" s.
Proof.
  intros s name t kappa delta sigma draws HRe Hname.
  assert (Hsel : ((name =? "TG") || (name =? "Taylor-Green"))%string = true).
  { destruct Hname as [-> | ->]; reflexivity. }
  unfold init_field. rewrite Hsel.
  unfold bind, gets, eval, py_truediv. rewrite HRe.
  destruct (Req_dec_T 0 0) as [_ | N]; [ reflexivity | now elim N ].
Qed.

Lemma taylor_green_inviscid_raises_witness :
  Re (fluid4 0) = 0
  /\ init_field (FieldStr "Taylor-Green") 0 2 0.005 (15 / PI) no_draws (fluid4 0)
     = Raised "ZeroDivisionError" (fluid4 0).
Proof.
  split; [ reflexivity | ].
  apply (taylor_green_inviscid_raises (fluid4 0) "Taylor-Green" 0 2 0.005 (15 / PI)
           no_draws).
  - reflexivity.
  - right; reflexivity.
Defined.

(** The diagnostic of the unknown-name branch is built with [%] from a
    format without any conversion: the formatting itself raises. *)
Lemma unknown_msg_raises (name : string) :
  py_mod_str unknown_msg_tail name = Exc "TypeError".
Proof. reflexivity. Qed.

Lemma init_field_unknown (name : string) (s : Fluid) (t kappa delta sigma : R)
    (draws : (nat -> nat -> R) * (nat -> nat -> R)) :
  recognized name = false ->
  init_field (FieldStr name) t kappa delta sigma draws s = Raised "TypeError" s.
Proof.
  unfold recognized. intros H.
  repeat (apply orb_false_iff in H; destruct H as [H ?]).
  unfold init_field.
  repeat match goal with E : (_ =? _)%string = false |- _ => rewrite E; clear E end.
  cbn [orb].
  unfold bind, eval. rewrite unknown_msg_raises. reflexivity.
Qed.

(** C9, as stated, fails: for the unrecognised name ["Rankine"] the call
    ends in a [TypeError] raised while the diagnostic is formatted; no
    [UnsupportedFieldKind] is reported. *)
Lemma unknown_field_not_unsupported_kind :
  init_field (FieldStr "Rankine") 0 2 0.005 (15 / PI) no_draws (fluid4 1)
  = Raised "TypeError" (fluid4 1)
  /\ ~ raises "UnsupportedFieldKind"
       (init_field (FieldStr "Rankine") 0 2 0.005 (15 / PI) no_draws (fluid4 1)).
Proof.
  assert (E : init_field (FieldStr "Rankine") 0 2 0.005 (15 / PI) no_draws (fluid4 1)
              = Raised "TypeError" (fluid4 1))
    by (apply init_field_unknown; reflexivity).
  split; [ exact E | ].
  rewrite E. cbn. discriminate.
Qed.

(** C9, amended.  For every name outside the recognised set, [init_field]
    reports no [UnsupportedFieldKind] (the class has no such error), and the
    physical vorticity [w] of the instance is what it was before the
    call. *)
Theorem unknown_field_keeps_vorticity :
  forall (name : string) (s : Fluid) (t kappa delta sigma : R)
         (draws : (nat -> nat -> R) * (nat -> nat -> R)),
    recognized name = false ->
    ~ raises "UnsupportedFieldKind"
        (init_field (FieldStr name) t kappa delta sigma draws s)
    /\ w (final_state (init_field (FieldStr name) t kappa delta sigma draws s))
       = w s.
Proof.
  intros name s t kappa delta sigma draws H.
  rewrite (init_field_unknown name s t kappa delta sigma draws H).
  split; [ cbn; discriminate | reflexivity ].
Qed.

Lemma unknown_field_keeps_vorticity_witness :
  recognized "Rankine" = false
  /\ ~ raises "UnsupportedFieldKind"
         (init_field (FieldStr "Rankine") 0 2 0.005 (15 / PI) no_draws (fluid4 1))
  /\ w (final_state
          (init_field (FieldStr "Rankine") 0 2 0.005 (15 / PI) no_draws (fluid4 1)))
     = w (fluid4 1).
Proof.
  split; [ reflexivity | ].
  apply (unknown_field_keeps_vorticity "Rankine" (fluid4 1) 0 2 0.005 (15 / PI)
           no_draws).
  reflexivity.
Defined.

(* ----------------------------------------------------------------- *)
(** ** Arrays *)

Lemma nth_map_seq {A : Type} (f : nat -> A) (d : A) {n i : nat} :
  (i < n)%nat -> nth i (map f (seq 0 n)) d = f i.
Proof.
  intros H.
  rewrite (nth_indep _ d (f 0%nat)) by (rewrite length_map, length_seq; exact H).
  rewrite (map_nth f (seq 0 n) 0%nat i).
  rewrite seq_nth by exact H. reflexivity.
Qed.

Lemma mget_mk {A : Type} (d : A) (r c : nat) (f : nat -> nat -> A) (i j : nat) :
  (i < r)%nat -> (j < c)%nat -> mget d (mk_matrix r c f) i j = f i j.
Proof.
  intros Hi Hj. unfold mget, mk_matrix.
  rewrite (nth_map_seq (fun i => map (fun j => f i j) (seq 0 c)) [] Hi).
  apply nth_map_seq; exact Hj.
Qed.

Lemma nrows_mk {A : Type} (r c : nat) (f : nat -> nat -> A) :
  nrows (mk_matrix r c f) = r.
Proof. unfold nrows, mk_matrix. now rewrite length_map, length_seq. Qed.

Lemma ncols_mk {A : Type} (r c : nat) (f : nat -> nat -> A) :
  (1 <= r)%nat -> ncols (mk_matrix r c f) = c.
Proof.
  intros Hr. unfold ncols, mk_matrix.
  destruct r as [ | r]; [ lia | ].
  cbn. now rewrite length_map, length_seq.
Qed.

Lemma rect_mk {A : Type} (r c : nat) (f : nat -> nat -> A) :
  rect r c (mk_matrix r c f).
Proof.
  split; [ apply nrows_mk | ].
  unfold mk_matrix. apply Forall_forall. intros row Hin.
  apply in_map_iff in Hin. destruct Hin as [i [<- _]].
  now rewrite length_map, length_seq.
Qed.

Lemma rect_nrows {A : Type} {r c : nat} {M : matrix A} :
  rect r c M -> nrows M = r.
Proof. now intros [H _]. Qed.

Lemma rect_ncols {A : Type} {r c : nat} {M : matrix A} :
  rect r c M -> (1 <= r)%nat -> ncols M = c.
Proof.
  intros [Hr Hc] Hpos. destruct M as [ | row M]; cbn in *; [ lia | ].
  now inversion Hc.
Qed.

Lemma rect_row_length {A : Type} {r c : nat} {M : matrix A} (i : nat) :
  rect r c M -> (i < r)%nat -> length (nth i M []) = c.
Proof.
  intros [Hr Hc] Hi.
  rewrite Forall_forall in Hc. apply Hc. apply nth_In. lia.
Qed.

(** Two arrays of one shape with the same entries are equal. *)
Lemma matrix_ext {A : Type} (d : A) {r c : nat} {M N : matrix A} :
  rect r c M -> rect r c N ->
  (forall i j, (i < r)%nat -> (j < c)%nat -> mget d M i j = mget d N i j) ->
  M = N.
Proof.
  intros HM HN H.
  apply (nth_ext M N [] []).
  - destruct HM, HN; congruence.
  - intros i Hi. assert (Hi' : (i < r)%nat) by (destruct HM; lia).
    apply (nth_ext _ _ d d).
    + rewrite (rect_row_length i HM Hi'), (rect_row_length i HN Hi'). reflexivity.
    + intros j Hj. rewrite (rect_row_length i HM Hi') in Hj.
      apply (H i j Hi' Hj).
Qed.

Lemma mk_matrix_eta {A : Type} (d : A) {r c : nat} {M : matrix A} :
  rect r c M -> M = mk_matrix r c (mget d M).
Proof.
  intros HM. apply (matrix_ext d HM (rect_mk r c _)).
  intros i j Hi Hj. now rewrite mget_mk.
Qed.

Lemma mk_matrix_ext {A : Type} (r c : nat) (f g : nat -> nat -> A) :
  (forall i j, (i < r)%nat -> (j < c)%nat -> f i j = g i j) ->
  mk_matrix r c f = mk_matrix r c g.
Proof.
  intros H. unfold mk_matrix.
  apply map_ext_in. intros i Hi. apply in_seq in Hi.
  apply map_ext_in. intros j Hj. apply in_seq in Hj.
  apply H; lia.
Qed.

Lemma rect_mmap {A B : Type} (f : A -> B) {r c : nat} {M : matrix A} :
  rect r c M -> rect r c (mmap f M).
Proof.
  intros [Hr Hc]. split.
  - unfold mmap. now rewrite length_map.
  - unfold mmap. apply Forall_forall. intros row Hin.
    apply in_map_iff in Hin. destruct Hin as [row' [<- Hin]].
    rewrite length_map. rewrite Forall_forall in Hc. now apply Hc.
Qed.

Lemma mget_mmap {A B : Type} (f : A -> B) (da : A) (db : B) {r c : nat}
    {M : matrix A} {i j : nat} :
  rect r c M -> (i < r)%nat -> (j < c)%nat ->
  mget db (mmap f M) i j = f (mget da M i j).
Proof.
  intros HM Hi Hj. unfold mget, mmap.
  assert (Hlen : length M = r) by now destruct HM.
  rewrite (nth_indep (map (map f) M) [] (map f [])) by (rewrite length_map; lia).
  rewrite (map_nth (map f) M [] i).
  rewrite (nth_indep _ db (f da))
    by (rewrite length_map, (rect_row_length i HM Hi); exact Hj).
  apply (map_nth f).
Qed.

Lemma rect_outer {A B C : Type} (f : A -> B -> C) (row : list A) (col : list B) :
  rect (length col) (length row) (outer f row col).
Proof.
  unfold outer. split.
  - now rewrite length_map.
  - apply Forall_forall. intros l Hin.
    apply in_map_iff in Hin. destruct Hin as [b [<- _]].
    now rewrite length_map.
Qed.

Lemma mget_outer {A B C : Type} (f : A -> B -> C) (da : A) (db : B) (dc : C)
    (row : list A) (col : list B) (i j : nat) :
  (i < length col)%nat -> (j < length row)%nat ->
  mget dc (outer f row col) i j = f (nth j row da) (nth i col db).
Proof.
  intros Hi Hj. unfold mget, outer.
  rewrite (nth_indep _ [] (map (fun r => f r db) row)) by (rewrite length_map; lia).
  rewrite (map_nth (fun c => map (fun r => f r c) row) col db i).
  rewrite (nth_indep _ dc (f da (nth i col db))) by (rewrite length_map; lia).
  apply (map_nth (fun r => f r (nth i col db))).
Qed.

(* ----------------------------------------------------------------- *)
(** ** The wavenumber grid *)

Lemma half_bounds {n : nat} :
  (1 <= n)%nat -> ((n - 1) / 2 + 1 + n / 2 = n)%nat.
Proof.
  intros H.
  pose proof (Nat.div_mod_eq (n - 1) 2) as E1.
  pose proof (Nat.div_mod_eq n 2) as E2.
  pose proof (Nat.mod_upper_bound (n - 1) 2 ltac:(lia)) as B1.
  pose proof (Nat.mod_upper_bound n 2 ltac:(lia)) as B2.
  lia.
Qed.

Lemma length_fftfreq_index (n : nat) :
  (1 <= n)%nat -> length (fftfreq_index n) = n.
Proof.
  intros H. unfold fftfreq_index.
  rewrite length_app, !length_map, !length_seq. now apply half_bounds.
Qed.


Lemma nth_fftfreq_index (n i : nat) :
  (i < n)%nat -> nth i (fftfreq_index n) 0%Z = freq n i.
Proof.
  intros Hi. pose proof (half_bounds (n := n) ltac:(lia)) as Hh.
  unfold fftfreq_index, freq.
  destruct (i <? (n - 1) / 2 + 1)%nat eqn:E.
  - apply Nat.ltb_lt in E.
    rewrite app_nth1 by (rewrite length_map, length_seq; exact E).
    now rewrite nth_map_seq.
  - apply Nat.ltb_ge in E.
    rewrite app_nth2 by (rewrite length_map, length_seq; exact E).
    rewrite length_map, length_seq.
    rewrite nth_map_seq by lia. lia.
Qed.

Lemma freq_zero_iff (n i : nat) :
  (i < n)%nat -> (freq n i = 0%Z <-> i = 0%nat).
Proof.
  intros Hi. unfold freq.
  destruct (i <? (n - 1) / 2 + 1)%nat eqn:E.
  - lia.
  - apply Nat.ltb_ge in E. lia.
Qed.


Lemma length_wavenumbers (n : nat) :
  (1 <= n)%nat -> length (wavenumbers n) = n.
Proof.
  intros H. unfold wavenumbers. rewrite !length_map.
  now apply length_fftfreq_index.
Qed.

Lemma nth_wavenumbers (n i : nat) :
  (i < n)%nat -> nth i (wavenumbers n) 0 = IZR (freq n i).
Proof.
  intros Hi. unfold wavenumbers.
  rewrite map_map.
  rewrite (nth_indep _ 0 ((fun k => IZR k * (1 / (INR n * 1)) * INR n) 0%Z))
    by (rewrite length_map, length_fftfreq_index; lia).
  rewrite (map_nth (fun k => IZR k * (1 / (INR n * 1)) * INR n)).
  rewrite nth_fftfreq_index by exact Hi.
  assert (Hn : INR n <> 0) by (apply not_0_INR; lia).
  field. exact Hn.
Qed.

Lemma Fluid_init_pos (J : nat -> nat -> nat -> R) {n m : nat} (Re dt pad : R) :
  (1 <= n)%nat -> (1 <= m)%nat ->
  Fluid_init J n m Re dt pad
  = Val (Fluid_attrs J n m Re dt pad
           (map (fun k => IZR k * (1 / (INR n * 1))) (fftfreq_index n))
           (map (fun k => IZR k * (1 / (INR m * 1))) (fftfreq_index m))).
Proof.
  intros Hn Hm. unfold Fluid_init.
  rewrite (fftfreq_pos Hn), (fftfreq_pos Hm). reflexivity.
Qed.

Lemma Fluid_init_grid (J : nat -> nat -> nat -> R) (n m : nat)
    (Re dt pad : R) (s : Fluid) :
  (1 <= n)%nat -> (1 <= m)%nat ->
  Fluid_init J n m Re dt pad = Val s ->
  nx s = n /\ ny s = m /\ nk s = (m / 2 + 1)%nat
  /\ kx s = wavenumbers n /\ ky s = wavenumbers m /\ k2 s = None.
Proof.
  intros Hn Hm E. rewrite (Fluid_init_pos J Re dt pad Hn Hm) in E.
  injection E as <-. cbn. unfold floordiv, wavenumbers. repeat split.
Qed.

(* ----------------------------------------------------------------- *)
(** ** The squared-wavenumber field *)

(** [init_solver] computes [k2] first, and nothing later in it assigns [k2]
    again, whether the method returns or raises. *)
Lemma init_solver_k2 (s : Fluid) :
  k2 s = None ->
  k2 (final_state (init_solver s)) = Some (wavenumber_sq s).
Proof.
  intros H0. unfold init_solver, bind, gets, modify, ret, eval. rewrite H0. cbn.
  destruct (as_size _); cbn; [ | reflexivity ].
  destruct (fltr s); cbn; [ reflexivity | ].
  unfold _init_filter, bind, gets, modify, eval, attr. cbn.
  destruct (np_max1 (kx s)); cbn; reflexivity.
Qed.

Lemma rect_wavenumber_sq (s : Fluid) :
  rect (length (ky s)) (length (firstn (nk s) (kx s))) (wavenumber_sq s).
Proof.
  unfold wavenumber_sq.
  pose proof (rect_outer Rplus (map (fun k => k ^ 2) (firstn (nk s) (kx s)))
                (map (fun k => k ^ 2) (ky s))) as H.
  now rewrite !length_map in H.
Qed.

Lemma mget_wavenumber_sq (s : Fluid) (i j : nat) :
  (i < length (ky s))%nat -> (j < Nat.min (nk s) (length (kx s)))%nat ->
  mget 0 (wavenumber_sq s) i j = nth j (kx s) 0 ^ 2 + nth i (ky s) 0 ^ 2.
Proof.
  intros Hi Hj. unfold wavenumber_sq.
  rewrite (mget_outer Rplus (0 ^ 2) (0 ^ 2) 0);
    [ | rewrite length_map; exact Hi
      | rewrite length_map, length_firstn; exact Hj ].
  rewrite (map_nth (fun k => k ^ 2)), (map_nth (fun k => k ^ 2)).
  rewrite nth_firstn.
  destruct (j <? nk s)%nat eqn:E; [ reflexivity | ].
  apply Nat.ltb_ge in E. lia.
Qed.

Lemma sum_sq_zero_iff (a b : Z) :
  IZR a ^ 2 + IZR b ^ 2 = 0 <-> a = 0%Z /\ b = 0%Z.
Proof.
  split.
  - intros H.
    assert (Ha : IZR a = 0) by nra.
    assert (Hb : IZR b = 0) by nra.
    split; now apply eq_IZR_R0.
  - intros [-> ->]. cbn. ring.
Qed.

(* ----------------------------------------------------------------- *)
(** ** Maxima and masks *)

Lemma fold_left_Rmax_ge (l : list R) (v : R) :
  v <= fold_left Rmax l v /\ forall e, In e l -> e <= fold_left Rmax l v.
Proof.
  revert v. induction l as [ | a l IH]; intros v; cbn.
  - split; [ lra | intros e [] ].
  - destruct (IH (Rmax v a)) as [H1 H2].
    pose proof (Rmax_l v a). pose proof (Rmax_r v a).
    split; [ lra | ].
    intros e [<- | Hin]; [ lra | now apply H2 ].
Qed.

Lemma fold_left_Rmax_in (l : list R) (v : R) :
  fold_left Rmax l v = v \/ In (fold_left Rmax l v) l.
Proof.
  revert v. induction l as [ | a l IH]; intros v; cbn.
  - now left.
  - destruct (IH (Rmax v a)) as [E | Hin].
    + rewrite E. unfold Rmax. destruct (Rle_dec v a); [ right; now left | now left ].
    + right; now right.
Qed.

(** [np.max] returns an entry of the array that bounds all entries. *)
Lemma np_max_spec (M : matrix R) (v : R) :
  np_max M = Val v ->
  In v (concat M) /\ forall e, In e (concat M) -> e <= v.
Proof.
  unfold np_max. destruct (concat M) as [ | a l] eqn:E; [ discriminate | ].
  intros H. injection H as <-.
  destruct (fold_left_Rmax_ge l a) as [H1 H2].
  split.
  - destruct (fold_left_Rmax_in l a) as [-> | Hin]; [ now left | now right ].
  - intros e [<- | Hin]; [ exact H1 | now apply H2 ].
Qed.

Lemma np_max_nonempty (M : matrix R) :
  concat M <> [] -> exists v, np_max M = Val v.
Proof.
  unfold np_max. destruct (concat M) as [ | a l]; [ congruence | ].
  intros _. now eexists.
Qed.

Lemma in_concat_mget (d : R) {r c : nat} {M : matrix R} {i j : nat} :
  rect r c M -> (i < r)%nat -> (j < c)%nat -> In (mget d M i j) (concat M).
Proof.
  intros HM Hi Hj. apply in_concat. exists (nth i M []). split.
  - apply nth_In. destruct HM; lia.
  - apply nth_In. rewrite (rect_row_length i HM Hi). exact Hj.
Qed.

Lemma concat_in_mget (d : R) {r c : nat} {M : matrix R} {e : R} :
  rect r c M -> In e (concat M) ->
  exists i j, (i < r)%nat /\ (j < c)%nat /\ e = mget d M i j.
Proof.
  intros HM Hin. apply in_concat in Hin. destruct Hin as [row [Hrow He]].
  destruct (In_nth M row [] Hrow) as [i [Hi Ei]].
  destruct (In_nth row e d He) as [j [Hj Ej]].
  assert (Hi' : (i < r)%nat) by (destruct HM; lia).
  exists i, j. split; [ exact Hi' | ]. split.
  - rewrite <- (rect_row_length i HM Hi'), Ei. exact Hj.
  - unfold mget. now rewrite Ei, Ej.
Qed.

Lemma rect_masked_update {A : Type} (d : A) {r c : nat} {M : matrix A}
    (mask : matrix bool) (new : nat -> nat -> A) :
  rect r c M -> (1 <= r)%nat -> rect r c (masked_update d M mask new).
Proof.
  intros HM Hr. unfold masked_update.
  rewrite (rect_nrows HM), (rect_ncols HM Hr). apply rect_mk.
Qed.

Lemma mget_masked_update {A : Type} (d : A) {r c : nat} {M : matrix A}
    (mask : matrix bool) (new : nat -> nat -> A) {i j : nat} :
  rect r c M -> (i < r)%nat -> (j < c)%nat ->
  mget d (masked_update d M mask new) i j
  = if mget false mask i j then new i j else mget d M i j.
Proof.
  intros HM Hi Hj. unfold masked_update.
  rewrite (rect_nrows HM), (rect_ncols HM) by lia.
  now rewrite mget_mk.
Qed.

(* ----------------------------------------------------------------- *)
(** ** The spectral filter *)

Lemma Rleb_true (a b : R) : Rleb a b = true <-> a <= b.
Proof. unfold Rleb. destruct (Rle_dec a b); split; intros; congruence. Qed.

Lemma Rleb_false (a b : R) : Rleb a b = false <-> b < a.
Proof.
  unfold Rleb. destruct (Rle_dec a b); split; intros; try congruence; lra.
Qed.

Lemma exp_le_compat (a b : R) : a <= b -> exp a <= exp b.
Proof.
  intros [H | ->]; [ left; now apply exp_increasing | lra ].
Qed.

Lemma pow4_le (a b : R) : 0 <= a -> a <= b -> a ^ 4 <= b ^ 4.
Proof. intros Ha Hab. apply pow_incr. lra. Qed.


Lemma filter_value_range (ff cphi wv : R) :
  0 <= ff -> 0 <= filter_value ff cphi wv <= 1.
Proof.
  intros Hff. unfold filter_value. destruct (Rleb wv cphi); [ lra | ].
  split; [ left; apply exp_pos | ].
  rewrite <- exp_0. apply exp_le_compat.
  assert (0 <= (wv - cphi) ^ 4).
  { replace ((wv - cphi) ^ 4) with (((wv - cphi) ^ 2) ^ 2) by ring.
    apply pow2_ge_0. }
  nra.
Qed.

Lemma filter_value_decreasing (ff cphi a b : R) :
  0 <= ff -> cphi < a -> a <= b ->
  filter_value ff cphi b <= filter_value ff cphi a.
Proof.
  intros Hff Ha Hab. unfold filter_value.
  destruct (Rleb a cphi) eqn:Ea; [ apply Rleb_true in Ea; lra | ].
  destruct (Rleb b cphi) eqn:Eb; [ apply Rleb_true in Eb; lra | ].
  apply exp_le_compat.
  pose proof (pow4_le (a - cphi) (b - cphi) ltac:(lra) ltac:(lra)).
  nra.
Qed.

Lemma _init_filter_value (s : Fluid) (K : matrix R) (r c : nat) (top : R) :
  k2 s = Some K -> rect r c K -> (1 <= r)%nat ->
  np_max1 (kx s) = Val top ->
  exists F : matrix R,
    _init_filter s = Returned tt (set_fltr (Some F) s)
    /\ rect r c F
    /\ forall i j, (i < r)%nat -> (j < c)%nat ->
         mget 0 F i j
         = filter_value (filterfac s) (0.65 * top) (sqrt (mget 0 K i j)).
Proof.
  intros HK Hrect Hr Htop.
  unfold _init_filter, bind, gets, eval, attr, modify, getattr.
  rewrite Htop, HK.
  eexists. split; [ reflexivity | ].
  pose proof (rect_mmap sqrt Hrect) as Hw.
  pose proof (rect_mmap (fun wv => exp (- filterfac s * (wv - 0.65 * top) ^ 4)) Hw)
    as Hf.
  split; [ now apply rect_masked_update | ].
  intros i j Hi Hj.
  rewrite (mget_masked_update 0 _ (fun _ _ => 1) Hf Hi Hj).
  rewrite (mget_mmap (fun wv => Rleb wv (0.65 * top)) 0 false Hw Hi Hj).
  rewrite (mget_mmap _ 0 0 Hw Hi Hj).
  rewrite (mget_mmap sqrt 0 0 Hrect Hi Hj).
  reflexivity.
Qed.

(** Once [fltr] is assigned, [init_solver] does not compute it again. *)
Lemma init_solver_keeps_fltr (s : Fluid) (F : matrix R) :
  fltr s = Some F -> fltr (final_state (init_solver s)) = Some F.
Proof.
  intros HF. unfold init_solver, bind, gets, modify, ret, eval.
  destruct (k2 s); cbn; (destruct (as_size _); cbn; [ | exact HF ]);
    rewrite HF; cbn; exact HF.
Qed.

(** C8.  [_init_filter] stores an array [fltr] over the half-spectrum grid
    of [k2] with all values in [[0, 1]], equal to 1 at every mode whose
    wavenumber magnitude [sqrt k2] is at or below the cutoff
    [cphi = 0.65 * max(kx)], and non-increasing in the wavenumber magnitude
    above the cutoff.  The array is cached: a later [init_solver] keeps
    it. *)
Theorem spectral_filter_invariant :
  forall (s : Fluid) (K : matrix R) (r c : nat),
    k2 s = Some K -> rect r c K -> (1 <= r)%nat ->
    kx s <> [] -> 0 <= filterfac s ->
    exists (top : R) (F : matrix R),
      np_max1 (kx s) = Val top
      /\ In top (kx s) /\ (forall k, In k (kx s) -> k <= top)
      /\ _init_filter s = Returned tt (set_fltr (Some F) s)
      /\ fltr (final_state (init_solver (set_fltr (Some F) s))) = Some F
      /\ rect r c F
      /\ (forall i j, (i < r)%nat -> (j < c)%nat -> 0 <= mget 0 F i j <= 1)
      /\ (forall i j, (i < r)%nat -> (j < c)%nat ->
            sqrt (mget 0 K i j) <= 0.65 * top -> mget 0 F i j = 1)
      /\ (forall i j i' j',
            (i < r)%nat -> (j < c)%nat -> (i' < r)%nat -> (j' < c)%nat ->
            0.65 * top < sqrt (mget 0 K i j) ->
            sqrt (mget 0 K i j) <= sqrt (mget 0 K i' j') ->
            mget 0 F i' j' <= mget 0 F i j).
Proof.
  intros s K r c HK Hrect Hr Hkx Hff.
  destruct (np_max_nonempty [kx s]) as [top Htop].
  { cbn. rewrite app_nil_r. exact Hkx. }
  destruct (np_max_spec [kx s] top Htop) as [Hin Hmax].
  cbn in Hin, Hmax. rewrite app_nil_r in Hin, Hmax.
  destruct (_init_filter_value s K r c top HK Hrect Hr Htop)
    as (F & Hrun & HF & Hval).
  exists top, F.
  split; [ exact Htop | ].
  split; [ exact Hin | ].
  split; [ exact Hmax | ].
  split; [ exact Hrun | ].
  split; [ now apply init_solver_keeps_fltr | ].
  split; [ exact HF | ].
  split; [ | split ].
  - intros i j Hi Hj. rewrite (Hval i j Hi Hj). now apply filter_value_range.
  - intros i j Hi Hj Hle. rewrite (Hval i j Hi Hj). unfold filter_value.
    apply Rleb_true in Hle. now rewrite Hle.
  - intros i j i' j' Hi Hj Hi' Hj' Hcut Hle.
    rewrite (Hval i j Hi Hj), (Hval i' j' Hi' Hj').
    now apply filter_value_decreasing.
Qed.


Lemma spectral_filter_invariant_witness :
  exists (top : R) (F : matrix R),
    np_max1 (kx fluid4_k2) = Val top
    /\ In top (kx fluid4_k2) /\ (forall k, In k (kx fluid4_k2) -> k <= top)
    /\ _init_filter fluid4_k2 = Returned tt (set_fltr (Some F) fluid4_k2)
    /\ fltr (final_state (init_solver (set_fltr (Some F) fluid4_k2))) = Some F
    /\ rect 4 3 F
    /\ (forall i j, (i < 4)%nat -> (j < 3)%nat -> 0 <= mget 0 F i j <= 1)
    /\ (forall i j, (i < 4)%nat -> (j < 3)%nat ->
          sqrt (mget 0 (wavenumber_sq (fluid4 1)) i j) <= 0.65 * top ->
          mget 0 F i j = 1)
    /\ (forall i j i' j',
          (i < 4)%nat -> (j < 3)%nat -> (i' < 4)%nat -> (j' < 3)%nat ->
          0.65 * top < sqrt (mget 0 (wavenumber_sq (fluid4 1)) i j) ->
          sqrt (mget 0 (wavenumber_sq (fluid4 1)) i j)
          <= sqrt (mget 0 (wavenumber_sq (fluid4 1)) i' j') ->
          mget 0 F i' j' <= mget 0 F i j).
Proof.
  apply (spectral_filter_invariant fluid4_k2 (wavenumber_sq (fluid4 1)) 4 3).
  - reflexivity.
  - split; [ reflexivity | repeat constructor ].
  - lia.
  - cbn. discriminate.
  - cbn. lra.
Defined.

(* ----------------------------------------------------------------- *)
(** ** Shapes of the array operations *)

Lemma bidx_id (size i : nat) : (i < size)%nat -> bidx size i = i.
Proof.
  intros H. unfold bidx. destruct (size =? 1)%nat eqn:E; [ | reflexivity ].
  apply Nat.eqb_eq in E. lia.
Qed.

Lemma bdim_same (a : nat) : bdim a a = Some a.
Proof. unfold bdim. now rewrite Nat.eqb_refl. Qed.

Lemma bdim_one_l (a : nat) : bdim 1 a = Some a.
Proof.
  unfold bdim. destruct (1 =? a)%nat eqn:E; [ | reflexivity ].
  apply Nat.eqb_eq in E. now subst.
Qed.

(** Operands of one shape. *)
Lemma broadcast2_same {A B C : Type} (f : A -> B -> C) (da : A) (db : B)
    {r c : nat} {X : matrix A} {Y : matrix B} :
  rect r c X -> rect r c Y -> (1 <= r)%nat ->
  broadcast2 f da db X Y
  = Val (mk_matrix r c (fun i j => f (mget da X i j) (mget db Y i j))).
Proof.
  intros HX HY Hr. unfold broadcast2.
  rewrite (rect_nrows HX), (rect_nrows HY), (rect_ncols HX Hr), (rect_ncols HY Hr).
  rewrite !bdim_same. f_equal. apply mk_matrix_ext. intros i j Hi Hj.
  now rewrite !bidx_id.
Qed.

(** A 1-d array against a 2-d array with as many columns. *)
Lemma broadcast2_row {A B C : Type} (f : A -> B -> C) (da : A) (db : B)
    {r c : nat} (l : list A) {Y : matrix B} :
  length l = c -> rect r c Y -> (1 <= r)%nat ->
  broadcast2 f da db (as_row l) Y
  = Val (mk_matrix r c (fun i j => f (nth j l da) (mget db Y i j))).
Proof.
  intros Hl HY Hr. unfold broadcast2, as_row.
  rewrite (rect_nrows HY), (rect_ncols HY Hr). cbn [nrows ncols length].
  rewrite Hl, bdim_one_l, bdim_same. f_equal.
  apply mk_matrix_ext. intros i j Hi Hj.
  change (bidx 1 i) with 0%nat.
  rewrite !bidx_id by assumption. reflexivity.
Qed.

(** A column [a[:, np.newaxis]] against a 2-d array with as many rows. *)
Lemma broadcast2_col {A B C : Type} (f : A -> B -> C) (da : A) (db : B)
    {r c : nat} (l : list A) {Y : matrix B} :
  length l = r -> rect r c Y -> (1 <= r)%nat ->
  broadcast2 f da db (as_col l) Y
  = Val (mk_matrix r c (fun i j => f (nth i l da) (mget db Y i j))).
Proof.
  intros Hl HY Hr. unfold broadcast2.
  assert (Hn : nrows (as_col l) = r) by (unfold nrows, as_col; now rewrite length_map).
  assert (Hc : ncols (as_col l) = 1%nat).
  { destruct l; cbn in *; [ lia | reflexivity ]. }
  rewrite Hn, Hc, (rect_nrows HY), (rect_ncols HY Hr).
  rewrite bdim_same, bdim_one_l. f_equal.
  apply mk_matrix_ext. intros i j Hi Hj.
  change (bidx 1 j) with 0%nat.
  rewrite !bidx_id by assumption. f_equal.
  unfold mget, as_col.
  rewrite (nth_indep _ [] [da]) by (rewrite length_map; lia).
  now rewrite (map_nth (fun v => [v]) l da i).
Qed.

Lemma broadcast_to_same {A : Type} (d : A) {r c : nat} {V : matrix A} :
  rect r c V -> (1 <= r)%nat -> broadcast_to d r c V = Val V.
Proof.
  intros HV Hr. unfold broadcast_to.
  rewrite (rect_nrows HV), (rect_ncols HV Hr), !Nat.eqb_refl. cbn.
  f_equal. symmetry. etransitivity; [ apply (mk_matrix_eta d HV) | ].
  apply mk_matrix_ext. intros i j Hi Hj. now rewrite !bidx_id.
Qed.

Lemma same_shape_rect {A B : Type} {r c : nat} {X : matrix A} {Y : matrix B} :
  rect r c X -> rect r c Y -> (1 <= r)%nat -> same_shape X Y = true.
Proof.
  intros HX HY Hr. unfold same_shape.
  rewrite (rect_nrows HX), (rect_nrows HY), (rect_ncols HX Hr), (rect_ncols HY Hr).
  now rewrite !Nat.eqb_refl.
Qed.

Lemma rect_transpose {A : Type} (d : A) {r c : nat} {M : matrix A} :
  rect r c M -> (1 <= r)%nat -> rect c r (transpose d M).
Proof.
  intros HM Hr. unfold transpose.
  rewrite (rect_nrows HM), (rect_ncols HM Hr). apply rect_mk.
Qed.

Lemma mget_transpose {A : Type} (d : A) {r c : nat} {M : matrix A} {i j : nat} :
  rect r c M -> (i < c)%nat -> (j < r)%nat ->
  mget d (transpose d M) i j = mget d M j i.
Proof.
  intros HM Hi Hj. unfold transpose.
  rewrite (rect_nrows HM), (rect_ncols HM) by lia.
  now rewrite mget_mk.
Qed.

Lemma rect_map_rows {A B : Type} (f : list A -> list B) (g : nat -> nat)
    {r c : nat} {M : matrix A} :
  (forall l, length (f l) = g (length l)) ->
  rect r c M -> rect r (g c) (map f M).
Proof.
  intros Hf [Hr Hc]. split.
  - now rewrite length_map.
  - apply Forall_forall. intros row Hin.
    apply in_map_iff in Hin. destruct Hin as [row' [<- Hin]].
    rewrite Hf. f_equal. rewrite Forall_forall in Hc. now apply Hc.
Qed.

Lemma nth_map_rows {A B : Type} (f : list A -> list B) {r c : nat}
    {M : matrix A} (i : nat) :
  rect r c M -> (i < r)%nat -> nth i (map f M) [] = f (nth i M []).
Proof.
  intros [Hr _] Hi.
  rewrite (nth_indep _ [] (f [])) by (rewrite length_map; lia).
  apply (map_nth f).
Qed.

Lemma length_fft_list (a : list complex) : length (fft_list a) = length a.
Proof. unfold fft_list. now rewrite length_map, length_seq. Qed.

Lemma length_ifft_list (a : list complex) : length (ifft_list a) = length a.
Proof. unfold ifft_list. now rewrite length_map, length_seq. Qed.

Lemma length_rfft_list (a : list R) :
  length (rfft_list a) = (fun n => Nat.min (n / 2 + 1) n) (length a).
Proof.
  unfold rfft_list. now rewrite length_firstn, length_fft_list, length_map.
Qed.

Lemma length_irfft_list (a : list complex) :
  length (irfft_list a) = (fun m => 2 * (m - 1))%nat (length a).
Proof. unfold irfft_list. now rewrite length_map, length_seq. Qed.


Lemma nth_transpose {A : Type} (d : A) {r c : nat} {M : matrix A} (j : nat) :
  rect r c M -> (1 <= r)%nat -> (j < c)%nat ->
  nth j (transpose d M) [] = column d M j.
Proof.
  intros HM Hr Hj. unfold transpose, column, mk_matrix.
  rewrite (rect_ncols HM Hr).
  now rewrite (nth_map_seq (fun i => map (fun j0 => mget d M j0 i) (seq 0 (nrows M)))
                 [] Hj).
Qed.

Lemma length_column {A : Type} (d : A) (M : matrix A) (j : nat) :
  length (column d M j) = nrows M.
Proof. unfold column. now rewrite length_map, length_seq. Qed.

Lemma rect_along_first (f : list complex -> list complex) {r c : nat}
    {M : matrix complex} :
  (forall l, length (f l) = length l) ->
  rect r c M -> (1 <= r)%nat -> (1 <= c)%nat -> rect r c (along_first f M).
Proof.
  intros Hf HM Hr Hc. unfold along_first.
  apply rect_transpose; [ | exact Hc ].
  apply (rect_map_rows f (fun n => n) Hf).
  now apply rect_transpose.
Qed.

Lemma mget_along_first (f : list complex -> list complex) {r c : nat}
    {M : matrix complex} {i j : nat} :
  (forall l, length (f l) = length l) ->
  rect r c M -> (i < r)%nat -> (j < c)%nat ->
  mget C0 (along_first f M) i j = nth i (f (column C0 M j)) C0.
Proof.
  intros Hf HM Hi Hj. unfold along_first.
  assert (Hr : (1 <= r)%nat) by lia.
  pose proof (rect_transpose C0 HM Hr) as HT.
  pose proof (rect_map_rows f (fun n => n) Hf HT) as HF.
  rewrite (mget_transpose C0 HF Hi Hj).
  unfold mget. rewrite (nth_map_rows f j HT Hj).
  now rewrite (nth_transpose C0 j HM Hr Hj).
Qed.

Lemma irfft2_rect {r c : nat} {a : matrix complex} :
  rect r c a -> (1 <= r)%nat -> (2 <= c)%nat ->
  irfft2 a = Val (map irfft_list (along_first ifft_list a))
  /\ rect r (2 * (c - 1)) (map irfft_list (along_first ifft_list a)).
Proof.
  intros Ha Hr Hc. split.
  - unfold irfft2. rewrite (rect_nrows Ha), (rect_ncols Ha Hr).
    destruct (r =? 0)%nat eqn:E1; [ apply Nat.eqb_eq in E1; lia | ].
    destruct (c <=? 1)%nat eqn:E2; [ apply Nat.leb_le in E2; lia | ].
    reflexivity.
  - apply (rect_map_rows irfft_list (fun m => 2 * (m - 1))%nat length_irfft_list).
    apply (rect_along_first ifft_list length_ifft_list Ha Hr). lia.
Qed.

Lemma rfft2_rect {r c : nat} {a : matrix R} :
  rect r c a -> (1 <= r)%nat -> (1 <= c)%nat ->
  rfft2 a = Val (along_first fft_list (map rfft_list a))
  /\ rect r (c / 2 + 1) (along_first fft_list (map rfft_list a)).
Proof.
  intros Ha Hr Hc. split.
  - unfold rfft2. rewrite (rect_nrows Ha), (rect_ncols Ha Hr).
    destruct (r =? 0)%nat eqn:E1; [ apply Nat.eqb_eq in E1; lia | ].
    destruct (c =? 0)%nat eqn:E2; [ apply Nat.eqb_eq in E2; lia | ].
    reflexivity.
  - pose proof (rect_map_rows rfft_list (fun n => Nat.min (n / 2 + 1) n)
                  length_rfft_list Ha) as H.
    cbn beta in H.
    assert (Hmin : Nat.min (c / 2 + 1) c = (c / 2 + 1)%nat).
    { pose proof (Nat.div_mod_eq c 2). apply Nat.min_l. lia. }
    rewrite Hmin in H.
    apply (rect_along_first fft_list length_fft_list H Hr). lia.
Qed.

(* ----------------------------------------------------------------- *)
(** ** From the constructor to a ready solver *)

Lemma as_size_of_nat (n : nat) : as_size (Z.of_nat n) = Val n.
Proof.
  unfold as_size. destruct (Z.of_nat n <? 0)%Z eqn:E.
  - apply Z.ltb_lt in E. lia.
  - now rewrite Nat2Z.id.
Qed.

Lemma py_int_IZR_frac (z q : Z) (x : R) :
  (0 <= q)%Z -> IZR q <= x -> x < IZR q + 1 -> py_int x = q.
Proof.
  intros Hq H1 H2. unfold py_int.
  assert (H0 : 0 <= x). { apply IZR_le in Hq. lra. }
  destruct (Rle_dec 0 x) as [_ | N]; [ | contradiction ].
  symmetry. apply Int_part_spec. lra.
Qed.

Lemma py_int_three_halves (m : nat) :
  py_int (default_pad * INR m) = Z.of_nat (3 * m / 2).
Proof.
  unfold default_pad.
  pose proof (Nat.div_mod_eq (3 * m) 2) as E.
  pose proof (Nat.mod_upper_bound (3 * m) 2 ltac:(lia)) as B.
  set (q := (3 * m / 2)%nat) in *. clearbody q.
  apply (py_int_IZR_frac 0); [ lia | | ].
  - rewrite <- INR_IZR_INZ.
    assert (H : INR (2 * q) <= INR (3 * m)) by (apply le_INR; lia).
    rewrite !mult_INR in H.
    change (INR 2) with (1 + 1) in H. change (INR 3) with (1 + 1 + 1) in H. lra.
  - rewrite <- INR_IZR_INZ.
    assert (H : INR (3 * m) < INR (2 * q + 2)) by (apply lt_INR; lia).
    rewrite plus_INR, !mult_INR in H.
    change (INR 2) with (1 + 1) in H. change (INR 3) with (1 + 1 + 1) in H. lra.
Qed.

Lemma py_int_half (h : nat) : py_int (INR (2 * h) / 2) = Z.of_nat h.
Proof.
  apply (py_int_IZR_frac 0); [ lia | | ];
    rewrite <- INR_IZR_INZ, mult_INR; change (INR 2) with (1 + 1); lra.
Qed.

Lemma py_int_whole (m : nat) : py_int (INR m * (default_pad - 0.5)) = Z.of_nat m.
Proof.
  unfold default_pad.
  apply (py_int_IZR_frac 0); [ lia | | ]; rewrite <- INR_IZR_INZ; lra.
Qed.

Lemma slice_bound_of_nat (len i : nat) :
  slice_bound len (Z.of_nat i) = Nat.min i len.
Proof.
  unfold slice_bound. destruct (Z.of_nat i <? 0)%Z eqn:E.
  - apply Z.ltb_lt in E. lia.
  - now rewrite Nat2Z.id.
Qed.


Lemma length_mask_indices (mask : list bool) (k : nat) :
  length (mask_indices k mask) = length (filter (fun b => b) mask).
Proof.
  revert k. induction mask as [ | b mask IH]; intros k; [ reflexivity | ].
  destruct b; cbn; now rewrite IH.
Qed.

Lemma filter_map_comm {A B : Type} (f : A -> B) (p : B -> bool) (l : list A) :
  filter p (map f l) = map f (filter (fun a => p (f a)) l).
Proof.
  induction l as [ | a l IH]; [ reflexivity | ].
  cbn. destruct (p (f a)); cbn; now rewrite IH.
Qed.

Lemma filter_all {A : Type} (p : A -> bool) (l : list A) :
  (forall a, In a l -> p a = true) -> filter p l = l.
Proof.
  induction l as [ | a l IH]; intros H; [ reflexivity | ].
  cbn. rewrite (H a) by now left. f_equal. apply IH.
  intros b Hb. apply H. now right.
Qed.

Lemma filter_none {A : Type} (p : A -> bool) (l : list A) :
  (forall a, In a l -> p a = false) -> filter p l = [].
Proof.
  induction l as [ | a l IH]; intros H; [ reflexivity | ].
  cbn. rewrite (H a) by now left. apply IH.
  intros b Hb. apply H. now right.
Qed.

Lemma padder_of_selects (h : nat) :
  length (mask_indices 0 (padder_of h)) = (2 * h)%nat.
Proof.
  rewrite length_mask_indices. unfold padder_of.
  rewrite (filter_map_comm _ (fun b => b)), length_map.
  replace (3 * h)%nat with (h + (h + h))%nat by lia.
  rewrite !seq_app, !filter_app, !length_app. cbn [Nat.add].
  rewrite (filter_all _ (seq 0 h)), (filter_none _ (seq h h)),
    (filter_all _ (seq (h + h) h)).
  - rewrite !length_seq. cbn. lia.
  - intros i Hi. apply in_seq in Hi.
    destruct (h <=? i)%nat eqn:E1; [ | apply Nat.leb_gt in E1; lia ].
    destruct (i <? 2 * h)%nat eqn:E2; [ apply Nat.ltb_lt in E2; lia | reflexivity ].
  - intros i Hi. apply in_seq in Hi.
    destruct (h <=? i)%nat eqn:E1; [ | apply Nat.leb_gt in E1; lia ].
    destruct (i <? 2 * h)%nat eqn:E2; [ reflexivity | apply Nat.ltb_ge in E2; lia ].
  - intros i Hi. apply in_seq in Hi.
    destruct (h <=? i)%nat eqn:E1; [ apply Nat.leb_le in E1; lia | reflexivity ].
Qed.

Lemma length_padder_of (h : nat) : length (padder_of h) = (3 * h)%nat.
Proof. unfold padder_of. now rewrite length_map, length_seq. Qed.


Lemma rect_k2_square (s : Fluid) (n : nat) :
  (2 <= n)%nat -> nk s = (n / 2 + 1)%nat ->
  kx s = wavenumbers n -> ky s = wavenumbers n ->
  rect n (n / 2 + 1) (wavenumber_sq s).
Proof.
  intros Hn Hnk Hkx Hky.
  pose proof (rect_wavenumber_sq s) as H.
  rewrite length_firstn, Hkx, Hky, Hnk, length_wavenumbers in H by lia.
  assert (Hmin : Nat.min (n / 2 + 1) n = (n / 2 + 1)%nat).
  { pose proof (Nat.div_mod_eq n 2). apply Nat.min_l. lia. }
  now rewrite Hmin in H.
Qed.

Lemma k2_square_zero_iff (s : Fluid) (n i j : nat) :
  (2 <= n)%nat -> nk s = (n / 2 + 1)%nat ->
  kx s = wavenumbers n -> ky s = wavenumbers n ->
  (i < n)%nat -> (j < n / 2 + 1)%nat ->
  (mget 0 (wavenumber_sq s) i j = 0 <-> i = 0%nat /\ j = 0%nat).
Proof.
  intros Hn Hnk Hkx Hky Hi Hj.
  assert (Hjn : (j < n)%nat).
  { pose proof (Nat.div_mod_eq n 2). lia. }
  rewrite mget_wavenumber_sq
    by (rewrite ?Hky, ?Hkx, ?Hnk, ?length_wavenumbers; lia).
  rewrite Hkx, Hky, !nth_wavenumbers by lia.
  rewrite sum_sq_zero_iff, (freq_zero_iff n j), (freq_zero_iff n i) by lia.
  tauto.
Qed.

(** [init_solver] on an instance without [k2] and [fltr]. *)
Lemma init_solver_run (s : Fluid) (len : nat) (top : R) :
  k2 s = None -> fltr s = None ->
  as_size (py_int (pad s * INR (nx s))) = Val len ->
  np_max1 (kx s) = Val top ->
  exists s1,
    init_solver s = Returned tt s1
    /\ nx s1 = nx s /\ ny s1 = ny s /\ nk s1 = nk s
    /\ kx s1 = kx s /\ ky s1 = ky s
    /\ Re s1 = Re s /\ ReI s1 = ReI s /\ dt s1 = dt s /\ pad s1 = pad s
    /\ time s1 = time s /\ it s1 = it s /\ dx s1 = dx s /\ dy s1 = dy s
    /\ w s1 = w s
    /\ k2 s1 = Some (wavenumber_sq s)
    /\ fk s1 = Some (nonzero_mask (wavenumber_sq s))
    /\ wh s1 = Some (np_zeros C0 (nx s) (nk s))
    /\ psih s1 = Some (np_zeros C0 (nx s) (nk s))
    /\ dwhdt s1 = Some (np_zeros C0 (nx s) (nk s))
    /\ mx s1 = Some (py_int (pad s * INR (nx s)))
    /\ mk s1 = Some (py_int (pad s * INR (nk s)))
    /\ padder s1
       = Some (map (fun i =>
                 negb ((slice_bound len (py_int (INR (nx s) / 2)) <=? i)
                       && (i <? slice_bound len
                                  (py_int (INR (nx s) * (pad s - 0.5)))))%nat)
               (seq 0 len)).
Proof.
  intros Hk Hf Hlen Htop.
  unfold init_solver, bind, gets, modify, ret, eval. rewrite Hk.
  cbn -[wavenumber_sq np_zeros nonzero_mask py_int INR slice_bound as_size
        _init_filter].
  rewrite Hlen.
  cbn -[wavenumber_sq np_zeros nonzero_mask py_int INR slice_bound as_size
        _init_filter].
  rewrite Hf.
  unfold _init_filter, bind, gets, modify, eval, attr, getattr.
  cbn -[wavenumber_sq np_zeros nonzero_mask py_int INR slice_bound as_size
        np_max1 masked_update mmap].
  rewrite Htop.
  eexists. split; [ reflexivity | ].
  cbn -[wavenumber_sq np_zeros nonzero_mask py_int INR slice_bound as_size
        np_max1 masked_update mmap].
  repeat split.
Qed.

Lemma wavenumber_sq_grid (s s' : Fluid) :
  nk s' = nk s -> kx s' = kx s -> ky s' = ky s ->
  wavenumber_sq s' = wavenumber_sq s.
Proof. intros H1 H2 H3. unfold wavenumber_sq. now rewrite H1, H2, H3. Qed.

Lemma np_max1_wavenumbers (n : nat) :
  (1 <= n)%nat -> exists top, np_max1 (wavenumbers n) = Val top.
Proof.
  intros Hn. apply np_max_nonempty. cbn [concat]. rewrite app_nil_r.
  intros E. apply (f_equal (@length R)) in E.
  rewrite length_wavenumbers in E by exact Hn. cbn in E. lia.
Qed.

Lemma half_of_double (h : nat) : (2 * h / 2 = h)%nat.
Proof. rewrite Nat.mul_comm. apply Nat.div_mul. lia. Qed.

Lemma three_halves_double (h : nat) : (3 * (2 * h) / 2 = 3 * h)%nat.
Proof.
  replace (3 * (2 * h))%nat with (3 * h * 2)%nat by lia.
  apply Nat.div_mul. lia.
Qed.

(** [init_solver] on a freshly constructed fluid with an even number
    [n = 2 h] of grid points and the default padding returns a ready
    solver. *)
Lemma init_solver_ready (J : nat -> nat -> nat -> R) (h : nat) (re0 dt0 : R) :
  (1 <= h)%nat ->
  exists s1,
    init_solver (fresh J (2 * h) re0 dt0) = Returned tt s1
    /\ solver_ready (2 * h) (3 * h) (3 * (h + 1) / 2) (padder_of h)
         (np_zeros C0 (2 * h) (h + 1)) (np_zeros C0 (2 * h) (h + 1))
         (np_zeros C0 (2 * h) (h + 1)) s1
    /\ Re s1 = re0 /\ dt s1 = dt0 /\ time s1 = 0 /\ it s1 = 0%Z
    /\ dx s1 = linspace_step (2 * h) /\ dy s1 = linspace_step (2 * h).
Proof.
  intros Hh. set (s := fresh J (2 * h) re0 dt0).
  destruct (np_max1_wavenumbers (2 * h) ltac:(lia)) as [top Htop].
  assert (Hlen : as_size (py_int (pad s * INR (nx s))) = Val (3 * h)%nat).
  { change (pad s) with default_pad. change (nx s) with (2 * h)%nat.
    rewrite py_int_three_halves, three_halves_double. apply as_size_of_nat. }
  destruct (init_solver_run s (3 * h) top eq_refl eq_refl Hlen Htop)
    as (s1 & Hrun & Hnx & Hny & Hnk & Hkx & Hky & HRe & HReI & Hdt & Hpad & Htime
        & Hit & Hdx & Hdy & Hw & Hk2 & Hfk & Hwh & Hpsih & Hdw & Hmx & Hmk & Hpd).
  assert (Hsq : wavenumber_sq s1 = wavenumber_sq s)
    by (apply wavenumber_sq_grid; assumption).
  change (nx s) with (2 * h)%nat in *. change (ny s) with (2 * h)%nat in *.
  change (nk s) with (floordiv (2 * h) 2 + 1)%nat in *.
  unfold floordiv in *. rewrite half_of_double in *.
  change (pad s) with default_pad in *.
  change (kx s) with (wavenumbers (2 * h)) in *.
  change (ky s) with (wavenumbers (2 * h)) in *.
  exists s1. split; [ exact Hrun | ].
  split;
    [ | repeat split;
        [ rewrite HRe | rewrite Hdt | rewrite Htime | rewrite Hit
          | rewrite Hdx | rewrite Hdy ]; reflexivity ].
  constructor; rewrite ?half_of_double.
  - lia.
  - exact Hnx.
  - exact Hny.
  - exact Hnk.
  - exact Hkx.
  - exact Hky.
  - now rewrite Hsq.
  - now rewrite Hsq.
  - exact Hwh.
  - apply rect_mk.
  - exact Hpsih.
  - apply rect_mk.
  - unfold np_zeros. rewrite mget_mk by lia. reflexivity.
  - exact Hdw.
  - apply rect_mk.
  - rewrite Hmx, py_int_three_halves, three_halves_double. reflexivity.
  - rewrite Hmk, py_int_three_halves. reflexivity.
  - rewrite Hpd. f_equal. unfold padder_of.
    rewrite <- (half_of_double h) at 1.
    rewrite py_int_half, half_of_double, py_int_whole, !slice_bound_of_nat.
    rewrite !Nat.min_l by lia. reflexivity.
  - apply length_padder_of.
  - apply padder_of_selects.
  - pose proof (Nat.div_mod_eq (3 * (h + 1)) 2).
    pose proof (Nat.mod_upper_bound (3 * (h + 1)) 2 ltac:(lia)). lia.
Qed.

Lemma py_int_floor_half (n : nat) : py_int (INR n / 2) = Z.of_nat (n / 2).
Proof.
  pose proof (Nat.div_mod_eq n 2) as E.
  pose proof (Nat.mod_upper_bound n 2 ltac:(lia)) as B.
  set (q := (n / 2)%nat) in *. clearbody q.
  apply (py_int_IZR_frac 0); [ lia | | ].
  - rewrite <- INR_IZR_INZ.
    assert (H : INR (2 * q) <= INR n) by (apply le_INR; lia).
    rewrite mult_INR in H. change (INR 2) with (1 + 1) in H. lra.
  - rewrite <- INR_IZR_INZ.
    assert (H : INR n < INR (2 * q + 2)) by (apply lt_INR; lia).
    rewrite plus_INR, mult_INR in H. change (INR 2) with (1 + 1) in H. lra.
Qed.

(** [init_solver] on a freshly constructed fluid of any grid size, square
    or not, even or odd, with the default padding: the spectral arrays get
    the shape [(nx, nk)], the padded buffers [int(1.5 nx)] rows and
    [int(1.5 nk)] columns. *)
Lemma init_solver_default (J : nat -> nat -> nat -> R) (n m : nat)
    (re0 dt0 : R) (s : Fluid) :
  (1 <= n)%nat -> (1 <= m)%nat ->
  Fluid_init J n m re0 dt0 default_pad = Val s ->
  exists s1,
    init_solver s = Returned tt s1
    /\ nx s1 = n /\ ny s1 = m /\ nk s1 = (m / 2 + 1)%nat
    /\ kx s1 = wavenumbers n /\ ky s1 = wavenumbers m
    /\ pad s1 = default_pad
    /\ k2 s1 = Some (wavenumber_sq s1)
    /\ fk s1 = Some (nonzero_mask (wavenumber_sq s1))
    /\ wh s1 = Some (np_zeros C0 n (m / 2 + 1))
    /\ psih s1 = Some (np_zeros C0 n (m / 2 + 1))
    /\ dwhdt s1 = Some (np_zeros C0 n (m / 2 + 1))
    /\ mx s1 = Some (Z.of_nat (3 * n / 2))
    /\ mk s1 = Some (Z.of_nat (3 * (m / 2 + 1) / 2))
    /\ padder s1 = Some (default_padder n).
Proof.
  intros Hn Hm E.
  destruct (Fluid_init_grid J n m re0 dt0 default_pad s Hn Hm E)
    as (Hnx & Hny & Hnk & Hkx & Hky & Hk2).
  assert (Hpad : pad s = default_pad /\ fltr s = None).
  { rewrite (Fluid_init_pos J re0 dt0 default_pad Hn Hm) in E.
    injection E as <-. split; reflexivity. }
  destruct Hpad as [Hpad Hfl].
  destruct (np_max1_wavenumbers n Hn) as [top Htop].
  rewrite <- Hkx in Htop.
  assert (Hlen : as_size (py_int (pad s * INR (nx s)))
                 = Val (3 * n / 2)%nat).
  { rewrite Hpad, Hnx, py_int_three_halves. apply as_size_of_nat. }
  destruct (init_solver_run s (3 * n / 2) top Hk2 Hfl Hlen Htop)
    as (s1 & Hrun & Hnx1 & Hny1 & Hnk1 & Hkx1 & Hky1 & _ & _ & _ & Hpad1 & _
        & _ & _ & _ & _ & Hk21 & Hfk1 & Hwh & Hpsih & Hdw & Hmx & Hmk & Hpd).
  assert (Hsq : wavenumber_sq s1 = wavenumber_sq s)
    by (apply wavenumber_sq_grid; assumption).
  exists s1. rewrite Hsq, Hnx1, Hny1, Hnk1, Hkx1, Hky1, Hpad1.
  rewrite Hnx, Hnk in Hwh, Hpsih, Hdw.
  rewrite Hpad, Hnx, py_int_three_halves in Hmx.
  rewrite Hpad, Hnk, py_int_three_halves in Hmk.
  rewrite Hpad, Hnx, py_int_floor_half, py_int_whole, !slice_bound_of_nat in Hpd.
  assert (Hhalf : (n / 2 <= 3 * n / 2)%nat).
  { apply Nat.Div0.div_le_mono. lia. }
  assert (Hfull : (n <= 3 * n / 2)%nat).
  { pose proof (Nat.div_mod_eq (3 * n) 2).
    pose proof (Nat.mod_upper_bound (3 * n) 2 ltac:(lia)). lia. }
  rewrite !Nat.min_l in Hpd by assumption.
  repeat split; assumption.
Qed.

(** On a square grid of any size [n >= 2], even or odd, the solver that
    [init_solver] returns is a solver on a square grid. *)
Lemma init_solver_square (J : nat -> nat -> nat -> R) (n : nat)
    (re0 dt0 : R) :
  (2 <= n)%nat ->
  exists s1,
    init_solver (fresh J n re0 dt0) = Returned tt s1
    /\ square_solver n (np_zeros C0 n (n / 2 + 1))
         (np_zeros C0 n (n / 2 + 1)) s1
    /\ dwhdt s1 = Some (np_zeros C0 n (n / 2 + 1))
    /\ mx s1 = Some (Z.of_nat (3 * n / 2))
    /\ mk s1 = Some (Z.of_nat (3 * (n / 2 + 1) / 2))
    /\ padder s1 = Some (default_padder n).
Proof.
  intros Hn. assert (Hn1 : (1 <= n)%nat) by lia.
  destruct (init_solver_default J n n re0 dt0 (fresh J n re0 dt0) Hn1 Hn1
              (Fluid_init_pos J re0 dt0 default_pad Hn1 Hn1))
    as (s1 & Hrun & Hnx & Hny & Hnk & Hkx & Hky & _ & Hk2 & Hfk & Hwh & Hpsih
        & Hdw & Hmx & Hmk & Hpd).
  exists s1. split; [ exact Hrun | ].
  split; [ | repeat split; assumption ].
  constructor; try assumption; try apply rect_mk.
  unfold np_zeros. rewrite mget_mk by lia. reflexivity.
Qed.

(* ----------------------------------------------------------------- *)
(** ** Poisson inversion *)

(** One step of a method: unfold the monad and reduce. *)
Ltac mstep := cbv beta iota delta [bind eval attr getattr modify gets ret].

Lemma Rneb_true (a b : R) : Rneb a b = true <-> a <> b.
Proof. unfold Rneb. destruct (Req_dec_T a b); split; intros; congruence. Qed.

Lemma Rneb_false (a b : R) : Rneb a b = false <-> a = b.
Proof. unfold Rneb. destruct (Req_dec_T a b); split; intros; congruence. Qed.

Lemma ready_k2_rect {n r c : nat} {pd : list bool} {W P D : matrix complex}
    {s : Fluid} :
  solver_ready n r c pd W P D s -> rect n (n / 2 + 1) (wavenumber_sq s).
Proof.
  intros H. apply rect_k2_square; [ apply (sr_size H) | apply (sr_nk H)
    | apply (sr_kx H) | apply (sr_ky H) ].
Qed.

Lemma ready_k2_zero {n r c : nat} {pd : list bool} {W P D : matrix complex}
    {s : Fluid} (i j : nat) :
  solver_ready n r c pd W P D s -> (i < n)%nat -> (j < n / 2 + 1)%nat ->
  (mget 0 (wavenumber_sq s) i j = 0 <-> i = 0%nat /\ j = 0%nat).
Proof.
  intros H. apply k2_square_zero_iff; [ apply (sr_size H) | apply (sr_nk H)
    | apply (sr_kx H) | apply (sr_ky H) ].
Qed.

Lemma rect_poisson_invert (K : matrix R) {r c : nat} {W : matrix complex} :
  rect r c W -> (1 <= r)%nat -> rect r c (poisson_invert K W).
Proof.
  intros HW Hr. unfold poisson_invert.
  rewrite (rect_nrows HW), (rect_ncols HW Hr). apply rect_mk.
Qed.

Lemma mget_poisson_invert (K : matrix R) {r c : nat} {W : matrix complex}
    {i j : nat} :
  rect r c W -> (i < r)%nat -> (j < c)%nat ->
  mget C0 (poisson_invert K W) i j
  = if Rneb (mget 0 K i j) 0 then Cdivr (mget C0 W i j) (mget 0 K i j) else C0.
Proof.
  intros HW Hi Hj. unfold poisson_invert.
  rewrite (rect_nrows HW), (rect_ncols HW) by lia. now rewrite mget_mk.
Qed.

(** Assigning [psih] (with a stream function that vanishes at the zero
    wavenumber), [wh] or [dwhdt] keeps a solver ready. *)
Lemma ready_set_psih {n r c : nat} {pd : list bool} {W P D : matrix complex}
    {s : Fluid} (P' : matrix complex) :
  solver_ready n r c pd W P D s ->
  rect n (n / 2 + 1) P' -> mget C0 P' 0 0 = C0 ->
  solver_ready n r c pd W P' D (set_psih (Some P') s).
Proof. intros H HP Hz. destruct H. constructor; first [ assumption | reflexivity ]. Qed.

Lemma ready_set_wh {n r c : nat} {pd : list bool} {W P D : matrix complex}
    {s : Fluid} (W' : matrix complex) :
  solver_ready n r c pd W P D s -> rect n (n / 2 + 1) W' ->
  solver_ready n r c pd W' P D (set_wh (Some W') s).
Proof. intros H HW. destruct H. constructor; first [ assumption | reflexivity ]. Qed.

Lemma ready_set_dwhdt {n r c : nat} {pd : list bool} {W P D : matrix complex}
    {s : Fluid} (D' : matrix complex) :
  solver_ready n r c pd W P D s -> rect n (n / 2 + 1) D' ->
  solver_ready n r c pd W P D' (set_dwhdt (Some D') s).
Proof. intros H HD. destruct H. constructor; first [ assumption | reflexivity ]. Qed.


Lemma ready_set_w {n r c : nat} {pd : list bool} {W P D : matrix complex}
    {s : Fluid} (a : matrix R) :
  solver_ready n r c pd W P D s -> solver_ready n r c pd W P D (set_w a s).
Proof. intros H. destruct H. constructor; assumption. Qed.

(** A ready solver is a solver on a square grid. *)
Lemma ready_square {n r c : nat} {pd : list bool} {W P D : matrix complex}
    {s : Fluid} :
  solver_ready n r c pd W P D s -> square_solver n W P s.
Proof. intros H. destruct H. constructor; assumption. Qed.

Lemma square_k2_rect {n : nat} {W P : matrix complex} {s : Fluid} :
  square_solver n W P s -> rect n (n / 2 + 1) (wavenumber_sq s).
Proof.
  intros H. apply rect_k2_square; [ apply (sq_size H) | apply (sq_nk H)
    | apply (sq_kx H) | apply (sq_ky H) ].
Qed.

Lemma square_k2_zero {n : nat} {W P : matrix complex} {s : Fluid} (i j : nat) :
  square_solver n W P s -> (i < n)%nat -> (j < n / 2 + 1)%nat ->
  (mget 0 (wavenumber_sq s) i j = 0 <-> i = 0%nat /\ j = 0%nat).
Proof.
  intros H. apply k2_square_zero_iff; [ apply (sq_size H) | apply (sq_nk H)
    | apply (sq_kx H) | apply (sq_ky H) ].
Qed.

(** [_get_psih] on a square grid computes the inversion of the
    specification. *)
Lemma _get_psih_square {n : nat} {W P : matrix complex} {s : Fluid} :
  square_solver n W P s ->
  _get_psih s
  = Returned tt (set_psih (Some (poisson_invert (wavenumber_sq s) W)) s).
Proof.
  intros H. pose proof (sq_size H) as Hn.
  pose proof (square_k2_rect H) as HK.
  pose proof (rect_mmap (fun v => Rneb v 0) HK) as HM.
  unfold _get_psih. mstep.
  rewrite (sq_wh H). mstep. rewrite (sq_fk H). mstep.
  rewrite (sq_k2 H). mstep. rewrite (sq_psih H). mstep.
  unfold nonzero_mask.
  rewrite (same_shape_rect (sq_wh_rect H) HM), (same_shape_rect HK HM),
    (same_shape_rect (sq_psih_rect H) HM) by lia.
  cbn [andb]. do 3 f_equal.
  apply (matrix_ext C0 (r := n) (c := (n / 2 + 1)%nat)).
  - apply rect_masked_update; [ apply (sq_psih_rect H) | lia ].
  - unfold poisson_invert.
    rewrite (rect_nrows (sq_wh_rect H)), (rect_ncols (sq_wh_rect H)) by lia.
    apply rect_mk.
  - intros i j Hi Hj.
    rewrite (mget_masked_update C0 _ _ (sq_psih_rect H) Hi Hj).
    rewrite (mget_mmap _ 0 false HK Hi Hj).
    unfold poisson_invert.
    rewrite (rect_nrows (sq_wh_rect H)), (rect_ncols (sq_wh_rect H)) by lia.
    rewrite mget_mk by assumption.
    destruct (Rneb (mget 0 (wavenumber_sq s) i j) 0) eqn:E; [ reflexivity | ].
    apply Rneb_false in E. apply (square_k2_zero i j H Hi Hj) in E.
    destruct E as [-> ->]. apply (sq_psih_mean H).
Qed.

(** [_get_psih] on a ready solver computes the inversion of the
    specification. *)
Lemma _get_psih_ready {n r c : nat} {pd : list bool} {W P D : matrix complex}
    {s : Fluid} :
  solver_ready n r c pd W P D s ->
  _get_psih s
  = Returned tt (set_psih (Some (poisson_invert (wavenumber_sq s) W)) s).
Proof. intros H. exact (_get_psih_square (ready_square H)). Qed.

Lemma square_set_psih {n : nat} {W P : matrix complex} {s : Fluid}
    (P' : matrix complex) :
  square_solver n W P s ->
  rect n (n / 2 + 1) P' -> mget C0 P' 0 0 = C0 ->
  square_solver n W P' (set_psih (Some P') s).
Proof. intros H HP Hz. destruct H. constructor; first [ assumption | reflexivity ]. Qed.

Lemma square_after_get_psih {n : nat} {W P : matrix complex} {s : Fluid} :
  square_solver n W P s ->
  square_solver n W (poisson_invert (wavenumber_sq s) W)
    (set_psih (Some (poisson_invert (wavenumber_sq s) W)) s).
Proof.
  intros H. pose proof (sq_size H) as Hn.
  apply (square_set_psih _ H).
  - apply rect_poisson_invert; [ apply (sq_wh_rect H) | lia ].
  - rewrite (mget_poisson_invert _ (sq_wh_rect H)) by lia.
    rewrite (proj2 (square_k2_zero 0 0 H ltac:(lia) ltac:(lia)))
      by (split; reflexivity).
    unfold Rneb. destruct (Req_dec_T 0 0); [ reflexivity | congruence ].
Qed.

Lemma square_set_w0 {n : nat} {W P : matrix complex} {s : Fluid} (a : ndarray) :
  square_solver n W P s -> square_solver n W P (set_w0 a s).
Proof. intros H. destruct H. constructor; assumption. Qed.

(** The solver on the 4 x 6 grid: the spectral arrays have the shape
    [(nx, nk) = (4, 4)], the array [k2] and its mask the shape [(6, 4)]. *)
Lemma solver46_state :
  init_solver fluid46 = Returned tt solver46
  /\ nk solver46 = 4%nat
  /\ kx solver46 = wavenumbers 4 /\ ky solver46 = wavenumbers 6
  /\ k2 solver46 = Some (wavenumber_sq solver46)
  /\ fk solver46 = Some (nonzero_mask (wavenumber_sq solver46))
  /\ wh solver46 = Some (np_zeros C0 4 4)
  /\ psih solver46 = Some (np_zeros C0 4 4)
  /\ dwhdt solver46 = Some (np_zeros C0 4 4)
  /\ mx solver46 = Some 6%Z /\ mk solver46 = Some 6%Z
  /\ padder solver46 = Some (default_padder 4).
Proof.
  assert (E : Fluid_init (fun _ _ _ => 0) 4 6 1 default_dt default_pad
              = Val fluid46)
    by (unfold Fluid_init; rewrite !fftfreq_pos by lia; reflexivity).
  destruct (init_solver_default (fun _ _ _ => 0) 4 6 1 default_dt fluid46
              ltac:(lia) ltac:(lia) E)
    as (s1 & Hrun & _ & _ & Hnk & Hkx & Hky & _ & Hk2 & Hfk & Hwh & Hpsih
        & Hdw & Hmx & Hmk & Hpd).
  unfold solver46. rewrite Hrun. cbn [final_state].
  repeat split; assumption.
Qed.

(** C7.  On the grid [nx = 4], [ny = 6] the array [k2] that [init_solver]
    builds has the shape [(6, 4)], not [(nx, nk) = (4, 4)], and its entry
    [[3, 0]] is [kx[0]^2 + ky[3]^2 = 9], not [kx[3]^2 + ky[0]^2 = 1]; the
    arrays [wh], [psih] and [dwhdt] that [init_solver] allocates next to it,
    and that [_get_psih] indexes with the mask [k2 != 0], have the shape
    [(nx, nk) = (4, 4)]. *)
Lemma k2_not_nx_by_nk :
  Fluid_init (fun _ _ _ => 0) 4 6 1 default_dt default_pad = Val fluid46
  /\ k2 (final_state (init_solver fluid46)) = Some (wavenumber_sq fluid46)
  /\ shape (wavenumber_sq fluid46) = (6, 4)%nat
  /\ shape (wavenumber_sq fluid46) <> (nx fluid46, nk fluid46)
  /\ mget 0 (wavenumber_sq fluid46) 3 0 = 9
  /\ nth 3 (kx fluid46) 0 ^ 2 + nth 0 (ky fluid46) 0 ^ 2 = 1
  /\ mget 0 (wavenumber_sq fluid46) 3 0
     <> nth 3 (kx fluid46) 0 ^ 2 + nth 0 (ky fluid46) 0 ^ 2
  /\ wh (final_state (init_solver fluid46)) = Some (np_zeros C0 4 4)
  /\ psih (final_state (init_solver fluid46)) = Some (np_zeros C0 4 4)
  /\ dwhdt (final_state (init_solver fluid46)) = Some (np_zeros C0 4 4)
  /\ shape (np_zeros C0 4 4) = (4, 4)%nat.
Proof.
  assert (E1 : mget 0 (wavenumber_sq fluid46) 3 0 = 9).
  { cbn. field. }
  assert (E2 : nth 3 (kx fluid46) 0 ^ 2 + nth 0 (ky fluid46) 0 ^ 2 = 1).
  { cbn. field. }
  destruct solver46_state
    as (_ & _ & _ & _ & _ & _ & Hwh & Hpsih & Hdw & _).
  split; [ apply Fluid_init_pos; lia | ].
  split; [ apply init_solver_k2; reflexivity | ].
  split; [ reflexivity | ].
  split; [ cbn; intros H; discriminate H | ].
  split; [ exact E1 | ].
  split; [ exact E2 | ].
  split; [ rewrite E1, E2; lra | ].
  split; [ exact Hwh | ]. split; [ exact Hpsih | ]. split; [ exact Hdw | ].
  reflexivity.
Qed.

Lemma solver46_mask_shape (W : matrix complex) :
  rect 4 4 W ->
  same_shape W (nonzero_mask (wavenumber_sq solver46)) = false.
Proof.
  intros HW.
  destruct solver46_state as (_ & _ & _ & Hky & _).
  unfold same_shape, nonzero_mask.
  rewrite (rect_nrows HW),
    (rect_nrows (rect_mmap _ (rect_wavenumber_sq solver46))), Hky.
  rewrite length_wavenumbers by lia. reflexivity.
Qed.



(* ----------------------------------------------------------------- *)
(** ** Convection *)

Lemma mask_indices_bound (mask : list bool) (k i : nat) :
  In i (mask_indices k mask) -> (k <= i < k + length mask)%nat.
Proof.
  revert k. induction mask as [ | b mask IH]; intros k Hin; [ destruct Hin | ].
  destruct b; cbn in Hin.
  - destruct Hin as [<- | Hin]; [ cbn; lia | ].
    apply IH in Hin. cbn. lia.
  - apply IH in Hin. cbn. lia.
Qed.

Lemma nth_map_default {A B : Type} (f : A -> B) (da : A) (db : B) (l : list A)
    (i : nat) :
  (i < length l)%nat -> nth i (map f l) db = f (nth i l da).
Proof.
  intros H. rewrite (nth_indep _ db (f da)) by (rewrite length_map; exact H).
  apply map_nth.
Qed.

Lemma rect_zeros {A : Type} (z : A) (r c : nat) : rect r c (np_zeros z r c).
Proof. apply rect_mk. Qed.

Lemma put_rows_cols_zero_pad {r c n nkk : nat} (pd : list bool)
    {V : matrix complex} :
  length pd = r -> length (mask_indices 0 pd) = n -> (1 <= n)%nat ->
  (nkk <= c)%nat -> rect n nkk V ->
  put_rows_cols C0 (np_zeros C0 r c) pd nkk V = Val (zero_pad r c pd nkk V).
Proof.
  intros Hpd Hsel Hn Hc HV.
  assert (Hr : (1 <= r)%nat).
  { destruct (mask_indices 0 pd) as [ | i l] eqn:E; [ cbn in Hsel; lia | ].
    assert (Hin : In i (mask_indices 0 pd)) by (rewrite E; now left).
    apply mask_indices_bound in Hin. lia. }
  unfold put_rows_cols.
  rewrite (rect_nrows (rect_zeros C0 r c)), (rect_ncols (rect_zeros C0 r c) Hr).
  rewrite Hpd, Nat.eqb_refl, Hsel, (Nat.min_l nkk c Hc).
  rewrite (broadcast_to_same C0 HV Hn).
  f_equal. unfold zero_pad. apply mk_matrix_ext. intros i j Hi Hj.
  unfold np_zeros. rewrite mget_mk by assumption.
  destruct (index_of i (mask_indices 0 pd)); [ | reflexivity ].
  destruct (j <? nkk)%nat; reflexivity.
Qed.

Lemma rect_zero_pad (r c : nat) (pd : list bool) (n : nat) (A : matrix complex) :
  rect r c (zero_pad r c pd n A).
Proof. apply rect_mk. Qed.

Lemma rect_truncate {r c n nkk : nat} (pd : list bool) {A : matrix complex} :
  length pd = r -> length (mask_indices 0 pd) = n -> (nkk <= c)%nat ->
  rect r c A -> rect n nkk (truncate pd nkk A).
Proof.
  intros Hpd Hsel Hc HA. unfold truncate. split.
  - now rewrite length_map.
  - apply Forall_forall. intros row Hin.
    apply in_map_iff in Hin. destruct Hin as [i [<- Hin]].
    apply mask_indices_bound in Hin.
    rewrite length_firstn, (rect_row_length i HA) by lia. lia.
Qed.

Lemma take_rows_cols_truncate {r c : nat} (pd : list bool) (n : nat)
    {A : matrix complex} :
  length pd = r -> rect r c A ->
  take_rows_cols A pd n = Val (truncate pd n A).
Proof.
  intros Hpd HA. unfold take_rows_cols.
  now rewrite (rect_nrows HA), Hpd, Nat.eqb_refl.
Qed.

Lemma rect_to_physical {r c : nat} {a : matrix complex} :
  rect r c a -> (1 <= r)%nat -> (2 <= c)%nat ->
  rect r (2 * (c - 1)) (to_physical a).
Proof. intros Ha Hr Hc. now apply irfft2_rect. Qed.

Lemma rect_to_spectral {r c : nat} {a : matrix R} :
  rect r c a -> (1 <= r)%nat -> (1 <= c)%nat ->
  rect r (c / 2 + 1) (to_spectral a).
Proof. intros Ha Hr Hc. now apply rfft2_rect. Qed.

(** The two derivative products of the code are [ddx] and [ddy]. *)
Lemma broadcast2_ddx {n m : nat} (kxs : list R) {A : matrix complex} :
  length kxs = m -> rect n m A -> (1 <= n)%nat ->
  broadcast2 Cmul C0 C0 (as_row (map Cimul kxs)) A = Val (ddx kxs A).
Proof.
  intros Hl HA Hn.
  rewrite (broadcast2_row Cmul C0 C0 (map Cimul kxs)
             (eq_trans (length_map _ _) Hl) HA Hn).
  f_equal. unfold ddx. rewrite (rect_nrows HA), (rect_ncols HA Hn).
  apply mk_matrix_ext. intros i j Hi Hj.
  now rewrite (nth_map_default Cimul 0 C0) by lia.
Qed.

Lemma broadcast2_ddy {n m : nat} (kys : list R) {A : matrix complex} :
  length kys = n -> rect n m A -> (1 <= n)%nat ->
  broadcast2 Cmul C0 C0 (as_col (map Cimul kys)) A = Val (ddy kys A).
Proof.
  intros Hl HA Hn.
  rewrite (broadcast2_col Cmul C0 C0 (map Cimul kys)
             (eq_trans (length_map _ _) Hl) HA Hn).
  f_equal. unfold ddy. rewrite (rect_nrows HA), (rect_ncols HA Hn).
  apply mk_matrix_ext. intros i j Hi Hj.
  now rewrite (nth_map_default Cimul 0 C0) by lia.
Qed.

Lemma rect_ddx (kxs : list R) {n m : nat} {A : matrix complex} :
  rect n m A -> (1 <= n)%nat -> rect n m (ddx kxs A).
Proof.
  intros HA Hn. unfold ddx. rewrite (rect_nrows HA), (rect_ncols HA Hn).
  apply rect_mk.
Qed.

Lemma rect_ddy (kys : list R) {n m : nat} {A : matrix complex} :
  rect n m A -> (1 <= n)%nat -> rect n m (ddy kys A).
Proof.
  intros HA Hn. unfold ddy. rewrite (rect_nrows HA), (rect_ncols HA Hn).
  apply rect_mk.
Qed.

Lemma ready_lengths {n r c : nat} {pd : list bool} {W P D : matrix complex}
    {s : Fluid} :
  solver_ready n r c pd W P D s ->
  length (firstn (nk s) (kx s)) = (n / 2 + 1)%nat /\ length (ky s) = n
  /\ (n <= r)%nat /\ (2 <= n / 2 + 1)%nat.
Proof.
  intros H. pose proof (sr_size H) as Hn.
  pose proof (Nat.div_mod_eq n 2) as Hd.
  pose proof (Nat.mod_upper_bound n 2 ltac:(lia)) as Hm.
  rewrite length_firstn, (sr_kx H), (sr_ky H), (sr_nk H),
    length_wavenumbers by lia.
  split; [ apply Nat.min_l; lia | ]. split; [ reflexivity | ].
  split; [ | lia ].
  rewrite <- (sr_padder_sel H), <- (sr_padder_len H), length_mask_indices.
  apply filter_length_le.
Qed.

Lemma rect_convection {n r c : nat} (pd : list bool) (nkk : nat) (p : R)
    (kxs kys : list R) (P W : matrix complex) :
  length pd = r -> length (mask_indices 0 pd) = n -> (1 <= n)%nat ->
  (nkk <= c)%nat -> (2 <= c)%nat ->
  rect n nkk (convection pd r c nkk p kxs kys P W).
Proof.
  intros Hpd Hsel Hn Hc Hc2.
  assert (Hr : (1 <= r)%nat).
  { destruct (mask_indices 0 pd) as [ | i l] eqn:E; [ cbn in Hsel; lia | ].
    assert (Hin : In i (mask_indices 0 pd)) by (rewrite E; now left).
    apply mask_indices_bound in Hin. lia. }
  unfold convection. apply rect_mmap.
  apply (rect_truncate pd Hpd Hsel Hc (c := c)).
  pose proof (rect_to_spectral (rect_mk r (2 * (c - 1)) (fun i j =>
      mget 0 (to_physical (zero_pad r c pd nkk (ddx kxs P))) i j
      * mget 0 (to_physical (zero_pad r c pd nkk (ddy kys W))) i j
      - mget 0 (to_physical (zero_pad r c pd nkk (ddy kys P))) i j
        * mget 0 (to_physical (zero_pad r c pd nkk (ddx kxs W))) i j))
      Hr ltac:(lia)) as H.
  replace (2 * (c - 1) / 2 + 1)%nat with c in H; [ exact H | ].
  rewrite Nat.mul_comm, Nat.div_mul by lia. lia.
Qed.

(** [_add_convection] on a ready solver stores the convection term of the
    specification, whatever [dwhdt] held. *)
Lemma _add_convection_ready {n r c : nat} {pd : list bool}
    {W P D : matrix complex} {s : Fluid} :
  solver_ready n r c pd W P D s ->
  _add_convection s
  = Returned tt
      (set_dwhdt (Some (convection pd r c (nk s) (pad s)
                          (firstn (nk s) (kx s)) (ky s) P W)) s).
Proof.
  intros H. pose proof (sr_size H) as Hn.
  destruct (ready_lengths H) as (Lx & Ly & Hnr & Hk).
  pose proof (sr_cols H) as Hc.
  pose proof (sr_psih_rect H) as HP. pose proof (sr_wh_rect H) as HW.
  assert (Hn1 : (1 <= n)%nat) by lia.
  assert (Hr : (1 <= r)%nat) by lia.
  assert (Hc2 : (2 <= c)%nat) by lia.
  unfold _add_convection. mstep.
  rewrite (sr_mx H). mstep. rewrite (sr_mk H). mstep.
  rewrite !as_size_of_nat. mstep.
  rewrite (sr_padder H). mstep. rewrite (sr_psih H). mstep.
  rewrite (sr_wh H). mstep.
  rewrite (broadcast2_ddx _ Lx HP Hn1), (broadcast2_ddx _ Lx HW Hn1).
  rewrite (broadcast2_ddy _ Ly HP Hn1), (broadcast2_ddy _ Ly HW Hn1).
  mstep. rewrite (sr_nk H).
  rewrite !(put_rows_cols_zero_pad pd (sr_padder_len H) (sr_padder_sel H) Hn1 Hc)
    by (first [ now apply rect_ddx | now apply rect_ddy ]).
  mstep.
  repeat match goal with
  | |- context [irfft2 (zero_pad r c pd ?m ?A)] =>
      rewrite (proj1 (irfft2_rect (rect_zero_pad r c pd m A) Hr Hc2))
  end.
  mstep.
  repeat match goal with
  | |- context [broadcast2 ?f 0 0 (map irfft_list ?A) (map irfft_list ?B)] =>
      rewrite (broadcast2_same f 0 0
                 (proj2 (irfft2_rect (rect_zero_pad r c pd _ _) Hr Hc2))
                 (proj2 (irfft2_rect (rect_zero_pad r c pd _ _) Hr Hc2)) Hr)
  end.
  mstep.
  rewrite (broadcast2_same Rminus 0 0 (rect_mk _ _ _) (rect_mk _ _ _) Hr).
  mstep.
  match goal with
  | |- context [rfft2 (mk_matrix r ?cc ?f)] =>
      destruct (rfft2_rect (rect_mk r cc f) Hr ltac:(lia)) as [E HS];
      rewrite E
  end.
  mstep.
  replace (2 * (c - 1) / 2 + 1)%nat with c in HS
    by (rewrite Nat.mul_comm, Nat.div_mul by lia; lia).
  rewrite (take_rows_cols_truncate pd _ (sr_padder_len H) HS). mstep.
  rewrite (sr_dwhdt H). mstep.
  rewrite (rect_nrows (sr_dwhdt_rect H)), (rect_ncols (sr_dwhdt_rect H) Hn1).
  rewrite (broadcast_to_same C0
             (rect_mmap _ (rect_truncate pd (sr_padder_len H) (sr_padder_sel H)
                             Hc HS)) Hn1).
  mstep. do 3 f_equal.
  unfold convection, to_physical, to_spectral.
  do 4 f_equal. apply mk_matrix_ext. intros i j Hi Hj.
  now rewrite !mget_mk.
Qed.

Lemma solver4_ready :
  solver_ready 4 6 4 (padder_of 2)
    (np_zeros C0 4 3) (np_zeros C0 4 3) (np_zeros C0 4 3) solver4.
Proof.
  destruct (init_solver_ready (fun _ _ _ => 0) 2 1 default_dt ltac:(lia))
    as (s1 & Hrun & Hready & _).
  unfold solver4. change (fluid4 1) with (fresh (fun _ _ _ => 0) (2 * 2) 1 default_dt).
  rewrite Hrun. exact Hready.
Qed.

(** The solver that holds [field44], before and after [_get_psih]. *)
Lemma loaded4_state :
  loaded4 = set_wh (Some flow4_wh) (set_w field44 solver4)
  /\ solver_ready 4 6 4 (padder_of 2)
       flow4_wh (np_zeros C0 4 3) (np_zeros C0 4 3) loaded4.
Proof.
  assert (Ha : rect 4 4 field44) by apply rect_mk.
  assert (E : loaded4 = set_wh (Some flow4_wh) (set_w field44 solver4)).
  { unfold loaded4, init_field. mstep.
    rewrite (sr_nx solver4_ready), (sr_ny solver4_ready).
    rewrite (rect_nrows Ha), (rect_ncols Ha ltac:(lia)), !Nat.eqb_refl.
    cbn [andb]. mstep. unfold w_to_wh. mstep. cbn [w set_w].
    rewrite (proj1 (rfft2_rect Ha ltac:(lia) ltac:(lia))). reflexivity. }
  split; [ exact E | ]. rewrite E.
  apply (ready_set_wh _ (ready_set_w field44 solver4_ready)).
  exact (rect_to_spectral Ha ltac:(lia) ltac:(lia)).
Qed.

Lemma flow4_state :
  flow4 = set_psih (Some flow4_psih) loaded4
  /\ solver_ready 4 6 4 (padder_of 2)
       flow4_wh flow4_psih (np_zeros C0 4 3) flow4.
Proof.
  destruct loaded4_state as [E H].
  assert (Ek : wavenumber_sq loaded4 = wavenumber_sq solver4)
    by (rewrite E; reflexivity).
  assert (E2 : flow4 = set_psih (Some flow4_psih) loaded4).
  { unfold flow4. rewrite (_get_psih_ready H), Ek. reflexivity. }
  split; [ exact E2 | ]. rewrite E2.
  assert (HP : rect 4 (4 / 2 + 1) flow4_psih)
    by (apply rect_poisson_invert; [ apply (sr_wh_rect H) | lia ]).
  apply (ready_set_psih _ H HP).
  unfold flow4_psih. rewrite (mget_poisson_invert _ (sr_wh_rect H)) by lia.
  rewrite <- Ek, (proj2 (ready_k2_zero 0 0 H ltac:(lia) ltac:(lia)))
    by (split; reflexivity).
  unfold Rneb. destruct (Req_dec_T 0 0); [ reflexivity | congruence ].
Qed.


(** Operands whose numbers of rows do not broadcast. *)
Lemma broadcast2_rows_differ {A B C : Type} (f : A -> B -> C) (da : A) (db : B)
    (X : matrix A) (Y : matrix B) :
  bdim (nrows X) (nrows Y) = None -> broadcast2 f da db X Y = Exc "ValueError".
Proof. intros E. unfold broadcast2. now rewrite E. Qed.

Lemma nrows_as_col {A : Type} (l : list A) : nrows (as_col l) = length l.
Proof. unfold nrows, as_col. apply length_map. Qed.

(** On the 4 x 6 grid the product [ky[:, np.newaxis] * wh] of
    [_add_convection] does not broadcast: [ky] has six entries, [wh] four
    rows. *)
Lemma _add_convection_solver46 :
  _add_convection solver46 = Raised "ValueError" solver46.
Proof.
  destruct solver46_state
    as (_ & Hnk & Hkx & Hky & _ & _ & Hwh & Hpsih & _ & Hmx & Hmk & Hpd).
  assert (Lx : length (firstn 4 (wavenumbers 4)) = 4%nat)
    by (rewrite length_firstn, length_wavenumbers by lia; reflexivity).
  assert (HZ : rect 4 4 (np_zeros C0 4 4)) by apply rect_mk.
  unfold _add_convection. mstep.
  rewrite Hmx. mstep. rewrite Hmk. mstep.
  change 6%Z with (Z.of_nat 6). rewrite !as_size_of_nat. mstep.
  rewrite Hpd. mstep. rewrite Hpsih. mstep. rewrite Hwh. mstep.
  rewrite Hnk, Hkx, Hky.
  rewrite (broadcast2_ddx _ Lx HZ ltac:(lia)). mstep.
  rewrite (put_rows_cols_zero_pad (r := 6) (c := 6) (n := 4) (nkk := 4)
             (default_padder 4) eq_refl eq_refl ltac:(lia) ltac:(lia)
             (rect_ddx _ HZ ltac:(lia))).
  mstep.
  rewrite broadcast2_rows_differ; [ reflexivity | ].
  rewrite nrows_as_col, length_map, length_wavenumbers, (rect_nrows HZ) by lia.
  reflexivity.
Qed.

(** The solver on the 5 x 5 grid: a solver on a square grid whose padding
    mask, of [int(1.5 * 5) = 7] entries, selects four rows. *)
Lemma solver5_state :
  init_solver fluid5 = Returned tt solver5
  /\ square_solver 5 (np_zeros C0 5 3) (np_zeros C0 5 3) solver5
  /\ dwhdt solver5 = Some (np_zeros C0 5 3)
  /\ mx solver5 = Some 7%Z /\ mk solver5 = Some 4%Z
  /\ padder solver5 = Some (default_padder 5)
  /\ length (mask_indices 0 (default_padder 5)) = 4%nat.
Proof.
  destruct (init_solver_square (fun _ _ _ => 0) 5 1 default_dt ltac:(lia))
    as (s1 & Hrun & Hsq & Hdw & Hmx & Hmk & Hpd).
  unfold solver5, fluid5. rewrite Hrun. cbn [final_state].
  split; [ reflexivity | ]. split; [ exact Hsq | ].
  repeat split; first [ assumption | reflexivity ].
Qed.

(** On the 5 x 5 grid the first assignment
    [j1f_padded[self.padder, :self.nk] = ...] of [_add_convection] stores
    five rows into the four rows that the mask selects. *)
Lemma _add_convection_5x5 (s : Fluid) (W P : matrix complex) :
  square_solver 5 W P s ->
  mx s = Some 7%Z -> mk s = Some 4%Z -> padder s = Some (default_padder 5) ->
  _add_convection s = Raised "ValueError" s.
Proof.
  intros H Hmx Hmk Hpd.
  assert (Lx : length (firstn 3 (wavenumbers 5)) = 3%nat)
    by (rewrite length_firstn, length_wavenumbers by lia; reflexivity).
  pose proof (sq_psih_rect H) as HP. change (5 / 2 + 1)%nat with 3%nat in HP.
  unfold _add_convection. mstep.
  rewrite Hmx. mstep. rewrite Hmk. mstep.
  change 7%Z with (Z.of_nat 7). change 4%Z with (Z.of_nat 4).
  rewrite !as_size_of_nat. mstep.
  rewrite Hpd. mstep. rewrite (sq_psih H). mstep. rewrite (sq_wh H). mstep.
  rewrite (sq_nk H), (sq_kx H). change (5 / 2 + 1)%nat with 3%nat.
  rewrite (broadcast2_ddx _ Lx HP ltac:(lia)). mstep.
  unfold put_rows_cols.
  rewrite (rect_nrows (rect_zeros C0 7 4)),
    (rect_ncols (rect_zeros C0 7 4) ltac:(lia)).
  change (length (default_padder 5)) with 7%nat.
  change (length (mask_indices 0 (default_padder 5))) with 4%nat.
  change (Nat.min 3 4) with 3%nat. rewrite Nat.eqb_refl.
  unfold broadcast_to.
  rewrite (rect_nrows (rect_ddx _ HP ltac:(lia))). reflexivity.
Qed.

(** C5, as stated, fails on grids that are not square or, with the default
    padding, not even: on the 4 x 6 grid and on the 5 x 5 grid
    [_add_convection], called on the solver that [init_solver] returns,
    raises [ValueError] and leaves [dwhdt] as it was. *)
Lemma convection_fails_on_4x6_and_5x5 :
  init_solver fluid46 = Returned tt solver46
  /\ _add_convection solver46 = Raised "ValueError" solver46
  /\ init_solver fluid5 = Returned tt solver5
  /\ _add_convection solver5 = Raised "ValueError" solver5.
Proof.
  destruct solver5_state as (Hrun & Hsq & _ & Hmx & Hmk & Hpd & _).
  split; [ exact (proj1 solver46_state) | ].
  split; [ exact _add_convection_solver46 | ].
  split; [ exact Hrun | ].
  exact (_add_convection_5x5 solver5 _ _ Hsq Hmx Hmk Hpd).
Qed.

(** C5, amended.  On every solver state after [init_solver] on a square
    [n x n] grid whose padding mask selects [n] rows (with the default
    padding: [n] even), [_add_convection] overwrites [dwhdt] with the
    convection term: the four derivative fields of [psih] and [wh] are
    zero-padded and inverse-transformed to [j1 .. j4], the product
    combination [j1 j2 - j3 j4] is transformed forward, truncated to shape
    [(n, nk)] through the padder rows and the first [nk] columns, and
    rescaled by [pad^2].  The result is a function of [psih], [wh] and the
    grid data alone: it is the same whatever array [D0] the accumulator
    [dwhdt] held before the call. *)
Theorem convection_resets_accumulator :
  forall (n r c : nat) (pd : list bool) (W P D : matrix complex) (s : Fluid),
    solver_ready n r c pd W P D s ->
    exists j1 j2 j3 j4 : matrix R,
      irfft2 (zero_pad r c pd (nk s) (ddx (firstn (nk s) (kx s)) P)) = Val j1
      /\ irfft2 (zero_pad r c pd (nk s) (ddy (ky s) W)) = Val j2
      /\ irfft2 (zero_pad r c pd (nk s) (ddy (ky s) P)) = Val j3
      /\ irfft2 (zero_pad r c pd (nk s) (ddx (firstn (nk s) (kx s)) W)) = Val j4
      /\ exists (jacpf conv : matrix complex),
          rfft2 (mk_matrix r (2 * (c - 1)) (fun i j =>
                   mget 0 j1 i j * mget 0 j2 i j - mget 0 j3 i j * mget 0 j4 i j))
          = Val jacpf
          /\ conv = mmap (Cscale (pad s ^ 2)) (truncate pd (nk s) jacpf)
          /\ rect n (nk s) conv
          /\ _add_convection s = Returned tt (set_dwhdt (Some conv) s)
          /\ forall D0 : matrix complex,
               rect n (nk s) D0 ->
               _add_convection (set_dwhdt (Some D0) s)
               = Returned tt (set_dwhdt (Some conv) s).
Proof.
  intros n r c pd W P D s H. pose proof (sr_size H) as Hn.
  destruct (ready_lengths H) as (Lx & Ly & Hnr & Hk).
  pose proof (sr_cols H) as Hc.
  assert (Hr : (1 <= r)%nat) by lia.
  assert (Hc2 : (2 <= c)%nat) by lia.
  exists (to_physical (zero_pad r c pd (nk s) (ddx (firstn (nk s) (kx s)) P))),
    (to_physical (zero_pad r c pd (nk s) (ddy (ky s) W))),
    (to_physical (zero_pad r c pd (nk s) (ddy (ky s) P))),
    (to_physical (zero_pad r c pd (nk s) (ddx (firstn (nk s) (kx s)) W))).
  repeat (split; [ apply (irfft2_rect (rect_zero_pad r c pd _ _) Hr Hc2) | ]).
  eexists. exists (convection pd r c (nk s) (pad s) (firstn (nk s) (kx s)) (ky s) P W).
  split; [ apply (rfft2_rect (rect_mk _ _ _) Hr); lia | ].
  split; [ reflexivity | ].
  split.
  { rewrite (sr_nk H).
    apply (rect_convection pd _ _ _ _ _ _ (sr_padder_len H) (sr_padder_sel H));
      lia. }
  split; [ apply (_add_convection_ready H) | ].
  intros D0 HD0. rewrite (sr_nk H) in HD0.
  apply (_add_convection_ready (ready_set_dwhdt D0 H HD0)).
Qed.

Lemma convection_resets_accumulator_witness :
  solver_ready 4 6 4 (padder_of 2) flow4_wh flow4_psih (np_zeros C0 4 3) flow4
  /\ exists j1 j2 j3 j4 : matrix R,
      irfft2 (zero_pad 6 4 (padder_of 2) (nk flow4)
                (ddx (firstn (nk flow4) (kx flow4)) flow4_psih)) = Val j1
      /\ irfft2 (zero_pad 6 4 (padder_of 2) (nk flow4)
                   (ddy (ky flow4) flow4_wh)) = Val j2
      /\ irfft2 (zero_pad 6 4 (padder_of 2) (nk flow4)
                   (ddy (ky flow4) flow4_psih)) = Val j3
      /\ irfft2 (zero_pad 6 4 (padder_of 2) (nk flow4)
                   (ddx (firstn (nk flow4) (kx flow4)) flow4_wh)) = Val j4
      /\ exists (jacpf conv : matrix complex),
          rfft2 (mk_matrix 6 (2 * (4 - 1)) (fun i j =>
                   mget 0 j1 i j * mget 0 j2 i j - mget 0 j3 i j * mget 0 j4 i j))
          = Val jacpf
          /\ conv = mmap (Cscale (pad flow4 ^ 2))
                      (truncate (padder_of 2) (nk flow4) jacpf)
          /\ rect 4 (nk flow4) conv
          /\ _add_convection flow4 = Returned tt (set_dwhdt (Some conv) flow4)
          /\ forall D0 : matrix complex,
               rect 4 (nk flow4) D0 ->
               _add_convection (set_dwhdt (Some D0) flow4)
               = Returned tt (set_dwhdt (Some conv) flow4).
Proof.
  split; [ exact (proj2 flow4_state) | ].
  apply (convection_resets_accumulator 4 6 4 (padder_of 2) flow4_wh
           flow4_psih (np_zeros C0 4 3) flow4).
  exact (proj2 flow4_state).
Defined.

(* ----------------------------------------------------------------- *)
(** ** Diffusion and the CFL limit *)

Lemma _add_diffusion_ready {n r c : nat} {pd : list bool}
    {W P D : matrix complex} {s : Fluid} :
  solver_ready n r c pd W P D s ->
  _add_diffusion s
  = Returned tt (set_dwhdt (Some (diffuse (ReI s) (wavenumber_sq s) W D)) s).
Proof.
  intros H. pose proof (sr_size H) as Hn.
  assert (Hn1 : (1 <= n)%nat) by lia.
  pose proof (ready_k2_rect H) as HK.
  pose proof (rect_mmap (fun e => ReI s * e) HK) as HK'.
  unfold _add_diffusion. mstep.
  rewrite (sr_dwhdt H). mstep. rewrite (sr_k2 H). mstep.
  rewrite (sr_wh H). mstep.
  rewrite (broadcast2_same Cscale 0 C0 HK' (sr_wh_rect H) Hn1). mstep.
  rewrite (rect_nrows (sr_dwhdt_rect H)), (rect_ncols (sr_dwhdt_rect H) Hn1).
  rewrite (broadcast_to_same C0 (rect_mk _ _ _) Hn1). mstep.
  rewrite (broadcast2_same Csub C0 C0 (sr_dwhdt_rect H) (rect_mk _ _ _) Hn1).
  mstep. do 3 f_equal. unfold diffuse.
  rewrite (rect_nrows (sr_dwhdt_rect H)), (rect_ncols (sr_dwhdt_rect H) Hn1).
  apply mk_matrix_ext. intros i j Hi Hj.
  rewrite mget_mk by assumption.
  now rewrite (mget_mmap (fun e => ReI s * e) 0 0 HK Hi Hj).
Qed.

Lemma rect_diffuse (ri : R) (K : matrix R) (W : matrix complex) {r c : nat}
    {acc : matrix complex} :
  rect r c acc -> (1 <= r)%nat -> rect r c (diffuse ri K W acc).
Proof.
  intros HA Hr. unfold diffuse. rewrite (rect_nrows HA), (rect_ncols HA Hr).
  apply rect_mk.
Qed.

Lemma rect_advance (h : R) (k : Z) (acc : matrix complex) {r c : nat}
    {W0 : matrix complex} :
  rect r c W0 -> (1 <= r)%nat -> rect r c (advance W0 h k acc).
Proof.
  intros HA Hr. unfold advance. rewrite (rect_nrows HA), (rect_ncols HA Hr).
  apply rect_mk.
Qed.

Lemma np_max_grid_max (M : matrix R) :
  concat M <> [] -> np_max M = Val (grid_max M).
Proof.
  unfold np_max, grid_max. destruct (concat M); [ congruence | reflexivity ].
Qed.

Lemma concat_mk_nonempty {A : Type} (r c : nat) (f : nat -> nat -> A) :
  (1 <= r)%nat -> (1 <= c)%nat -> concat (mk_matrix r c f) <> [].
Proof.
  intros Hr Hc E.
  destruct r as [ | r]; [ lia | ]. destruct c as [ | c]; [ lia | ].
  cbn in E. discriminate E.
Qed.

Lemma rect_velocity_u {n m : nat} (kys : list R) {P : matrix complex} :
  rect n m P -> (1 <= n)%nat -> (2 <= m)%nat ->
  rect n (2 * (m - 1)) (velocity_u kys P).
Proof.
  intros HP Hn Hm. unfold velocity_u.
  apply rect_to_physical; [ now apply rect_ddy | exact Hn | exact Hm ].
Qed.

Lemma rect_velocity_v {n m : nat} (kxs : list R) {P : matrix complex} :
  rect n m P -> (1 <= n)%nat -> (2 <= m)%nat ->
  rect n (2 * (m - 1)) (velocity_v kxs P).
Proof.
  intros HP Hn Hm. unfold velocity_v. apply rect_mmap.
  apply rect_to_physical; [ now apply rect_ddx | exact Hn | exact Hm ].
Qed.

Lemma square_lengths {n : nat} {W P : matrix complex} {s : Fluid} :
  square_solver n W P s ->
  length (firstn (nk s) (kx s)) = (n / 2 + 1)%nat /\ length (ky s) = n
  /\ (2 <= n / 2 + 1)%nat.
Proof.
  intros H. pose proof (sq_size H) as Hn.
  pose proof (Nat.div_mod_eq n 2) as Hd.
  pose proof (Nat.mod_upper_bound n 2 ltac:(lia)) as Hm.
  rewrite length_firstn, (sq_kx H), (sq_ky H), (sq_nk H),
    length_wavenumbers by lia.
  split; [ apply Nat.min_l; lia | ]. split; [ reflexivity | lia ].
Qed.

(** [_cfl_limit] on a square grid. *)
Lemma _cfl_limit_square {n : nat} {W P : matrix complex} {s : Fluid} :
  square_solver n W P s ->
  _cfl_limit s = Returned tt (after_cfl s P).
Proof.
  intros H. pose proof (sq_size H) as Hn.
  destruct (square_lengths H) as (Lx & Ly & Hk).
  assert (Hn1 : (1 <= n)%nat) by lia.
  pose proof (sq_psih_rect H) as HP.
  pose proof (rect_velocity_u (ky s) HP Hn1 Hk) as HU.
  pose proof (rect_velocity_v (firstn (nk s) (kx s)) HP Hn1 Hk) as HV.
  unfold _cfl_limit, get_u, get_v. mstep.
  rewrite (sq_psih H). mstep.
  rewrite (broadcast2_ddy _ Ly HP Hn1). mstep.
  rewrite (proj1 (irfft2_rect (rect_ddy (ky s) HP Hn1) Hn1 Hk)). mstep.
  cbn [psih set_u kx nk].
  rewrite (sq_psih H). mstep.
  rewrite (broadcast2_ddx _ Lx HP Hn1). mstep.
  rewrite (proj1 (irfft2_rect (rect_ddx (firstn (nk s) (kx s)) HP Hn1) Hn1 Hk)).
  mstep. cbn [u v set_v set_u dx dy].
  fold (to_physical (ddy (ky s) P)). fold (velocity_u (ky s) P).
  fold (to_physical (ddx (firstn (nk s) (kx s)) P)).
  fold (velocity_v (firstn (nk s) (kx s)) P).
  rewrite (broadcast2_same (fun a b => PI * (a + b)) 0 0
             (rect_mmap (fun e => (1 + Rabs e) / dx s) HU)
             (rect_mmap (fun e => (1 + Rabs e) / dy s) HV) Hn1).
  mstep.
  rewrite np_max_grid_max by (apply concat_mk_nonempty; lia).
  mstep. unfold after_cfl. do 2 f_equal.
  unfold cfl_dt, cfl_Dc, cfl_Dmu.
  rewrite (rect_nrows HU), (rect_ncols HU Hn1).
  do 3 f_equal. apply mk_matrix_ext. intros i j Hi Hj.
  rewrite (mget_mmap (fun e => (1 + Rabs e) / dx s) 0 0 HU Hi Hj).
  rewrite (mget_mmap (fun e => (1 + Rabs e) / dy s) 0 0 HV Hi Hj).
  reflexivity.
Qed.

(** [_cfl_limit] on a ready solver. *)
Lemma _cfl_limit_ready {n r c : nat} {pd : list bool}
    {W P D : matrix complex} {s : Fluid} :
  solver_ready n r c pd W P D s ->
  _cfl_limit s = Returned tt (after_cfl s P).
Proof. intros H. exact (_cfl_limit_square (ready_square H)). Qed.

Lemma grid_max_spec (r c : nat) (f : nat -> nat -> R) :
  (1 <= r)%nat -> (1 <= c)%nat ->
  (exists i j, (i < r)%nat /\ (j < c)%nat /\ grid_max (mk_matrix r c f) = f i j)
  /\ forall i j, (i < r)%nat -> (j < c)%nat -> f i j <= grid_max (mk_matrix r c f).
Proof.
  intros Hr Hc.
  pose proof (np_max_grid_max (mk_matrix r c f) (concat_mk_nonempty r c f Hr Hc)) as E.
  destruct (np_max_spec _ _ E) as [Hin Hmax].
  split.
  - destruct (concat_in_mget 0 (rect_mk r c f) Hin) as (i & j & Hi & Hj & Eij).
    exists i, j. split; [ exact Hi | ]. split; [ exact Hj | ].
    rewrite Eij. now apply mget_mk.
  - intros i j Hi Hj. apply Hmax.
    rewrite <- (mget_mk 0 r c f i j Hi Hj).
    exact (in_concat_mget 0 (rect_mk r c f) Hi Hj).
Qed.

Lemma ready_with_viscosity {n r c : nat} {pd : list bool}
    {W P D : matrix complex} {s : Fluid} (re0 ri : R) :
  solver_ready n r c pd W P D s ->
  solver_ready n r c pd W P D (with_viscosity re0 ri s).
Proof. intros H. destruct H. constructor; assumption. Qed.





(* ----------------------------------------------------------------- *)
(** ** The time step *)

Lemma install_ready {n r c : nat} {pd : list bool} {W P D : matrix complex}
    {s : Fluid} (d : stage_data) :
  solver_ready n r c pd W P D s ->
  rect n (n / 2 + 1) (sd_wh d) -> rect n (n / 2 + 1) (sd_psih d) ->
  mget C0 (sd_psih d) 0 0 = C0 -> rect n (n / 2 + 1) (sd_acc d) ->
  solver_ready n r c pd (sd_wh d) (sd_psih d) (sd_acc d) (install d s).
Proof.
  intros H H1 H2 H3 H4. destruct H.
  constructor; first [ assumption | reflexivity ].
Qed.

Lemma install_same {n r c : nat} {pd : list bool} {W P D : matrix complex}
    {s : Fluid} :
  solver_ready n r c pd W P D s -> install (mkStage W P D) s = s.
Proof.
  intros H. pose proof (sr_wh H) as H1. pose proof (sr_psih H) as H2.
  pose proof (sr_dwhdt H) as H3. clear H.
  destruct s. cbn in *. subst. reflexivity.
Qed.

Lemma rk_stage_shapes {n r c : nat} {pd : list bool} {W P D : matrix complex}
    {s : Fluid} (W0 : matrix complex) (h : R) (k : Z) :
  solver_ready n r c pd W P D s -> rect n (n / 2 + 1) W0 ->
  let d := rk_stage (grid_of s r c pd) W0 h k (mkStage W P D) in
  rect n (n / 2 + 1) (sd_wh d) /\ rect n (n / 2 + 1) (sd_psih d)
  /\ mget C0 (sd_psih d) 0 0 = C0 /\ rect n (n / 2 + 1) (sd_acc d).
Proof.
  intros H HW0 d. pose proof (sr_size H) as Hn.
  destruct (ready_lengths H) as (Lx & Ly & Hnr & Hk).
  assert (Hn1 : (1 <= n)%nat) by lia.
  assert (Hacc : rect n (n / 2 + 1) (sd_acc d)).
  { unfold d, rk_stage. cbn [sd_acc sd_wh grid_of gd_k2 gd_kx gd_ky gd_nk gd_rows
                               gd_cols gd_padder gd_pad gd_ReI].
    apply rect_diffuse; [ | exact Hn1 ].
    rewrite (sr_nk H).
    apply (rect_convection pd _ _ _ _ _ _ (sr_padder_len H) (sr_padder_sel H));
      [ lia | apply (sr_cols H) | pose proof (sr_cols H); lia ]. }
  split; [ | split; [ | split ] ].
  - unfold d, rk_stage. cbn [sd_wh]. now apply rect_advance.
  - unfold d, rk_stage. cbn [sd_psih sd_wh grid_of gd_k2].
    apply rect_poisson_invert; [ apply (sr_wh_rect H) | exact Hn1 ].
  - unfold d, rk_stage. cbn [sd_psih sd_wh grid_of gd_k2].
    rewrite (mget_poisson_invert _ (sr_wh_rect H)) by lia.
    assert (Hz : mget 0 (wavenumber_sq s) 0 0 = 0).
    { apply (ready_k2_zero 0 0 H); [ lia | lia | now split ]. }
    rewrite Hz. unfold Rneb.
    destruct (Req_dec_T 0 0); [ reflexivity | congruence ].
  - exact Hacc.
Qed.

(** One pass of the loop body on a ready solver is the stage of the
    specification. *)
Lemma update_stage_ready {n r c : nat} {pd : list bool}
    {W P D : matrix complex} {s : Fluid} (W0 : matrix complex) (k : Z) :
  solver_ready n r c pd W P D s ->
  w0 s = ComplexArr W0 -> rect n (n / 2 + 1) W0 ->
  update_stage k s
  = Returned tt
      (install (rk_stage (grid_of s r c pd) W0 (dt s) k (mkStage W P D)) s).
Proof.
  intros H Hw0 HW0. pose proof (sr_size H) as Hn.
  assert (Hn1 : (1 <= n)%nat) by lia.
  destruct (ready_lengths H) as (Lx & Ly & Hnr & Hk).
  destruct (rk_stage_shapes W0 (dt s) k H HW0) as (S1 & S2 & S3 & S4).
  unfold rk_stage in S1, S2, S3, S4.
  cbn [sd_wh sd_psih sd_acc grid_of gd_k2 gd_kx gd_ky gd_nk gd_rows
       gd_cols gd_padder gd_pad gd_ReI] in S1, S2, S3, S4.
  set (P' := poisson_invert (wavenumber_sq s) W) in *.
  set (s1 := set_psih (Some P') s).
  assert (H1 : solver_ready n r c pd W P' D s1)
    by exact (ready_set_psih P' H S2 S3).
  set (conv := convection pd r c (nk s1) (pad s1) (firstn (nk s1) (kx s1))
                 (ky s1) P' W).
  assert (Hconv : rect n (n / 2 + 1) conv).
  { unfold conv. rewrite (sr_nk H1).
    apply (rect_convection pd _ _ _ _ _ _ (sr_padder_len H) (sr_padder_sel H));
      [ lia | apply (sr_cols H) | pose proof (sr_cols H); lia ]. }
  set (s2 := set_dwhdt (Some conv) s1).
  assert (H2 : solver_ready n r c pd W P' conv s2)
    by exact (ready_set_dwhdt conv H1 Hconv).
  unfold update_stage. mstep.
  rewrite (_get_psih_ready H). fold P'. fold s1. mstep.
  rewrite (_add_convection_ready H1). fold conv. fold s2. mstep.
  rewrite (_add_diffusion_ready H2). mstep.
  change (wavenumber_sq s2) with (wavenumber_sq s).
  subst s2 conv s1.
  cbn [w0 dt dwhdt ReI nk pad kx ky set_dwhdt set_psih].
  rewrite Hw0. cbn [to_complex].
  rewrite (broadcast2_same Cadd C0 C0 HW0
             (rect_mmap (Cscale (dt s / IZR k)) S4) Hn1).
  mstep. f_equal. unfold install, rk_stage.
  cbn [sd_wh sd_psih sd_acc grid_of gd_k2 gd_kx gd_ky gd_nk gd_rows
       gd_cols gd_padder gd_pad gd_ReI].
  fold P'.
  set (conv := convection pd r c (nk s) (pad s) (firstn (nk s) (kx s)) (ky s)
                 P' W) in *.
  assert (E : mk_matrix n (n / 2 + 1) (fun i j =>
                Cadd (mget C0 W0 i j)
                  (mget C0 (mmap (Cscale (dt s / IZR k))
                              (diffuse (ReI s) (wavenumber_sq s) W conv)) i j))
              = advance W0 (dt s) k (diffuse (ReI s) (wavenumber_sq s) W conv)).
  { unfold advance. rewrite (rect_nrows HW0), (rect_ncols HW0 Hn1).
    apply mk_matrix_ext. intros i j Hi Hj.
    now rewrite (mget_mmap (Cscale (dt s / IZR k)) C0 C0 S4 Hi Hj). }
  rewrite E. reflexivity.
Qed.

(** The loop over the stages. *)
Lemma for_each_stage_ready (ks : list Z) :
  forall (n r c : nat) (pd : list bool) (W P D W0 : matrix complex) (s : Fluid),
    solver_ready n r c pd W P D s ->
    w0 s = ComplexArr W0 -> rect n (n / 2 + 1) W0 ->
    let d := rk_stages (grid_of s r c pd) W0 (dt s) ks (mkStage W P D) in
    for_each ks update_stage s = Returned tt (install d s)
    /\ solver_ready n r c pd (sd_wh d) (sd_psih d) (sd_acc d) (install d s).
Proof.
  induction ks as [ | k ks IH]; intros n r c pd W P D W0 s H Hw0 HW0 d.
  - unfold d. cbn [rk_stages for_each]. rewrite (install_same H).
    split; [ reflexivity | exact H ].
  - cbn [for_each]. mstep. rewrite (update_stage_ready W0 k H Hw0 HW0).
    destruct (rk_stage_shapes W0 (dt s) k H HW0) as (S1 & S2 & S3 & S4).
    set (d1 := rk_stage (grid_of s r c pd) W0 (dt s) k (mkStage W P D)) in *.
    pose proof (install_ready d1 H S1 S2 S3 S4) as H1.
    destruct (IH n r c pd (sd_wh d1) (sd_psih d1) (sd_acc d1) W0 (install d1 s)
                H1 Hw0 HW0) as [E1 R1].
    assert (Ed : mkStage (sd_wh d1) (sd_psih d1) (sd_acc d1) = d1)
      by (destruct d1; reflexivity).
    rewrite Ed in E1, R1.
    change (grid_of (install d1 s) r c pd) with (grid_of s r c pd) in E1, R1.
    change (dt (install d1 s)) with (dt s) in E1, R1.
    split; [ exact E1 | exact R1 ].
Qed.

Lemma range_down_pos (sz : Z) :
  (1 <= sz)%Z -> range_down sz = sz :: range_down (sz - 1).
Proof.
  intros H. unfold range_down.
  replace (Z.to_nat sz) with (S (Z.to_nat (sz - 1))) by lia.
  cbn [seq map]. f_equal; [ lia | ].
  rewrite <- seq_shift, map_map. apply map_ext. intros i. lia.
Qed.

Lemma range_down_spec (sz : Z) (k : Z) :
  In k (range_down sz) <-> (1 <= k <= sz)%Z.
Proof.
  unfold range_down. rewrite in_map_iff. split.
  - intros [i [<- Hi]]. apply in_seq in Hi. lia.
  - intros Hk. exists (Z.to_nat (sz - k)). split; [ lia | ].
    apply in_seq. lia.
Qed.

Lemma ready_set_w0 {n r c : nat} {pd : list bool} {W P D : matrix complex}
    {s : Fluid} (a : ndarray) :
  solver_ready n r c pd W P D s -> solver_ready n r c pd W P D (set_w0 a s).
Proof. intros H. destruct H. constructor; assumption. Qed.

Lemma ready_set_time {n r c : nat} {pd : list bool} {W P D : matrix complex}
    {s : Fluid} (t : R) :
  solver_ready n r c pd W P D s -> solver_ready n r c pd W P D (set_time t s).
Proof. intros H. destruct H. constructor; assumption. Qed.

Lemma ready_set_it {n r c : nat} {pd : list bool} {W P D : matrix complex}
    {s : Fluid} (i : Z) :
  solver_ready n r c pd W P D s -> solver_ready n r c pd W P D (set_it i s).
Proof. intros H. destruct H. constructor; assumption. Qed.

Lemma ready_after_cfl {n r c : nat} {pd : list bool} {W P D : matrix complex}
    {s : Fluid} (Q : matrix complex) :
  solver_ready n r c pd W P D s -> solver_ready n r c pd W P D (after_cfl s Q).
Proof. intros H. destruct H. constructor; assumption. Qed.

(** [update(s)] on a ready solver, for every [s]: the stages of
    [range(s, 0, -1)], then [time], [it] and the CFL step size. *)
Lemma update_ready {n r c : nat} {pd : list bool} {W P D : matrix complex}
    {s : Fluid} (sz : Z) :
  solver_ready n r c pd W P D s ->
  let d := rk_stages (grid_of s r c pd) W (dt s) (range_down sz)
             (mkStage W P D) in
  let s' := after_cfl
              (set_it (it s + 1)%Z
                 (set_time (time s + dt s)
                    (install d (set_w0 (ComplexArr W) s))))
              (sd_psih d) in
  update sz s = Returned tt s'
  /\ solver_ready n r c pd (sd_wh d) (sd_psih d) (sd_acc d) s'.
Proof.
  intros H d s'.
  pose proof (ready_set_w0 (ComplexArr W) H) as H0.
  destruct (for_each_stage_ready (range_down sz) n r c pd W P D W
              (set_w0 (ComplexArr W) s) H0 eq_refl (sr_wh_rect H)) as [Eloop Hd].
  change (grid_of (set_w0 (ComplexArr W) s) r c pd) with (grid_of s r c pd)
    in Eloop, Hd.
  change (dt (set_w0 (ComplexArr W) s)) with (dt s) in Eloop, Hd.
  fold d in Eloop, Hd.
  pose proof (ready_set_it (it s + 1)%Z (ready_set_time (time s + dt s) Hd)) as H2.
  split; [ | exact (ready_after_cfl (sd_psih d) H2) ].
  unfold update. mstep. rewrite (sr_wh H). mstep.
  rewrite Eloop. mstep.
  apply (_cfl_limit_ready H2).
Qed.

(** C4, as stated, fails on grids that are not square or, with the default
    padding, not even.  On the solver that [init_solver] returns on the
    4 x 6 grid, [update(3)] raises [IndexError] in the [_get_psih] of its
    first stage; on the 5 x 5 grid it raises [ValueError] in the
    [_add_convection] of its first stage.  In both cases [time] and [it]
    are not advanced. *)
Lemma update_fails_on_4x6_and_5x5 :
  init_solver fluid46 = Returned tt solver46
  /\ update 3 solver46
     = Raised "IndexError" (set_w0 (ComplexArr (np_zeros C0 4 4)) solver46)
  /\ init_solver fluid5 = Returned tt solver5
  /\ raises "ValueError" (update 3 solver5)
  /\ time (final_state (update 3 solver5)) = time solver5
  /\ it (final_state (update 3 solver5)) = it solver5.
Proof.
  destruct solver46_state
    as (Hrun & _ & _ & _ & Hk2 & Hfk & Hwh & Hpsih & _).
  destruct solver5_state as (Hrun5 & Hsq & _ & Hmx & Hmk & Hpd & _).
  split; [ exact Hrun | ].
  split.
  { unfold update. mstep. rewrite Hwh. mstep.
    rewrite (range_down_pos 3 ltac:(lia)). cbn [for_each].
    unfold update_stage. mstep.
    set (s0 := set_w0 (ComplexArr (np_zeros C0 4 4)) solver46).
    assert (E : _get_psih s0 = Raised "IndexError" s0).
    { unfold _get_psih. mstep.
      change (wh s0) with (wh solver46). rewrite Hwh. mstep.
      change (fk s0) with (fk solver46). rewrite Hfk. mstep.
      change (k2 s0) with (k2 solver46). rewrite Hk2. mstep.
      change (psih s0) with (psih solver46). rewrite Hpsih. mstep.
      rewrite (solver46_mask_shape (np_zeros C0 4 4) (rect_mk 4 4 _)).
      reflexivity. }
    rewrite E. reflexivity. }
  split; [ exact Hrun5 | ].
  assert (E : exists s', update 3 solver5 = Raised "ValueError" s'
                         /\ time s' = time solver5 /\ it s' = it solver5).
  { unfold update. mstep. rewrite (sq_wh Hsq). mstep.
    rewrite (range_down_pos 3 ltac:(lia)). cbn [for_each].
    unfold update_stage. mstep.
    pose proof (square_set_w0 (ComplexArr (np_zeros C0 5 3)) Hsq) as H0.
    rewrite (_get_psih_square H0). mstep.
    rewrite (_add_convection_5x5 _ _ _ (square_after_get_psih H0) Hmx Hmk Hpd).
    eexists. split; [ reflexivity | ]. split; reflexivity. }
  destruct E as (s' & E & Ht & Hi). rewrite E.
  split; [ reflexivity | ]. split; assumption.
Qed.

(** C4, amended.  On every solver state after [init_solver] on a square
    [n x n] grid whose padding mask selects [n] rows (with the default
    padding: [n] even), a call [update(s)] with [s >= 1] saves [w0 := wh],
    runs the stages [k = s, s - 1, ..., 1] of the specification (each
    recomputes [psih] from the current [wh], sets the accumulator to
    convection plus diffusion and sets [wh := w0 + (dt/k) * accumulator])
    with the step size [dt] held at entry, then adds that same [dt] to
    [time], adds 1 to [it], and only then recomputes [dt] from the CFL
    estimate of the last stream function.  The solver is ready again
    afterwards, so the next call uses the [dt] computed at the end of this
    one. *)
Theorem update_semantics :
  forall (n r c : nat) (pd : list bool) (W P D : matrix complex) (s : Fluid)
         (sz : Z),
    solver_ready n r c pd W P D s ->
    (1 <= sz)%Z ->
    exists (d : stage_data) (s' : Fluid),
      range_down sz = sz :: range_down (sz - 1)
      /\ (forall k, In k (range_down sz) <-> (1 <= k <= sz)%Z)
      /\ d = rk_stages (grid_of s r c pd) W (dt s) (range_down sz) (mkStage W P D)
      /\ update sz s = Returned tt s'
      /\ w0 s' = ComplexArr W
      /\ wh s' = Some (sd_wh d)
      /\ psih s' = Some (sd_psih d)
      /\ dwhdt s' = Some (sd_acc d)
      /\ time s' = time s + dt s
      /\ it s' = (it s + 1)%Z
      /\ dt s' = cfl_dt (dx s) (dy s) (velocity_u (ky s) (sd_psih d))
                   (velocity_v (firstn (nk s) (kx s)) (sd_psih d))
      /\ s' = after_cfl
                (set_it (it s + 1)%Z
                   (set_time (time s + dt s)
                      (install d (set_w0 (ComplexArr W) s))))
                (sd_psih d)
      /\ solver_ready n r c pd (sd_wh d) (sd_psih d) (sd_acc d) s'.
Proof.
  intros n r c pd W P D s sz H Hsz.
  pose proof (ready_set_w0 (ComplexArr W) H) as H0.
  destruct (for_each_stage_ready (range_down sz) n r c pd W P D W
              (set_w0 (ComplexArr W) s) H0 eq_refl (sr_wh_rect H)) as [Eloop Hd].
  change (grid_of (set_w0 (ComplexArr W) s) r c pd) with (grid_of s r c pd)
    in Eloop, Hd.
  change (dt (set_w0 (ComplexArr W) s)) with (dt s) in Eloop, Hd.
  set (d := rk_stages (grid_of s r c pd) W (dt s) (range_down sz) (mkStage W P D))
    in *.
  set (s1 := install d (set_w0 (ComplexArr W) s)) in *.
  pose proof (ready_set_it (it s + 1)%Z (ready_set_time (time s + dt s) Hd)) as H2.
  exists d, (after_cfl (set_it (it s + 1)%Z (set_time (time s + dt s) s1))
               (sd_psih d)).
  split; [ now apply range_down_pos | ].
  split; [ apply range_down_spec | ].
  split; [ reflexivity | ].
  split.
  { unfold update. mstep. rewrite (sr_wh H). mstep.
    rewrite Eloop. mstep.
    change (time s1) with (time s). change (dt s1) with (dt s).
    change (it (set_time (time s + dt s) s1)) with (it s).
    apply (_cfl_limit_ready H2). }
  repeat (split; [ reflexivity | ]).
  exact (ready_after_cfl (sd_psih d) H2).
Qed.

Lemma update_semantics_witness :
  solver_ready 4 6 4 (padder_of 2) flow4_wh flow4_psih (np_zeros C0 4 3) flow4
  /\ (1 <= 3)%Z
  /\ exists (d : stage_data) (s' : Fluid),
      range_down 3 = 3%Z :: range_down (3 - 1)
      /\ (forall k, In k (range_down 3) <-> (1 <= k <= 3)%Z)
      /\ d = rk_stages (grid_of flow4 6 4 (padder_of 2)) flow4_wh
               (dt flow4) (range_down 3)
               (mkStage flow4_wh flow4_psih (np_zeros C0 4 3))
      /\ update 3 flow4 = Returned tt s'
      /\ w0 s' = ComplexArr flow4_wh
      /\ wh s' = Some (sd_wh d)
      /\ psih s' = Some (sd_psih d)
      /\ dwhdt s' = Some (sd_acc d)
      /\ time s' = time flow4 + dt flow4
      /\ it s' = (it flow4 + 1)%Z
      /\ dt s' = cfl_dt (dx flow4) (dy flow4)
                   (velocity_u (ky flow4) (sd_psih d))
                   (velocity_v (firstn (nk flow4) (kx flow4)) (sd_psih d))
      /\ s' = after_cfl
                (set_it (it flow4 + 1)%Z
                   (set_time (time flow4 + dt flow4)
                      (install d (set_w0 (ComplexArr flow4_wh) flow4))))
                (sd_psih d)
      /\ solver_ready 4 6 4 (padder_of 2) (sd_wh d) (sd_psih d) (sd_acc d) s'.
Proof.
  split; [ exact (proj2 flow4_state) | ].
  split; [ lia | ].
  apply (update_semantics 4 6 4 (padder_of 2) flow4_wh flow4_psih
           (np_zeros C0 4 3) flow4 3).
  - exact (proj2 flow4_state).
  - lia.
Defined.

(* ----------------------------------------------------------------- *)
(** ** Complex arithmetic and finite sums *)

Lemma complex_ext (a b : complex) : re a = re b -> im a = im b -> a = b.
Proof. destruct a, b. cbn. now intros -> ->. Qed.

Ltac csolve :=
  apply complex_ext; cbn [re im Cadd Csub Cmul Cscale Cconj Copp RtoC C0 Ci
                          Cdivr cis Cimul Csum];
  try ring.

Lemma Cadd_0_l (a : complex) : Cadd C0 a = a.
Proof. csolve. Qed.

Lemma Cadd_0_r (a : complex) : Cadd a C0 = a.
Proof. csolve. Qed.

Lemma Cmul_0_r (a : complex) : Cmul a C0 = C0.
Proof. csolve. Qed.

Lemma Cmul_0_l (a : complex) : Cmul C0 a = C0.
Proof. csolve. Qed.

Lemma Cmul_add_distr_l (a b c : complex) :
  Cmul a (Cadd b c) = Cadd (Cmul a b) (Cmul a c).
Proof. csolve. Qed.

Lemma Cmul_add_distr_r (a b c : complex) :
  Cmul (Cadd a b) c = Cadd (Cmul a c) (Cmul b c).
Proof. csolve. Qed.

Lemma Cmul_assoc (a b c : complex) : Cmul (Cmul a b) c = Cmul a (Cmul b c).
Proof. csolve. Qed.

Lemma Cscale_add (x : R) (a b : complex) :
  Cscale x (Cadd a b) = Cadd (Cscale x a) (Cscale x b).
Proof. csolve. Qed.

Lemma cis_add (a b : R) : Cmul (cis a) (cis b) = cis (a + b).
Proof.
  apply complex_ext; cbn [re im Cmul cis].
  - now rewrite cos_plus.
  - rewrite sin_plus. ring.
Qed.

Lemma cis_0 : cis 0 = mkC 1 0.
Proof. unfold cis. now rewrite cos_0, sin_0. Qed.

Lemma cis_neg (a : R) : cis (- a) = Cconj (cis a).
Proof. unfold cis, Cconj. cbn. now rewrite cos_neg, sin_neg. Qed.

Lemma cis_period (a : R) (k : nat) : cis (a + 2 * INR k * PI) = cis a.
Proof. unfold cis. now rewrite cos_period, sin_period. Qed.

Lemma Csum_ext (n : nat) (f g : nat -> complex) :
  (forall k, (k < n)%nat -> f k = g k) -> Csum n f = Csum n g.
Proof.
  induction n as [ | n IH]; intros H; [ reflexivity | ].
  cbn. rewrite IH by (intros k Hk; apply H; lia).
  now rewrite (H n) by lia.
Qed.

Lemma Csum_zero (n : nat) : Csum n (fun _ => C0) = C0.
Proof. induction n as [ | n IH]; [ reflexivity | ]. cbn. rewrite IH. csolve. Qed.

Lemma Csum_add (n : nat) (f g : nat -> complex) :
  Csum n (fun k => Cadd (f k) (g k)) = Cadd (Csum n f) (Csum n g).
Proof.
  induction n as [ | n IH]; [ csolve | ]. cbn. rewrite IH. csolve.
Qed.

Lemma Csum_sub (n : nat) (f g : nat -> complex) :
  Csum n (fun k => Csub (f k) (g k)) = Csub (Csum n f) (Csum n g).
Proof.
  induction n as [ | n IH]; [ csolve | ]. cbn. rewrite IH. csolve.
Qed.

Lemma Csum_mul_l (n : nat) (a : complex) (f : nat -> complex) :
  Csum n (fun k => Cmul a (f k)) = Cmul a (Csum n f).
Proof.
  induction n as [ | n IH]; [ csolve | ]. cbn. rewrite IH. csolve.
Qed.

Lemma Csum_mul_r (n : nat) (a : complex) (f : nat -> complex) :
  Csum n (fun k => Cmul (f k) a) = Cmul (Csum n f) a.
Proof.
  induction n as [ | n IH]; [ csolve | ]. cbn. rewrite IH. csolve.
Qed.

Lemma Csum_scale (n : nat) (x : R) (f : nat -> complex) :
  Csum n (fun k => Cscale x (f k)) = Cscale x (Csum n f).
Proof.
  induction n as [ | n IH]; [ csolve | ]. cbn. rewrite IH. csolve.
Qed.

Lemma Csum_conj (n : nat) (f : nat -> complex) :
  Csum n (fun k => Cconj (f k)) = Cconj (Csum n f).
Proof.
  induction n as [ | n IH]; [ csolve | ]. cbn. rewrite IH. csolve.
Qed.

Lemma Csum_swap (n m : nat) (f : nat -> nat -> complex) :
  Csum n (fun k => Csum m (fun l => f k l))
  = Csum m (fun l => Csum n (fun k => f k l)).
Proof.
  induction n as [ | n IH].
  - cbn. now rewrite Csum_zero.
  - cbn. rewrite IH. now rewrite <- Csum_add.
Qed.

(** A sum with one non-zero term. *)
Lemma Csum_single (n m : nat) (f : nat -> complex) :
  (m < n)%nat -> (forall k, (k < n)%nat -> k <> m -> f k = C0) ->
  Csum n f = f m.
Proof.
  induction n as [ | n IH]; intros Hm Hz; [ lia | ].
  cbn. destruct (Nat.eq_dec m n) as [-> | Hne].
  - rewrite (Csum_ext n f (fun _ => C0)) by (intros k Hk; apply Hz; lia).
    rewrite Csum_zero. csolve.
  - rewrite IH by (try lia; intros k Hk Hkm; apply Hz; lia).
    rewrite (Hz n) by lia. csolve.
Qed.

Lemma re_Csum (n : nat) (f : nat -> complex) :
  re (Csum n f) = Rsum n (fun k => re (f k)).
Proof. induction n as [ | n IH]; [ reflexivity | ]. cbn. now rewrite IH. Qed.

Lemma im_Csum (n : nat) (f : nat -> complex) :
  im (Csum n f) = Rsum n (fun k => im (f k)).
Proof. induction n as [ | n IH]; [ reflexivity | ]. cbn. now rewrite IH. Qed.

Lemma Rsum_ext (n : nat) (f g : nat -> R) :
  (forall k, (k < n)%nat -> f k = g k) -> Rsum n f = Rsum n g.
Proof.
  induction n as [ | n IH]; intros H; [ reflexivity | ].
  cbn. rewrite IH by (intros k Hk; apply H; lia).
  now rewrite (H n) by lia.
Qed.

Lemma Rsum_const (n : nat) (c : R) : Rsum n (fun _ => c) = INR n * c.
Proof.
  induction n as [ | n IH]; [ cbn; ring | ].
  cbn [Rsum]. rewrite IH, S_INR. ring.
Qed.

(* ----------------------------------------------------------------- *)
(** ** Sums of roots of unity *)

Lemma cos_sum_telescope (t : R) (n : nat) :
  2 * sin (t / 2) * Rsum n (fun k => cos (INR k * t))
  = sin ((INR n - 1 / 2) * t) + sin (t / 2).
Proof.
  induction n as [ | n IH].
  - cbn [Rsum INR].
    replace ((0 - 1 / 2) * t) with (- (t / 2)) by field.
    rewrite sin_neg. ring.
  - cbn [Rsum]. rewrite Rmult_plus_distr_l, IH, S_INR.
    replace ((INR n + 1 - 1 / 2) * t) with (INR n * t + t / 2) by field.
    replace ((INR n - 1 / 2) * t) with (INR n * t - t / 2) by field.
    rewrite sin_plus, sin_minus. ring.
Qed.

Lemma sin_sum_telescope (t : R) (n : nat) :
  2 * sin (t / 2) * Rsum n (fun k => sin (INR k * t))
  = cos (t / 2) - cos ((INR n - 1 / 2) * t).
Proof.
  induction n as [ | n IH].
  - cbn [Rsum INR].
    replace ((0 - 1 / 2) * t) with (- (t / 2)) by field.
    rewrite cos_neg. ring.
  - cbn [Rsum]. rewrite Rmult_plus_distr_l, IH, S_INR.
    replace ((INR n + 1 - 1 / 2) * t) with (INR n * t + t / 2) by field.
    replace ((INR n - 1 / 2) * t) with (INR n * t - t / 2) by field.
    rewrite cos_plus, cos_minus. ring.
Qed.

(** The angle [2 pi d / n] of the [d]-th of the [n]-th roots of unity. *)
Lemma root_half_angle_sin (n d : nat) :
  (0 < d < n)%nat -> 0 < sin (2 * PI * INR d / INR n / 2).
Proof.
  intros [Hd Hn].
  assert (Hd' : 0 < INR d) by (apply lt_0_INR; lia).
  assert (Hn' : 0 < INR n) by (apply lt_0_INR; lia).
  assert (Hdn : INR d < INR n) by (apply lt_INR; lia).
  pose proof PI_RGT_0 as Hpi.
  replace (2 * PI * INR d / INR n / 2) with (PI * (INR d / INR n))
    by (field; lra).
  assert (H1 : 0 < INR d / INR n) by (apply Rdiv_lt_0_compat; lra).
  assert (H2 : INR d / INR n < 1).
  { apply (Rmult_lt_reg_r (INR n)); [ exact Hn' | ].
    unfold Rdiv. rewrite Rmult_assoc, Rinv_l by lra. lra. }
  apply sin_gt_0; nra.
Qed.

Lemma roots_sum_zero (n d : nat) :
  (0 < d < n)%nat ->
  Csum n (fun k => cis (INR k * (2 * PI * INR d / INR n))) = C0.
Proof.
  intros Hd.
  set (t := 2 * PI * INR d / INR n).
  pose proof (root_half_angle_sin n d Hd) as Hs. fold t in Hs.
  assert (Hn' : INR n <> 0) by (apply not_0_INR; lia).
  assert (Ht : (INR n - 1 / 2) * t = - (t / 2) + 2 * INR d * PI).
  { unfold t. field. exact Hn'. }
  apply complex_ext.
  - rewrite re_Csum. cbn [re cis C0].
    pose proof (cos_sum_telescope t n) as E.
    rewrite Ht, sin_period, sin_neg in E.
    apply (Rmult_eq_reg_l (2 * sin (t / 2))); [ | lra ].
    rewrite E. ring.
  - rewrite im_Csum. cbn [im cis C0].
    pose proof (sin_sum_telescope t n) as E.
    rewrite Ht, cos_period, cos_neg in E.
    apply (Rmult_eq_reg_l (2 * sin (t / 2))); [ | lra ].
    rewrite E. ring.
Qed.

(** Orthogonality: the sum over [k] of [exp(2 pi i (m - l) k / n)]. *)
Lemma dft_kernel (n m l : nat) :
  (m < n)%nat -> (l < n)%nat ->
  Csum n (fun k => Cmul (cis (- dft_angle n l k)) (cis (dft_angle n m k)))
  = if (l =? m)%nat then RtoC (INR n) else C0.
Proof.
  intros Hm Hl.
  assert (Hn' : INR n <> 0) by (apply not_0_INR; lia).
  destruct (l =? m)%nat eqn:E.
  - apply Nat.eqb_eq in E. subst l.
    rewrite (Csum_ext n _ (fun _ => mkC 1 0)).
    + apply complex_ext.
      * rewrite re_Csum. cbn [re RtoC]. rewrite Rsum_const. ring.
      * rewrite im_Csum. cbn [im RtoC]. rewrite Rsum_const. ring.
    + intros k Hk. rewrite cis_add.
      replace (- dft_angle n m k + dft_angle n m k) with 0 by ring.
      apply cis_0.
  - apply Nat.eqb_neq in E.
    destruct (Nat.lt_ge_cases l m) as [Hlt | Hge].
    + rewrite (Csum_ext n _ (fun k => cis (INR k * (2 * PI * INR (m - l) / INR n)))).
      * apply roots_sum_zero. lia.
      * intros k Hk. rewrite cis_add. f_equal.
        unfold dft_angle. rewrite minus_INR by lia. field. exact Hn'.
    + rewrite (Csum_ext n _
                 (fun k => Cconj (cis (INR k * (2 * PI * INR (l - m) / INR n))))).
      * rewrite Csum_conj, roots_sum_zero by lia. csolve.
      * intros k Hk. rewrite cis_add, <- cis_neg. f_equal.
        unfold dft_angle. rewrite minus_INR by lia. field. exact Hn'.
Qed.

(* ----------------------------------------------------------------- *)
(** ** Inversion of the transforms *)

Lemma nth_fft_list (a : list complex) (k : nat) :
  (k < length a)%nat ->
  nth k (fft_list a) C0
  = Csum (length a) (fun m => Cmul (nth m a C0) (cis (- dft_angle (length a) m k))).
Proof.
  intros Hk. unfold fft_list.
  now rewrite (nth_map_seq
    (fun k => Csum (length a)
                (fun m => Cmul (nth m a C0) (cis (- dft_angle (length a) m k))))
    C0 Hk).
Qed.

Lemma nth_ifft_list (a : list complex) (m : nat) :
  (m < length a)%nat ->
  nth m (ifft_list a) C0
  = Cscale (/ INR (length a))
      (Csum (length a) (fun k => Cmul (nth k a C0) (cis (dft_angle (length a) m k)))).
Proof.
  intros Hm. unfold ifft_list.
  now rewrite (nth_map_seq
    (fun m => Cscale (/ INR (length a))
                (Csum (length a)
                   (fun k => Cmul (nth k a C0) (cis (dft_angle (length a) m k)))))
    C0 Hm).
Qed.

(** The sum that inverts the transform: [sum_k A_k exp(2 pi i m k / n)] is
    [n a_m]. *)
Lemma fft_inversion_sum (a : list complex) (m : nat) :
  (m < length a)%nat ->
  Csum (length a)
    (fun k => Cmul (nth k (fft_list a) C0) (cis (dft_angle (length a) m k)))
  = Cmul (nth m a C0) (RtoC (INR (length a))).
Proof.
  intros Hm. set (n := length a).
  rewrite (Csum_ext n _
    (fun k => Csum n (fun l =>
       Cmul (nth l a C0)
            (Cmul (cis (- dft_angle n l k)) (cis (dft_angle n m k)))))).
  2:{ intros k Hk. rewrite (nth_fft_list a k Hk). fold n.
      rewrite <- Csum_mul_r. apply Csum_ext. intros l Hl.
      apply Cmul_assoc. }
  rewrite Csum_swap.
  rewrite (Csum_ext n _
    (fun l => Cmul (nth l a C0) (if (l =? m)%nat then RtoC (INR n) else C0))).
  2:{ intros l Hl. rewrite Csum_mul_l. f_equal. now apply dft_kernel. }
  rewrite (Csum_single n m) by
    (try exact Hm; intros k Hk Hne; apply Nat.eqb_neq in Hne; rewrite Hne;
     apply Cmul_0_r).
  now rewrite Nat.eqb_refl.
Qed.

(** [ifft(fft(a)) = a]. *)
Lemma ifft_fft (a : list complex) : ifft_list (fft_list a) = a.
Proof.
  apply (nth_ext _ _ C0 C0).
  - now rewrite length_ifft_list, length_fft_list.
  - intros m Hm. rewrite length_ifft_list, length_fft_list in Hm.
    rewrite nth_ifft_list by (rewrite length_fft_list; exact Hm).
    rewrite length_fft_list, (fft_inversion_sum a m Hm).
    assert (Hn : INR (length a) <> 0) by (apply not_0_INR; lia).
    apply complex_ext; cbn [re im Cscale Cmul RtoC]; field; exact Hn.
Qed.

(** The transform of a real input is Hermitian. *)
Lemma fft_real_hermitian (a : list R) (k : nat) :
  (0 < k < length a)%nat ->
  Cconj (nth (length a - k) (fft_list (map RtoC a)) C0)
  = nth k (fft_list (map RtoC a)) C0.
Proof.
  intros Hk. set (n := length a).
  assert (Ln : length (map RtoC a) = n) by apply length_map.
  assert (Hn : INR n <> 0) by (apply not_0_INR; lia).
  rewrite !nth_fft_list by (rewrite Ln; lia). rewrite Ln.
  rewrite <- Csum_conj. apply Csum_ext. intros l Hl.
  rewrite (nth_map_default RtoC 0 C0) by (fold n; lia).
  replace (- dft_angle n l (n - k))
    with (dft_angle n l k - 2 * INR l * PI).
  2:{ unfold dft_angle. rewrite minus_INR by lia. field. exact Hn. }
  rewrite <- (cis_period (dft_angle n l k - 2 * INR l * PI) l).
  replace (dft_angle n l k - 2 * INR l * PI + 2 * INR l * PI)
    with (dft_angle n l k) by ring.
  rewrite cis_neg. csolve.
Qed.

Lemma even_half (n : nat) : Nat.even n = true -> (2 * (n / 2) = n)%nat.
Proof.
  intros H. apply Nat.even_spec in H. destruct H as [h ->].
  now rewrite half_of_double.
Qed.

(** [irfft(rfft(a)) = a] for a real array of even length. *)
Lemma irfft_rfft (a : list R) :
  Nat.even (length a) = true -> (2 <= length a)%nat ->
  irfft_list (rfft_list a) = a.
Proof.
  intros Hev Hlen. set (n := length a).
  pose proof (even_half n Hev) as Hh.
  assert (Lr : length (rfft_list a) = (n / 2 + 1)%nat).
  { rewrite length_rfft_list. fold n. apply Nat.min_l. lia. }
  assert (Ln : (2 * (length (rfft_list a) - 1) = n)%nat) by (rewrite Lr; lia).
  assert (LF : length (fft_list (map RtoC a)) = n)
    by (rewrite length_fft_list; apply length_map).
  assert (Hn : INR n <> 0) by (apply not_0_INR; lia).
  apply (nth_ext _ _ 0 0).
  - rewrite length_irfft_list. exact Ln.
  - intros j Hj. rewrite length_irfft_list, Ln in Hj.
    unfold irfft_list. rewrite Ln.
    rewrite (nth_map_seq _ 0 Hj).
    rewrite (Csum_ext n _
      (fun k => Cmul (nth k (fft_list (map RtoC a)) C0)
                     (cis (dft_angle (length (map RtoC a)) j k)))).
    2:{ intros k Hk. rewrite length_map. fold n. f_equal.
        unfold hermitian, rfft_list. fold n.
        destruct (k <=? n / 2)%nat eqn:E.
        - apply Nat.leb_le in E. rewrite nth_firstn.
          destruct (k <? n / 2 + 1)%nat eqn:E'; [ reflexivity | ].
          apply Nat.ltb_ge in E'. lia.
        - apply Nat.leb_gt in E. rewrite nth_firstn.
          destruct (n - k <? n / 2 + 1)%nat eqn:E';
            [ | apply Nat.ltb_ge in E'; lia ].
          apply (fft_real_hermitian a k). fold n. lia. }
    rewrite <- Ln at 1. rewrite Ln.
    replace n with (length (map RtoC a)) at 2 by apply length_map.
    rewrite (fft_inversion_sum (map RtoC a) j) by (rewrite length_map; exact Hj).
    rewrite length_map. fold n.
    rewrite (nth_map_default RtoC 0 C0) by exact Hj.
    cbn [re Cmul RtoC im]. field. exact Hn.
Qed.

Lemma transpose_involutive {A : Type} (d : A) {r c : nat} {M : matrix A} :
  rect r c M -> (1 <= r)%nat -> (1 <= c)%nat ->
  transpose d (transpose d M) = M.
Proof.
  intros HM Hr Hc.
  pose proof (rect_transpose d HM Hr) as HT.
  apply (matrix_ext d (rect_transpose d HT Hc) HM).
  intros i j Hi Hj.
  now rewrite (mget_transpose d HT Hi Hj), (mget_transpose d HM Hj Hi).
Qed.

Lemma along_first_inverse (f g : list complex -> list complex) {r c : nat}
    {M : matrix complex} :
  (forall l, length (f l) = length l) ->
  (forall l, g (f l) = l) ->
  rect r c M -> (1 <= r)%nat -> (1 <= c)%nat ->
  along_first g (along_first f M) = M.
Proof.
  intros Hf Hgf HM Hr Hc. unfold along_first.
  pose proof (rect_transpose C0 HM Hr) as HT.
  pose proof (rect_map_rows f (fun n => n) Hf HT) as HF.
  rewrite (transpose_involutive C0 HF Hc Hr).
  rewrite map_map, (map_ext _ (fun l => l) Hgf), map_id.
  exact (transpose_involutive C0 HM Hr Hc).
Qed.

(** The two-dimensional round trip: [irfft2(rfft2(a)) = a] for a real
    array with at least one row and an even, positive number of columns. *)
Lemma irfft2_rfft2 {r c : nat} {a : matrix R} :
  rect r c a -> (1 <= r)%nat -> Nat.even c = true -> (2 <= c)%nat ->
  exists h : matrix complex,
    rfft2 a = Val h /\ rect r (c / 2 + 1) h /\ irfft2 h = Val a.
Proof.
  intros Ha Hr Hev Hc.
  assert (Hk : (2 <= c / 2 + 1)%nat).
  { pose proof (Nat.div_mod_eq c 2).
    pose proof (Nat.mod_upper_bound c 2 ltac:(lia)). lia. }
  destruct (rfft2_rect Ha Hr ltac:(lia)) as [E1 H1].
  exists (along_first fft_list (map rfft_list a)).
  split; [ exact E1 | ]. split; [ exact H1 | ].
  rewrite (proj1 (irfft2_rect H1 Hr Hk)).
  pose proof (rect_map_rows rfft_list (fun n => Nat.min (n / 2 + 1) n)
                length_rfft_list Ha) as HR.
  rewrite (along_first_inverse fft_list ifft_list length_fft_list ifft_fft HR Hr).
  - rewrite map_map. apply f_equal.
    transitivity (map (fun row : list R => row) a); [ | apply map_id ].
    apply map_ext_in. intros row Hin.
    destruct Ha as [_ Hrows]. rewrite Forall_forall in Hrows.
    apply irfft_rfft; rewrite (Hrows row Hin); assumption.
  - cbn beta. pose proof (Nat.div_mod_eq c 2). lia.
Qed.

(* ----------------------------------------------------------------- *)
(** ** The transform round trip *)

Lemma w_to_wh_run (s : Fluid) (h : matrix complex) :
  rfft2 (w s) = Val h -> w_to_wh s = Returned tt (set_wh (Some h) s).
Proof. intros E. unfold w_to_wh. mstep. rewrite E. reflexivity. Qed.

Lemma wh_to_w_run (s : Fluid) (h : matrix complex) (a : matrix R) :
  wh s = Some h -> irfft2 h = Val a -> wh_to_w s = Returned tt (set_w a s).
Proof.
  intros E1 E2. unfold wh_to_w. mstep. rewrite E1. mstep. rewrite E2.
  reflexivity.
Qed.

(** C2, as stated, fails for an odd number of columns: on the 3 x 3 grid
    the field [field33] of shape [(nx, ny)] comes back from [w_to_wh] and
    [wh_to_w] with shape [(3, 2)]. *)
Lemma round_trip_odd_columns :
  shape (w fluid33) = (nx fluid33, ny fluid33)
  /\ returns (round_trip fluid33)
  /\ shape (w (final_state (round_trip fluid33))) = (3, 2)%nat
  /\ w (final_state (round_trip fluid33)) <> w fluid33.
Proof.
  assert (Ha : rect 3 3 (w fluid33)) by (split; [ reflexivity | repeat constructor ]).
  destruct (rfft2_rect Ha ltac:(lia) ltac:(lia)) as [E1 H1].
  change (3 / 2 + 1)%nat with 2%nat in H1.
  destruct (irfft2_rect H1 ltac:(lia) ltac:(lia)) as [E2 H2].
  change (2 * (2 - 1))%nat with 2%nat in H2.
  assert (E : round_trip fluid33
              = Returned tt
                  (set_w (map irfft_list
                            (along_first ifft_list
                               (along_first fft_list (map rfft_list (w fluid33)))))
                     (set_wh (Some (along_first fft_list
                                      (map rfft_list (w fluid33)))) fluid33))).
  { unfold round_trip. mstep. rewrite (w_to_wh_run fluid33 _ E1).
    apply (wh_to_w_run _ (along_first fft_list (map rfft_list (w fluid33))));
      [ reflexivity | exact E2 ]. }
  assert (Es : shape (w (final_state (round_trip fluid33))) = (3, 2)%nat).
  { rewrite E. cbn [final_state w set_w]. unfold shape.
    now rewrite (rect_nrows H2), (rect_ncols H2) by lia. }
  split; [ reflexivity | ].
  split; [ rewrite E; exact I | ].
  split; [ exact Es | ].
  intros Heq. rewrite Heq in Es. discriminate Es.
Qed.

(** C2, amended.  For every real array [w] with at least one row and an
    even, positive number of columns (so for every array of shape
    [(nx, ny)] with [ny] even), [w_to_wh] returns a spectral array of
    [ncols/2 + 1] columns, and [wh_to_w] after it restores [w]; in the exact
    arithmetic of the model the restored field is equal to the original. *)
Theorem transform_round_trip :
  forall (s : Fluid) (r c : nat),
    rect r c (w s) -> (1 <= r)%nat -> Nat.even c = true -> (2 <= c)%nat ->
    exists h : matrix complex,
      w_to_wh s = Returned tt (set_wh (Some h) s)
      /\ rect r (c / 2 + 1) h
      /\ wh_to_w (set_wh (Some h) s) = Returned tt (set_w (w s) (set_wh (Some h) s))
      /\ round_trip s = Returned tt (set_w (w s) (set_wh (Some h) s))
      /\ w (final_state (round_trip s)) = w s.
Proof.
  intros s r c Ha Hr Hev Hc.
  destruct (irfft2_rfft2 Ha Hr Hev Hc) as (h & E1 & H1 & E2).
  assert (Eto : w_to_wh s = Returned tt (set_wh (Some h) s))
    by now apply w_to_wh_run.
  assert (Efrom : wh_to_w (set_wh (Some h) s)
                  = Returned tt (set_w (w s) (set_wh (Some h) s)))
    by (apply (wh_to_w_run _ h); [ reflexivity | exact E2 ]).
  assert (E : round_trip s = Returned tt (set_w (w s) (set_wh (Some h) s))).
  { unfold round_trip. mstep. rewrite Eto. exact Efrom. }
  exists h. split; [ exact Eto | ]. split; [ exact H1 | ].
  split; [ exact Efrom | ]. split; [ exact E | ].
  rewrite E. reflexivity.
Qed.

Lemma transform_round_trip_witness :
  w fluid44 = field44
  /\ rect 4 4 (w fluid44) /\ (1 <= 4)%nat /\ Nat.even 4 = true /\ (2 <= 4)%nat
  /\ exists h : matrix complex,
      w_to_wh fluid44 = Returned tt (set_wh (Some h) fluid44)
      /\ rect 4 (4 / 2 + 1) h
      /\ wh_to_w (set_wh (Some h) fluid44)
         = Returned tt (set_w (w fluid44) (set_wh (Some h) fluid44))
      /\ round_trip fluid44
         = Returned tt (set_w (w fluid44) (set_wh (Some h) fluid44))
      /\ w (final_state (round_trip fluid44)) = w fluid44.
Proof.
  assert (Ha : rect 4 4 (w fluid44)) by apply rect_mk.
  split; [ reflexivity | ]. split; [ exact Ha | ].
  split; [ lia | ]. split; [ reflexivity | ]. split; [ lia | ].
  apply (transform_round_trip fluid44 4 4 Ha); [ lia | reflexivity | lia ].
Defined.

(* ----------------------------------------------------------------- *)
(** ** Transforms of trigonometric fields *)

Lemma dft_angle_sym (n m k : nat) : dft_angle n m k = dft_angle n k m.
Proof. unfold dft_angle. f_equal. ring. Qed.

Lemma cis_angle_opp (n q b : nat) :
  (0 < q < n)%nat ->
  cis (- dft_angle n q b) = cis (dft_angle n (n - q) b).
Proof.
  intros Hq.
  assert (Hn : INR n <> 0) by (apply not_0_INR; lia).
  rewrite <- (cis_period (- dft_angle n q b) b). f_equal.
  unfold dft_angle. rewrite minus_INR by lia. field. exact Hn.
Qed.

(** [sum_b exp(+-i q x_b) exp(-2 pi i b j / n)]. *)
Lemma dft_cis_pos (n q j : nat) :
  (q < n)%nat -> (j < n)%nat ->
  Csum n (fun b => Cmul (cis (dft_angle n q b)) (cis (- dft_angle n b j)))
  = if (j =? q)%nat then RtoC (INR n) else C0.
Proof.
  intros Hq Hj. rewrite <- (dft_kernel n q j Hq Hj).
  apply Csum_ext. intros b Hb.
  rewrite (dft_angle_sym n b j). csolve.
Qed.

Lemma dft_cis_neg (n q j : nat) :
  (0 < q < n)%nat -> (j < n)%nat ->
  Csum n (fun b => Cmul (cis (- dft_angle n q b)) (cis (- dft_angle n b j)))
  = if (j =? n - q)%nat then RtoC (INR n) else C0.
Proof.
  intros Hq Hj. rewrite <- (dft_cis_pos n (n - q) j ltac:(lia) Hj).
  apply Csum_ext. intros b Hb. now rewrite cis_angle_opp.
Qed.

Lemma cos_as_cis (t : R) :
  RtoC (cos t) = Cscale (1 / 2) (Cadd (cis t) (cis (- t))).
Proof.
  apply complex_ext; cbn [re im RtoC Cscale Cadd cis];
    rewrite ?cos_neg, ?sin_neg; field.
Qed.

Lemma sin_as_cis (t : R) :
  RtoC (sin t) = Cmul (mkC 0 (- (1 / 2))) (Csub (cis t) (cis (- t))).
Proof.
  apply complex_ext; cbn [re im RtoC Cmul Csub cis];
    rewrite ?cos_neg, ?sin_neg; field.
Qed.

(** The transform of [cos(q x_b)] over [n] points. *)
Lemma dft_cos (n q j : nat) :
  (0 < q < n)%nat -> (j < n)%nat ->
  Csum n (fun b => Cmul (RtoC (cos (dft_angle n q b))) (cis (- dft_angle n b j)))
  = Cscale (1 / 2)
      (Cadd (if (j =? q)%nat then RtoC (INR n) else C0)
            (if (j =? n - q)%nat then RtoC (INR n) else C0)).
Proof.
  intros Hq Hj.
  rewrite <- (dft_cis_pos n q j ltac:(lia) Hj), <- (dft_cis_neg n q j Hq Hj).
  rewrite <- Csum_add, <- Csum_scale. apply Csum_ext. intros b Hb.
  rewrite cos_as_cis. csolve.
Qed.

(** The transform of [sin(q x_b)] over [n] points. *)
Lemma dft_sin (n q j : nat) :
  (0 < q < n)%nat -> (j < n)%nat ->
  Csum n (fun b => Cmul (RtoC (sin (dft_angle n q b))) (cis (- dft_angle n b j)))
  = Cmul (mkC 0 (- (1 / 2)))
      (Csub (if (j =? q)%nat then RtoC (INR n) else C0)
            (if (j =? n - q)%nat then RtoC (INR n) else C0)).
Proof.
  intros Hq Hj.
  rewrite <- (dft_cis_pos n q j ltac:(lia) Hj), <- (dft_cis_neg n q j Hq Hj).
  rewrite <- Csum_sub, <- Csum_mul_l. apply Csum_ext. intros b Hb.
  rewrite sin_as_cis. csolve.
Qed.

Lemma nth_mk_row {A : Type} (r c : nat) (f : nat -> nat -> A) (i : nat) :
  (i < r)%nat -> nth i (mk_matrix r c f) [] = map (fun j => f i j) (seq 0 c).
Proof.
  intros Hi. unfold mk_matrix.
  now rewrite (nth_map_seq (fun i => map (fun j => f i j) (seq 0 c)) [] Hi).
Qed.

Lemma half_le (n : nat) : (1 <= n)%nat -> (n / 2 + 1 <= n)%nat.
Proof.
  intros H. pose proof (Nat.div_mod_eq n 2).
  destruct n as [ | [ | n]]; [ lia | cbn; lia | ].
  pose proof (Nat.mod_upper_bound (S (S n)) 2 ltac:(lia)). lia.
Qed.

(** The transform of a real row. *)
Lemma nth_rfft_list (a : list R) (j : nat) :
  (j < length a / 2 + 1)%nat -> (1 <= length a)%nat ->
  nth j (rfft_list a) C0
  = Csum (length a)
      (fun b => Cmul (RtoC (nth b a 0)) (cis (- dft_angle (length a) b j))).
Proof.
  intros Hj Hn. pose proof (half_le (length a) Hn) as Hh.
  unfold rfft_list. rewrite nth_firstn.
  destruct (j <? length a / 2 + 1)%nat eqn:E; [ | apply Nat.ltb_ge in E; lia ].
  rewrite nth_fft_list by (rewrite length_map; lia).
  rewrite length_map. apply Csum_ext. intros b Hb.
  now rewrite (nth_map_default RtoC 0 C0) by exact Hb.
Qed.

(** The spectrum of a product field [f(y_a) g(x_b)] is the product of the
    one-dimensional transforms. *)
Lemma to_spectral_separable (n : nat) (f g : nat -> R) (Fh Gh : nat -> complex) :
  (1 <= n)%nat ->
  (forall j, (j < n)%nat ->
     Csum n (fun b => Cmul (RtoC (g b)) (cis (- dft_angle n b j))) = Gh j) ->
  (forall i, (i < n)%nat ->
     Csum n (fun a => Cmul (RtoC (f a)) (cis (- dft_angle n a i))) = Fh i) ->
  to_spectral (mk_matrix n n (fun a b => f a * g b))
  = mk_matrix n (n / 2 + 1) (fun i j => Cmul (Fh i) (Gh j)).
Proof.
  intros Hn HG HF. pose proof (half_le n Hn) as Hh.
  set (M := mk_matrix n n (fun a b => f a * g b)).
  assert (HM : rect n n M) by apply rect_mk.
  assert (HR : rect n (n / 2 + 1) (map rfft_list M)).
  { pose proof (rect_map_rows rfft_list (fun m => Nat.min (m / 2 + 1) m)
                  length_rfft_list HM) as H.
    cbn beta in H. now rewrite (Nat.min_l _ _ Hh) in H. }
  apply (matrix_ext C0 (rect_to_spectral HM Hn Hn) (rect_mk _ _ _)).
  intros i j Hi Hj. rewrite mget_mk by assumption.
  unfold to_spectral.
  rewrite (mget_along_first fft_list length_fft_list HR Hi Hj).
  assert (Lc : length (column C0 (map rfft_list M) j) = n).
  { rewrite length_column. apply (rect_nrows HR). }
  rewrite nth_fft_list by (rewrite Lc; exact Hi). rewrite Lc.
  rewrite <- (HF i Hi), <- Csum_mul_r. apply Csum_ext. intros a Ha.
  assert (Ecol : nth a (column C0 (map rfft_list M) j) C0
                 = Cmul (RtoC (f a)) (Gh j)).
  { unfold column. rewrite (rect_nrows HR).
    rewrite (nth_map_seq (fun i0 => mget C0 (map rfft_list M) i0 j) C0 Ha).
    unfold mget. rewrite (nth_map_rows rfft_list a HM Ha).
    unfold M. rewrite (nth_mk_row n n _ a Ha).
    assert (Lrow : length (map (fun j0 => f a * g j0) (seq 0 n)) = n)
      by now rewrite length_map, length_seq.
    rewrite nth_rfft_list by (rewrite Lrow; lia). rewrite Lrow.
    rewrite <- (HG j ltac:(lia)), <- Csum_mul_l. apply Csum_ext. intros b Hb.
    rewrite (nth_map_seq (fun j0 => f a * g j0) 0 Hb). csolve. }
  rewrite Ecol. csolve.
Qed.

(** The pure round trip. *)
Lemma to_physical_to_spectral {r c : nat} {a : matrix R} :
  rect r c a -> (1 <= r)%nat -> Nat.even c = true -> (2 <= c)%nat ->
  to_physical (to_spectral a) = a.
Proof.
  intros Ha Hr Hev Hc.
  destruct (irfft2_rfft2 Ha Hr Hev Hc) as (h & E1 & H1 & E2).
  rewrite (proj1 (rfft2_rect Ha Hr ltac:(lia))) in E1. injection E1 as <-.
  assert (Hk : (2 <= c / 2 + 1)%nat).
  { pose proof (Nat.div_mod_eq c 2).
    pose proof (Nat.mod_upper_bound c 2 ltac:(lia)). lia. }
  rewrite (proj1 (irfft2_rect H1 Hr Hk)) in E2. now injection E2.
Qed.

Ltac cfield :=
  apply complex_ext; cbn [re im Cadd Csub Cmul Cscale Cconj Copp RtoC C0 Ci
                          Cdivr cis Cimul];
  try (field; try assumption); try lra.

Lemma dft_scaled (n : nat) (a : R) (f : nat -> R) (j : nat) (F : complex) :
  Csum n (fun b => Cmul (RtoC (f b)) (cis (- dft_angle n b j))) = F ->
  Csum n (fun b => Cmul (RtoC (a * f b)) (cis (- dft_angle n b j)))
  = Cscale a F.
Proof.
  intros <-. rewrite <- Csum_scale. apply Csum_ext. intros b Hb. csolve.
Qed.

Section TaylorGreenSpectra.

Variables n q : nat.
Hypothesis Hq : (0 < q)%nat.
Hypothesis Hqn : (2 * q < n)%nat.

Let Hn : (1 <= n)%nat.
Proof. lia. Qed.

Lemma mode_cases (i : nat) :
  (i =? q)%nat = true -> (i =? n - q)%nat = false.
Proof.
  intros E. apply Nat.eqb_eq in E. apply Nat.eqb_neq. lia.
Qed.

Lemma half_not_mirror (j : nat) :
  (j < n / 2 + 1)%nat -> (j =? n - q)%nat = false.
Proof.
  intros Hj. apply Nat.eqb_neq. pose proof (Nat.div_mod_eq n 2).
  pose proof (Nat.mod_upper_bound n 2 ltac:(lia)).
  assert (n / 2 < n - q)%nat; [ | lia ].
  apply Nat.Div0.div_lt_upper_bound. lia.
Qed.

Lemma to_spectral_cc (a : R) : to_spectral (cc_field n q a) = cc_spec n q a.
Proof.
  unfold cc_field.
  rewrite (mk_matrix_ext n n _
             (fun i j => a * cos (dft_angle n q i) * cos (dft_angle n q j)))
    by (intros; ring).
  rewrite (to_spectral_separable n
             (fun i => a * cos (dft_angle n q i)) (fun j => cos (dft_angle n q j))
             _ _ Hn
             (fun j Hj => dft_cos n q j ltac:(lia) Hj)
             (fun i Hi => dft_scaled n a _ i _ (dft_cos n q i ltac:(lia) Hi))).
  unfold cc_spec, two_modes. apply mk_matrix_ext. intros i j Hi Hj.
  rewrite (half_not_mirror j Hj).
  destruct (j =? q)%nat; [ | cfield ].
  destruct (i =? q)%nat eqn:E1; [ rewrite (mode_cases i E1); cfield | ].
  destruct (i =? n - q)%nat; cfield.
Qed.

Lemma to_spectral_cs (a : R) : to_spectral (cs_field n q a) = cs_spec n q a.
Proof.
  unfold cs_field.
  rewrite (mk_matrix_ext n n _
             (fun i j => a * sin (dft_angle n q i) * cos (dft_angle n q j)))
    by (intros; ring).
  rewrite (to_spectral_separable n
             (fun i => a * sin (dft_angle n q i)) (fun j => cos (dft_angle n q j))
             _ _ Hn
             (fun j Hj => dft_cos n q j ltac:(lia) Hj)
             (fun i Hi => dft_scaled n a _ i _ (dft_sin n q i ltac:(lia) Hi))).
  unfold cs_spec, two_modes. apply mk_matrix_ext. intros i j Hi Hj.
  rewrite (half_not_mirror j Hj).
  destruct (j =? q)%nat; [ | cfield ].
  destruct (i =? q)%nat eqn:E1; [ rewrite (mode_cases i E1); cfield | ].
  destruct (i =? n - q)%nat; cfield.
Qed.

Lemma to_spectral_sc (a : R) : to_spectral (sc_field n q a) = sc_spec n q a.
Proof.
  unfold sc_field.
  rewrite (mk_matrix_ext n n _
             (fun i j => a * cos (dft_angle n q i) * sin (dft_angle n q j)))
    by (intros; ring).
  rewrite (to_spectral_separable n
             (fun i => a * cos (dft_angle n q i)) (fun j => sin (dft_angle n q j))
             _ _ Hn
             (fun j Hj => dft_sin n q j ltac:(lia) Hj)
             (fun i Hi => dft_scaled n a _ i _ (dft_cos n q i ltac:(lia) Hi))).
  unfold sc_spec, two_modes. apply mk_matrix_ext. intros i j Hi Hj.
  rewrite (half_not_mirror j Hj).
  destruct (j =? q)%nat; [ | cfield ].
  destruct (i =? q)%nat eqn:E1; [ rewrite (mode_cases i E1); cfield | ].
  destruct (i =? n - q)%nat; cfield.
Qed.

End TaylorGreenSpectra.

(** The two-dimensional transform of a real field, entry by entry. *)
Lemma mget_to_spectral (n : nat) (f : nat -> nat -> R) (i j : nat) :
  (1 <= n)%nat -> (i < n)%nat -> (j < n / 2 + 1)%nat ->
  mget C0 (to_spectral (mk_matrix n n f)) i j
  = Csum n (fun a =>
      Cmul (Csum n (fun b => Cmul (RtoC (f a b)) (cis (- dft_angle n b j))))
           (cis (- dft_angle n a i))).
Proof.
  intros Hn Hi Hj. pose proof (half_le n Hn) as Hh.
  set (M := mk_matrix n n f).
  assert (HM : rect n n M) by apply rect_mk.
  assert (HR : rect n (n / 2 + 1) (map rfft_list M)).
  { pose proof (rect_map_rows rfft_list (fun m => Nat.min (m / 2 + 1) m)
                  length_rfft_list HM) as H.
    cbn beta in H. now rewrite (Nat.min_l _ _ Hh) in H. }
  unfold to_spectral.
  rewrite (mget_along_first fft_list length_fft_list HR Hi Hj).
  assert (Lc : length (column C0 (map rfft_list M) j) = n).
  { rewrite length_column. apply (rect_nrows HR). }
  rewrite nth_fft_list by (rewrite Lc; exact Hi). rewrite Lc.
  apply Csum_ext. intros a Ha. f_equal.
  unfold column. rewrite (rect_nrows HR).
  rewrite (nth_map_seq (fun i0 => mget C0 (map rfft_list M) i0 j) C0 Ha).
  unfold mget. rewrite (nth_map_rows rfft_list a HM Ha).
  unfold M. rewrite (nth_mk_row n n _ a Ha).
  assert (Lrow : length (map (fun j0 => f a j0) (seq 0 n)) = n)
    by now rewrite length_map, length_seq.
  rewrite nth_rfft_list by (rewrite Lrow; lia). rewrite Lrow.
  apply Csum_ext. intros b Hb.
  now rewrite (nth_map_seq (fun j0 => f a j0) 0 Hb).
Qed.

(** The solver [flow4] holds a flow: the entry [[0, 1]] of the spectrum of
    [field44] is [-8 + 8i], and so is that of the stream function, since
    [k2[0, 1] = 1]. *)
Lemma flow4_wh_entry : mget C0 flow4_wh 0 1 = mkC (-8) 8.
Proof.
  unfold flow4_wh, field44.
  rewrite mget_to_spectral by (cbn; lia).
  assert (A0 : forall a, cis (- dft_angle 4 a 0) = mkC 1 0).
  { intros a. unfold dft_angle. cbn [INR].
    replace (- (2 * PI * (INR a * 0) / (1 + 1 + 1 + 1))) with 0
      by (unfold Rdiv; ring).
    apply cis_0. }
  assert (B0 : cis (- dft_angle 4 0 1) = mkC 1 0).
  { unfold dft_angle. cbn [INR].
    replace (- (2 * PI * (0 * 1) / (1 + 1 + 1 + 1))) with 0
      by (unfold Rdiv; ring).
    apply cis_0. }
  assert (B1 : cis (- dft_angle 4 1 1) = mkC 0 (-1)).
  { unfold dft_angle, cis. cbn [INR].
    replace (2 * PI * (1 * 1) / (1 + 1 + 1 + 1)) with (PI / 2) by field.
    now rewrite cos_neg, sin_neg, cos_PI2, sin_PI2. }
  assert (B2 : cis (- dft_angle 4 2 1) = mkC (-1) 0).
  { unfold dft_angle, cis. cbn [INR].
    replace (2 * PI * ((1 + 1) * 1) / (1 + 1 + 1 + 1)) with PI by field.
    rewrite cos_neg, sin_neg, cos_PI, sin_PI. f_equal. ring. }
  assert (B3 : cis (- dft_angle 4 3 1) = mkC 0 1).
  { unfold dft_angle, cis. cbn [INR].
    replace (2 * PI * ((1 + 1 + 1) * 1) / (1 + 1 + 1 + 1)) with (3 * (PI / 2))
      by field.
    rewrite cos_neg, sin_neg, cos_3PI2, sin_3PI2. f_equal. ring. }
  cbn [Csum]. rewrite !A0, B0, B1, B2, B3. cbn [INR].
  apply complex_ext; cbn [re im Cadd Cmul RtoC C0]; ring.
Qed.

Lemma flow4_psih_entry : mget C0 flow4_psih 0 1 = mkC (-8) 8.
Proof.
  destruct loaded4_state as [E H].
  unfold flow4_psih.
  rewrite (mget_poisson_invert _ (sr_wh_rect H)) by (cbn; lia).
  assert (Ek : mget 0 (wavenumber_sq solver4) 0 1 = 1).
  { rewrite mget_wavenumber_sq
      by (rewrite ?(sr_ky solver4_ready), ?(sr_kx solver4_ready),
            ?(sr_nk solver4_ready), ?length_firstn, ?length_wavenumbers;
          cbn; lia).
    rewrite (sr_kx solver4_ready), (sr_ky solver4_ready),
      !nth_wavenumbers by lia.
    cbn. ring. }
  rewrite Ek, flow4_wh_entry.
  assert (En : Rneb 1 0 = true) by (apply Rneb_true; lra).
  rewrite En. unfold Cdivr. cbn [re im]. f_equal; field.
Qed.

(* ----------------------------------------------------------------- *)
(** ** Linearity of the transforms *)

Lemma Cscale_0 (x : R) : Cscale x C0 = C0.
Proof. csolve. Qed.

Lemma nth_map_Cscale (x : R) (a : list complex) (k : nat) :
  nth k (map (Cscale x) a) C0 = Cscale x (nth k a C0).
Proof.
  rewrite <- (Cscale_0 x) at 1. apply (map_nth (Cscale x)).
Qed.

Lemma ifft_list_scale (x : R) (a : list complex) :
  ifft_list (map (Cscale x) a) = map (Cscale x) (ifft_list a).
Proof.
  unfold ifft_list. rewrite length_map, map_map.
  apply map_ext. intros m.
  rewrite (Csum_ext _ _
    (fun k => Cscale x (Cmul (nth k a C0) (cis (dft_angle (length a) m k)))))
    by (intros k Hk; rewrite nth_map_Cscale; csolve).
  rewrite Csum_scale. csolve.
Qed.

Lemma irfft_list_scale (x : R) (a : list complex) :
  irfft_list (map (Cscale x) a) = map (Rmult x) (irfft_list a).
Proof.
  unfold irfft_list. rewrite length_map, map_map.
  apply map_ext. intros j.
  set (n := (2 * (length a - 1))%nat).
  rewrite (Csum_ext _ _
    (fun k => Cscale x (Cmul (hermitian a n k) (cis (dft_angle n j k))))).
  - rewrite Csum_scale. cbn [re Cscale]. ring.
  - intros k Hk. unfold hermitian.
    destruct (k <=? n / 2)%nat; rewrite nth_map_Cscale; csolve.
Qed.

Lemma mget_mmap_Cscale (x : R) (M : matrix complex) (i j : nat) :
  mget C0 (mmap (Cscale x) M) i j = Cscale x (mget C0 M i j).
Proof.
  unfold mget, mmap.
  replace (@nil complex) with (map (Cscale x) []) at 1 by reflexivity.
  rewrite (map_nth (map (Cscale x)) M [] i).
  apply nth_map_Cscale.
Qed.

Lemma transpose_scale (x : R) {r c : nat} {M : matrix complex} :
  rect r c M -> (1 <= r)%nat ->
  transpose C0 (mmap (Cscale x) M) = mmap (Cscale x) (transpose C0 M).
Proof.
  intros HM Hr.
  pose proof (rect_mmap (Cscale x) HM) as HS.
  apply (matrix_ext C0 (rect_transpose C0 HS Hr)
           (rect_mmap (Cscale x) (rect_transpose C0 HM Hr))).
  intros i j Hi Hj.
  rewrite (mget_transpose C0 HS Hi Hj), !mget_mmap_Cscale.
  now rewrite (mget_transpose C0 HM Hi Hj).
Qed.

Lemma along_first_scale (f : list complex -> list complex) (x : R)
    {r c : nat} {M : matrix complex} :
  (forall l, length (f l) = length l) ->
  (forall l, f (map (Cscale x) l) = map (Cscale x) (f l)) ->
  rect r c M -> (1 <= r)%nat -> (1 <= c)%nat ->
  along_first f (mmap (Cscale x) M) = mmap (Cscale x) (along_first f M).
Proof.
  intros Hlen Hf HM Hr Hc. unfold along_first.
  rewrite (transpose_scale x HM Hr).
  pose proof (rect_transpose C0 HM Hr) as HT.
  pose proof (rect_map_rows f (fun m => m) Hlen HT) as HF.
  rewrite <- (transpose_scale x HF Hc). f_equal.
  unfold mmap. rewrite !map_map. apply map_ext. intros l. apply Hf.
Qed.

(** [to_physical] commutes with a real factor. *)
Lemma to_physical_scale (x : R) {r c : nat} {M : matrix complex} :
  rect r c M -> (1 <= r)%nat -> (1 <= c)%nat ->
  to_physical (mmap (Cscale x) M) = mmap (Rmult x) (to_physical M).
Proof.
  intros HM Hr Hc. unfold to_physical.
  rewrite (along_first_scale ifft_list x length_ifft_list (ifft_list_scale x)
             HM Hr Hc).
  unfold mmap. rewrite !map_map. apply map_ext. intros l.
  apply irfft_list_scale.
Qed.

Lemma zero_pad_scale (x : R) (r c : nat) (pd : list bool) (n : nat)
    (A : matrix complex) :
  zero_pad r c pd n (mmap (Cscale x) A) = mmap (Cscale x) (zero_pad r c pd n A).
Proof.
  apply (matrix_ext C0 (rect_zero_pad r c pd n _)
           (rect_mmap (Cscale x) (rect_zero_pad r c pd n A))).
  intros i j Hi Hj. rewrite mget_mmap_Cscale.
  unfold zero_pad. rewrite !mget_mk by assumption.
  destruct (index_of i (mask_indices 0 pd)); [ | csolve ].
  destruct (j <? n)%nat; [ apply mget_mmap_Cscale | csolve ].
Qed.

(** The spectrum of the zero field. *)
Lemma to_spectral_zero (r c : nat) :
  (1 <= r)%nat -> (1 <= c)%nat ->
  to_spectral (mk_matrix r c (fun _ _ => 0))
  = mk_matrix r (c / 2 + 1) (fun _ _ => C0).
Proof.
  intros Hr Hc. pose proof (half_le c Hc) as Hh.
  set (M := mk_matrix r c (fun _ _ : nat => 0)).
  assert (HM : rect r c M) by apply rect_mk.
  assert (HR : rect r (c / 2 + 1) (map rfft_list M)).
  { pose proof (rect_map_rows rfft_list (fun m => Nat.min (m / 2 + 1) m)
                  length_rfft_list HM) as H.
    cbn beta in H. now rewrite (Nat.min_l _ _ Hh) in H. }
  apply (matrix_ext C0 (rect_to_spectral HM Hr Hc) (rect_mk _ _ _)).
  intros i j Hi Hj. rewrite mget_mk by assumption.
  unfold to_spectral.
  rewrite (mget_along_first fft_list length_fft_list HR Hi Hj).
  assert (Lc : length (column C0 (map rfft_list M) j) = r).
  { rewrite length_column. apply (rect_nrows HR). }
  rewrite nth_fft_list by (rewrite Lc; exact Hi). rewrite Lc.
  rewrite (Csum_ext r _ (fun _ => C0)); [ apply Csum_zero | ].
  intros a Ha. unfold column. rewrite (rect_nrows HR).
  rewrite (nth_map_seq (fun i0 => mget C0 (map rfft_list M) i0 j) C0 Ha).
  unfold mget. rewrite (nth_map_rows rfft_list a HM Ha).
  unfold M. rewrite (nth_mk_row r c _ a Ha).
  assert (Lrow : length (map (fun _ : nat => 0) (seq 0 c)) = c)
    by now rewrite length_map, length_seq.
  rewrite nth_rfft_list by (rewrite Lrow; lia). rewrite Lrow.
  rewrite (Csum_ext c _ (fun _ => C0)); [ rewrite Csum_zero; csolve | ].
  intros b Hb. rewrite (nth_map_seq (fun _ : nat => 0) 0 Hb). csolve.
Qed.

Lemma mget_truncate {r c n nkk : nat} (pd : list bool) {A : matrix complex}
    (t j : nat) :
  (t < length (mask_indices 0 pd))%nat -> (j < nkk)%nat ->
  mget C0 (truncate pd nkk A) t j
  = mget C0 A (nth t (mask_indices 0 pd) 0%nat) j.
Proof.
  intros Ht Hj. unfold mget, truncate.
  rewrite (nth_map_default (fun i => firstn nkk (nth i A [])) 0%nat [] _ t Ht).
  rewrite nth_firstn.
  destruct (j <? nkk)%nat eqn:E; [ reflexivity | apply Nat.ltb_ge in E; lia ].
Qed.

(** Proportional stream function and vorticity have no convection. *)
Lemma convection_proportional {n r c : nat} (pd : list bool) (nkk : nat)
    (p lam : R) (kxs kys : list R) (W : matrix complex) :
  length pd = r -> length (mask_indices 0 pd) = n -> (1 <= n)%nat ->
  (nkk <= c)%nat -> (2 <= c)%nat -> rect n nkk W ->
  convection pd r c nkk p kxs kys (mmap (Cscale lam) W) W
  = mk_matrix n nkk (fun _ _ => C0).
Proof.
  intros Hpd Hsel Hn Hc Hc2 HW.
  assert (Hr : (1 <= r)%nat).
  { destruct (mask_indices 0 pd) as [ | i l] eqn:E; [ cbn in Hsel; lia | ].
    assert (Hin : In i (mask_indices 0 pd)) by (rewrite E; now left).
    apply mask_indices_bound in Hin. lia. }
  pose proof (rect_mmap (Cscale lam) HW) as HS.
  assert (Edx : ddx kxs (mmap (Cscale lam) W) = mmap (Cscale lam) (ddx kxs W)).
  { apply (matrix_ext C0 (rect_ddx kxs HS Hn) (rect_mmap _ (rect_ddx kxs HW Hn))).
    intros i j Hi Hj. rewrite mget_mmap_Cscale. unfold ddx.
    rewrite (rect_nrows HS), (rect_ncols HS Hn), (rect_nrows HW),
      (rect_ncols HW Hn), !mget_mk by assumption.
    rewrite mget_mmap_Cscale. csolve. }
  assert (Edy : ddy kys (mmap (Cscale lam) W) = mmap (Cscale lam) (ddy kys W)).
  { apply (matrix_ext C0 (rect_ddy kys HS Hn) (rect_mmap _ (rect_ddy kys HW Hn))).
    intros i j Hi Hj. rewrite mget_mmap_Cscale. unfold ddy.
    rewrite (rect_nrows HS), (rect_ncols HS Hn), (rect_nrows HW),
      (rect_ncols HW Hn), !mget_mk by assumption.
    rewrite mget_mmap_Cscale. csolve. }
  unfold convection. rewrite Edx, Edy, !zero_pad_scale.
  rewrite !(to_physical_scale lam (rect_zero_pad r c pd nkk _) Hr) by lia.
  set (j2 := to_physical (zero_pad r c pd nkk (ddy kys W))).
  set (j4 := to_physical (zero_pad r c pd nkk (ddx kxs W))).
  assert (H2 : rect r (2 * (c - 1)) j2)
    by (apply (rect_to_physical (rect_zero_pad r c pd nkk _) Hr Hc2)).
  assert (H4 : rect r (2 * (c - 1)) j4)
    by (apply (rect_to_physical (rect_zero_pad r c pd nkk _) Hr Hc2)).
  rewrite (mk_matrix_ext r (2 * (c - 1)) _ (fun _ _ => 0)).
  2:{ intros i j Hi Hj.
      rewrite (mget_mmap (Rmult lam) 0 0 H4 Hi Hj).
      rewrite (mget_mmap (Rmult lam) 0 0 H2 Hi Hj). ring. }
  rewrite to_spectral_zero by lia.
  replace (2 * (c - 1) / 2 + 1)%nat with c
    by (rewrite Nat.mul_comm, Nat.div_mul by lia; lia).
  apply (matrix_ext C0 (r := n) (c := nkk)).
  - apply rect_mmap. apply (rect_truncate pd Hpd Hsel Hc (rect_mk r c _)).
  - apply rect_mk.
  - intros i j Hi Hj. rewrite mget_mmap_Cscale.
    rewrite (mget_truncate (r := r) (c := c) (n := n) pd i j)
      by (rewrite ?Hsel; assumption).
    assert (Hin : In (nth i (mask_indices 0 pd) 0%nat) (mask_indices 0 pd))
      by (apply nth_In; lia).
    apply mask_indices_bound in Hin.
    rewrite !mget_mk by lia. csolve.
Qed.

(* ----------------------------------------------------------------- *)
(** ** The operators on Taylor-Green spectra *)

Lemma rect_two_modes (n q : nat) (t b : complex) :
  rect n (n / 2 + 1) (two_modes n q t b).
Proof. apply rect_mk. Qed.

Lemma mget_two_modes (n q : nat) (t b : complex) (i j : nat) :
  (i < n)%nat -> (j < n / 2 + 1)%nat ->
  mget C0 (two_modes n q t b) i j
  = if (j =? q)%nat
    then if (i =? q)%nat then t else if (i =? n - q)%nat then b else C0
    else C0.
Proof. intros Hi Hj. unfold two_modes. now rewrite mget_mk. Qed.

(** Two spectra of the two-mode form are equal when their two
    coefficients are. *)
Lemma two_modes_ext (n q : nat) (M : matrix complex) (t b : complex) :
  rect n (n / 2 + 1) M ->
  (forall i j, (i < n)%nat -> (j < n / 2 + 1)%nat ->
     mget C0 M i j
     = if (j =? q)%nat
       then if (i =? q)%nat then t else if (i =? n - q)%nat then b else C0
       else C0) ->
  M = two_modes n q t b.
Proof.
  intros HM H. apply (matrix_ext C0 HM (rect_two_modes n q t b)).
  intros i j Hi Hj. now rewrite H, mget_two_modes.
Qed.

Section TaylorGreenOperators.

Variables n q : nat.
Variable s : Fluid.
Hypothesis Hq : (0 < q)%nat.
Hypothesis Hqn : (2 * q < n)%nat.
Hypothesis Hnk : nk s = (n / 2 + 1)%nat.
Hypothesis Hkx : kx s = wavenumbers n.
Hypothesis Hky : ky s = wavenumbers n.

Lemma q_in_half : (q < n / 2 + 1)%nat.
Proof.
  pose proof (Nat.div_mod_eq n 2).
  pose proof (Nat.mod_upper_bound n 2 ltac:(lia)). lia.
Qed.

Lemma wavenumber_q : nth q (wavenumbers n) 0 = INR q.
Proof.
  rewrite nth_wavenumbers by lia. unfold freq.
  destruct (q <? (n - 1) / 2 + 1)%nat eqn:E; [ now rewrite <- INR_IZR_INZ | ].
  apply Nat.ltb_ge in E. pose proof (Nat.div_mod_eq (n - 1) 2).
  pose proof (Nat.mod_upper_bound (n - 1) 2 ltac:(lia)). lia.
Qed.

Lemma wavenumber_mirror : nth (n - q) (wavenumbers n) 0 = - INR q.
Proof.
  rewrite nth_wavenumbers by lia. unfold freq.
  destruct (n - q <? (n - 1) / 2 + 1)%nat eqn:E.
  - apply Nat.ltb_lt in E. pose proof (Nat.div_mod_eq (n - 1) 2).
    pose proof (Nat.mod_upper_bound (n - 1) 2 ltac:(lia)). lia.
  - rewrite minus_IZR, <- !INR_IZR_INZ, minus_INR by lia. ring.
Qed.

Lemma kxs_q : nth q (firstn (nk s) (kx s)) 0 = INR q.
Proof.
  rewrite nth_firstn, Hnk.
  pose proof q_in_half as H. apply Nat.ltb_lt in H. rewrite H.
  rewrite Hkx. apply wavenumber_q.
Qed.

Lemma k2_at_modes (i : nat) :
  i = q \/ i = (n - q)%nat -> mget 0 (wavenumber_sq s) i q = 2 * INR q ^ 2.
Proof.
  intros Hi. pose proof q_in_half as Hh. pose proof (half_le n ltac:(lia)).
  rewrite mget_wavenumber_sq
    by (rewrite ?Hky, ?Hkx, ?Hnk, ?length_wavenumbers; lia).
  rewrite Hkx, Hky, wavenumber_q.
  destruct Hi as [-> | ->].
  - rewrite wavenumber_q. ring.
  - rewrite wavenumber_mirror. ring.
Qed.

Lemma INR_q_pos : 0 < INR q.
Proof. apply lt_0_INR. exact Hq. Qed.

(** Poisson inversion divides the amplitude by [2 q^2]. *)
Lemma poisson_invert_cc (a : R) :
  poisson_invert (wavenumber_sq s) (cc_spec n q a)
  = cc_spec n q (a / (2 * INR q ^ 2)).
Proof.
  pose proof INR_q_pos as Hp.
  assert (Hk : 2 * INR q ^ 2 <> 0) by nra.
  unfold cc_spec. apply two_modes_ext.
  - apply rect_poisson_invert; [ apply rect_two_modes | lia ].
  - intros i j Hi Hj.
    rewrite (mget_poisson_invert _ (rect_two_modes n q _ _) Hi Hj).
    rewrite mget_two_modes by assumption.
    destruct (j =? q)%nat eqn:Ej.
    + apply Nat.eqb_eq in Ej. subst j.
      destruct (i =? q)%nat eqn:E1.
      * apply Nat.eqb_eq in E1. subst i.
        rewrite (k2_at_modes q (or_introl eq_refl)).
        destruct (Rneb (2 * INR q ^ 2) 0) eqn:E;
          [ cfield | apply Rneb_false in E; contradiction ].
      * destruct (i =? n - q)%nat eqn:E2.
        -- apply Nat.eqb_eq in E2. subst i.
           rewrite (k2_at_modes (n - q) (or_intror eq_refl)).
           destruct (Rneb (2 * INR q ^ 2) 0) eqn:E;
             [ cfield | apply Rneb_false in E; contradiction ].
        -- destruct (Rneb _ 0); [ | reflexivity ].
           apply complex_ext; cbn [re im Cdivr C0]; unfold Rdiv; ring.
    + destruct (Rneb _ 0); [ | reflexivity ].
      apply complex_ext; cbn [re im Cdivr C0]; unfold Rdiv; ring.
Qed.

(** The spectral derivatives of [cos cos]. *)
Lemma ddy_cc (a : R) : ddy (ky s) (cc_spec n q a) = cs_spec n q (- INR q * a).
Proof.
  unfold cs_spec. apply two_modes_ext.
  - apply rect_ddy; [ apply rect_two_modes | lia ].
  - intros i j Hi Hj. unfold ddy, cc_spec.
    rewrite (rect_nrows (rect_two_modes n q _ _)),
      (rect_ncols (rect_two_modes n q _ _)) by lia.
    rewrite mget_mk, mget_two_modes by assumption.
    destruct (j =? q)%nat; [ | csolve ].
    destruct (i =? q)%nat eqn:E1.
    + apply Nat.eqb_eq in E1. subst i. rewrite Hky, wavenumber_q. cfield.
    + destruct (i =? n - q)%nat eqn:E2; [ | csolve ].
      apply Nat.eqb_eq in E2. subst i. rewrite Hky, wavenumber_mirror. cfield.
Qed.

Lemma ddx_cc (a : R) :
  ddx (firstn (nk s) (kx s)) (cc_spec n q a) = sc_spec n q (- INR q * a).
Proof.
  unfold sc_spec. apply two_modes_ext.
  - apply rect_ddx; [ apply rect_two_modes | lia ].
  - intros i j Hi Hj. unfold ddx, cc_spec.
    rewrite (rect_nrows (rect_two_modes n q _ _)),
      (rect_ncols (rect_two_modes n q _ _)) by lia.
    rewrite mget_mk, mget_two_modes by assumption.
    destruct (j =? q)%nat eqn:Ej; [ | csolve ].
    apply Nat.eqb_eq in Ej. subst j. rewrite kxs_q.
    destruct (i =? q)%nat; [ cfield | ].
    destruct (i =? n - q)%nat; [ cfield | csolve ].
Qed.

Lemma cc_spec_scale (lam a : R) :
  cc_spec n q (lam * a) = mmap (Cscale lam) (cc_spec n q a).
Proof.
  symmetry. unfold cc_spec. apply two_modes_ext.
  - apply rect_mmap. apply rect_two_modes.
  - intros i j Hi Hj. rewrite mget_mmap_Cscale.
    rewrite mget_two_modes by assumption.
    destruct (j =? q)%nat; [ | csolve ].
    destruct (i =? q)%nat; [ cfield | ].
    destruct (i =? n - q)%nat; [ cfield | csolve ].
Qed.

Lemma cc_spec_zero : mk_matrix n (n / 2 + 1) (fun _ _ => C0) = cc_spec n q 0.
Proof.
  unfold cc_spec. apply two_modes_ext; [ apply rect_mk | ].
  intros i j Hi Hj. rewrite mget_mk by assumption.
  destruct (j =? q)%nat; [ | reflexivity ].
  destruct (i =? q)%nat; [ cfield | ].
  destruct (i =? n - q)%nat; [ cfield | reflexivity ].
Qed.

(** Diffusion of a field without convection. *)
Lemma diffuse_cc (ri a b : R) :
  diffuse ri (wavenumber_sq s) (cc_spec n q a) (cc_spec n q b)
  = cc_spec n q (b - ri * (2 * INR q ^ 2) * a).
Proof.
  unfold cc_spec. apply two_modes_ext.
  - apply rect_diffuse; [ apply rect_two_modes | lia ].
  - intros i j Hi Hj. unfold diffuse.
    rewrite (rect_nrows (rect_two_modes n q _ _)),
      (rect_ncols (rect_two_modes n q _ _)) by lia.
    rewrite mget_mk, !mget_two_modes by assumption.
    destruct (j =? q)%nat eqn:Ej; [ | csolve ].
    apply Nat.eqb_eq in Ej. subst j.
    destruct (i =? q)%nat eqn:E1.
    + apply Nat.eqb_eq in E1. subst i.
      rewrite (k2_at_modes q (or_introl eq_refl)). cfield.
    + destruct (i =? n - q)%nat eqn:E2; [ | csolve ].
      apply Nat.eqb_eq in E2. subst i.
      rewrite (k2_at_modes (n - q) (or_intror eq_refl)). cfield.
Qed.

Lemma advance_cc (a0 h : R) (k : Z) (b : R) :
  advance (cc_spec n q a0) h k (cc_spec n q b)
  = cc_spec n q (a0 + h / IZR k * b).
Proof.
  unfold cc_spec. apply two_modes_ext.
  - apply rect_advance; [ apply rect_two_modes | lia ].
  - intros i j Hi Hj. unfold advance.
    rewrite (rect_nrows (rect_two_modes n q _ _)),
      (rect_ncols (rect_two_modes n q _ _)) by lia.
    rewrite mget_mk, !mget_two_modes by assumption.
    destruct (j =? q)%nat; [ | csolve ].
    destruct (i =? q)%nat;
      [ apply complex_ext; cbn [re im Cadd Cscale RtoC]; unfold Rdiv; ring | ].
    destruct (i =? n - q)%nat;
      [ apply complex_ext; cbn [re im Cadd Cscale RtoC]; unfold Rdiv; ring
      | csolve ].
Qed.

End TaylorGreenOperators.

(* ----------------------------------------------------------------- *)
(** ** One time step on a Taylor-Green state *)

Lemma range_down_3 : range_down 3 = [3; 2; 1]%Z.
Proof. reflexivity. Qed.

Lemma abs_product_bound (c1 s1 c2 s2 : R) :
  c1 ^ 2 + s1 ^ 2 = 1 -> c2 ^ 2 + s2 ^ 2 = 1 ->
  Rabs (c1 * s2) + Rabs (s1 * c2) <= 1.
Proof.
  intros H1 H2. rewrite !Rabs_mult.
  pose proof (Rabs_pos c1) as A1. pose proof (Rabs_pos s1) as A2.
  pose proof (Rabs_pos c2) as A3. pose proof (Rabs_pos s2) as A4.
  assert (E1 : Rabs c1 ^ 2 + Rabs s1 ^ 2 = 1)
    by (rewrite <- !Rsqr_pow2, <- !Rsqr_abs, !Rsqr_pow2; exact H1).
  assert (E2 : Rabs c2 ^ 2 + Rabs s2 ^ 2 = 1)
    by (rewrite <- !Rsqr_pow2, <- !Rsqr_abs, !Rsqr_pow2; exact H2).
  set (a := Rabs c1) in *. set (b := Rabs s1) in *.
  set (c := Rabs c2) in *. set (d := Rabs s2) in *.
  assert (Hsq : (a * d + b * c) ^ 2 <= 1).
  { assert (0 <= (a * c - b * d) ^ 2) by apply pow2_ge_0.
    replace ((a * d + b * c) ^ 2)
      with ((a ^ 2 + b ^ 2) * (c ^ 2 + d ^ 2) - (a * c - b * d) ^ 2) by ring.
    rewrite E1, E2. lra. }
  assert (Hnn : 0 <= a * d + b * c) by nra.
  nra.
Qed.

Lemma cos_sin_sq (t : R) : cos t ^ 2 + sin t ^ 2 = 1.
Proof. pose proof (sin2_cos2 t) as H. unfold Rsqr in H. lra. Qed.

Section TaylorGreenStep.

Variables n q m r c : nat.
Variable pd : list bool.
Hypothesis Hq : (0 < q)%nat.
Hypothesis Hm : (0 < m)%nat.
Hypothesis Hn : n = (4 * q * m)%nat.

Let Hqn : (2 * q < n)%nat.
Proof. rewrite Hn. nia. Qed.

Let Hev : Nat.even n = true.
Proof.
  rewrite Hn. replace (4 * q * m)%nat with (2 * (2 * q * m))%nat by lia.
  apply Nat.even_spec. now exists (2 * q * m)%nat.
Qed.

Lemma cc_spec_mean (a : R) : mget C0 (cc_spec n q a) 0 0 = C0.
Proof.
  unfold cc_spec. rewrite mget_two_modes by lia.
  destruct (0 =? q)%nat eqn:E; [ apply Nat.eqb_eq in E; lia | reflexivity ].
Qed.

(** The stage of the specification on a Taylor-Green spectrum. *)
Lemma rk_stage_cc (s : Fluid) (W P D P0 D0 : matrix complex) (a0 a h : R)
    (k : Z) :
  solver_ready n r c pd W P D s ->
  rk_stage (grid_of s r c pd) (cc_spec n q a0) h k
    (mkStage (cc_spec n q a) P0 D0)
  = mkStage
      (cc_spec n q (a0 + h / IZR k * (0 - ReI s * (2 * INR q ^ 2) * a)))
      (cc_spec n q (a / (2 * INR q ^ 2)))
      (cc_spec n q (0 - ReI s * (2 * INR q ^ 2) * a)).
Proof.
  intros H. pose proof (sr_size H) as Hsz.
  destruct (ready_lengths H) as (Lx & Ly & Hnr & Hk).
  pose proof (sr_nk H) as Hnk. pose proof (sr_kx H) as Hkx.
  pose proof (sr_ky H) as Hky.
  unfold rk_stage.
  cbn [sd_wh sd_psih sd_acc grid_of gd_k2 gd_kx gd_ky gd_nk gd_rows
       gd_cols gd_padder gd_pad gd_ReI].
  rewrite (poisson_invert_cc n q s Hq Hqn Hnk Hkx Hky a).
  assert (Econv :
    convection pd r c (nk s) (pad s) (firstn (nk s) (kx s)) (ky s)
      (cc_spec n q (a / (2 * INR q ^ 2))) (cc_spec n q a)
    = cc_spec n q 0).
  { replace (a / (2 * INR q ^ 2)) with (/ (2 * INR q ^ 2) * a)
      by (unfold Rdiv; ring).
    rewrite (cc_spec_scale n q).
    rewrite (convection_proportional (n := n) pd (nk s) (pad s) _ _ _ _
               (sr_padder_len H) (sr_padder_sel H)).
    - rewrite Hnk. now apply cc_spec_zero.
    - lia.
    - rewrite Hnk. apply (sr_cols H).
    - pose proof (sr_cols H). lia.
    - rewrite Hnk. apply rect_two_modes. }
  rewrite Econv.
  rewrite (diffuse_cc n q s Hq Hqn Hnk Hkx Hky).
  rewrite (advance_cc n q s Hq Hqn Hnk). reflexivity.
Qed.

(** Three stages multiply the amplitude by [stage3 z], [z = - ReI 2 q^2 dt];
    the stream function left behind has the amplitude of the vorticity
    before the last stage. *)
Lemma rk_stages_cc (s : Fluid) (W P D : matrix complex) (a h : R) :
  solver_ready n r c pd W P D s ->
  let z := - (ReI s * (2 * INR q ^ 2) * h) in
  exists D' : matrix complex,
    rk_stages (grid_of s r c pd) (cc_spec n q a) h (range_down 3)
      (mkStage (cc_spec n q a) P D)
    = mkStage (cc_spec n q (a * stage3 z))
        (cc_spec n q (a * stage2 z / (2 * INR q ^ 2))) D'.
Proof.
  intros H z. rewrite range_down_3. cbn [rk_stages].
  rewrite (rk_stage_cc s W P D _ _ _ _ _ _ H).
  rewrite (rk_stage_cc s W P D _ _ _ _ _ _ H).
  rewrite (rk_stage_cc s W P D _ _ _ _ _ _ H).
  assert (Hqpos : 0 < INR q) by (apply lt_0_INR; exact Hq).
  eexists. apply f_equal3; [ | | reflexivity ].
  - apply f_equal. unfold stage3, z. field.
  - apply f_equal. unfold stage2, z. field. nra.
Qed.

(** The velocities of a Taylor-Green stream function. *)
Lemma velocity_u_cc (s : Fluid) (W P D : matrix complex) (b : R) :
  solver_ready n r c pd W P D s ->
  velocity_u (ky s) (cc_spec n q b) = cs_field n q (- INR q * b).
Proof.
  intros H. unfold velocity_u.
  rewrite (ddy_cc n q s Hq Hqn (sr_nk H) (sr_ky H)).
  rewrite <- (to_spectral_cs n q Hq Hqn).
  apply (to_physical_to_spectral (rect_mk n n _)); [ lia | exact Hev | lia ].
Qed.

Lemma velocity_v_cc (s : Fluid) (W P D : matrix complex) (b : R) :
  solver_ready n r c pd W P D s ->
  velocity_v (firstn (nk s) (kx s)) (cc_spec n q b)
  = mmap Ropp (sc_field n q (- INR q * b)).
Proof.
  intros H. unfold velocity_v.
  rewrite (ddx_cc n q s Hq Hqn (sr_nk H) (sr_kx H)).
  rewrite <- (to_spectral_sc n q Hq Hqn).
  f_equal.
  apply (to_physical_to_spectral (rect_mk n n _)); [ lia | exact Hev | lia ].
Qed.

Lemma quarter_angle : dft_angle n q m = PI / 2.
Proof.
  unfold dft_angle. rewrite Hn, !mult_INR.
  change (INR 4) with (1 + 1 + 1 + 1).
  assert (0 < INR q) by (apply lt_0_INR; lia).
  assert (0 < INR m) by (apply lt_0_INR; lia).
  field. split; lra.
Qed.

Lemma zero_angle : dft_angle n q 0 = 0.
Proof. unfold dft_angle. cbn [INR]. unfold Rdiv. ring. Qed.

(** The CFL step for the velocities of a Taylor-Green stream function of
    amplitude [b]: the maximum of [|u| + |v|] over the grid is [q |b|]. *)
Lemma cfl_dt_cc (b : R) :
  cfl_dt (linspace_step n) (linspace_step n)
    (cs_field n q (- INR q * b)) (mmap Ropp (sc_field n q (- INR q * b)))
  = sqrt 3 / (INR n / 2 * (2 + INR q * Rabs b) + INR n * INR n / 2).
Proof.
  assert (Hnpos : 0 < INR n) by (apply lt_0_INR; lia).
  assert (Hqpos : 0 < INR q) by (apply lt_0_INR; lia).
  pose proof PI_RGT_0 as Hpi.
  unfold cfl_dt. f_equal. f_equal.
  2:{ unfold cfl_Dmu, linspace_step. field. lra. }
  unfold cfl_Dc.
  assert (HU : rect n n (cs_field n q (- INR q * b))) by apply rect_mk.
  rewrite (rect_nrows HU), (rect_ncols HU) by lia.
  set (f := fun i j => cfl_term (linspace_step n) (linspace_step n)
              (mget 0 (cs_field n q (- INR q * b)) i j)
              (mget 0 (mmap Ropp (sc_field n q (- INR q * b))) i j)).
  assert (Hf : forall i j, (i < n)%nat -> (j < n)%nat ->
            f i j = INR n / 2
                    * (2 + INR q * Rabs b
                           * (Rabs (cos (dft_angle n q j) * sin (dft_angle n q i))
                              + Rabs (sin (dft_angle n q j) * cos (dft_angle n q i))))).
  { intros i j Hi Hj. unfold f, cfl_term, cs_field, sc_field.
    rewrite (mget_mmap Ropp 0 0 (rect_mk n n _) Hi Hj), !mget_mk by assumption.
    rewrite Rabs_Ropp, !Rabs_mult, Rabs_Ropp, (Rabs_right (INR q)) by lra.
    unfold linspace_step. field. lra. }
  destruct (grid_max_spec n n f ltac:(lia) ltac:(lia))
    as [(i & j & Hi & Hj & E) Hmax].
  apply Rle_antisym.
  - rewrite E, (Hf i j Hi Hj).
    pose proof (abs_product_bound _ _ _ _ (cos_sin_sq (dft_angle n q j))
                  (cos_sin_sq (dft_angle n q i))) as Hb.
    pose proof (Rabs_pos b).
    apply Rmult_le_compat_l; [ lra | ].
    assert (0 <= INR q * Rabs b) by nra. nra.
  - assert (Hm' : (m < n)%nat) by (rewrite Hn; nia).
    pose proof (Hmax m 0%nat Hm' ltac:(lia)) as Hge.
    rewrite (Hf m 0%nat Hm' ltac:(lia)) in Hge.
    rewrite quarter_angle, zero_angle in Hge.
    rewrite cos_0, sin_0, sin_PI2, cos_PI2 in Hge.
    rewrite Rmult_1_l, Rmult_0_l, Rabs_R1, Rabs_R0 in Hge.
    replace (INR n / 2 * (2 + INR q * Rabs b))
      with (INR n / 2 * (2 + INR q * Rabs b * (1 + 0))) by ring.
    exact Hge.
Qed.

End TaylorGreenStep.

(* ----------------------------------------------------------------- *)
(** ** Updates of a Taylor-Green state *)

Section TaylorGreenUpdate.

Variables n q m r c : nat.
Variable pd : list bool.
Hypothesis Hq : (0 < q)%nat.
Hypothesis Hm : (0 < m)%nat.
Hypothesis Hn : n = (4 * q * m)%nat.

(** One call of [update()] multiplies the amplitude by [stage3 z] with
    [z = - 2 q^2 ReI dt], advances [time] by [dt], and sets the next [dt]
    from the amplitude [a stage2 z] that the vorticity had before the last
    stage. *)
Lemma update_tg (a : R) (s : Fluid) :
  tg_state n q r c pd a s ->
  let z := - (ReI s * (2 * INR q ^ 2) * dt s) in
  exists s',
    update 3 s = Returned tt s'
    /\ tg_state n q r c pd (a * stage3 z) s'
    /\ time s' = time s + dt s
    /\ dt s' = sqrt 3 / (INR n / 2
                           * (2 + INR q * Rabs (a * stage2 z / (2 * INR q ^ 2)))
                         + INR n * INR n / 2)
    /\ Re s' = Re s /\ ReI s' = ReI s.
Proof.
  intros Hs z. destruct (tg_ready Hs) as (P & D & H).
  destruct (update_ready 3 H) as [Erun Hready].
  destruct (rk_stages_cc n q m r c pd Hq Hm Hn s _ P D a (dt s) H) as [D' Estages].
  fold z in Estages. rewrite Estages in Erun, Hready.
  cbn [sd_wh sd_psih sd_acc] in Erun, Hready.
  eexists. split; [ exact Erun | ].
  split; [ | split; [ reflexivity | split; [ | split; reflexivity ] ] ].
  - constructor.
    + exists (cc_spec n q (a * stage2 z / (2 * INR q ^ 2))), D'. exact Hready.
    + apply (tg_dx Hs).
    + apply (tg_dy Hs).
    + apply (tg_x Hs).
    + apply (tg_y Hs).
  - change (cfl_dt (dx s) (dy s)
              (velocity_u (ky s) (cc_spec n q (a * stage2 z / (2 * INR q ^ 2))))
              (velocity_v (firstn (nk s) (kx s))
                 (cc_spec n q (a * stage2 z / (2 * INR q ^ 2))))
            = sqrt 3 / (INR n / 2
                          * (2 + INR q
                                 * Rabs (a * stage2 z / (2 * INR q ^ 2)))
                        + INR n * INR n / 2)).
    rewrite (velocity_u_cc n q m r c pd Hq Hm Hn s _ P D _ H).
    rewrite (velocity_v_cc n q m r c pd Hq Hm Hn s _ P D _ H).
    rewrite (tg_dx Hs), (tg_dy Hs).
    apply (cfl_dt_cc n q m Hq Hm Hn).
Qed.

(** Reading the vorticity back. *)
Lemma wh_to_w_tg (a : R) (s : Fluid) :
  tg_state n q r c pd a s ->
  wh_to_w s = Returned tt (set_w (cc_field n q a) s).
Proof.
  intros Hs. destruct (tg_ready Hs) as (P & D & H).
  assert (Hqn : (2 * q < n)%nat) by (rewrite Hn; nia).
  assert (Hev : Nat.even n = true).
  { rewrite Hn. replace (4 * q * m)%nat with (2 * (2 * q * m))%nat by lia.
    apply Nat.even_spec. now exists (2 * q * m)%nat. }
  destruct (ready_lengths H) as (_ & _ & _ & Hk).
  apply (wh_to_w_run s (cc_spec n q a)); [ apply (sr_wh H) | ].
  rewrite (proj1 (irfft2_rect (sr_wh_rect H) ltac:(lia) Hk)). apply f_equal.
  fold (to_physical (cc_spec n q a)).
  rewrite <- (to_spectral_cc n q Hq Hqn).
  unfold cc_field.
  apply (to_physical_to_spectral (rect_mk n n _)); [ lia | exact Hev | lia ].
Qed.

End TaylorGreenUpdate.

(* ----------------------------------------------------------------- *)
(** ** The Taylor-Green initial state *)

(** [init_solver] leaves the grid axes and the viscosity alone. *)
Lemma init_solver_axes (s s1 : Fluid) (len : nat) (top : R) :
  k2 s = None -> fltr s = None ->
  as_size (py_int (pad s * INR (nx s))) = Val len ->
  np_max1 (kx s) = Val top ->
  init_solver s = Returned tt s1 ->
  x s1 = x s /\ y s1 = y s /\ ReI s1 = ReI s.
Proof.
  intros Hk Hf Hlen Htop.
  unfold init_solver, bind, gets, modify, ret, eval. rewrite Hk.
  cbn -[wavenumber_sq np_zeros nonzero_mask py_int INR slice_bound as_size
        _init_filter].
  rewrite Hlen.
  cbn -[wavenumber_sq np_zeros nonzero_mask py_int INR slice_bound as_size
        _init_filter].
  rewrite Hf.
  unfold _init_filter, bind, gets, modify, eval, attr, getattr.
  cbn -[wavenumber_sq np_zeros nonzero_mask py_int INR slice_bound as_size
        np_max1 masked_update mmap].
  rewrite Htop.
  cbn -[wavenumber_sq np_zeros nonzero_mask py_int INR slice_bound as_size
        np_max1 masked_update mmap].
  intros E. injection E as <-. repeat split.
Qed.

Lemma linspace_angle (n q j : nat) :
  (0 < n)%nat ->
  INR q * (INR j * linspace_step n + 0) = dft_angle n q j.
Proof.
  intros Hn. unfold linspace_step, dft_angle.
  assert (INR n <> 0) by (apply not_0_INR; lia). field. assumption.
Qed.

(** The array that [init_field("Taylor-Green")] builds at [t = 0]. *)
Lemma taylor_green_array (n q : nat) (re0 : R) :
  (0 < n)%nat -> re0 <> 0 ->
  mmap (fun e => e * exp (-2 * INR q ^ 2 * 0 / re0))
    (outer Rmult
       (map (fun xv => 2 * INR q * cos (INR q * xv)) (linspace n))
       (map (fun yv => cos (INR q * yv)) (linspace n)))
  = cc_field n q (2 * INR q).
Proof.
  intros Hn Hre. unfold mmap, outer, cc_field, mk_matrix, linspace.
  rewrite !map_map. apply map_ext. intros i.
  rewrite !map_map. apply map_ext. intros j.
  rewrite !linspace_angle by exact Hn.
  replace (-2 * INR q ^ 2 * 0 / re0) with 0 by (field; exact Hre).
  rewrite exp_0. ring.
Qed.

(** [init_field("Taylor-Green", t=0, kappa=q)] on a ready solver with
    non-zero [Re] stores the field of amplitude [2 q] and its spectrum. *)
Lemma init_field_tg (n q r c : nat) (pd : list bool) (W P D : matrix complex)
    (delta sigma : R) (draws : (nat -> nat -> R) * (nat -> nat -> R))
    (s : Fluid) :
  (0 < q)%nat -> (2 * q < n)%nat ->
  solver_ready n r c pd W P D s ->
  x s = linspace n -> y s = linspace n ->
  dx s = linspace_step n -> dy s = linspace_step n ->
  Re s <> 0 ->
  exists s',
    init_field (FieldStr "Taylor-Green") 0 (INR q) delta sigma draws s
    = Returned tt s'
    /\ tg_state n q r c pd (2 * INR q) s'
    /\ time s' = time s /\ dt s' = dt s /\ Re s' = Re s /\ ReI s' = ReI s.
Proof.
  intros Hq Hqn H Hx Hy Hdx Hdy Hre.
  unfold init_field.
  change (("Taylor-Green" =? "TG") || ("Taylor-Green" =? "Taylor-Green"))%string
    with true.
  cbv iota. mstep. rewrite Hx, Hy. unfold py_truediv.
  destruct (Req_dec_T (Re s) 0) as [E | _]; [ contradiction | ].
  mstep. rewrite (taylor_green_array n q (Re s) ltac:(lia) Hre).
  set (s1 := set_w (cc_field n q (2 * INR q)) s).
  assert (Hspec : rfft2 (w s1) = Val (cc_spec n q (2 * INR q))).
  { change (w s1) with (cc_field n q (2 * INR q)). unfold cc_field.
    rewrite (proj1 (rfft2_rect (rect_mk n n _) ltac:(lia) ltac:(lia))).
    apply f_equal. apply (to_spectral_cc n q Hq Hqn). }
  rewrite (w_to_wh_run s1 _ Hspec).
  eexists. split; [ reflexivity | ].
  split; [ | repeat split ].
  constructor; try assumption.
  exists P, D.
  apply (ready_set_wh _ (ready_set_w (cc_field n q (2 * INR q)) H)).
  apply rect_two_modes.
Qed.

(* ----------------------------------------------------------------- *)
(** ** Taylor bounds of the exponential *)

Lemma deriv_peval (l : list R) (x : R) :
  derivable_pt_lim (peval l) x (pderiv l x).
Proof.
  induction l as [ | a l IH ]; cbn [peval pderiv].
  - apply derivable_pt_lim_const.
  - replace (peval l x + x * pderiv l x)
      with (0 + (1 * peval l x + x * pderiv l x)) by ring.
    apply (derivable_pt_lim_plus (fct_cte a) (id * peval l)%F).
    + apply derivable_pt_lim_const.
    + apply derivable_pt_lim_mult; [ apply derivable_pt_lim_id | exact IH ].
Qed.

(** A function that vanishes at 0 and has a non-negative derivative left of
    0 is non-positive there. *)
Lemma nonpositive_left (f f' : R -> R) :
  (forall x, derivable_pt_lim f x (f' x)) -> f 0 = 0 ->
  (forall x, x <= 0 -> 0 <= f' x) ->
  forall x, x <= 0 -> f x <= 0.
Proof.
  intros Hd H0 Hpos x Hx.
  destruct (Req_dec_T x 0) as [-> | Hne]; [ lra | ].
  destruct (MVT_cor2 f f' x 0 ltac:(lra) (fun c _ => Hd c)) as (c & Ec & Hc).
  pose proof (Hpos c ltac:(lra)). rewrite H0 in Ec. nra.
Qed.

Lemma exp_above_poly_left (l : list R) :
  peval l 0 = 1 ->
  (forall x, x <= 0 -> pderiv l x <= exp x) ->
  forall x, x <= 0 -> exp x <= peval l x.
Proof.
  intros H0 Hd x Hx.
  enough (exp x - peval l x <= 0) by lra.
  apply (nonpositive_left (fun y => exp y - peval l y)
           (fun y => exp y - pderiv l y)); [ | | | exact Hx ].
  - intros y. apply (derivable_pt_lim_minus exp (peval l));
      [ apply derivable_pt_lim_exp | apply deriv_peval ].
  - rewrite exp_0, H0. ring.
  - intros y Hy. pose proof (Hd y Hy). lra.
Qed.

Lemma exp_below_poly_left (l : list R) :
  peval l 0 = 1 ->
  (forall x, x <= 0 -> exp x <= pderiv l x) ->
  forall x, x <= 0 -> peval l x <= exp x.
Proof.
  intros H0 Hd x Hx.
  enough (peval l x - exp x <= 0) by lra.
  apply (nonpositive_left (fun y => peval l y - exp y)
           (fun y => pderiv l y - exp y)); [ | | | exact Hx ].
  - intros y. apply (derivable_pt_lim_minus (peval l) exp);
      [ apply deriv_peval | apply derivable_pt_lim_exp ].
  - rewrite exp_0, H0. ring.
  - intros y Hy. pose proof (Hd y Hy). lra.
Qed.

Lemma exp_ge_1 (x : R) : 1 + x <= exp x.
Proof. apply exp_ineq1_le. Qed.

Lemma exp_le_2 (x : R) : x <= 0 -> exp x <= 1 + x + x ^ 2 / 2.
Proof.
  intros Hx.
  replace (1 + x + x ^ 2 / 2) with (peval [1; 1; / 2] x) by (cbn; field).
  apply exp_above_poly_left; [ cbn; ring | | exact Hx ].
  intros y _. pose proof (exp_ge_1 y). cbn. lra.
Qed.

Lemma exp_ge_3 (x : R) : x <= 0 -> 1 + x + x ^ 2 / 2 + x ^ 3 / 6 <= exp x.
Proof.
  intros Hx.
  replace (1 + x + x ^ 2 / 2 + x ^ 3 / 6) with (peval [1; 1; / 2; / 6] x)
    by (cbn; field).
  apply exp_below_poly_left; [ cbn; ring | | exact Hx ].
  intros y Hy. pose proof (exp_le_2 y Hy). cbn. lra.
Qed.

Lemma exp_le_4 (x : R) :
  x <= 0 -> exp x <= 1 + x + x ^ 2 / 2 + x ^ 3 / 6 + x ^ 4 / 24.
Proof.
  intros Hx.
  replace (1 + x + x ^ 2 / 2 + x ^ 3 / 6 + x ^ 4 / 24)
    with (peval [1; 1; / 2; / 6; / 24] x) by (cbn; field).
  apply exp_above_poly_left; [ cbn; ring | | exact Hx ].
  intros y Hy. pose proof (exp_ge_3 y Hy). cbn. lra.
Qed.

Lemma exp_ge_5 (x : R) :
  x <= 0 ->
  1 + x + x ^ 2 / 2 + x ^ 3 / 6 + x ^ 4 / 24 + x ^ 5 / 120 <= exp x.
Proof.
  intros Hx.
  replace (1 + x + x ^ 2 / 2 + x ^ 3 / 6 + x ^ 4 / 24 + x ^ 5 / 120)
    with (peval [1; 1; / 2; / 6; / 24; / 120] x) by (cbn; field).
  apply exp_below_poly_left; [ cbn; ring | | exact Hx ].
  intros y Hy. pose proof (exp_le_4 y Hy). cbn. lra.
Qed.

(* ----------------------------------------------------------------- *)
(** ** The amplitude recurrence *)

Lemma stage3_le_exp (z : R) : z <= 0 -> stage3 z <= exp z.
Proof. intros Hz. unfold stage3. apply exp_ge_3. exact Hz. Qed.

Lemma stage3_ge_linear (z : R) : -3 <= z -> 1 + z <= stage3 z.
Proof.
  intros Hz. unfold stage3.
  enough (0 <= z ^ 2 * (3 + z)) by nra.
  apply Rmult_le_pos; [ apply pow2_ge_0 | lra ].
Qed.

Lemma stage2_bounds (z : R) : -1 <= z <= 0 -> 1 + z / 2 <= stage2 z <= 1.
Proof. intros Hz. unfold stage2. nra. Qed.

Lemma stage3_gap (z : R) :
  z <= 0 -> z ^ 4 / 24 + z ^ 5 / 120 <= exp z - stage3 z.
Proof. intros Hz. pose proof (exp_ge_5 z Hz). unfold stage3. lra. Qed.

Lemma stage3_ge_exp2 (z : R) : -1 / 2 <= z <= 0 -> exp (2 * z) <= stage3 z.
Proof.
  intros Hz. apply Rle_trans with (1 + z); [ | apply stage3_ge_linear; lra ].
  pose proof (exp_ge_1 (- (2 * z))) as H1.
  pose proof (exp_pos (2 * z)) as H2.
  assert (H3 : exp (2 * z) * exp (- (2 * z)) = 1).
  { rewrite <- exp_plus. replace (2 * z + - (2 * z)) with 0 by ring.
    apply exp_0. }
  assert (H4 : exp (2 * z) * (1 + - (2 * z)) <= 1).
  { rewrite <- H3. apply Rmult_le_compat_l; lra. }
  nra.
Qed.

Lemma sqrt3_bounds : 1732 / 1000 <= sqrt 3 <= 17320509 / 10000000.
Proof.
  split.
  - rewrite <- (sqrt_pow2 (1732 / 1000)) by lra. apply sqrt_le_1_alt. lra.
  - rewrite <- (sqrt_pow2 (17320509 / 10000000)) by lra.
    apply sqrt_le_1_alt. lra.
Qed.

Lemma exp_neg_le_1 (t : R) : 0 <= t -> exp (- t) <= 1.
Proof.
  intros Ht. rewrite <- exp_0.
  destruct (Req_dec_T t 0) as [-> | Hne].
  - rewrite Ropp_0. lra.
  - left. apply exp_increasing. lra.
Qed.

Lemma exp_monotone (u v : R) : u <= v -> exp u <= exp v.
Proof.
  intros H. destruct (Req_dec_T u v) as [-> | Hne]; [ lra | ].
  left. apply exp_increasing. lra.
Qed.

(** [t exp(-8 t)] grows on [[0, 1/8]]. *)
Lemma decay_moment_grows (t tu : R) :
  0 <= t <= tu -> tu <= 1 / 8 ->
  t * exp (- (8 * t)) <= tu * exp (- (8 * tu)).
Proof.
  intros Ht Htu.
  replace (- (8 * tu)) with (- (8 * t) + - (8 * (tu - t))) by ring.
  rewrite exp_plus.
  pose proof (exp_pos (- (8 * t))) as HE.
  pose proof (exp_ge_1 (- (8 * (tu - t)))) as HG.
  assert (H1 : t <= tu * exp (- (8 * (tu - t)))).
  { apply Rle_trans with (tu * (1 + - (8 * (tu - t)))).
    - nra.
    - apply Rmult_le_compat_l; lra. }
  replace (tu * (exp (- (8 * t)) * exp (- (8 * (tu - t)))))
    with (tu * exp (- (8 * (tu - t))) * exp (- (8 * t))) by ring.
  apply Rmult_le_compat_r; lra.
Qed.

(** On steps up to [cfl_cap] the three stages stay within the relative
    defect [rk_defect * h] of the exponential. *)
Lemma stage3_ge_exp_defect (h : R) :
  0 <= h <= cfl_cap ->
  exp (- (8 * h)) * (1 - rk_defect * h) <= stage3 (- (8 * h)).
Proof.
  intros Hh. unfold cfl_cap in Hh.
  pose proof (exp_le_4 (- (8 * h)) ltac:(lra)) as H4.
  pose proof (exp_ge_1 (- (8 * h))) as H1.
  assert (Hcube : h ^ 3 <= (31443 / 10000000) ^ 3) by (apply pow_incr; lra).
  assert (Hfour : h ^ 4 <= (31443 / 10000000) ^ 3 * h).
  { replace (h ^ 4) with (h ^ 3 * h) by ring.
    apply Rmult_le_compat_r; lra. }
  assert (Hnum : 4096 * (31443 / 10000000) ^ 3 / 24
                 <= (1 - 8 * (31443 / 10000000)) * rk_defect)
    by (unfold rk_defect; lra).
  assert (Hprod : (1 - 8 * (31443 / 10000000)) * rk_defect * h
                  <= exp (- (8 * h)) * (rk_defect * h)).
  { rewrite Rmult_assoc. apply Rmult_le_compat_r.
    - unfold rk_defect. nra.
    - lra. }
  assert (Hgap : (- (8 * h)) ^ 4 / 24 <= exp (- (8 * h)) * (rk_defect * h)).
  { replace ((- (8 * h)) ^ 4 / 24) with (4096 / 24 * h ^ 4) by field.
    apply Rle_trans with (4096 / 24 * ((31443 / 10000000) ^ 3 * h)).
    - apply Rmult_le_compat_l; lra.
    - apply Rle_trans with ((1 - 8 * (31443 / 10000000)) * rk_defect * h);
        [ | exact Hprod ].
      replace (4096 / 24 * ((31443 / 10000000) ^ 3 * h))
        with (4096 * (31443 / 10000000) ^ 3 / 24 * h) by field.
      apply Rmult_le_compat_r; lra. }
  unfold stage3. lra.
Qed.

(** One update on the 32 x 32 grid, on the amplitude [a], the time [t] and
    the step size [h]. *)
Lemma tg32_step_scalar (a t h : R) :
  0 <= t <= 1 / 10 ->
  1 / 10000 <= h <= cfl_cap ->
  4 * exp (- (8 * t)) * (1 - rk_defect * t) <= a <= 4 * exp (- (8 * t)) ->
  (4 * exp (- (8 * (t + h))) * (1 - rk_defect * (t + h))
   <= a * stage3 (- (8 * h)) <= 4 * exp (- (8 * (t + h))))
  /\ 0 <= a * stage2 (- (8 * h))
  /\ 1 / 10000 <= sqrt 3 / (544 + 4 * (a * stage2 (- (8 * h)))) <= cfl_cap.
Proof.
  intros Ht Hh Ha.
  set (E := exp (- (8 * t))) in *.
  set (F := exp (- (8 * h))).
  set (S3 := stage3 (- (8 * h))).
  set (S2 := stage2 (- (8 * h))).
  assert (HEF : exp (- (8 * (t + h))) = E * F).
  { unfold E, F. rewrite <- exp_plus. f_equal. ring. }
  rewrite HEF.
  assert (Hcap : cfl_cap = 31443 / 10000000) by reflexivity.
  assert (Hdef : rk_defect = 5443 / 1000000000) by reflexivity.
  assert (HE0 : 0 < E) by apply exp_pos.
  assert (HE1 : E <= 1) by (apply exp_neg_le_1; lra).
  assert (HElow : 43466 / 100000 <= E).
  { apply Rle_trans with (exp (- (8 / 10))).
    - pose proof (exp_ge_3 (- (8 / 10)) ltac:(lra)). lra.
    - apply exp_monotone. lra. }
  assert (HF0 : 0 < F) by apply exp_pos.
  assert (HS3up : S3 <= F) by (apply stage3_le_exp; lra).
  assert (HS3low : F * (1 - rk_defect * h) <= S3)
    by (apply stage3_ge_exp_defect; lra).
  assert (HS3pos : 0 <= S3).
  { pose proof (stage3_ge_linear (- (8 * h)) ltac:(lra)). fold S3 in H. lra. }
  assert (HS2 : 1 + - (8 * h) / 2 <= S2 <= 1)
    by (apply stage2_bounds; lra).
  assert (Hkt : 0 <= 1 - rk_defect * t) by nra.
  assert (Hkh : 0 <= 1 - rk_defect * h) by nra.
  assert (Ha0 : 0 <= a).
  { apply Rle_trans with (4 * E * (1 - rk_defect * t)); [ | lra ].
    apply Rmult_le_pos; lra. }
  assert (HS2pos : 0 <= S2) by lra.
  split; [ split | split ].
  - apply Rle_trans
      with (4 * E * (1 - rk_defect * t) * (F * (1 - rk_defect * h))).
    + replace (4 * E * (1 - rk_defect * t) * (F * (1 - rk_defect * h)))
        with (4 * (E * F) * ((1 - rk_defect * t) * (1 - rk_defect * h)))
        by ring.
      apply Rmult_le_compat_l; [ nra | ].
      assert (0 <= rk_defect * t * (rk_defect * h)).
      { apply Rmult_le_pos; rewrite Hdef; lra. }
      lra.
    + apply Rmult_le_compat; try lra.
      * apply Rmult_le_pos; lra.
      * apply Rmult_le_pos; lra.
  - apply Rle_trans with (4 * E * S3).
    + apply Rmult_le_compat_r; lra.
    + replace (4 * (E * F)) with (4 * E * F) by ring.
      apply Rmult_le_compat_l; lra.
  - apply Rmult_le_pos; assumption.
  - assert (Hup : a * S2 <= 4).
    { apply Rle_trans with (4 * 1); [ | lra ].
      apply Rmult_le_compat; lra. }
    assert (Halow : 4 * (43466 / 100000) * (1 - rk_defect * (1 / 10)) <= a).
    { apply Rle_trans with (4 * E * (1 - rk_defect * t)); [ | lra ].
      apply Rmult_le_compat; rewrite ?Hdef; rewrite ?Hdef in Hkt; lra. }
    assert (Hlow : 17167 / 10000 <= a * S2).
    { apply Rle_trans
        with (4 * (43466 / 100000) * (1 - rk_defect * (1 / 10))
              * (1 - 4 * (31443 / 10000000))).
      - rewrite Hdef. lra.
      - apply Rmult_le_compat; rewrite ?Hdef; rewrite ?Hdef in Halow; lra. }
    pose proof sqrt3_bounds as Hs.
    assert (Hden : 0 < 544 + 4 * (a * S2)) by lra.
    split.
    + apply Rmult_le_reg_r with (544 + 4 * (a * S2)); [ exact Hden | ].
      unfold Rdiv at 2. rewrite Rmult_assoc, Rinv_l by lra. lra.
    + apply Rmult_le_reg_r with (544 + 4 * (a * S2)); [ exact Hden | ].
      unfold Rdiv at 1. rewrite Rmult_assoc, Rinv_l by lra.
      rewrite Hcap. lra.
Qed.

(** At the exit of the 32 x 32 run the amplitude is within [1e-6] of the
    analytic one. *)
Lemma tg32_exit_scalar (a t : R) :
  1 / 10 < t <= 1 / 10 + cfl_cap ->
  4 * exp (- (8 * t)) * (1 - rk_defect * t) <= a <= 4 * exp (- (8 * t)) ->
  Rabs (a - 4 * exp (- (8 * t))) <= 1 / 1000000.
Proof.
  intros Ht Ha.
  assert (Hcap : cfl_cap = 31443 / 10000000) by reflexivity.
  assert (Hdef : rk_defect = 5443 / 1000000000) by reflexivity.
  rewrite Hcap in Ht.
  pose proof (decay_moment_grows t (1 / 10 + 31443 / 10000000)
                ltac:(lra) ltac:(lra)) as Hg.
  pose proof (exp_le_4 (- (8 * (1 / 10 + 31443 / 10000000))) ltac:(lra)) as H4.
  set (E := exp (- (8 * t))) in *.
  set (Eu := exp (- (8 * (1 / 10 + 31443 / 10000000)))) in *.
  assert (HEu : Eu <= 4410 / 10000) by lra.
  rewrite Rabs_left1 by lra.
  assert (t * E <= (1 / 10 + 31443 / 10000000) * (4410 / 10000)).
  { apply Rle_trans with ((1 / 10 + 31443 / 10000000) * Eu); [ exact Hg | ].
    apply Rmult_le_compat_l; lra. }
  rewrite Hdef in Ha. lra.
Qed.

(** One update on the 16 x 16 grid. *)
Lemma tg16_step_scalar (a t h : R) :
  0 <= t <= 1 / 10 ->
  (t = 0 /\ h = 1 / 10000) \/ sqrt 3 / 152 <= h <= sqrt 3 / 144 ->
  4 * exp (- (16 * t)) <= a <= 4 * exp (- (8 * t)) ->
  (4 * exp (- (16 * (t + h)))
   <= a * stage3 (- (8 * h)) <= 4 * exp (- (8 * (t + h))))
  /\ 0 <= a * stage2 (- (8 * h))
  /\ sqrt 3 / 152 <= sqrt 3 / (144 + 2 * (a * stage2 (- (8 * h))))
     <= sqrt 3 / 144
  /\ (t + h <= 1 / 10
      \/ 2 / 1000000
         <= 4 * exp (- (8 * (t + h))) - a * stage3 (- (8 * h)))
  /\ 1 / 10000 <= h <= 13 / 1000.
Proof.
  intros Ht Hh Ha.
  pose proof sqrt3_bounds as Hs.
  assert (Hh' : 1 / 10000 <= h <= 1203 / 100000).
  { destruct Hh as [ [_ ->] | Hh ]; [ lra | ].
    split.
    - apply Rle_trans with (sqrt 3 / 152); lra.
    - apply Rle_trans with (sqrt 3 / 144); lra. }
  set (E := exp (- (8 * t))) in *.
  set (E2 := exp (- (16 * t))) in *.
  set (F := exp (- (8 * h))).
  set (F2 := exp (2 * - (8 * h))).
  set (S3 := stage3 (- (8 * h))).
  set (S2 := stage2 (- (8 * h))).
  assert (HEF : exp (- (8 * (t + h))) = E * F).
  { unfold E, F. rewrite <- exp_plus. f_equal. ring. }
  assert (HEF2 : exp (- (16 * (t + h))) = E2 * F2).
  { unfold E2, F2. rewrite <- exp_plus. f_equal. ring. }
  rewrite HEF, HEF2.
  assert (HE0 : 0 < E) by apply exp_pos.
  assert (HE20 : 0 < E2) by apply exp_pos.
  assert (HE1 : E <= 1) by (apply exp_neg_le_1; lra).
  assert (HF0 : 0 < F) by apply exp_pos.
  assert (HF20 : 0 < F2) by apply exp_pos.
  assert (HS3up : S3 <= F) by (apply stage3_le_exp; lra).
  assert (HS3low : F2 <= S3) by (apply stage3_ge_exp2; lra).
  assert (HS2 : 1 + - (8 * h) / 2 <= S2 <= 1) by (apply stage2_bounds; lra).
  assert (Ha0 : 0 <= a) by lra.
  assert (HaS2 : 0 <= a * S2 <= 4).
  { split; [ apply Rmult_le_pos; lra | ].
    apply Rle_trans with (4 * 1); [ | lra ].
    apply Rmult_le_compat; lra. }
  split; [ split | split; [ | split; [ split | split ] ] ].
  - replace (4 * (E2 * F2)) with (4 * E2 * F2) by ring.
    apply Rmult_le_compat; lra.
  - apply Rle_trans with (4 * E * S3).
    + apply Rmult_le_compat_r; lra.
    + replace (4 * (E * F)) with (4 * E * F) by ring.
      apply Rmult_le_compat_l; lra.
  - lra.
  - unfold Rdiv. apply Rmult_le_compat_l; [ lra | ].
    apply Rinv_le_contravar; lra.
  - unfold Rdiv. apply Rmult_le_compat_l; [ lra | ].
    apply Rinv_le_contravar; lra.
  - destruct Hh as [ [-> ->] | Hh ]; [ left; lra | right ].
    assert (Hx : 9115 / 100000 <= 8 * h <= 963 / 10000).
    { split.
      - apply Rle_trans with (8 * (sqrt 3 / 152)); lra.
      - apply Rle_trans with (8 * (sqrt 3 / 144)); lra. }
    pose proof (stage3_gap (- (8 * h)) ltac:(lra)) as Hgap.
    fold F S3 in Hgap.
    assert (Hx4 : (9115 / 100000) ^ 4 <= (8 * h) ^ 4)
      by (apply pow_incr; lra).
    assert (Hpoly : 282 / 100000000
                    <= (- (8 * h)) ^ 4 / 24 + (- (8 * h)) ^ 5 / 120).
    { replace ((- (8 * h)) ^ 4 / 24 + (- (8 * h)) ^ 5 / 120)
        with ((8 * h) ^ 4 * ((5 - 8 * h) / 120)) by field.
      apply Rle_trans with ((9115 / 100000) ^ 4 * (49037 / 10000 / 120));
        [ lra | ].
      apply Rmult_le_compat; try lra. }
    assert (HE2low : 18 / 100 <= E2).
    { apply Rle_trans with (exp (- (16 / 10))).
      - pose proof (exp_ge_5 (- (16 / 10)) ltac:(lra)). lra.
      - apply exp_monotone. lra. }
    assert (Hagap : a * (282 / 100000000) <= a * (F - S3))
      by (apply Rmult_le_compat_l; lra).
    assert (HaF : a * F <= 4 * E * F) by (apply Rmult_le_compat_r; lra).
    nra.
  - lra.
Qed.

(* ----------------------------------------------------------------- *)
(** ** The loop of the solver test *)

(** [while time <= stop: update()] under an invariant that every update
    keeps while advancing [time] by at least [delta]. *)
Lemma run_until_invariant (Inv : Fluid -> Prop) (stop delta : R) :
  0 < delta ->
  (forall s, Inv s -> time s <= stop ->
     exists s', update 3 s = Returned tt s' /\ Inv s'
                /\ time s + delta <= time s') ->
  forall (fuel : nat) (s : Fluid),
    Inv s -> stop - time s < INR fuel * delta ->
    exists s', run_until (S fuel) stop s = Returned true s'
               /\ Inv s' /\ stop < time s'.
Proof.
  intros Hd Hstep fuel. induction fuel as [ | fuel IH ]; intros s Hs Hfuel.
  - cbn [INR] in Hfuel. exists s. cbn [run_until]. mstep. unfold Rleb.
    destruct (Rle_dec (time s) stop) as [ Hle | Hgt ]; [ lra | ].
    repeat split; [ exact Hs | lra ].
  - change (run_until (S (S fuel)) stop s)
      with ((now <- gets time ;;
             if Rleb now stop then update 3 ;;; run_until (S fuel) stop
             else ret true) s).
    mstep. unfold Rleb.
    destruct (Rle_dec (time s) stop) as [ Hle | Hgt ].
    + destruct (Hstep s Hs Hle) as (s1 & Hrun & Hs1 & Htime).
      rewrite Hrun. apply IH; [ exact Hs1 | ].
      rewrite S_INR in Hfuel. nra.
    + exists s. repeat split; [ exact Hs | lra ].
Qed.

Lemma INR_2 : INR 2 = 2.
Proof. cbn. lra. Qed.

Lemma INR_16 : INR 16 = 16.
Proof. rewrite INR_IZR_INZ. reflexivity. Qed.

Lemma INR_32 : INR 32 = 32.
Proof. rewrite INR_IZR_INZ. reflexivity. Qed.

Lemma cfl32_value (X : R) :
  0 <= X ->
  sqrt 3 / (INR 32 / 2 * (2 + INR 2 * Rabs (X / (2 * INR 2 ^ 2)))
            + INR 32 * INR 32 / 2)
  = sqrt 3 / (544 + 4 * X).
Proof.
  intros HX. rewrite INR_32, INR_2.
  rewrite Rabs_right by (apply Rle_ge; apply Rmult_le_pos; lra).
  f_equal. field.
Qed.

Lemma cfl16_value (X : R) :
  0 <= X ->
  sqrt 3 / (INR 16 / 2 * (2 + INR 2 * Rabs (X / (2 * INR 2 ^ 2)))
            + INR 16 * INR 16 / 2)
  = sqrt 3 / (144 + 2 * X).
Proof.
  intros HX. rewrite INR_16, INR_2.
  rewrite Rabs_right by (apply Rle_ge; apply Rmult_le_pos; lra).
  f_equal. field.
Qed.

Lemma tg_exponent (h : R) : - (1 * (2 * INR 2 ^ 2) * h) = - (8 * h).
Proof. rewrite INR_2. ring. Qed.

(** Every update of the loop keeps the invariant of the 32 x 32 run. *)
Lemma tg32_update (s : Fluid) :
  tg32_inv s -> time s <= 1 / 10 ->
  exists s', update 3 s = Returned tt s' /\ tg32_inv s'
             /\ time s + 1 / 10000 <= time s'.
Proof.
  intros (a & Htg & HRe & HReI & Ht & Hh & Ha) Hstop.
  destruct (update_tg 32 2 4 48 25 (padder_of 16) ltac:(lia) ltac:(lia)
              eq_refl a s Htg)
    as (s' & Hrun & Htg' & Htime & Hdt & HRe' & HReI').
  rewrite HReI, tg_exponent in Htg', Hdt.
  destruct (tg32_step_scalar a (time s) (dt s) ltac:(lra) Hh Ha)
    as (Ha' & HX & Hh').
  rewrite (cfl32_value _ HX) in Hdt.
  exists s'. split; [ exact Hrun | ]. split; [ | lra ].
  exists (a * stage3 (- (8 * dt s))).
  rewrite Htime, Hdt, HRe', HReI'.
  split; [ exact Htg' | ].
  repeat split; try tauto; try lra.
Qed.

(** Every update of the loop keeps the invariant of the 16 x 16 run. *)
Lemma tg16_update (s : Fluid) :
  tg16_inv s -> time s <= 1 / 10 ->
  exists s', update 3 s = Returned tt s' /\ tg16_inv s'
             /\ time s + 1 / 10000 <= time s'.
Proof.
  intros (a & Htg & HRe & HReI & Ht & Hh & Ha & _) Hstop.
  destruct (update_tg 16 2 2 24 13 (padder_of 8) ltac:(lia) ltac:(lia)
              eq_refl a s Htg)
    as (s' & Hrun & Htg' & Htime & Hdt & HRe' & HReI').
  rewrite HReI, tg_exponent in Htg', Hdt.
  destruct (tg16_step_scalar a (time s) (dt s) ltac:(lra) Hh Ha)
    as (Ha' & HX & Hh' & Herr & Hmin).
  rewrite (cfl16_value _ HX) in Hdt.
  exists s'. split; [ exact Hrun | ]. split; [ | lra ].
  exists (a * stage3 (- (8 * dt s))).
  rewrite Htime, Hdt, HRe', HReI'.
  split; [ exact Htg' | ].
  repeat split; try tauto; try lra.
Qed.

(* ----------------------------------------------------------------- *)
(** ** The Taylor-Green run *)

(** [init_solver()] and [init_field("Taylor-Green", kappa=q)] on a fresh
    fluid with an even number [2 h] of grid points. *)
Lemma tg_start (J : nat -> nat -> nat -> R) (h q : nat) (re0 dt0 : R)
    (delta sigma : R) (draws : (nat -> nat -> R) * (nat -> nat -> R)) :
  (0 < q)%nat -> (q < h)%nat -> re0 <> 0 ->
  exists s1 s2,
    init_solver (fresh J (2 * h) re0 dt0) = Returned tt s1
    /\ init_field (FieldStr "Taylor-Green") 0 (INR q) delta sigma draws s1
       = Returned tt s2
    /\ tg_state (2 * h) q (3 * h) (3 * (h + 1) / 2) (padder_of h)
         (2 * INR q) s2
    /\ time s2 = 0 /\ dt s2 = dt0 /\ Re s2 = re0 /\ ReI s2 = 1 / re0.
Proof.
  intros Hq Hqh Hre.
  destruct (init_solver_ready J h re0 dt0 ltac:(lia))
    as (s1 & Hrun & Hready & HRe & Hdt & Htime & _ & Hdx & Hdy).
  set (s := fresh J (2 * h) re0 dt0) in *.
  destruct (np_max1_wavenumbers (2 * h) ltac:(lia)) as [top Htop].
  assert (Hlen : as_size (py_int (pad s * INR (nx s))) = Val (3 * h)%nat).
  { change (pad s) with default_pad. change (nx s) with (2 * h)%nat.
    rewrite py_int_three_halves, three_halves_double. apply as_size_of_nat. }
  destruct (init_solver_axes s s1 (3 * h) top eq_refl eq_refl Hlen Htop Hrun)
    as (Hx & Hy & HReI).
  assert (HReI0 : ReI s = 1 / re0).
  { change (ReI s) with (if Rneb re0 0 then 1 / re0 else 0).
    rewrite (proj2 (Rneb_true re0 0) Hre). reflexivity. }
  destruct (init_field_tg (2 * h) q (3 * h) (3 * (h + 1) / 2) (padder_of h)
              _ _ _ delta sigma draws s1 Hq ltac:(lia) Hready Hx Hy Hdx Hdy
              ltac:(rewrite HRe; exact Hre))
    as (s2 & Hrun2 & Htg & Htime2 & Hdt2 & HRe2 & HReI2).
  exists s1, s2.
  split; [ exact Hrun | ]. split; [ exact Hrun2 | ]. split; [ exact Htg | ].
  repeat split; congruence.
Qed.

(** The analytic field on the grid points. *)
Lemma analytic_on_grid (n i j : nat) (t : R) :
  (i < n)%nat -> (j < n)%nat ->
  taylor_green 2 1 t (nth j (linspace n) 0) (nth i (linspace n) 0)
  = 4 * exp (- (8 * t)) * (cos (dft_angle n 2 j) * cos (dft_angle n 2 i)).
Proof.
  intros Hi Hj. unfold taylor_green, linspace.
  rewrite (nth_map_seq _ 0 Hi), (nth_map_seq _ 0 Hj).
  rewrite <- (linspace_angle n 2 j), <- (linspace_angle n 2 i) by lia.
  rewrite INR_2.
  replace (-2 * 2 ^ 2 * t / 1) with (- (8 * t)) by field.
  ring.
Qed.

Lemma cos_product_bound (u v : R) : Rabs (cos u * cos v) <= 1.
Proof.
  rewrite Rabs_mult.
  pose proof (COS_bound u) as Hu. pose proof (COS_bound v) as Hv.
  assert (Rabs (cos u) <= 1) by (apply Rabs_le; lra).
  assert (Rabs (cos v) <= 1) by (apply Rabs_le; lra).
  pose proof (Rabs_pos (cos u)). pose proof (Rabs_pos (cos v)). nra.
Qed.

(** The run of the solver test from a state that satisfies an invariant of
    the loop. *)
Lemma taylor_green_run_from (Inv : Fluid -> Prop) (s0 s1 s2 : Fluid)
    (fuel : nat) :
  init_solver s0 = Returned tt s1 ->
  init_field (FieldStr "Taylor-Green") 0 2 default_delta default_sigma
    no_draws s1 = Returned tt s2 ->
  (forall s, Inv s -> time s <= 1 / 10 ->
     exists s', update 3 s = Returned tt s' /\ Inv s'
                /\ time s + 1 / 10000 <= time s') ->
  Inv s2 -> time s2 = 0 -> (1002 <= fuel)%nat ->
  exists s3,
    Inv s3 /\ 1 / 10 < time s3
    /\ forall (a : R) (n m r c : nat) (pd : list bool),
         (0 < m)%nat -> n = (4 * 2 * m)%nat -> tg_state n 2 r c pd a s3 ->
         taylor_green_run fuel s0
         = Returned true (set_w (cc_field n 2 a) s3).
Proof.
  intros H1 H2 Hstep Hinv Ht0 Hfuel.
  destruct fuel as [ | fuel ]; [ lia | ].
  assert (Hf : 1 / 10 - time s2 < INR fuel * (1 / 10000)).
  { rewrite Ht0. assert (1001 <= INR fuel).
    { replace 1001 with (INR 1001) by (rewrite INR_IZR_INZ; reflexivity).
      apply le_INR. lia. }
    lra. }
  destruct (run_until_invariant Inv (1 / 10) (1 / 10000) ltac:(lra) Hstep
              fuel s2 Hinv Hf) as (s3 & Hrun & Hinv3 & Ht3).
  exists s3. split; [ exact Hinv3 | ]. split; [ exact Ht3 | ].
  intros a n m r c pd Hm Hn Hs3.
  unfold taylor_green_run. mstep. rewrite H1. cbv iota. rewrite H2. cbv iota.
  replace 0.1 with (1 / 10) by lra. rewrite Hrun. cbv iota.
  rewrite (wh_to_w_tg n 2 m r c pd ltac:(lia) Hm Hn a s3 Hs3). reflexivity.
Qed.

(** C1, as stated for every grid, fails on the 16 x 16 grid: there the run
    [Fluid(16, 16, 1.)], [init_solver()], [init_field("Taylor-Green")],
    [update()] while [time <= 0.1], [wh_to_w()] returns with
    [0.1 < time <= 0.113] and a vorticity that is more than [1e-6] away
    from the analytic field at the grid point [(0, 0)]. *)
Lemma taylor_green_coarse_grid_off :
  Fluid_init (fun _ _ _ => 0) 16 16 1 default_dt default_pad = Val fluid16
  /\ exists s',
       taylor_green_run 1002 fluid16 = Returned true s'
       /\ 1 / 10 < time s' <= 113 / 1000
       /\ 1 / 1000000
          < Rabs (mget 0 (w s') 0 0
                  - taylor_green 2 (Re s') (time s')
                      (nth 0 (x s') 0) (nth 0 (y s') 0)).
Proof.
  split; [ apply Fluid_init_pos; lia | ].
  destruct (tg_start (fun _ _ _ => 0) 8 2 1 default_dt default_delta
              default_sigma no_draws ltac:(lia) ltac:(lia) ltac:(lra))
    as (s1 & s2 & H1 & H2 & Htg & Ht0 & Hdt & HRe & HReI).
  rewrite INR_2 in H2, Htg.
  assert (Hinv : tg16_inv s2).
  { exists (2 * 2). split; [ exact Htg | ].
    rewrite Ht0, Hdt, HRe, HReI.
    replace (- (16 * 0)) with 0 by ring. replace (- (8 * 0)) with 0 by ring.
    rewrite exp_0. unfold default_dt.
    repeat split; lra. }
  destruct (taylor_green_run_from tg16_inv fluid16 s1 s2 1002 H1 H2
              tg16_update Hinv Ht0 ltac:(lia)) as (s3 & Hinv3 & Ht3 & Hrun).
  destruct Hinv3 as (a & Htg3 & HRe3 & _ & Htime3 & _ & Ha & Herr).
  exists (set_w (cc_field 16 2 a) s3).
  split; [ apply (Hrun a 16%nat 2%nat 24%nat 13%nat (padder_of 8));
           [ lia | reflexivity | exact Htg3 ] | ].
  change (w (set_w (cc_field 16 2 a) s3)) with (cc_field 16 2 a).
  change (Re (set_w (cc_field 16 2 a) s3)) with (Re s3).
  change (time (set_w (cc_field 16 2 a) s3)) with (time s3).
  change (x (set_w (cc_field 16 2 a) s3)) with (x s3).
  change (y (set_w (cc_field 16 2 a) s3)) with (y s3).
  split; [ lra | ].
  rewrite HRe3, (tg_x Htg3), (tg_y Htg3).
  rewrite (analytic_on_grid 16 0 0 (time s3)) by lia.
  unfold cc_field. rewrite mget_mk by lia.
  replace (dft_angle 16 2 0) with 0 by (unfold dft_angle; cbn [INR]; field).
  rewrite cos_0.
  destruct Herr as [ Hle | Herr ]; [ lra | ].
  rewrite Rabs_left1 by lra. lra.
Qed.

(** C1.  On the 32 x 32 grid of the solver test, [Fluid(32, 32, 1.)],
    [init_solver()], [init_field("Taylor-Green")] with the default
    [kappa = 2] and [update()] repeated while [time <= 0.1] return with
    [0.1 < time <= 0.104], and after [wh_to_w()] the vorticity [w] is
    within [1e-6] of the analytic field
    [2 kappa cos(kappa x) cos(kappa y) exp(-2 kappa^2 time / Re)] at
    every grid point, in exact real arithmetic. *)
Theorem taylor_green_decay (J : nat -> nat -> nat -> R) (fuel : nat) :
  (1002 <= fuel)%nat ->
  exists s0 s',
    Fluid_init J 32 32 1 default_dt default_pad = Val s0
    /\ taylor_green_run fuel s0 = Returned true s'
    /\ 1 / 10 < time s' <= 104 / 1000
    /\ forall i j : nat, (i < 32)%nat -> (j < 32)%nat ->
         Rabs (mget 0 (w s') i j
               - taylor_green 2 (Re s') (time s')
                   (nth j (x s') 0) (nth i (y s') 0))
         <= 1 / 1000000.
Proof.
  intros Hfuel.
  exists (fresh J 32 1 default_dt).
  destruct (tg_start J 16 2 1 default_dt default_delta default_sigma no_draws
              ltac:(lia) ltac:(lia) ltac:(lra))
    as (s1 & s2 & H1 & H2 & Htg & Ht0 & Hdt & HRe & HReI).
  rewrite INR_2 in H2, Htg.
  assert (Hinv : tg32_inv s2).
  { exists (2 * 2). split; [ exact Htg | ].
    rewrite Ht0, Hdt, HRe, HReI.
    replace (- (8 * 0)) with 0 by ring.
    rewrite exp_0. unfold default_dt, cfl_cap, rk_defect.
    repeat split; lra. }
  destruct (taylor_green_run_from tg32_inv (fresh J 32 1 default_dt) s1 s2
              fuel H1 H2 tg32_update Hinv Ht0 Hfuel)
    as (s3 & Hinv3 & Ht3 & Hrun).
  destruct Hinv3 as (a & Htg3 & HRe3 & _ & Htime3 & _ & Ha).
  exists (set_w (cc_field 32 2 a) s3).
  split; [ apply Fluid_init_pos; lia | ].
  split; [ apply (Hrun a 32%nat 4%nat 48%nat 25%nat (padder_of 16));
           [ lia | reflexivity | exact Htg3 ] | ].
  change (w (set_w (cc_field 32 2 a) s3)) with (cc_field 32 2 a).
  change (Re (set_w (cc_field 32 2 a) s3)) with (Re s3).
  change (time (set_w (cc_field 32 2 a) s3)) with (time s3).
  change (x (set_w (cc_field 32 2 a) s3)) with (x s3).
  change (y (set_w (cc_field 32 2 a) s3)) with (y s3).
  split; [ unfold cfl_cap in Htime3; lra | ].
  intros i j Hi Hj.
  rewrite HRe3, (tg_x Htg3), (tg_y Htg3).
  rewrite (analytic_on_grid 32 i j (time s3) Hi Hj).
  unfold cc_field. rewrite mget_mk by assumption.
  replace (a * (cos (dft_angle 32 2 j) * cos (dft_angle 32 2 i))
           - 4 * exp (- (8 * time s3))
             * (cos (dft_angle 32 2 j) * cos (dft_angle 32 2 i)))
    with ((a - 4 * exp (- (8 * time s3)))
          * (cos (dft_angle 32 2 j) * cos (dft_angle 32 2 i))) by ring.
  rewrite Rabs_mult.
  pose proof (tg32_exit_scalar a (time s3) ltac:(lra) Ha) as Hexit.
  pose proof (cos_product_bound (dft_angle 32 2 j) (dft_angle 32 2 i)) as Hc.
  pose proof (Rabs_pos (a - 4 * exp (- (8 * time s3)))) as H0.
  pose proof (Rabs_pos (cos (dft_angle 32 2 j) * cos (dft_angle 32 2 i))) as H3.
  nra.
Qed.

Lemma taylor_green_decay_witness :
  (1002 <= 1002)%nat
  /\ exists s0 s',
       Fluid_init (fun _ _ _ => 0) 32 32 1 default_dt default_pad = Val s0
       /\ taylor_green_run 1002 s0 = Returned true s'
       /\ 1 / 10 < time s' <= 104 / 1000
       /\ forall i j : nat, (i < 32)%nat -> (j < 32)%nat ->
            Rabs (mget 0 (w s') i j
                  - taylor_green 2 (Re s') (time s')
                      (nth j (x s') 0) (nth i (y s') 0))
            <= 1 / 1000000.
Proof.
  split; [ lia | apply (taylor_green_decay (fun _ _ _ => 0) 1002); lia ].
Defined.

(* ================================================================= *)
(** * Further properties of the code *)

(* ----------------------------------------------------------------- *)
(** ** The constructor and the order of the calls *)

Lemma fftfreq_zero : fftfreq 0 = Exc "ZeroDivisionError".
Proof.
  unfold fftfreq, py_truediv, py_bind.
  destruct (Req_dec_T (INR 0 * 1) 0) as [_ | N]; [ reflexivity | ].
  exfalso. apply N. cbn. ring.
Qed.

Lemma Fluid_init_zero (J : nat -> nat -> nat -> R) (n m : nat)
    (re0 dt0 pad0 : R) :
  (n = 0 \/ m = 0)%nat ->
  Fluid_init J n m re0 dt0 pad0 = Exc "ZeroDivisionError".
Proof.
  intros H. unfold Fluid_init.
  destruct (Nat.eq_dec n 0) as [-> | En].
  - rewrite fftfreq_zero. reflexivity.
  - destruct H as [H | ->]; [ contradiction | ].
    rewrite (fftfreq_pos (n := n)) by lia. cbn [py_bind].
    rewrite fftfreq_zero. reflexivity.
Qed.

(** X1.  [Fluid(nx, ny, Re, dt, pad)] raises [ZeroDivisionError], from
    [np.fft.fftfreq], exactly when one of the two grid sizes is zero, and
    returns an instance exactly when both are positive. *)
Theorem constructor_zero_grid (J : nat -> nat -> nat -> R) (n m : nat)
    (re0 dt0 pad0 : R) :
  (Fluid_init J n m re0 dt0 pad0 = Exc "ZeroDivisionError"
   <-> (n = 0 \/ m = 0)%nat)
  /\ ((exists s, Fluid_init J n m re0 dt0 pad0 = Val s)
      <-> (1 <= n /\ 1 <= m)%nat).
Proof.
  destruct (Nat.eq_dec n 0) as [En | En];
    [ | destruct (Nat.eq_dec m 0) as [Em | Em] ].
  - pose proof (Fluid_init_zero J n m re0 dt0 pad0 (or_introl En)) as E.
    split; split; try (intros; lia); try (intros _; now left).
    + intros _. exact E.
    + intros [s Es]. rewrite E in Es. discriminate.
  - pose proof (Fluid_init_zero J n m re0 dt0 pad0 (or_intror Em)) as E.
    split; split; try (intros; lia); try (intros _; now right).
    + intros _. exact E.
    + intros [s Es]. rewrite E in Es. discriminate.
  - pose proof (Fluid_init_pos J re0 dt0 pad0
                  (ltac:(lia) : (1 <= n)%nat) (ltac:(lia) : (1 <= m)%nat)) as E.
    split; split.
    + rewrite E. discriminate.
    + intros [H | H]; lia.
    + intros _. lia.
    + intros _. eexists. exact E.
Qed.

(** X2.  The wavenumbers that the constructor stores are the integers of
    [np.fft.fftfreq] (the scaling by [1/n] and back by [n] cancels):
    [kx[i] = i] for [i <= (nx - 1) // 2] and [kx[i] = i - nx] above, and the
    same for [ky] with [ny]; [x[i] = i * dx] with [dx = 2 pi / nx]. *)
Theorem constructor_grid (J : nat -> nat -> nat -> R) (n m : nat)
    (re0 dt0 pad0 : R) (s : Fluid) :
  Fluid_init J n m re0 dt0 pad0 = Val s ->
  length (kx s) = n /\ length (ky s) = m
  /\ (forall i, (i < n)%nat ->
        nth i (kx s) 0
        = if (i <=? (n - 1) / 2)%nat then INR i else INR i - INR n)
  /\ (forall i, (i < m)%nat ->
        nth i (ky s) 0
        = if (i <=? (m - 1) / 2)%nat then INR i else INR i - INR m)
  /\ length (x s) = n
  /\ dx s * INR n = 2 * PI
  /\ (forall i, (i < n)%nat -> nth i (x s) 0 = INR i * dx s).
Proof.
  intros E.
  assert (Hn : (1 <= n)%nat).
  { destruct (Nat.eq_dec n 0) as [En | En]; [ | lia ].
    pose proof (Fluid_init_zero J n m re0 dt0 pad0 (or_introl En)) as E0.
    rewrite E in E0. discriminate. }
  assert (Hm : (1 <= m)%nat).
  { destruct (Nat.eq_dec m 0) as [Em | Em]; [ | lia ].
    pose proof (Fluid_init_zero J n m re0 dt0 pad0 (or_intror Em)) as E0.
    rewrite E in E0. discriminate. }
  destruct (Fluid_init_grid J n m re0 dt0 pad0 s Hn Hm E)
    as (_ & _ & _ & Hkx & Hky & _).
  rewrite (Fluid_init_pos J re0 dt0 pad0 Hn Hm) in E. injection E as Es.
  assert (Hfreq : forall (k i : nat), (i < k)%nat ->
            IZR (freq k i)
            = if (i <=? (k - 1) / 2)%nat then INR i else INR i - INR k).
  { intros k i Hi. unfold freq.
    destruct (i <=? (k - 1) / 2)%nat eqn:E1.
    - apply Nat.leb_le in E1.
      destruct (i <? (k - 1) / 2 + 1)%nat eqn:E2;
        [ | apply Nat.ltb_ge in E2; lia ].
      now rewrite INR_IZR_INZ.
    - apply Nat.leb_gt in E1.
      destruct (i <? (k - 1) / 2 + 1)%nat eqn:E2;
        [ apply Nat.ltb_lt in E2; lia | ].
      rewrite minus_IZR, !INR_IZR_INZ. reflexivity. }
  rewrite Hkx, Hky.
  split; [ now apply length_wavenumbers | ].
  split; [ now apply length_wavenumbers | ].
  split; [ intros i Hi; rewrite nth_wavenumbers by exact Hi; now apply Hfreq | ].
  split; [ intros i Hi; rewrite nth_wavenumbers by exact Hi; now apply Hfreq | ].
  rewrite <- Es. cbn [x dx Fluid_attrs].
  split; [ unfold linspace; now rewrite length_map, length_seq | ].
  split.
  - unfold linspace_step. assert (INR n <> 0) by (apply not_0_INR; lia).
    field. assumption.
  - intros i Hi. unfold linspace. rewrite (nth_map_seq _ 0 Hi). ring.
Qed.

Lemma constructor_grid_witness :
  Fluid_init (fun _ _ _ => 0) 4 4 1 default_dt default_pad = Val (fluid4 1)
  /\ length (kx (fluid4 1)) = 4%nat /\ length (ky (fluid4 1)) = 4%nat
  /\ (forall i, (i < 4)%nat ->
        nth i (kx (fluid4 1)) 0
        = if (i <=? (4 - 1) / 2)%nat then INR i else INR i - INR 4)
  /\ (forall i, (i < 4)%nat ->
        nth i (ky (fluid4 1)) 0
        = if (i <=? (4 - 1) / 2)%nat then INR i else INR i - INR 4)
  /\ length (x (fluid4 1)) = 4%nat
  /\ dx (fluid4 1) * INR 4 = 2 * PI
  /\ (forall i, (i < 4)%nat -> nth i (x (fluid4 1)) 0 = INR i * dx (fluid4 1)).
Proof.
  split; [ apply Fluid_init_4 | ].
  apply (constructor_grid (fun _ _ _ => 0) 4 4 1 default_dt default_pad).
  apply Fluid_init_4.
Defined.

(** X3.  A freshly constructed fluid has no spectral arrays: before
    [init_solver] (or [init_field]) has run, [update], [wh_to_w],
    [enstrophy] and [tke] raise [AttributeError] and leave the instance as
    it was. *)
Theorem fresh_fluid_has_no_spectrum (J : nat -> nat -> nat -> R) (n m : nat)
    (re0 dt0 pad0 : R) (s : Fluid) (k : Z) :
  Fluid_init J n m re0 dt0 pad0 = Val s ->
  update k s = Raised "AttributeError" s
  /\ wh_to_w s = Raised "AttributeError" s
  /\ enstrophy s = Raised "AttributeError" s
  /\ tke s = Raised "AttributeError" s.
Proof.
  intros E.
  assert (Hn : (1 <= n /\ 1 <= m)%nat).
  { destruct (Nat.eq_dec n 0) as [En | En];
      [ | destruct (Nat.eq_dec m 0) as [Em | Em]; [ | lia ] ].
    - rewrite (Fluid_init_zero J n m re0 dt0 pad0 (or_introl En)) in E.
      discriminate.
    - rewrite (Fluid_init_zero J n m re0 dt0 pad0 (or_intror Em)) in E.
      discriminate. }
  rewrite (Fluid_init_pos J re0 dt0 pad0 (proj1 Hn) (proj2 Hn)) in E.
  injection E as <-. repeat split.
Qed.

Lemma fresh_fluid_has_no_spectrum_witness :
  Fluid_init (fun _ _ _ => 0) 4 4 1 default_dt default_pad = Val (fluid4 1)
  /\ update 3 (fluid4 1) = Raised "AttributeError" (fluid4 1)
  /\ wh_to_w (fluid4 1) = Raised "AttributeError" (fluid4 1)
  /\ enstrophy (fluid4 1) = Raised "AttributeError" (fluid4 1)
  /\ tke (fluid4 1) = Raised "AttributeError" (fluid4 1).
Proof.
  split; [ apply Fluid_init_4 | ].
  apply (fresh_fluid_has_no_spectrum (fun _ _ _ => 0) 4 4 1 default_dt
           default_pad (fluid4 1) 3).
  apply Fluid_init_4.
Defined.

(** [init_solver] on a freshly constructed fluid of any grid size, with
    the default padding. *)
Lemma init_solver_fresh (J : nat -> nat -> nat -> R) (n m : nat)
    (re0 dt0 : R) (s : Fluid) :
  Fluid_init J n m re0 dt0 default_pad = Val s ->
  exists s1,
    init_solver s = Returned tt s1
    /\ nx s1 = n /\ ny s1 = m /\ nk s1 = (m / 2 + 1)%nat
    /\ length (ky s1) = m
    /\ w s1 = w s
    /\ k2 s1 = Some (wavenumber_sq s1)
    /\ fk s1 = Some (nonzero_mask (wavenumber_sq s1))
    /\ wh s1 = Some (np_zeros C0 n (m / 2 + 1))
    /\ psih s1 = Some (np_zeros C0 n (m / 2 + 1))
    /\ dwhdt s1 = Some (np_zeros C0 n (m / 2 + 1)).
Proof.
  intros E.
  assert (Hn : (1 <= n /\ 1 <= m)%nat).
  { destruct (Nat.eq_dec n 0) as [En | En];
      [ | destruct (Nat.eq_dec m 0) as [Em | Em]; [ | lia ] ].
    - rewrite (Fluid_init_zero J n m re0 dt0 default_pad (or_introl En)) in E.
      discriminate.
    - rewrite (Fluid_init_zero J n m re0 dt0 default_pad (or_intror Em)) in E.
      discriminate. }
  destruct Hn as [Hn Hm].
  destruct (Fluid_init_grid J n m re0 dt0 default_pad s Hn Hm E)
    as (Hnx & Hny & Hnk & Hkx & Hky & Hk2).
  assert (Hpad : pad s = default_pad /\ fltr s = None).
  { rewrite (Fluid_init_pos J re0 dt0 default_pad Hn Hm) in E.
    injection E as <-. split; reflexivity. }
  destruct Hpad as [Hpad Hfl].
  destruct (np_max1_wavenumbers n Hn) as [top Htop].
  rewrite <- Hkx in Htop.
  assert (Hlen : as_size (py_int (pad s * INR (nx s)))
                 = Val (3 * n / 2)%nat).
  { rewrite Hpad, Hnx, py_int_three_halves. apply as_size_of_nat. }
  destruct (init_solver_run s (3 * n / 2) top Hk2 Hfl Hlen Htop)
    as (s1 & Hrun & Hnx1 & Hny1 & Hnk1 & Hkx1 & Hky1 & _ & _ & _ & _ & _
        & _ & _ & _ & Hw & Hk21 & Hfk1 & Hwh & Hpsih & Hdw & _).
  assert (Hsq : wavenumber_sq s1 = wavenumber_sq s)
    by (apply wavenumber_sq_grid; assumption).
  exists s1. rewrite Hsq, Hnx1, Hny1, Hnk1, Hky1.
  rewrite Hnx, Hnk in Hwh, Hpsih, Hdw.
  repeat split; try assumption.
  rewrite Hky. now apply length_wavenumbers.
Qed.

(** X4.  The solver works on square grids only.  On a grid with
    [nx <> ny], after the constructor and [init_solver], every call
    [update(s)] with [s >= 1] raises [IndexError] in [_get_psih] (the mask
    [fk] has [ny] rows, the array [psih] has [nx]), whatever vorticity [w]
    and spectrum [wh] have been loaded in between. *)
Theorem nonsquare_grid_update_raises (J : nat -> nat -> nat -> R) (n m : nat)
    (re0 dt0 : R) (s : Fluid) (k : Z) :
  Fluid_init J n m re0 dt0 default_pad = Val s ->
  n <> m -> (1 <= k)%Z ->
  exists s1,
    init_solver s = Returned tt s1
    /\ forall (A : matrix R) (W : matrix complex),
         raises "IndexError" (_get_psih (set_wh (Some W) (set_w A s1)))
         /\ raises "IndexError" (update k (set_wh (Some W) (set_w A s1))).
Proof.
  intros E Hnm Hk.
  destruct (init_solver_fresh J n m re0 dt0 s E)
    as (s1 & Hrun & Hnx & Hny & Hnk & Hky & _ & Hk2 & Hfk & _ & Hpsih & _).
  exists s1. split; [ exact Hrun | ]. intros A W.
  set (s2 := set_wh (Some W) (set_w A s1)).
  assert (Hshape : same_shape (np_zeros C0 n (m / 2 + 1))
                     (nonzero_mask (wavenumber_sq s1)) = false).
  { unfold same_shape, np_zeros, nonzero_mask.
    rewrite nrows_mk, (rect_nrows (rect_mmap _ (rect_wavenumber_sq s1))), Hky.
    destruct (n =? m)%nat eqn:En; [ apply Nat.eqb_eq in En; lia | ].
    reflexivity. }
  assert (Hpsi : _get_psih s2 = Raised "IndexError" s2).
  { unfold _get_psih. mstep.
    change (wh s2) with (Some W). mstep.
    change (fk s2) with (fk s1). rewrite Hfk. mstep.
    change (k2 s2) with (k2 s1). rewrite Hk2. mstep.
    change (psih s2) with (psih s1). rewrite Hpsih. mstep.
    rewrite Hshape, !andb_false_r. reflexivity. }
  split; [ rewrite Hpsi; reflexivity | ].
  unfold update. mstep. change (wh s2) with (Some W). mstep.
  rewrite (range_down_pos k Hk). cbn [for_each]. unfold update_stage. mstep.
  set (s3 := set_w0 (ComplexArr W) s2).
  assert (Hpsi3 : _get_psih s3 = Raised "IndexError" s3).
  { unfold _get_psih. mstep.
    change (wh s3) with (Some W). mstep.
    change (fk s3) with (fk s1). rewrite Hfk. mstep.
    change (k2 s3) with (k2 s1). rewrite Hk2. mstep.
    change (psih s3) with (psih s1). rewrite Hpsih. mstep.
    rewrite Hshape, !andb_false_r. reflexivity. }
  rewrite Hpsi3. reflexivity.
Qed.

Lemma Fluid_init_46 :
  Fluid_init (fun _ _ _ => 0) 4 6 1 default_dt default_pad = Val fluid46.
Proof. unfold Fluid_init. rewrite !fftfreq_pos by lia. reflexivity. Qed.

Lemma nonsquare_grid_update_raises_witness :
  Fluid_init (fun _ _ _ => 0) 4 6 1 default_dt default_pad = Val fluid46
  /\ 4%nat <> 6%nat /\ (1 <= 3)%Z
  /\ exists s1,
      init_solver fluid46 = Returned tt s1
      /\ forall (A : matrix R) (W : matrix complex),
           raises "IndexError" (_get_psih (set_wh (Some W) (set_w A s1)))
           /\ raises "IndexError" (update 3 (set_wh (Some W) (set_w A s1))).
Proof.
  split; [ exact Fluid_init_46 | ]. split; [ lia | ]. split; [ lia | ].
  apply (nonsquare_grid_update_raises (fun _ _ _ => 0) 4 6 1 default_dt
           fluid46 3 Fluid_init_46); lia.
Defined.

(* ----------------------------------------------------------------- *)
(** ** Initialisation *)

(** X5.  [init_solver] discards the spectral state: whenever it returns,
    [wh], [psih] and [dwhdt] are zero arrays of shape [(nx, nk)] and [w0]
    is [w], whatever they held before, so a field loaded by [init_field]
    before [init_solver] is lost from [wh].  The vorticity [w], [time],
    [dt], and a [k2] or [fltr] that the instance already has, are kept. *)
Theorem init_solver_resets (s s1 : Fluid) :
  init_solver s = Returned tt s1 ->
  wh s1 = Some (np_zeros C0 (nx s) (nk s))
  /\ psih s1 = Some (np_zeros C0 (nx s) (nk s))
  /\ dwhdt s1 = Some (np_zeros C0 (nx s) (nk s))
  /\ w0 s1 = RealArr (w s)
  /\ w s1 = w s /\ time s1 = time s /\ dt s1 = dt s
  /\ (forall K, k2 s = Some K -> k2 s1 = Some K)
  /\ (forall F, fltr s = Some F -> fltr s1 = Some F).
Proof.
  unfold init_solver, bind, gets, modify, ret, eval.
  destruct (k2 s) as [K | ] eqn:Ek; cbn -[_init_filter np_zeros];
    (destruct (as_size _); cbn -[_init_filter np_zeros]; [ | discriminate ]);
    (destruct (fltr s) as [F | ] eqn:Ef; cbn -[_init_filter np_zeros]).
  - intros E. injection E as <-. cbn -[np_zeros].
    repeat split; intros; congruence.
  - unfold _init_filter, bind, gets, modify, eval, attr, getattr.
    cbn -[np_max1 masked_update mmap np_zeros].
    destruct (np_max1 (kx s)); cbn -[np_max1 masked_update mmap np_zeros];
      [ | discriminate ].
    rewrite Ek. cbn -[np_max1 masked_update mmap np_zeros].
    intros E. injection E as <-. cbn -[np_max1 masked_update mmap np_zeros].
    repeat split; intros; congruence.
  - intros E. injection E as <-. cbn -[np_zeros].
    repeat split; intros; congruence.
  - unfold _init_filter, bind, gets, modify, eval, attr, getattr.
    cbn -[np_max1 masked_update mmap np_zeros wavenumber_sq].
    destruct (np_max1 (kx s));
      cbn -[np_max1 masked_update mmap np_zeros wavenumber_sq];
      [ | discriminate ].
    intros E. injection E as <-.
    cbn -[np_max1 masked_update mmap np_zeros wavenumber_sq].
    repeat split; intros; congruence.
Qed.

Lemma init_solver_fluid4 : init_solver (fluid4 1) = Returned tt solver4.
Proof.
  destruct (init_solver_ready (fun _ _ _ => 0) 2 1 default_dt ltac:(lia))
    as (s1 & Hrun & _).
  unfold solver4.
  change (fluid4 1) with (fresh (fun _ _ _ => 0) (2 * 2) 1 default_dt).
  rewrite Hrun. reflexivity.
Qed.

Lemma init_solver_resets_witness :
  init_solver (fluid4 1) = Returned tt solver4
  /\ wh solver4 = Some (np_zeros C0 (nx (fluid4 1)) (nk (fluid4 1)))
  /\ psih solver4 = Some (np_zeros C0 (nx (fluid4 1)) (nk (fluid4 1)))
  /\ dwhdt solver4 = Some (np_zeros C0 (nx (fluid4 1)) (nk (fluid4 1)))
  /\ w0 solver4 = RealArr (w (fluid4 1))
  /\ w solver4 = w (fluid4 1) /\ time solver4 = time (fluid4 1)
  /\ dt solver4 = dt (fluid4 1)
  /\ (forall K, k2 (fluid4 1) = Some K -> k2 solver4 = Some K)
  /\ (forall F, fltr (fluid4 1) = Some F -> fltr solver4 = Some F).
Proof.
  split; [ exact init_solver_fluid4 | ].
  apply (init_solver_resets (fluid4 1) solver4). exact init_solver_fluid4.
Defined.

(** X6.  [init_field] with an array whose shape is not [(nx, ny)] does not
    raise: it prints one line, keeps the vorticity [w] that the instance
    holds, and still transforms that old [w] into [wh]. *)
Theorem init_field_wrong_shape (s : Fluid) (a : matrix R) (h : matrix complex)
    (t kappa delta sigma : R) (draws : (nat -> nat -> R) * (nat -> nat -> R)) :
  shape a <> (nx s, ny s) ->
  rfft2 (w s) = Val h ->
  init_field (FieldArray a) t kappa delta sigma draws s
  = Returned tt
      (set_wh (Some h)
         (set_printed
            (printed s
             ++ ["Specified velocity field does not match grid initialized."%string])
            s)).
Proof.
  intros Hshape Hw. unfold init_field. mstep.
  destruct ((nrows a =? nx s)%nat && (ncols a =? ny s)%nat)%bool eqn:E.
  - exfalso. apply Hshape. apply andb_true_iff in E. destruct E as [E1 E2].
    apply Nat.eqb_eq in E1. apply Nat.eqb_eq in E2.
    unfold shape. now rewrite E1, E2.
  - unfold print. mstep.
    apply (w_to_wh_run
             (set_printed
                (printed s
                 ++ ["Specified velocity field does not match grid initialized."%string])
                s) h).
    exact Hw.
Qed.

Lemma init_field_wrong_shape_witness :
  shape field33 <> (nx (fluid4 1), ny (fluid4 1))
  /\ rfft2 (w (fluid4 1))
     = Val (to_spectral (np_empty (fun _ _ => 0) 4 4))
  /\ init_field (FieldArray field33) 0 2 default_delta default_sigma no_draws
       (fluid4 1)
     = Returned tt
         (set_wh (Some (to_spectral (np_empty (fun _ _ => 0) 4 4)))
            (set_printed
               (printed (fluid4 1)
                ++ ["Specified velocity field does not match grid initialized."%string])
               (fluid4 1))).
Proof.
  assert (H1 : shape field33 <> (nx (fluid4 1), ny (fluid4 1)))
    by (cbn; intros E; discriminate E).
  assert (H2 : rfft2 (w (fluid4 1))
               = Val (to_spectral (np_empty (fun _ _ => 0) 4 4))).
  { change (w (fluid4 1)) with (np_empty (fun _ _ => 0) 4 4).
    apply (proj1 (rfft2_rect (rect_mk 4 4 _) ltac:(lia) ltac:(lia))). }
  split; [ exact H1 | ]. split; [ exact H2 | ].
  apply (init_field_wrong_shape (fluid4 1) field33 _ 0 2 default_delta
           default_sigma no_draws H1 H2).
Defined.

(** X7.  The McWilliams field needs the spectral filter, which only
    [init_solver] builds: on a freshly constructed fluid on a square grid
    with [n >= 2] points, [init_field("McWilliams")] (or ["MW84"]) raises
    [AttributeError] at [self.fltr], whatever the random draws, after it
    has already assigned [k2] and [fk]; the vorticity is not touched. *)
Theorem mcwilliams_needs_init_solver (J : nat -> nat -> nat -> R) (n : nat)
    (re0 dt0 pad0 : R) (s : Fluid) (name : string)
    (t kappa delta sigma : R) (draws : (nat -> nat -> R) * (nat -> nat -> R)) :
  Fluid_init J n n re0 dt0 pad0 = Val s -> (2 <= n)%nat ->
  name = "McWilliams"%string \/ name = "MW84"%string ->
  init_field (FieldStr name) t kappa delta sigma draws s
  = Raised "AttributeError"
      (set_fk (Some (nonzero_mask (wavenumber_sq s)))
         (set_k2 (Some (wavenumber_sq s)) s)).
Proof.
  intros E Hn Hname.
  destruct (Fluid_init_grid J n n re0 dt0 pad0 s ltac:(lia) ltac:(lia) E)
    as (Hnx & Hny & Hnk & Hkx & Hky & Hk2).
  assert (Hfl : fltr s = None).
  { rewrite (Fluid_init_pos J re0 dt0 pad0
               (ltac:(lia) : (1 <= n)%nat) (ltac:(lia) : (1 <= n)%nat)) in E.
    injection E as <-. reflexivity. }
  assert (Hhalf : (2 <= n / 2 + 1 <= n)%nat).
  { pose proof (Nat.div_mod_eq n 2).
    pose proof (Nat.mod_upper_bound n 2 ltac:(lia)). lia. }
  assert (HK : rect n (n / 2 + 1) (wavenumber_sq s)).
  { pose proof (rect_wavenumber_sq s) as H.
    rewrite Hky, Hkx, Hnk, length_firstn, !length_wavenumbers in H by lia.
    now rewrite Nat.min_l in H by lia. }
  unfold init_field.
  assert (Hbr : (((name =? "TG") || (name =? "Taylor-Green"))%string = false)
                /\ (((name =? "SL") || (name =? "Shear Layer"))%string = false)
                /\ (((name =? "McWilliams") || (name =? "MW84"))%string = true)).
  { destruct Hname as [-> | ->]; repeat split. }
  destruct Hbr as (B1 & B2 & B3). rewrite B1, B2, B3.
  unfold McWilliams1984. mstep.
  set (s2 := set_fk (Some (nonzero_mask (wavenumber_sq s)))
               (set_k2 (Some (wavenumber_sq s)) s)).
  change (nx s2) with (nx s). change (nk s2) with (nk s).
  rewrite Hnx, Hnk.
  assert (Hsame : same_shape (np_zeros 0 n (n / 2 + 1))
                    (nonzero_mask (wavenumber_sq s)) = true).
  { apply (same_shape_rect (rect_mk n (n / 2 + 1) (fun _ _ => 0))
             (rect_mmap (fun v => Rneb v 0) HK)). lia. }
  rewrite Hsame. mstep.
  match goal with
  | |- context [irfft2 (mk_matrix n (n / 2 + 1) ?f)] =>
      destruct (irfft2_rect (rect_mk n (n / 2 + 1) f) ltac:(lia) ltac:(lia))
        as [Ei Hi]
  end.
  rewrite Ei. mstep.
  match goal with
  | |- context [rfft2 (mmap ?g ?M)] =>
      rewrite (proj1 (rfft2_rect (rect_mmap g Hi) ltac:(lia) ltac:(lia)))
  end.
  mstep. change (fltr s2) with (fltr s). rewrite Hfl. reflexivity.
Qed.

Lemma mcwilliams_needs_init_solver_witness :
  Fluid_init (fun _ _ _ => 0) 4 4 1 default_dt default_pad = Val (fluid4 1)
  /\ (2 <= 4)%nat
  /\ ("McWilliams"%string = "McWilliams"%string
      \/ "McWilliams"%string = "MW84"%string)
  /\ init_field (FieldStr "McWilliams") 0 2 default_delta default_sigma
       no_draws (fluid4 1)
     = Raised "AttributeError"
         (set_fk (Some (nonzero_mask (wavenumber_sq (fluid4 1))))
            (set_k2 (Some (wavenumber_sq (fluid4 1))) (fluid4 1))).
Proof.
  split; [ apply Fluid_init_4 | ]. split; [ lia | ].
  split; [ now left | ].
  apply (mcwilliams_needs_init_solver (fun _ _ _ => 0) 4 1 default_dt
           default_pad (fluid4 1) "McWilliams" 0 2 default_delta default_sigma
           no_draws (Fluid_init_4 1)); [ lia | now left ].
Defined.

(** X8.  [init_field("SL")] (or ["Shear Layer"]) never raises on a
    constructed grid: the two statements that build the field add up to the
    double shear layer
    [w[i, j] = 2 delta cos(x[j]) + sigma (sech^2(sigma (3 pi/2 - y[i]))
                                          - sech^2(sigma (y[i] - pi/2)))]
    of shape [(ny, nx)], whose transform goes to [wh].  The two layers
    mirror each other with opposite signs: apart from the [cos(x)] term the
    row [ny - i] is the negative of the row [i]. *)
Theorem shear_layer_field (s : Fluid) (n m : nat) (name : string)
    (t kappa delta sigma : R) (draws : (nat -> nat -> R) * (nat -> nat -> R)) :
  (1 <= n)%nat -> (1 <= m)%nat ->
  x s = linspace n -> y s = linspace m ->
  name = "SL"%string \/ name = "Shear Layer"%string ->
  exists (W : matrix R) (h : matrix complex),
    init_field (FieldStr name) t kappa delta sigma draws s
    = Returned tt (set_wh (Some h) (set_w W s))
    /\ rect m n W
    /\ rfft2 W = Val h
    /\ (forall i j, (i < m)%nat -> (j < n)%nat ->
          mget 0 W i j
          = shear_layer delta sigma (nth j (x s) 0) (nth i (y s) 0))
    /\ (forall i j, (0 < i < m)%nat -> (j < n)%nat ->
          mget 0 W (m - i) j - 2 * delta * cos (nth j (x s) 0)
          = - (mget 0 W i j - 2 * delta * cos (nth j (x s) 0))).
Proof.
  intros Hn Hm Hx Hy Hname.
  set (rowA := map (fun xv => delta * cos xv) (x s)).
  set (colA := map (fun yv => sigma * / cosh (sigma * (yv - 0.5 * PI)) ^ 2)
                 (y s)).
  set (colB := map (fun yv => sigma * / cosh (sigma * (1.5 * PI - yv)) ^ 2)
                 (y s)).
  assert (Lx : length (x s) = n)
    by (rewrite Hx; unfold linspace; now rewrite length_map, length_seq).
  assert (Ly : length (y s) = m)
    by (rewrite Hy; unfold linspace; now rewrite length_map, length_seq).
  assert (LrA : length rowA = n) by (unfold rowA; now rewrite length_map).
  assert (LcA : length colA = m) by (unfold colA; now rewrite length_map).
  assert (LcB : length colB = m) by (unfold colB; now rewrite length_map).
  assert (H1 : rect m n (outer Rminus rowA colA)).
  { pose proof (rect_outer Rminus rowA colA) as H. now rewrite LrA, LcA in H. }
  assert (H2 : rect m n (outer Rplus rowA colB)).
  { pose proof (rect_outer Rplus rowA colB) as H. now rewrite LrA, LcB in H. }
  set (W := mk_matrix m n (fun i j =>
              mget 0 (outer Rminus rowA colA) i j
              + mget 0 (outer Rplus rowA colB) i j)).
  assert (HW : forall i j, (i < m)%nat -> (j < n)%nat ->
            mget 0 W i j
            = shear_layer delta sigma (nth j (x s) 0) (nth i (y s) 0)).
  { intros i j Hi Hj. unfold W. rewrite mget_mk by assumption.
    rewrite (mget_outer Rminus (delta * cos 0)
               (sigma * / cosh (sigma * (0 - 0.5 * PI)) ^ 2) 0)
      by (rewrite ?LrA, ?LcA; assumption).
    rewrite (mget_outer Rplus (delta * cos 0)
               (sigma * / cosh (sigma * (1.5 * PI - 0)) ^ 2) 0)
      by (rewrite ?LrA, ?LcB; assumption).
    unfold rowA, colA, colB.
    rewrite (map_nth (fun xv => delta * cos xv)).
    rewrite (map_nth (fun yv => sigma * / cosh (sigma * (yv - 0.5 * PI)) ^ 2)).
    rewrite (map_nth (fun yv => sigma * / cosh (sigma * (1.5 * PI - yv)) ^ 2)).
    unfold shear_layer. ring. }
  exists W, (to_spectral W).
  split; [ | split; [ apply rect_mk | split; [ | split; [ exact HW | ] ] ] ].
  - unfold init_field.
    assert (Hbr : (((name =? "TG") || (name =? "Taylor-Green"))%string = false)
                  /\ (((name =? "SL") || (name =? "Shear Layer"))%string = true)).
    { destruct Hname as [-> | ->]; split; reflexivity. }
    destruct Hbr as [B1 B2]. rewrite B1, B2. mstep.
    fold rowA colA colB.
    rewrite (rect_nrows H1), (rect_ncols H1 Hm).
    rewrite (broadcast_to_same 0 H2 Hm). mstep.
    rewrite (broadcast2_same Rplus 0 0 H1 H2 Hm). mstep.
    fold W.
    apply (w_to_wh_run (set_w W (set_w (outer Rminus rowA colA) s))
             (to_spectral W)).
    apply (proj1 (rfft2_rect (rect_mk m n _) Hm Hn)).
  - apply (proj1 (rfft2_rect (rect_mk m n _) Hm Hn)).
  - intros i j Hi Hj.
    rewrite (HW (m - i)%nat j ltac:(lia) Hj), (HW i j ltac:(lia) Hj).
    unfold shear_layer. rewrite Hy. unfold linspace.
    rewrite (nth_map_seq _ 0 (ltac:(lia) : (m - i < m)%nat)).
    rewrite (nth_map_seq _ 0 (ltac:(lia) : (i < m)%nat)).
    rewrite minus_INR by lia. unfold linspace_step.
    assert (Hm0 : INR m <> 0) by (apply not_0_INR; lia).
    assert (Emi : (INR m - INR i) * ((2 * PI - 0) / INR m)
                  = 2 * PI - INR i * ((2 * PI - 0) / INR m))
      by (field; exact Hm0).
    rewrite Emi.
    replace (1.5 * PI - (2 * PI - INR i * ((2 * PI - 0) / INR m) + 0))
      with (INR i * ((2 * PI - 0) / INR m) + 0 - 0.5 * PI) by lra.
    replace (2 * PI - INR i * ((2 * PI - 0) / INR m) + 0 - 0.5 * PI)
      with (1.5 * PI - (INR i * ((2 * PI - 0) / INR m) + 0)) by lra.
    ring.
Qed.

Lemma shear_layer_field_witness :
  (1 <= 4)%nat /\ (1 <= 6)%nat
  /\ x fluid46 = linspace 4 /\ y fluid46 = linspace 6
  /\ ("SL"%string = "SL"%string \/ "SL"%string = "Shear Layer"%string)
  /\ exists (W : matrix R) (h : matrix complex),
      init_field (FieldStr "SL") 0 2 default_delta default_sigma no_draws
        fluid46
      = Returned tt (set_wh (Some h) (set_w W fluid46))
      /\ rect 6 4 W
      /\ rfft2 W = Val h
      /\ (forall i j, (i < 6)%nat -> (j < 4)%nat ->
            mget 0 W i j
            = shear_layer default_delta default_sigma
                (nth j (x fluid46) 0) (nth i (y fluid46) 0))
      /\ (forall i j, (0 < i < 6)%nat -> (j < 4)%nat ->
            mget 0 W (6 - i) j - 2 * default_delta * cos (nth j (x fluid46) 0)
            = - (mget 0 W i j
                 - 2 * default_delta * cos (nth j (x fluid46) 0))).
Proof.
  split; [ lia | ]. split; [ lia | ].
  split; [ reflexivity | ]. split; [ reflexivity | ]. split; [ now left | ].
  apply (shear_layer_field fluid46 4 6 "SL" 0 2 default_delta default_sigma
           no_draws); [ lia | lia | reflexivity | reflexivity | now left ].
Defined.

(* ----------------------------------------------------------------- *)
(** ** The time step *)

Lemma diffuse_inviscid (K : matrix R) (W : matrix complex) {r c : nat}
    {acc : matrix complex} :
  rect r c acc -> (1 <= r)%nat -> diffuse 0 K W acc = acc.
Proof.
  intros HA Hr. unfold diffuse.
  rewrite (rect_nrows HA), (rect_ncols HA Hr).
  symmetry. etransitivity; [ apply (mk_matrix_eta C0 HA) | ].
  apply mk_matrix_ext. intros i j _ _. csolve.
Qed.

(** X9.  In the inviscid configuration ([Re = 0], for which the
    constructor sets [ReI = 0]) the diffusion term is absent: on a ready
    solver (a square grid whose padding mask selects [n] rows),
    [_add_diffusion] returns with the accumulator [dwhdt] exactly as it
    was, whatever [wh] and [dwhdt] hold. *)
Theorem inviscid_diffusion_is_noop (n r c : nat) (pd : list bool)
    (W P D : matrix complex) (s : Fluid) :
  solver_ready n r c pd W P D s ->
  ReI s = 0 ->
  _add_diffusion s = Returned tt (set_dwhdt (Some D) s)
  /\ dwhdt s = Some D.
Proof.
  intros H Hre. split; [ | apply (sr_dwhdt H) ].
  rewrite (_add_diffusion_ready H), Hre.
  rewrite (diffuse_inviscid _ _ (sr_dwhdt_rect H)); [ reflexivity | ].
  pose proof (sr_size H). lia.
Qed.

Lemma inviscid_diffusion_is_noop_witness :
  let s := with_viscosity 0 0 (set_dwhdt (Some ramp43) flow4) in
  solver_ready 4 6 4 (padder_of 2) flow4_wh flow4_psih ramp43 s
  /\ ReI s = 0
  /\ _add_diffusion s = Returned tt (set_dwhdt (Some ramp43) s)
  /\ dwhdt s = Some ramp43.
Proof.
  intros s.
  assert (H : solver_ready 4 6 4 (padder_of 2) flow4_wh flow4_psih ramp43 s).
  { apply ready_with_viscosity.
    apply (ready_set_dwhdt ramp43 (proj2 flow4_state)). apply rect_mk. }
  split; [ exact H | ]. split; [ reflexivity | ].
  exact (inviscid_diffusion_is_noop 4 6 4 (padder_of 2) flow4_wh flow4_psih
           ramp43 s H eq_refl).
Defined.






(** X11.  [update(s)] with [s <= 0] runs no stage ([range(s, 0, -1)] is
    empty): [wh], [psih] and [dwhdt] stay as they are, yet [w0] becomes
    [wh], [time] advances by [dt], [it] by one, and [dt] is recomputed. *)
Theorem update_without_stages (n r c : nat) (pd : list bool)
    (W P D : matrix complex) (s : Fluid) (k : Z) :
  solver_ready n r c pd W P D s ->
  (k <= 0)%Z ->
  exists s',
    update k s = Returned tt s'
    /\ wh s' = Some W /\ psih s' = Some P /\ dwhdt s' = Some D
    /\ w0 s' = ComplexArr W
    /\ time s' = time s + dt s /\ it s' = (it s + 1)%Z
    /\ dt s' = cfl_dt (dx s) (dy s) (velocity_u (ky s) P)
                 (velocity_v (firstn (nk s) (kx s)) P).
Proof.
  intros H Hk.
  destruct (update_ready k H) as [Erun _].
  assert (Hr : range_down k = []).
  { unfold range_down. replace (Z.to_nat k) with 0%nat by lia. reflexivity. }
  rewrite Hr in Erun. cbn [rk_stages sd_psih] in Erun.
  eexists. split; [ exact Erun | ]. repeat split.
Qed.

Lemma update_without_stages_witness :
  solver_ready 4 6 4 (padder_of 2) flow4_wh flow4_psih (np_zeros C0 4 3) flow4
  /\ (0 <= 0)%Z
  /\ exists s',
      update 0 flow4 = Returned tt s'
      /\ wh s' = Some flow4_wh /\ psih s' = Some flow4_psih
      /\ dwhdt s' = Some (np_zeros C0 4 3)
      /\ w0 s' = ComplexArr flow4_wh
      /\ time s' = time flow4 + dt flow4 /\ it s' = (it flow4 + 1)%Z
      /\ dt s' = cfl_dt (dx flow4) (dy flow4)
                   (velocity_u (ky flow4) flow4_psih)
                   (velocity_v (firstn (nk flow4) (kx flow4)) flow4_psih).
Proof.
  split; [ exact (proj2 flow4_state) | ]. split; [ lia | ].
  apply (update_without_stages 4 6 4 (padder_of 2) flow4_wh flow4_psih
           (np_zeros C0 4 3) flow4 0 (proj2 flow4_state)).
  lia.
Defined.

(* ----------------------------------------------------------------- *)
(** ** The Taylor-Green vortex *)

Lemma get_u_ready {n r c : nat} {pd : list bool} {W P D : matrix complex}
    {s : Fluid} :
  solver_ready n r c pd W P D s ->
  get_u s = Returned tt (set_u (velocity_u (ky s) P) s).
Proof.
  intros H. pose proof (sr_size H) as Hn.
  destruct (ready_lengths H) as (Lx & Ly & Hnr & Hk).
  assert (Hn1 : (1 <= n)%nat) by lia.
  pose proof (sr_psih_rect H) as HP.
  unfold get_u. mstep. rewrite (sr_psih H). mstep.
  rewrite (broadcast2_ddy _ Ly HP Hn1). mstep.
  rewrite (proj1 (irfft2_rect (rect_ddy (ky s) HP Hn1) Hn1 Hk)).
  reflexivity.
Qed.

Lemma get_v_ready {n r c : nat} {pd : list bool} {W P D : matrix complex}
    {s : Fluid} :
  solver_ready n r c pd W P D s ->
  get_v s = Returned tt (set_v (velocity_v (firstn (nk s) (kx s)) P) s).
Proof.
  intros H. pose proof (sr_size H) as Hn.
  destruct (ready_lengths H) as (Lx & Ly & Hnr & Hk).
  assert (Hn1 : (1 <= n)%nat) by lia.
  pose proof (sr_psih_rect H) as HP.
  unfold get_v. mstep. rewrite (sr_psih H). mstep.
  rewrite (broadcast2_ddx _ Lx HP Hn1). mstep.
  rewrite (proj1 (irfft2_rect (rect_ddx (firstn (nk s) (kx s)) HP Hn1) Hn1 Hk)).
  reflexivity.
Qed.

(** [_get_psih] on a Taylor-Green state. *)
Lemma _get_psih_tg (n q r c : nat) (pd : list bool) (a : R) (s : Fluid) :
  (0 < q)%nat -> (2 * q < n)%nat ->
  tg_state n q r c pd a s ->
  exists D : matrix complex,
    _get_psih s
    = Returned tt (set_psih (Some (cc_spec n q (a / (2 * INR q ^ 2)))) s)
    /\ solver_ready n r c pd (cc_spec n q a)
         (cc_spec n q (a / (2 * INR q ^ 2))) D
         (set_psih (Some (cc_spec n q (a / (2 * INR q ^ 2)))) s).
Proof.
  intros Hq Hqn Hs. destruct (tg_ready Hs) as (P & D & H).
  exists D.
  rewrite (_get_psih_ready H).
  rewrite (poisson_invert_cc n q s Hq Hqn (sr_nk H) (sr_kx H) (sr_ky H) a).
  split; [ reflexivity | ].
  apply (ready_set_psih _ H); [ apply rect_two_modes | ].
  unfold cc_spec. rewrite mget_two_modes by (pose proof (sr_size H); lia).
  destruct (0 =? q)%nat eqn:E; [ apply Nat.eqb_eq in E; lia | reflexivity ].
Qed.

Lemma tg8_state :
  tg_state 8 2 12 7 (padder_of 4) (2 * 2) tg8
  /\ time tg8 = 0 /\ dt tg8 = default_dt /\ Re tg8 = 1 /\ ReI tg8 = 1 / 1.
Proof.
  destruct (tg_start (fun _ _ _ => 0) 4 2 1 default_dt default_delta
              default_sigma no_draws ltac:(lia) ltac:(lia) ltac:(lra))
    as (s1 & s2 & H1 & H2 & Htg & Ht0 & Hdt & HRe & HReI).
  rewrite INR_2 in H2, Htg.
  assert (E : tg8 = s2).
  { unfold tg8. change (fresh (fun _ _ _ => 0) 8 1 default_dt)
      with (fresh (fun _ _ _ => 0) (2 * 4) 1 default_dt).
    rewrite H1. cbn [final_state]. rewrite H2. reflexivity. }
  rewrite E. repeat split; try assumption; apply Htg.
Qed.



Lemma nth_linspace_angle (n q j : nat) :
  (j < n)%nat -> INR q * nth j (linspace n) 0 = dft_angle n q j.
Proof.
  intros Hj. unfold linspace. rewrite (nth_map_seq _ 0 Hj).
  apply linspace_angle. lia.
Qed.

(** X13.  One [update()] followed by [wh_to_w()] on a Taylor-Green state
    of amplitude [a] (on a grid whose size is a multiple of [4 q]) returns
    the Taylor-Green field again, with the amplitude multiplied by
    [1 + z + z^2/2 + z^3/6] for [z = - 2 q^2 ReI dt], the third-order
    Taylor polynomial of the exact decay factor [exp z]: the scheme keeps
    the shape of the vortex exactly and for [-1 <= z < 0] damps it without
    changing its sign. *)
Theorem taylor_green_update_exact (n q m r c : nat) (pd : list bool)
    (a : R) (s : Fluid) :
  (0 < q)%nat -> (0 < m)%nat -> n = (4 * q * m)%nat ->
  tg_state n q r c pd a s ->
  let z := - (ReI s * (2 * INR q ^ 2) * dt s) in
  let g := 1 + z + z ^ 2 / 2 + z ^ 3 / 6 in
  exists s1 s2,
    update 3 s = Returned tt s1
    /\ wh_to_w s1 = Returned tt s2
    /\ time s2 = time s + dt s
    /\ (forall i j, (i < n)%nat -> (j < n)%nat ->
          mget 0 (w s2) i j
          = a * g * cos (INR q * nth j (x s2) 0)
                  * cos (INR q * nth i (y s2) 0))
    /\ (-1 <= z < 0 -> 0 < g < 1).
Proof.
  intros Hq Hm Hn Hs z g.
  destruct (update_tg n q m r c pd Hq Hm Hn a s Hs)
    as (s1 & Erun & Hs1 & Htime & _).
  fold z in Hs1. change (stage3 z) with g in Hs1.
  exists s1, (set_w (cc_field n q (a * g)) s1).
  split; [ exact Erun | ].
  split; [ apply (wh_to_w_tg n q m r c pd Hq Hm Hn _ s1 Hs1) | ].
  split; [ exact Htime | ].
  split.
  - intros i j Hi Hj.
    change (w (set_w (cc_field n q (a * g)) s1)) with (cc_field n q (a * g)).
    change (x (set_w (cc_field n q (a * g)) s1)) with (x s1).
    change (y (set_w (cc_field n q (a * g)) s1)) with (y s1).
    rewrite (tg_x Hs1), (tg_y Hs1), !nth_linspace_angle by assumption.
    unfold cc_field. rewrite mget_mk by assumption. ring.
  - intros Hz. unfold g. split; [ | nra ].
    assert (0 <= z ^ 2 * (3 + z)) by (apply Rmult_le_pos; [ apply pow2_ge_0 | lra ]).
    assert (0 < 1 + z \/ z = -1) as [Hp | ->] by lra; nra.
Qed.

Lemma taylor_green_update_exact_witness :
  (0 < 2)%nat /\ (0 < 1)%nat /\ 8%nat = (4 * 2 * 1)%nat
  /\ tg_state 8 2 12 7 (padder_of 4) (2 * 2) tg8
  /\ let z := - (ReI tg8 * (2 * INR 2 ^ 2) * dt tg8) in
     let g := 1 + z + z ^ 2 / 2 + z ^ 3 / 6 in
     exists s1 s2,
       update 3 tg8 = Returned tt s1
       /\ wh_to_w s1 = Returned tt s2
       /\ time s2 = time tg8 + dt tg8
       /\ (forall i j, (i < 8)%nat -> (j < 8)%nat ->
             mget 0 (w s2) i j
             = 2 * 2 * g * cos (INR 2 * nth j (x s2) 0)
                         * cos (INR 2 * nth i (y s2) 0))
       /\ (-1 <= z < 0 -> 0 < g < 1).
Proof.
  split; [ lia | ]. split; [ lia | ]. split; [ reflexivity | ].
  split; [ exact (proj1 tg8_state) | ].
  apply (taylor_green_update_exact 8 2 1 12 7 (padder_of 4) (2 * 2) tg8);
    [ lia | lia | reflexivity | exact (proj1 tg8_state) ].
Defined.

Lemma ready_set_u {n r c : nat} {pd : list bool} {W P D : matrix complex}
    {s : Fluid} (a : matrix R) :
  solver_ready n r c pd W P D s -> solver_ready n r c pd W P D (set_u a s).
Proof. intros H. destruct H. constructor; assumption. Qed.

(** X14.  Spectral differentiation is exact on the Taylor-Green vortex:
    after [_get_psih], [get_u] and [get_v] store the analytic velocities
    of the stream function [psi = a / (2 q^2) cos(q x) cos(q y)], namely
    [u = d psi / dy = - a / (2 q) cos(q x) sin(q y)] and
    [v = - d psi / dx = a / (2 q) sin(q x) cos(q y)], at every grid
    point. *)
Theorem taylor_green_velocities (n q m r c : nat) (pd : list bool)
    (a : R) (s : Fluid) :
  (0 < q)%nat -> (0 < m)%nat -> n = (4 * q * m)%nat ->
  tg_state n q r c pd a s ->
  exists s1 s2 s3,
    _get_psih s = Returned tt s1
    /\ get_u s1 = Returned tt s2
    /\ get_v s2 = Returned tt s3
    /\ forall i j, (i < n)%nat -> (j < n)%nat ->
         mget 0 (u s3) i j
         = - (a / (2 * INR q)) * cos (INR q * nth j (x s3) 0)
                               * sin (INR q * nth i (y s3) 0)
         /\ mget 0 (v s3) i j
            = a / (2 * INR q) * sin (INR q * nth j (x s3) 0)
                              * cos (INR q * nth i (y s3) 0).
Proof.
  intros Hq Hm Hn Hs.
  assert (Hqn : (2 * q < n)%nat) by (rewrite Hn; nia).
  destruct (_get_psih_tg n q r c pd a s Hq Hqn Hs) as (D & Erun & H1).
  set (b := a / (2 * INR q ^ 2)) in *.
  set (s1 := set_psih (Some (cc_spec n q b)) s) in *.
  pose proof (get_u_ready H1) as Eu.
  rewrite (velocity_u_cc n q m r c pd Hq Hm Hn s1 _ _ D b H1) in Eu.
  set (s2 := set_u (cs_field n q (- INR q * b)) s1) in *.
  pose proof (ready_set_u (cs_field n q (- INR q * b)) H1) as H2.
  fold s2 in H2.
  pose proof (get_v_ready H2) as Ev.
  rewrite (velocity_v_cc n q m r c pd Hq Hm Hn s2 _ _ D b H2) in Ev.
  exists s1, s2, (set_v (mmap Ropp (sc_field n q (- INR q * b))) s2).
  split; [ exact Erun | ]. split; [ exact Eu | ]. split; [ exact Ev | ].
  intros i j Hi Hj.
  change (u (set_v (mmap Ropp (sc_field n q (- INR q * b))) s2))
    with (cs_field n q (- INR q * b)).
  change (v (set_v (mmap Ropp (sc_field n q (- INR q * b))) s2))
    with (mmap Ropp (sc_field n q (- INR q * b))).
  change (x (set_v (mmap Ropp (sc_field n q (- INR q * b))) s2)) with (x s).
  change (y (set_v (mmap Ropp (sc_field n q (- INR q * b))) s2)) with (y s).
  rewrite (tg_x Hs), (tg_y Hs), !nth_linspace_angle by assumption.
  assert (Hq0 : INR q <> 0) by (apply not_0_INR; lia).
  split.
  - unfold cs_field. rewrite mget_mk by assumption. unfold b. field. exact Hq0.
  - unfold sc_field.
    rewrite (mget_mmap Ropp 0 0 (rect_mk n n _) Hi Hj).
    rewrite mget_mk by assumption. unfold b. field. exact Hq0.
Qed.

Lemma taylor_green_velocities_witness :
  (0 < 2)%nat /\ (0 < 1)%nat /\ 8%nat = (4 * 2 * 1)%nat
  /\ tg_state 8 2 12 7 (padder_of 4) (2 * 2) tg8
  /\ exists s1 s2 s3,
      _get_psih tg8 = Returned tt s1
      /\ get_u s1 = Returned tt s2
      /\ get_v s2 = Returned tt s3
      /\ forall i j, (i < 8)%nat -> (j < 8)%nat ->
           mget 0 (u s3) i j
           = - (2 * 2 / (2 * INR 2)) * cos (INR 2 * nth j (x s3) 0)
                                     * sin (INR 2 * nth i (y s3) 0)
           /\ mget 0 (v s3) i j
              = 2 * 2 / (2 * INR 2) * sin (INR 2 * nth j (x s3) 0)
                                    * cos (INR 2 * nth i (y s3) 0).
Proof.
  split; [ lia | ]. split; [ lia | ]. split; [ reflexivity | ].
  split; [ exact (proj1 tg8_state) | ].
  apply (taylor_green_velocities 8 2 1 12 7 (padder_of 4) (2 * 2) tg8);
    [ lia | lia | reflexivity | exact (proj1 tg8_state) ].
Defined.

(* ----------------------------------------------------------------- *)
(** ** Sums over arrays and over transforms *)

Lemma list_sum_app (l l' : list R) :
  fold_right Rplus 0 (l ++ l') = fold_right Rplus 0 l + fold_right Rplus 0 l'.
Proof. induction l as [ | a l IH]; cbn; [ ring | rewrite IH; ring ]. Qed.

Lemma list_sum_map_seq (c : nat) (g : nat -> R) :
  fold_right Rplus 0 (map g (seq 0 c)) = Rsum c g.
Proof.
  induction c as [ | c IH]; [ reflexivity | ].
  rewrite seq_S, map_app, list_sum_app, IH. cbn. ring.
Qed.

Lemma list_sum_concat_seq (r : nat) (G : nat -> list R) :
  fold_right Rplus 0 (concat (map G (seq 0 r)))
  = Rsum r (fun i => fold_right Rplus 0 (G i)).
Proof.
  induction r as [ | r IH]; [ reflexivity | ].
  rewrite seq_S, map_app, concat_app, list_sum_app, IH.
  cbn [plus map concat Rsum]. rewrite app_nil_r. ring.
Qed.

(** The sum of an array given by its entries. *)
Lemma np_sum_mk (r c : nat) (f : nat -> nat -> R) :
  np_sum (mk_matrix r c f) = Rsum r (fun i => Rsum c (fun j => f i j)).
Proof.
  unfold np_sum, mk_matrix. rewrite list_sum_concat_seq.
  apply Rsum_ext. intros i _. apply list_sum_map_seq.
Qed.

Lemma np_sum_rect {r c : nat} {M : matrix R} :
  rect r c M -> np_sum M = Rsum r (fun i => Rsum c (fun j => mget 0 M i j)).
Proof.
  intros HM. rewrite (mk_matrix_eta 0 HM) at 1. apply np_sum_mk.
Qed.

Lemma Rsum_add (n : nat) (f g : nat -> R) :
  Rsum n (fun k => f k + g k) = Rsum n f + Rsum n g.
Proof. induction n as [ | n IH]; cbn; [ ring | rewrite IH; ring ]. Qed.

Lemma Rsum_scale (n : nat) (x : R) (f : nat -> R) :
  Rsum n (fun k => x * f k) = x * Rsum n f.
Proof. induction n as [ | n IH]; cbn; [ ring | rewrite IH; ring ]. Qed.

Lemma Rsum_zero (n : nat) : Rsum n (fun _ => 0) = 0.
Proof. rewrite Rsum_const. ring. Qed.

Lemma Rsum_nonneg (n : nat) (f : nat -> R) :
  (forall k, (k < n)%nat -> 0 <= f k) -> 0 <= Rsum n f.
Proof.
  induction n as [ | n IH]; intros H; cbn; [ lra | ].
  pose proof (IH (fun k Hk => H k ltac:(lia))). pose proof (H n ltac:(lia)).
  lra.
Qed.

Lemma Rsum_swap (n m : nat) (f : nat -> nat -> R) :
  Rsum n (fun k => Rsum m (fun l => f k l))
  = Rsum m (fun l => Rsum n (fun k => f k l)).
Proof.
  induction n as [ | n IH].
  - cbn. now rewrite Rsum_zero.
  - cbn. rewrite IH. now rewrite <- Rsum_add.
Qed.

(** The sum over [j] of [exp(2 pi i j k / n)] is [n] for [k = 0] and
    vanishes for [0 < k < n]. *)
Lemma roots_sum (n k : nat) :
  (k < n)%nat ->
  Csum n (fun j => cis (dft_angle n j k))
  = if (k =? 0)%nat then RtoC (INR n) else C0.
Proof.
  intros Hk.
  rewrite <- (dft_kernel n 0 k ltac:(lia) Hk).
  destruct k as [ | k].
  - apply Csum_ext. intros j _. unfold dft_angle. cbn [INR].
    replace (2 * PI * (INR j * 0) / INR n) with 0 by (unfold Rdiv; ring).
    replace (2 * PI * (0 * INR j) / INR n) with 0 by (unfold Rdiv; ring).
    rewrite Ropp_0, cis_0. csolve.
  - rewrite (Csum_ext n _ (fun j => cis (INR j * (2 * PI * INR (S k) / INR n)))).
    + rewrite roots_sum_zero by lia.
      rewrite (dft_kernel n 0 (S k) ltac:(lia) Hk). reflexivity.
    + intros j _. f_equal. unfold dft_angle, Rdiv. ring.
Qed.

(** The entries of an inverse transform add up to the zero-frequency
    coefficient. *)
Lemma sum_ifft_list (a : list complex) :
  (1 <= length a)%nat ->
  Csum (length a) (fun i => nth i (ifft_list a) C0) = nth 0 a C0.
Proof.
  intros Hn. set (n := length a).
  assert (Hn0 : INR n <> 0) by (apply not_0_INR; lia).
  rewrite (Csum_ext n _
    (fun i => Cscale (/ INR n)
                (Csum n (fun k => Cmul (nth k a C0) (cis (dft_angle n i k))))))
    by (intros i Hi; now apply nth_ifft_list).
  rewrite Csum_scale, Csum_swap.
  rewrite (Csum_ext n _
    (fun k => Cmul (nth k a C0) (if (k =? 0)%nat then RtoC (INR n) else C0))).
  2:{ intros k Hk. rewrite Csum_mul_l. f_equal. now apply roots_sum. }
  rewrite (Csum_single n 0) by
    (try lia; intros k Hk Hne; apply Nat.eqb_neq in Hne; rewrite Hne;
     apply Cmul_0_r).
  cbn [Nat.eqb].
  apply complex_ext; cbn [re im Cscale Cmul RtoC]; field; exact Hn0.
Qed.

Lemma sum_irfft_list (a : list complex) :
  (2 <= length a)%nat ->
  Rsum (2 * (length a - 1)) (fun j => nth j (irfft_list a) 0)
  = re (nth 0 a C0).
Proof.
  intros Hc. set (n := (2 * (length a - 1))%nat).
  assert (Hn : (1 <= n)%nat) by (unfold n; lia).
  assert (Hn0 : INR n <> 0) by (apply not_0_INR; lia).
  rewrite (Rsum_ext n _
    (fun j => / INR n
              * re (Csum n (fun k => Cmul (hermitian a n k)
                                          (cis (dft_angle n j k)))))).
  2:{ intros j Hj. unfold irfft_list. fold n.
      now rewrite (nth_map_seq _ 0 Hj). }
  rewrite Rsum_scale, <- re_Csum, Csum_swap.
  rewrite (Csum_ext n _
    (fun k => Cmul (hermitian a n k)
                (if (k =? 0)%nat then RtoC (INR n) else C0))).
  2:{ intros k Hk. rewrite Csum_mul_l. f_equal. now apply roots_sum. }
  rewrite (Csum_single n 0) by
    (try lia; intros k Hk Hne; apply Nat.eqb_neq in Hne; rewrite Hne;
     apply Cmul_0_r).
  cbn [Nat.eqb]. unfold hermitian. cbn [Nat.leb].
  cbn [re im Cmul RtoC]. field. exact Hn0.
Qed.

(** The entries of a two-dimensional inverse transform add up to the real
    part of the mean mode. *)
Lemma np_sum_to_physical {r c : nat} {h : matrix complex} :
  rect r c h -> (1 <= r)%nat -> (2 <= c)%nat ->
  np_sum (to_physical h) = re (mget C0 h 0 0).
Proof.
  intros Hh Hr Hc.
  pose proof (rect_along_first ifft_list length_ifft_list Hh Hr
                (ltac:(lia) : (1 <= c)%nat)) as HA.
  rewrite (np_sum_rect (rect_to_physical Hh Hr Hc)).
  rewrite (Rsum_ext r _
    (fun i => re (nth i (ifft_list (column C0 h 0)) C0))).
  2:{ intros i Hi.
      rewrite (Rsum_ext (2 * (c - 1)) _
        (fun j => nth j (irfft_list (nth i (along_first ifft_list h) [])) 0)).
      2:{ intros j Hj. unfold mget, to_physical.
          now rewrite (nth_map_rows irfft_list i HA Hi). }
      rewrite <- (rect_row_length i HA Hi).
      rewrite sum_irfft_list by (rewrite (rect_row_length i HA Hi); exact Hc).
      f_equal.
      apply (mget_along_first ifft_list length_ifft_list Hh Hi).
      lia. }
  rewrite <- re_Csum. f_equal.
  assert (Lc : length (column C0 h 0) = r)
    by (rewrite length_column; apply (rect_nrows Hh)).
  rewrite <- Lc. rewrite sum_ifft_list by lia.
  unfold column. rewrite (rect_nrows Hh).
  now rewrite (nth_map_seq (fun i => mget C0 h i 0) C0 (ltac:(lia) : (0 < r)%nat)).
Qed.

(* ----------------------------------------------------------------- *)
(** ** Velocities and diagnostics *)

Lemma np_sum_mmap_opp {r c : nat} {M : matrix R} :
  rect r c M -> np_sum (mmap Ropp M) = - np_sum M.
Proof.
  intros HM. rewrite (np_sum_rect (rect_mmap Ropp HM)), (np_sum_rect HM).
  replace (- Rsum r (fun i => Rsum c (fun j => mget 0 M i j)))
    with (-1 * Rsum r (fun i => Rsum c (fun j => mget 0 M i j))) by ring.
  rewrite <- Rsum_scale. apply Rsum_ext. intros i Hi.
  rewrite <- Rsum_scale. apply Rsum_ext. intros j Hj.
  rewrite (mget_mmap Ropp 0 0 HM Hi Hj). ring.
Qed.

Lemma wavenumber_zero (n : nat) : (1 <= n)%nat -> nth 0 (wavenumbers n) 0 = 0.
Proof.
  intros Hn. rewrite nth_wavenumbers by lia. unfold freq.
  destruct (0 <? (n - 1) / 2 + 1)%nat eqn:E; [ reflexivity | ].
  apply Nat.ltb_ge in E. lia.
Qed.

(** X15.  On a ready solver (a square grid whose padding mask selects [n]
    rows), the velocities that [get_u] and [get_v] compute have zero mean
    over the grid, whatever stream function [psih] the solver holds: the
    zero wavenumber [ky[0] = kx[0] = 0] removes the mean mode of both
    derivatives. *)
Theorem velocities_have_zero_mean (n r c : nat) (pd : list bool)
    (W P D : matrix complex) (s : Fluid) :
  solver_ready n r c pd W P D s ->
  exists s1 s2,
    get_u s = Returned tt s1
    /\ get_v s1 = Returned tt s2
    /\ rect n (2 * (n / 2)) (u s2) /\ rect n (2 * (n / 2)) (v s2)
    /\ np_sum (u s2) = 0 /\ np_sum (v s2) = 0
    /\ np_mean (u s2) = 0 /\ np_mean (v s2) = 0.
Proof.
  intros H. pose proof (sr_size H) as Hn.
  destruct (ready_lengths H) as (Lx & Ly & Hnr & Hk).
  assert (Hn1 : (1 <= n)%nat) by lia.
  pose proof (sr_psih_rect H) as HP.
  pose proof (rect_velocity_u (ky s) HP Hn1 Hk) as HU.
  pose proof (rect_to_physical (rect_ddx (firstn (nk s) (kx s)) HP Hn1) Hn1 Hk)
    as HT.
  pose proof (rect_velocity_v (firstn (nk s) (kx s)) HP Hn1 Hk) as HV.
  replace (2 * (n / 2 + 1 - 1))%nat with (2 * (n / 2))%nat in * by lia.
  set (U := velocity_u (ky s) P) in *.
  set (V := velocity_v (firstn (nk s) (kx s)) P) in *.
  pose proof (ready_set_u U H) as H1.
  exists (set_u U s), (set_v V (set_u U s)).
  split; [ apply (get_u_ready H) | ].
  split; [ apply (get_v_ready H1) | ].
  change (u (set_v V (set_u U s))) with U.
  change (v (set_v V (set_u U s))) with V.
  split; [ exact HU | ]. split; [ exact HV | ].
  assert (EU : np_sum U = 0).
  { unfold U, velocity_u.
    rewrite (np_sum_to_physical (rect_ddy (ky s) HP Hn1) Hn1 Hk).
    unfold ddy. rewrite (rect_nrows HP), (rect_ncols HP Hn1).
    rewrite mget_mk by lia.
    rewrite (sr_ky H), wavenumber_zero by lia. cbn. ring. }
  assert (EV : np_sum V = 0).
  { unfold V, velocity_v. rewrite (np_sum_mmap_opp HT).
    rewrite (np_sum_to_physical (rect_ddx _ HP Hn1) Hn1 Hk).
    unfold ddx. rewrite (rect_nrows HP), (rect_ncols HP Hn1).
    rewrite mget_mk by lia.
    rewrite nth_firstn.
    destruct (0 <? nk s)%nat eqn:E;
      [ | apply Nat.ltb_ge in E; rewrite (sr_nk H) in E; lia ].
    rewrite (sr_kx H), wavenumber_zero by lia. cbn. ring. }
  split; [ exact EU | ]. split; [ exact EV | ].
  unfold np_mean. rewrite EU, EV. unfold Rdiv. split; ring.
Qed.

Lemma velocities_have_zero_mean_witness :
  solver_ready 4 6 4 (padder_of 2) flow4_wh flow4_psih (np_zeros C0 4 3) flow4
  /\ exists s1 s2,
      get_u flow4 = Returned tt s1
      /\ get_v s1 = Returned tt s2
      /\ rect 4 (2 * (4 / 2)) (u s2) /\ rect 4 (2 * (4 / 2)) (v s2)
      /\ np_sum (u s2) = 0 /\ np_sum (v s2) = 0
      /\ np_mean (u s2) = 0 /\ np_mean (v s2) = 0.
Proof.
  split; [ exact (proj2 flow4_state) | ].
  apply (velocities_have_zero_mean 4 6 4 (padder_of 2) flow4_wh flow4_psih
           (np_zeros C0 4 3) flow4 (proj2 flow4_state)).
Defined.

(* ----------------------------------------------------------------- *)
(** ** The spectral variance *)

Lemma Cabs_sq (z : complex) : Cabs z ^ 2 = Cnorm2 z.
Proof.
  unfold Cabs, Cnorm2. apply pow2_sqrt.
  pose proof (Rle_0_sqr (re z)). pose proof (Rle_0_sqr (im z)).
  unfold Rsqr in *. lra.
Qed.

Lemma Cnorm2_nonneg (z : complex) : 0 <= Cnorm2 z.
Proof.
  unfold Cnorm2. pose proof (Rle_0_sqr (re z)). pose proof (Rle_0_sqr (im z)).
  unfold Rsqr in *. lra.
Qed.

Lemma Cnorm2_conj (z : complex) : Cnorm2 (Cconj z) = Cnorm2 z.
Proof. unfold Cnorm2. cbn. ring. Qed.

Lemma Cnorm2_scale (x : R) (z : complex) :
  Cnorm2 (Cscale x z) = x ^ 2 * Cnorm2 z.
Proof. unfold Cnorm2. cbn. ring. Qed.

Lemma spec_weight_nonneg (c j : nat) : 0 <= spec_weight c j.
Proof.
  unfold spec_weight.
  destruct (j =? c - 1)%nat; destruct (j =? 0)%nat; lra.
Qed.

(** [_spec_variance] as a double sum. *)
Lemma _spec_variance_sum {r c : nat} (ph : matrix complex) (s : Fluid) :
  rect r c ph -> (1 <= r)%nat -> (1 <= c)%nat ->
  _spec_variance ph s
  = Returned
      (Rsum r (fun i => Rsum c (fun j =>
         spec_weight c j
         * (2 * Cnorm2 (mget C0 ph i j) / INR (nx s * ny s) ^ 2))))
      s.
Proof.
  intros Hp Hr Hc. unfold _spec_variance. mstep.
  set (g := fun z => 2 * Cabs z ^ 2 / INR (nx s * ny s) ^ 2).
  pose proof (rect_mmap g Hp) as HV.
  rewrite (rect_ncols HV Hr).
  destruct (c =? 0)%nat eqn:E; [ apply Nat.eqb_eq in E; lia | ].
  mstep. f_equal.
  assert (H1 : halve_col 0 (mmap g ph)
               = mk_matrix r c (fun i j =>
                   if (j =? 0)%nat then mget 0 (mmap g ph) i j / 2
                   else mget 0 (mmap g ph) i j)).
  { unfold halve_col. now rewrite (rect_nrows HV), (rect_ncols HV Hr). }
  rewrite H1. unfold halve_col. rewrite nrows_mk, ncols_mk by exact Hr.
  rewrite np_sum_mk. apply Rsum_ext. intros i Hi.
  apply Rsum_ext. intros j Hj.
  rewrite mget_mk by assumption.
  rewrite (mget_mmap g C0 0 Hp Hi Hj). unfold g. rewrite Cabs_sq.
  unfold spec_weight, Rdiv.
  destruct (j =? c - 1)%nat; destruct (j =? 0)%nat; ring.
Qed.

(** X16.  [_spec_variance] is a pure function of its argument and the
    grid sizes: it leaves the instance alone, its value is never negative,
    and it is quadratic, so that scaling the array by a real [x] scales the
    value by [x^2] (what [McWilliams1984] relies on when it divides by
    [sqrt(KEaux)]).  An array without columns raises [IndexError]. *)
Theorem spec_variance_quadratic (r c : nat) (ph : matrix complex) (s : Fluid)
    (x : R) :
  rect r c ph -> (1 <= r)%nat -> (1 <= c)%nat ->
  (exists v,
     _spec_variance ph s = Returned v s
     /\ 0 <= v
     /\ _spec_variance (mmap (Cscale x) ph) s = Returned (x ^ 2 * v) s)
  /\ (forall ph0 : matrix complex,
        ncols ph0 = 0%nat -> _spec_variance ph0 s = Raised "IndexError" s).
Proof.
  intros Hp Hr Hc. split.
  - eexists. split; [ apply (_spec_variance_sum ph s Hp Hr Hc) | ]. split.
    + apply Rsum_nonneg. intros i Hi. apply Rsum_nonneg. intros j Hj.
      apply Rmult_le_pos; [ apply spec_weight_nonneg | ].
      unfold Rdiv. apply Rmult_le_pos.
      * pose proof (Cnorm2_nonneg (mget C0 ph i j)). lra.
      * destruct (Req_dec_T (INR (nx s * ny s) ^ 2) 0) as [-> | Hne].
        -- rewrite Rinv_0. lra.
        -- left. apply Rinv_0_lt_compat.
           pose proof (pow2_ge_0 (INR (nx s * ny s))). lra.
    + rewrite (_spec_variance_sum _ s (rect_mmap (Cscale x) Hp) Hr Hc).
      f_equal. rewrite <- Rsum_scale. apply Rsum_ext. intros i Hi.
      rewrite <- Rsum_scale. apply Rsum_ext. intros j Hj.
      rewrite mget_mmap_Cscale, Cnorm2_scale. unfold Rdiv. ring.
  - intros ph0 H0. unfold _spec_variance. mstep.
    assert (E : ncols (mmap (fun z => 2 * Cabs z ^ 2 / INR (nx s * ny s) ^ 2)
                         ph0) = 0%nat).
    { destruct ph0 as [ | row ph0]; [ reflexivity | ].
      cbn in *. now rewrite length_map. }
    rewrite E. reflexivity.
Qed.

Lemma spec_variance_quadratic_witness :
  rect 4 3 ramp43 /\ (1 <= 4)%nat /\ (1 <= 3)%nat
  /\ (exists v,
        _spec_variance ramp43 solver4 = Returned v solver4
        /\ 0 <= v
        /\ _spec_variance (mmap (Cscale 3) ramp43) solver4
           = Returned (3 ^ 2 * v) solver4)
  /\ (forall ph0 : matrix complex,
        ncols ph0 = 0%nat ->
        _spec_variance ph0 solver4 = Raised "IndexError" solver4).
Proof.
  split; [ apply rect_mk | ]. split; [ lia | ]. split; [ lia | ].
  apply (spec_variance_quadratic 4 3 ramp43 solver4 3);
    [ apply rect_mk | lia | lia ].
Defined.

(* ----------------------------------------------------------------- *)
(** *** Parseval's identity *)

Lemma Cnorm2_re (z : complex) : Cnorm2 z = re (Cmul z (Cconj z)).
Proof. unfold Cnorm2. cbn. ring. Qed.

Lemma Cconj_mul (a b : complex) : Cconj (Cmul a b) = Cmul (Cconj a) (Cconj b).
Proof. csolve. Qed.

(** One dimension: [sum_k |A_k|^2 = n sum_i |a_i|^2]. *)
Lemma parseval_fft (a : list complex) :
  Rsum (length a) (fun k => Cnorm2 (nth k (fft_list a) C0))
  = INR (length a) * Rsum (length a) (fun i => Cnorm2 (nth i a C0)).
Proof.
  set (n := length a).
  rewrite (Rsum_ext n _
    (fun k => re (Csum n (fun i =>
       Cmul (Cconj (nth i a C0))
            (Cmul (nth k (fft_list a) C0) (cis (dft_angle n i k))))))).
  2:{ intros k Hk. rewrite Cnorm2_re. f_equal.
      rewrite (nth_fft_list a k Hk) at 2. fold n.
      rewrite <- Csum_conj, <- Csum_mul_l. apply Csum_ext. intros i Hi.
      rewrite Cconj_mul, cis_neg.
      apply complex_ext; cbn [re im Cmul Cconj cis]; ring. }
  rewrite <- re_Csum, Csum_swap.
  rewrite (Csum_ext n _
    (fun i => RtoC (INR n * Cnorm2 (nth i a C0)))).
  2:{ intros i Hi. rewrite Csum_mul_l. unfold n.
      rewrite (fft_inversion_sum a i Hi). fold n.
      apply complex_ext; unfold Cnorm2; cbn [re im Cmul Cconj RtoC]; ring. }
  rewrite re_Csum. cbn [re RtoC]. now rewrite Rsum_scale.
Qed.

Lemma Rsum_split (a b : nat) (f : nat -> R) :
  Rsum (a + b) f = Rsum a f + Rsum b (fun k => f (a + k)%nat).
Proof.
  induction b as [ | b IH].
  - rewrite Nat.add_0_r. cbn. ring.
  - rewrite Nat.add_succ_r. cbn [Rsum]. rewrite IH. ring.
Qed.

Lemma Rsum_rev (n : nat) (f : nat -> R) :
  Rsum n f = Rsum n (fun k => f (n - 1 - k)%nat).
Proof.
  induction n as [ | n IH]; [ reflexivity | ].
  rewrite <- (Nat.add_1_l n) at 2. rewrite Rsum_split.
  cbn [Rsum]. rewrite IH.
  replace (S n - 1 - 0)%nat with n by lia.
  rewrite (Rsum_ext n (fun k => f (S n - 1 - (1 + k))%nat)
             (fun k => f (n - 1 - k)%nat))
    by (intros k Hk; f_equal; lia).
  ring.
Qed.

(** A sum over a full spectrum of [2 m] points whose terms are symmetric
    under [l -> 2 m - l], from its first [m + 1] terms. *)
Lemma half_spectrum_sum (m : nat) (F : nat -> R) :
  (1 <= m)%nat ->
  (forall l, (0 < l < 2 * m)%nat -> F (2 * m - l)%nat = F l) ->
  Rsum (m + 1) (fun l => spec_weight (m + 1) l * F l) = / 2 * Rsum (2 * m) F.
Proof.
  intros Hm Hsym.
  assert (Emid : Rsum (m - 1) (fun k => F (m + 1 + k)%nat)
                 = Rsum (m - 1) (fun k => F (1 + k)%nat)).
  { rewrite Rsum_rev. apply Rsum_ext. intros k Hk.
    rewrite <- (Hsym (1 + k)%nat) by lia. f_equal. lia. }
  replace (2 * m)%nat with (m + 1 + (m - 1))%nat by lia.
  rewrite (Rsum_split (m + 1) (m - 1) F), Emid.
  assert (Hhead : forall g : nat -> R,
            Rsum m g = g 0%nat + Rsum (m - 1) (fun k => g (1 + k)%nat)).
  { intros g. replace m with (1 + (m - 1))%nat at 1 by lia.
    rewrite Rsum_split. cbn [Rsum]. ring. }
  rewrite !Rsum_split. cbn [Rsum].
  rewrite (Hhead (fun l => spec_weight (m + 1) l * F l)), (Hhead F).
  rewrite (Rsum_ext (m - 1)
             (fun k => spec_weight (m + 1) (1 + k) * F (1 + k)%nat)
             (fun k => F (1 + k)%nat)).
  2:{ intros k Hk. unfold spec_weight.
      destruct (1 + k =? m + 1 - 1)%nat eqn:E1;
        [ apply Nat.eqb_eq in E1; lia | ].
      destruct (1 + k =? 0)%nat eqn:E2; [ apply Nat.eqb_eq in E2; lia | ].
      ring. }
  rewrite Nat.add_0_r.
  unfold spec_weight.
  replace (m + 1 - 1)%nat with m by lia.
  destruct (0 =? m)%nat eqn:E0; [ apply Nat.eqb_eq in E0; lia | ].
  rewrite !Nat.eqb_refl.
  destruct (m =? 0)%nat eqn:E1; [ apply Nat.eqb_eq in E1; lia | ].
  lra.
Qed.

(** The weighted half spectrum of a real row of even length carries half
    of [n sum_j x_j^2]. *)
Lemma rfft_row_energy (x : list R) :
  Nat.even (length x) = true -> (2 <= length x)%nat ->
  Rsum (length x / 2 + 1)
    (fun l => spec_weight (length x / 2 + 1) l
              * Cnorm2 (nth l (rfft_list x) C0))
  = / 2 * (INR (length x) * Rsum (length x) (fun j => nth j x 0 ^ 2)).
Proof.
  intros Hev Hc.
  pose proof (even_half (length x) Hev) as Hcm.
  assert (LX : length (map RtoC x) = length x) by apply length_map.
  set (X := fft_list (map RtoC x)).
  rewrite (Rsum_ext (length x / 2 + 1) _
             (fun l => spec_weight (length x / 2 + 1) l * Cnorm2 (nth l X C0))).
  2:{ intros l Hl. f_equal. f_equal. unfold rfft_list. fold X.
      rewrite nth_firstn.
      destruct (l <? length x / 2 + 1)%nat eqn:E;
        [ reflexivity | apply Nat.ltb_ge in E; lia ]. }
  rewrite (half_spectrum_sum (length x / 2) (fun l => Cnorm2 (nth l X C0)));
    [ | lia | ].
  2:{ intros l Hl. rewrite Hcm.
      transitivity (Cnorm2 (Cconj (nth (length x - l) X C0)));
        [ symmetry; apply Cnorm2_conj
        | f_equal; apply fft_real_hermitian; lia ]. }
  rewrite Hcm. f_equal.
  pose proof (parseval_fft (map RtoC x)) as HP. rewrite LX in HP. fold X in HP.
  rewrite HP. f_equal. apply Rsum_ext. intros j Hj.
  rewrite (nth_map_default RtoC 0 C0) by exact Hj.
  unfold Cnorm2. cbn. ring.
Qed.

(** X17.  Parseval's identity for [_spec_variance]: for a real field [a]
    of shape [(r, c)] with [c] even, on a fluid with [nx * ny = r * c],
    the spectral variance of [rfft2(a)] is the mean of [a^2] over the grid.
    The halving of the first and the last column of the half spectrum is
    what makes the two agree. *)
Theorem spec_variance_parseval (r c : nat) (a : matrix R) (s : Fluid) :
  rect r c a -> (1 <= r)%nat -> Nat.even c = true -> (2 <= c)%nat ->
  (nx s * ny s = r * c)%nat ->
  exists h : matrix complex,
    rfft2 a = Val h
    /\ _spec_variance h s
       = Returned (np_sum (mmap (fun e => e ^ 2) a) / INR (r * c)) s.
Proof.
  intros Ha Hr Hev Hc HN.
  pose proof (even_half c Hev) as Hcm.
  destruct (rfft2_rect Ha Hr ltac:(lia)) as [Eh Hh].
  exists (along_first fft_list (map rfft_list a)).
  split; [ exact Eh | ].
  set (h := along_first fft_list (map rfft_list a)) in *.
  set (m1 := (c / 2 + 1)%nat) in *.
  assert (Hm1 : (1 <= m1)%nat) by (unfold m1; lia).
  assert (HR : rect r m1 (map rfft_list a)).
  { pose proof (rect_map_rows rfft_list (fun n => Nat.min (n / 2 + 1) n)
                  length_rfft_list Ha) as H.
    cbv beta in H. rewrite Nat.min_l in H by (unfold m1 in *; lia). exact H. }
  rewrite (_spec_variance_sum h s Hh Hr Hm1). f_equal.
  rewrite HN.
  set (N := INR (r * c)).
  assert (HN0 : N <> 0) by (apply not_0_INR; nia).
  set (G := fun i l => Cnorm2 (nth l (rfft_list (nth i a [])) C0)).
  (* columns: Parseval along the first axis *)
  assert (Hcol : forall l, (l < m1)%nat ->
            Rsum r (fun k => Cnorm2 (mget C0 h k l))
            = INR r * Rsum r (fun i => G i l)).
  { intros l Hl.
    rewrite (Rsum_ext r _
               (fun k => Cnorm2 (nth k (fft_list (column C0 (map rfft_list a) l))
                                    C0))).
    2:{ intros k Hk. f_equal.
        apply (mget_along_first fft_list length_fft_list HR Hk Hl). }
    assert (Lc : length (column C0 (map rfft_list a) l) = r)
      by (rewrite length_column; apply (rect_nrows HR)).
    pose proof (parseval_fft (column C0 (map rfft_list a) l)) as HP.
    rewrite Lc in HP. rewrite HP. f_equal.
    apply Rsum_ext. intros i Hi. unfold G, column.
    rewrite (rect_nrows HR).
    rewrite (nth_map_seq (fun i0 => mget C0 (map rfft_list a) i0 l) C0 Hi).
    unfold mget. now rewrite (nth_map_rows rfft_list i Ha Hi). }
  (* rows: the weighted half spectrum of each row *)
  assert (Hrow : forall i, (i < r)%nat ->
            Rsum m1 (fun l => spec_weight m1 l * G i l)
            = / 2 * (INR c * Rsum c (fun j => mget 0 a i j ^ 2))).
  { intros i Hi. pose proof (rect_row_length i Ha Hi) as Li.
    pose proof (rfft_row_energy (nth i a [])) as E.
    rewrite Li in E. apply (E Hev Hc). }
  rewrite Rsum_swap.
  rewrite (Rsum_ext m1 _
             (fun l => 2 * INR r / N ^ 2
                       * Rsum r (fun i => spec_weight m1 l * G i l))).
  2:{ intros l Hl.
      rewrite (Rsum_ext r _
                 (fun k => spec_weight m1 l * (2 / N ^ 2)
                           * Cnorm2 (mget C0 h k l)))
        by (intros k Hk; unfold Rdiv; ring).
      rewrite Rsum_scale, (Hcol l Hl), Rsum_scale. unfold Rdiv. ring. }
  rewrite Rsum_scale, Rsum_swap.
  rewrite (Rsum_ext r _
             (fun i => / 2 * INR c * Rsum c (fun j => mget 0 a i j ^ 2)))
    by (intros i Hi; rewrite (Hrow i Hi); ring).
  rewrite Rsum_scale.
  rewrite (np_sum_rect (rect_mmap (fun e => e ^ 2) Ha)).
  rewrite (Rsum_ext r
             (fun i => Rsum c (fun j => mget 0 (mmap (fun e => e ^ 2) a) i j))
             (fun i => Rsum c (fun j => mget 0 a i j ^ 2))).
  2:{ intros i Hi. apply Rsum_ext. intros j Hj.
      apply (mget_mmap (fun e => e ^ 2) 0 0 Ha Hi Hj). }
  unfold N. rewrite mult_INR.
  assert (INR r <> 0) by (apply not_0_INR; lia).
  assert (INR c <> 0) by (apply not_0_INR; lia).
  field. split; assumption.
Qed.

Lemma spec_variance_parseval_witness :
  rect 4 4 (mk_matrix 4 4 (fun i j => INR i + INR j))
  /\ (1 <= 4)%nat /\ Nat.even 4 = true /\ (2 <= 4)%nat
  /\ (nx (fluid4 1) * ny (fluid4 1) = 4 * 4)%nat
  /\ exists h : matrix complex,
      rfft2 (mk_matrix 4 4 (fun i j => INR i + INR j)) = Val h
      /\ _spec_variance h (fluid4 1)
         = Returned
             (np_sum (mmap (fun e => e ^ 2)
                        (mk_matrix 4 4 (fun i j => INR i + INR j)))
              / INR (4 * 4))
             (fluid4 1).
Proof.
  split; [ apply rect_mk | ]. split; [ lia | ]. split; [ reflexivity | ].
  split; [ lia | ]. split; [ reflexivity | ].
  apply (spec_variance_parseval 4 4 (mk_matrix 4 4 (fun i j => INR i + INR j))
           (fluid4 1)); [ apply rect_mk | lia | reflexivity | lia | reflexivity ].
Defined.

(* ----------------------------------------------------------------- *)
(** *** Enstrophy and kinetic energy *)

Lemma np_sum_half_squares {r c : nat} {a : matrix R} :
  rect r c a ->
  np_sum (mmap (fun e => 0.5 * Rabs e ^ 2) a)
  = 0.5 * np_sum (mmap (fun e => e ^ 2) a).
Proof.
  intros Ha.
  rewrite (np_sum_rect (rect_mmap (fun e => 0.5 * Rabs e ^ 2) Ha)).
  rewrite (np_sum_rect (rect_mmap (fun e => e ^ 2) Ha)).
  rewrite <- Rsum_scale. apply Rsum_ext. intros i Hi.
  rewrite <- Rsum_scale. apply Rsum_ext. intros j Hj.
  rewrite (mget_mmap (fun e => 0.5 * Rabs e ^ 2) 0 0 Ha Hi Hj).
  rewrite (mget_mmap (fun e => e ^ 2) 0 0 Ha Hi Hj).
  now rewrite pow2_abs.
Qed.

(** X18.  On a grid with an even number of columns, loading an array with
    [init_field] and asking for the [enstrophy()] returns half the sum of
    the squares of the array; the call rewrites [w] from [wh], and the
    round trip gives back the array that was loaded. *)
Theorem enstrophy_of_loaded_field (s : Fluid) (a : matrix R) (r c : nat)
    (t kappa delta sigma : R) (draws : (nat -> nat -> R) * (nat -> nat -> R)) :
  rect r c a -> (1 <= r)%nat -> Nat.even c = true -> (2 <= c)%nat ->
  nx s = r -> ny s = c ->
  exists s1 s2,
    init_field (FieldArray a) t kappa delta sigma draws s = Returned tt s1
    /\ enstrophy s1
       = Returned (0.5 * np_sum (mmap (fun e => e ^ 2) a)) s2
    /\ w s2 = a /\ wh s2 = wh s1
    /\ 0 <= 0.5 * np_sum (mmap (fun e => e ^ 2) a).
Proof.
  intros Ha Hr Hev Hc Hnx Hny.
  destruct (irfft2_rfft2 Ha Hr Hev Hc) as (h & E1 & Hh & E2).
  exists (set_wh (Some h) (set_w a s)), (set_w a (set_wh (Some h) (set_w a s))).
  split.
  { unfold init_field. mstep. rewrite Hnx, Hny.
    rewrite (rect_nrows Ha), (rect_ncols Ha Hr), !Nat.eqb_refl. cbn [andb].
    mstep. apply (w_to_wh_run (set_w a s) h). exact E1. }
  split.
  { unfold enstrophy. mstep.
    rewrite (wh_to_w_run (set_wh (Some h) (set_w a s)) h a eq_refl E2).
    cbn [w set_w]. now rewrite (np_sum_half_squares Ha). }
  split; [ reflexivity | ]. split; [ reflexivity | ].
  rewrite (np_sum_rect (rect_mmap (fun e => e ^ 2) Ha)).
  apply Rmult_le_pos; [ lra | ].
  apply Rsum_nonneg. intros i Hi. apply Rsum_nonneg. intros j Hj.
  rewrite (mget_mmap (fun e => e ^ 2) 0 0 Ha Hi Hj). apply pow2_ge_0.
Qed.

Lemma enstrophy_of_loaded_field_witness :
  rect 4 4 (mk_matrix 4 4 (fun i j => INR i + INR j))
  /\ (1 <= 4)%nat /\ Nat.even 4 = true /\ (2 <= 4)%nat
  /\ nx (fluid4 1) = 4%nat /\ ny (fluid4 1) = 4%nat
  /\ exists s1 s2,
      init_field (FieldArray (mk_matrix 4 4 (fun i j => INR i + INR j)))
        0 2 default_delta default_sigma no_draws (fluid4 1)
      = Returned tt s1
      /\ enstrophy s1
         = Returned
             (0.5 * np_sum (mmap (fun e => e ^ 2)
                              (mk_matrix 4 4 (fun i j => INR i + INR j))))
             s2
      /\ w s2 = mk_matrix 4 4 (fun i j => INR i + INR j)
      /\ wh s2 = wh s1
      /\ 0 <= 0.5 * np_sum (mmap (fun e => e ^ 2)
                              (mk_matrix 4 4 (fun i j => INR i + INR j))).
Proof.
  split; [ apply rect_mk | ]. split; [ lia | ]. split; [ reflexivity | ].
  split; [ lia | ]. split; [ reflexivity | ]. split; [ reflexivity | ].
  apply (enstrophy_of_loaded_field (fluid4 1)
           (mk_matrix 4 4 (fun i j => INR i + INR j)) 4 4 0 2 default_delta
           default_sigma no_draws);
    [ apply rect_mk | lia | reflexivity | lia | reflexivity | reflexivity ].
Defined.

Lemma ready_k2_nonneg {n r c : nat} {pd : list bool} {W P D : matrix complex}
    {s : Fluid} (i j : nat) :
  solver_ready n r c pd W P D s -> (i < n)%nat -> (j < n / 2 + 1)%nat ->
  0 <= mget 0 (wavenumber_sq s) i j.
Proof.
  intros H Hi Hj. destruct (ready_lengths H) as (Lx & Ly & _ & _).
  rewrite length_firstn in Lx.
  rewrite mget_wavenumber_sq by lia.
  pose proof (pow2_ge_0 (nth j (kx s) 0)).
  pose proof (pow2_ge_0 (nth i (ky s) 0)). lra.
Qed.

(** [tke] on a ready solver: the weighted sum of [k2 |psih|^2]. *)
Lemma tke_ready {n r c : nat} {pd : list bool} {W P D : matrix complex}
    {s : Fluid} :
  solver_ready n r c pd W P D s ->
  tke s
  = Returned
      (Rsum n (fun i => Rsum (n / 2 + 1) (fun j =>
         spec_weight (n / 2 + 1) j
         * (mget 0 (wavenumber_sq s) i j * Cnorm2 (mget C0 P i j))))
       / INR (n * n) ^ 2)
      s.
Proof.
  intros H. pose proof (sr_size H) as Hn.
  destruct (ready_lengths H) as (_ & _ & _ & Hk).
  assert (Hn1 : (1 <= n)%nat) by lia.
  pose proof (ready_k2_rect H) as HK. pose proof (sr_psih_rect H) as HP.
  unfold tke. mstep. rewrite (sr_k2 H). mstep. rewrite (sr_psih H). mstep.
  rewrite (broadcast2_same Cscale 0 C0 (rect_mmap sqrt HK) HP Hn1). mstep.
  rewrite (_spec_variance_sum _ s (rect_mk n (n / 2 + 1) _) Hn1 ltac:(lia)).
  mstep. f_equal. rewrite (sr_nx H), (sr_ny H).
  unfold Rdiv. rewrite <- !Rsum_scale.
  replace (Rsum n (fun i => Rsum (n / 2 + 1) (fun j =>
             spec_weight (n / 2 + 1) j
             * (mget 0 (wavenumber_sq s) i j * Cnorm2 (mget C0 P i j))))
           * / INR (n * n) ^ 2)
    with (/ INR (n * n) ^ 2
          * Rsum n (fun i => Rsum (n / 2 + 1) (fun j =>
              spec_weight (n / 2 + 1) j
              * (mget 0 (wavenumber_sq s) i j * Cnorm2 (mget C0 P i j)))))
    by ring.
  rewrite <- Rsum_scale. apply Rsum_ext. intros i Hi.
  rewrite <- !Rsum_scale. apply Rsum_ext. intros j Hj.
  rewrite mget_mk by assumption.
  rewrite (mget_mmap sqrt 0 0 HK Hi Hj), Cnorm2_scale.
  rewrite pow2_sqrt by (apply (ready_k2_nonneg i j H Hi Hj)).
  replace 0.5 with (/ 2) by lra. field.
  apply not_0_INR. nia.
Qed.

(** X19.  [tke()] on a ready solver (a square grid whose padding mask
    selects [n] rows) leaves the instance alone and returns
    the weighted sum over the half spectrum of [k2 |psih|^2], divided by
    [(nx ny)^2], with the first and the last column counted half; the
    value is never negative. *)
Theorem tke_is_spectral_energy (n r c : nat) (pd : list bool)
    (W P D : matrix complex) (s : Fluid) :
  solver_ready n r c pd W P D s ->
  exists v,
    tke s = Returned v s
    /\ v = Rsum n (fun i => Rsum (n / 2 + 1) (fun j =>
             (if (j =? 0)%nat || (j =? n / 2)%nat then / 2 else 1)
             * (mget 0 (wavenumber_sq s) i j * Cnorm2 (mget C0 P i j))))
           / INR (nx s * ny s) ^ 2
    /\ 0 <= v.
Proof.
  intros H. pose proof (sr_size H) as Hn.
  destruct (ready_lengths H) as (_ & _ & _ & Hk).
  eexists. split; [ apply (tke_ready H) | ].
  assert (Hw : forall j, (j < n / 2 + 1)%nat ->
            spec_weight (n / 2 + 1) j
            = if ((j =? 0) || (j =? n / 2))%nat then / 2 else 1).
  { intros j Hj. unfold spec_weight.
    replace (n / 2 + 1 - 1)%nat with (n / 2)%nat by lia.
    destruct (j =? 0)%nat eqn:E0; destruct (j =? n / 2)%nat eqn:E1;
      cbn [orb]; try lra.
    apply Nat.eqb_eq in E0. apply Nat.eqb_eq in E1. lia. }
  split.
  - rewrite (sr_nx H), (sr_ny H). f_equal.
    apply Rsum_ext. intros i Hi. apply Rsum_ext. intros j Hj.
    now rewrite (Hw j Hj).
  - unfold Rdiv. apply Rmult_le_pos.
    + apply Rsum_nonneg. intros i Hi. apply Rsum_nonneg. intros j Hj.
      apply Rmult_le_pos; [ apply spec_weight_nonneg | ].
      apply Rmult_le_pos;
        [ apply (ready_k2_nonneg i j H Hi Hj) | apply Cnorm2_nonneg ].
    + left. apply Rinv_0_lt_compat. apply pow_lt. apply lt_0_INR. nia.
Qed.

Lemma tke_is_spectral_energy_witness :
  solver_ready 4 6 4 (padder_of 2) flow4_wh flow4_psih (np_zeros C0 4 3) flow4
  /\ exists v,
      tke flow4 = Returned v flow4
      /\ v = Rsum 4 (fun i => Rsum (4 / 2 + 1) (fun j =>
               (if (j =? 0)%nat || (j =? 4 / 2)%nat then / 2 else 1)
               * (mget 0 (wavenumber_sq flow4) i j
                  * Cnorm2 (mget C0 flow4_psih i j))))
             / INR (nx flow4 * ny flow4) ^ 2
      /\ 0 <= v.
Proof.
  split; [ exact (proj2 flow4_state) | ].
  apply (tke_is_spectral_energy 4 6 4 (padder_of 2) flow4_wh flow4_psih
           (np_zeros C0 4 3) flow4 (proj2 flow4_state)).
Defined.

Lemma Rsum_single (n m : nat) (f : nat -> R) :
  (m < n)%nat -> (forall k, (k < n)%nat -> k <> m -> f k = 0) ->
  Rsum n f = f m.
Proof.
  induction n as [ | n IH]; intros Hm Hz; [ lia | ].
  cbn. destruct (Nat.eq_dec m n) as [-> | Hne].
  - rewrite (Rsum_ext n f (fun _ => 0)) by (intros k Hk; apply Hz; lia).
    rewrite Rsum_zero. ring.
  - rewrite IH by (try lia; intros k Hk Hkm; apply Hz; lia).
    rewrite (Hz n) by lia. ring.
Qed.

Lemma Rsum_pair (n m1 m2 : nat) (f : nat -> R) :
  (m1 < n)%nat -> (m2 < n)%nat -> m1 <> m2 ->
  (forall k, (k < n)%nat -> k <> m1 -> k <> m2 -> f k = 0) ->
  Rsum n f = f m1 + f m2.
Proof.
  intros H1 H2 Hne Hz.
  rewrite (Rsum_ext n f
             (fun k => (if (k =? m1)%nat then f k else 0)
                       + (if (k =? m2)%nat then f k else 0))).
  2:{ intros k Hk.
      destruct (k =? m1)%nat eqn:E1; destruct (k =? m2)%nat eqn:E2.
      - apply Nat.eqb_eq in E1. apply Nat.eqb_eq in E2. lia.
      - ring.
      - ring.
      - apply Nat.eqb_neq in E1. apply Nat.eqb_neq in E2.
        rewrite (Hz k Hk E1 E2). ring. }
  rewrite Rsum_add.
  rewrite (Rsum_single n m1) by
    (try exact H1; intros k Hk Hk1; apply Nat.eqb_neq in Hk1; now rewrite Hk1).
  rewrite (Rsum_single n m2) by
    (try exact H2; intros k Hk Hk2; apply Nat.eqb_neq in Hk2; now rewrite Hk2).
  now rewrite !Nat.eqb_refl.
Qed.

(** X20.  The kinetic energy of the Taylor-Green vortex: on a
    Taylor-Green state of amplitude [a] and wavenumber [q] (grid size a
    multiple of [4 q]), [_get_psih] followed by [tke()] returns
    [a^2 / (16 q^2)], the mean of [(u^2 + v^2) / 2] of the analytic
    velocities; for the field that [init_field] builds, [a = 2 q], this is
    [1/4]. *)
Theorem taylor_green_tke (n q m r c : nat) (pd : list bool)
    (a : R) (s : Fluid) :
  (0 < q)%nat -> (0 < m)%nat -> n = (4 * q * m)%nat ->
  tg_state n q r c pd a s ->
  exists s1,
    _get_psih s = Returned tt s1
    /\ tke s1 = Returned (a ^ 2 / (16 * INR q ^ 2)) s1.
Proof.
  intros Hq Hm Hn Hs.
  assert (Hqn : (2 * q < n)%nat) by (rewrite Hn; nia).
  assert (Hhalf : (n / 2 = 2 * q * m)%nat).
  { rewrite Hn. replace (4 * q * m)%nat with (2 * (2 * q * m))%nat by lia.
    apply half_of_double. }
  destruct (_get_psih_tg n q r c pd a s Hq Hqn Hs) as (D & Erun & H1).
  set (b := a / (2 * INR q ^ 2)) in *.
  set (s1 := set_psih (Some (cc_spec n q b)) s) in *.
  exists s1. split; [ exact Erun | ].
  rewrite (tke_ready H1). f_equal.
  pose proof (sr_nk H1) as Hnk. pose proof (sr_kx H1) as Hkx.
  pose proof (sr_ky H1) as Hky.
  assert (Hqc : (q < n / 2 + 1)%nat) by lia.
  set (amp := b * (INR n * INR n / 4)).
  assert (Hinner : forall i, (i < n)%nat ->
            Rsum (n / 2 + 1) (fun j =>
              spec_weight (n / 2 + 1) j
              * (mget 0 (wavenumber_sq s1) i j
                 * Cnorm2 (mget C0 (cc_spec n q b) i j)))
            = if ((i =? q) || (i =? n - q))%nat
              then 2 * INR q ^ 2 * amp ^ 2 else 0).
  { intros i Hi.
    rewrite (Rsum_single (n / 2 + 1) q) by
      (try exact Hqc; intros j Hj Hne; unfold cc_spec;
       rewrite mget_two_modes by assumption;
       apply Nat.eqb_neq in Hne; rewrite Hne; unfold Cnorm2; cbn; ring).
    unfold cc_spec. rewrite mget_two_modes by assumption.
    rewrite Nat.eqb_refl.
    assert (Hw : spec_weight (n / 2 + 1) q = 1).
    { unfold spec_weight.
      destruct (q =? n / 2 + 1 - 1)%nat eqn:E1;
        [ apply Nat.eqb_eq in E1; nia | ].
      destruct (q =? 0)%nat eqn:E2; [ apply Nat.eqb_eq in E2; lia | ].
      ring. }
    rewrite Hw.
    destruct (i =? q)%nat eqn:E1.
    - apply Nat.eqb_eq in E1. cbn [orb].
      rewrite (k2_at_modes n q s1 Hq Hqn Hnk Hkx Hky i (or_introl E1)).
      unfold Cnorm2, amp. cbn [re im RtoC]. ring.
    - destruct (i =? n - q)%nat eqn:E2; cbn [orb].
      + apply Nat.eqb_eq in E2.
        rewrite (k2_at_modes n q s1 Hq Hqn Hnk Hkx Hky i (or_intror E2)).
        unfold Cnorm2, amp. cbn [re im RtoC]. ring.
      + unfold Cnorm2. cbn [re im C0]. ring. }
  rewrite (Rsum_ext n _
             (fun i => if ((i =? q) || (i =? n - q))%nat
                       then 2 * INR q ^ 2 * amp ^ 2 else 0))
    by exact Hinner.
  rewrite (Rsum_pair n q (n - q)) by
    (try lia; intros k Hk K1 K2; apply Nat.eqb_neq in K1;
     apply Nat.eqb_neq in K2; now rewrite K1, K2).
  rewrite !Nat.eqb_refl.
  destruct (n - q =? q)%nat eqn:E; [ apply Nat.eqb_eq in E; lia | ].
  cbn [orb].
  unfold amp, b. rewrite mult_INR.
  assert (Hn0 : INR n <> 0) by (apply not_0_INR; lia).
  assert (Hq0 : INR q <> 0) by (apply not_0_INR; lia).
  field. split; assumption.
Qed.

Lemma taylor_green_tke_witness :
  (0 < 2)%nat /\ (0 < 1)%nat /\ 8%nat = (4 * 2 * 1)%nat
  /\ tg_state 8 2 12 7 (padder_of 4) (2 * 2) tg8
  /\ exists s1,
      _get_psih tg8 = Returned tt s1
      /\ tke s1 = Returned ((2 * 2) ^ 2 / (16 * INR 2 ^ 2)) s1.
Proof.
  split; [ lia | ]. split; [ lia | ]. split; [ reflexivity | ].
  split; [ exact (proj1 tg8_state) | ].
  apply (taylor_green_tke 8 2 1 12 7 (padder_of 4) (2 * 2) tg8);
    [ lia | lia | reflexivity | exact (proj1 tg8_state) ].
Defined.

(* ----------------------------------------------------------------- *)
(** ** The spectral filter *)

Lemma Cabs_Cscale (a : R) (z : complex) : Cabs (Cscale a z) = Rabs a * Cabs z.
Proof.
  unfold Cabs, Cscale. cbn [re im].
  replace (a * re z * (a * re z) + a * im z * (a * im z))
    with (Rsqr a * (re z * re z + im z * im z)) by (unfold Rsqr; ring).
  rewrite sqrt_mult_alt by apply Rle_0_sqr.
  now rewrite sqrt_Rsqr_abs.
Qed.


(** X21.  [_add_spec_filter] multiplies the accumulator [dwhdt] by the
    filter entry by entry and touches nothing else: with [dwhdt] and
    [fltr] of one shape, the new [dwhdt[i, j]] is [fltr[i, j] * dwhdt[i, j]];
    a coefficient is left as it is where the filter is 1, and its modulus
    does not grow where the filter lies in [[-1, 1]]. *)
Theorem spec_filter_damps (s : Fluid) (r c : nat) (D : matrix complex)
    (F : matrix R) :
  (1 <= r)%nat ->
  dwhdt s = Some D -> fltr s = Some F -> rect r c D -> rect r c F ->
  exists D',
    _add_spec_filter s = Returned tt (set_dwhdt (Some D') s)
    /\ rect r c D'
    /\ forall i j, (i < r)%nat -> (j < c)%nat ->
         mget C0 D' i j = Cscale (mget 0 F i j) (mget C0 D i j)
         /\ (mget 0 F i j = 1 -> mget C0 D' i j = mget C0 D i j)
         /\ (Rabs (mget 0 F i j) <= 1 ->
             Cabs (mget C0 D' i j) <= Cabs (mget C0 D i j)).
Proof.
  intros Hr HD HF RD RF.
  unfold _add_spec_filter. mstep. rewrite HD. mstep. rewrite HF. mstep.
  rewrite (rect_nrows RD), (rect_ncols RD Hr).
  rewrite (broadcast_to_same 0 RF Hr). mstep.
  rewrite (broadcast2_same (fun z a => Cscale a z) C0 0 RD RF Hr). mstep.
  eexists. split; [ reflexivity | ].
  split; [ apply rect_mk | ].
  intros i j Hi Hj. rewrite (mget_mk C0 r c _ i j Hi Hj).
  split; [ reflexivity | ]. split.
  - intros ->. destruct (mget C0 D i j) as [a b]. unfold Cscale. cbn [re im].
    f_equal; ring.
  - intros Hle. rewrite Cabs_Cscale.
    assert (0 <= Cabs (mget C0 D i j)) by (unfold Cabs; apply sqrt_pos).
    pose proof (Rabs_pos (mget 0 F i j)). nra.
Qed.

Lemma spec_filter_damps_witness :
  let s := set_fltr (Some taper43) (set_dwhdt (Some ramp43) solver4) in
  (1 <= 4)%nat
  /\ dwhdt s = Some ramp43 /\ fltr s = Some taper43
  /\ rect 4 3 ramp43 /\ rect 4 3 taper43
  /\ exists D',
       _add_spec_filter s = Returned tt (set_dwhdt (Some D') s)
       /\ rect 4 3 D'
       /\ forall i j, (i < 4)%nat -> (j < 3)%nat ->
            mget C0 D' i j
            = Cscale (mget 0 taper43 i j) (mget C0 ramp43 i j)
            /\ (mget 0 taper43 i j = 1 ->
                mget C0 D' i j = mget C0 ramp43 i j)
            /\ (Rabs (mget 0 taper43 i j) <= 1 ->
                Cabs (mget C0 D' i j) <= Cabs (mget C0 ramp43 i j)).
Proof.
  intros s.
  assert (RD : rect 4 3 ramp43) by apply rect_mk.
  assert (RF : rect 4 3 taper43) by apply rect_mk.
  split; [ lia | ]. split; [ reflexivity | ]. split; [ reflexivity | ].
  split; [ exact RD | ]. split; [ exact RF | ].
  exact (spec_filter_damps s 4 3 ramp43 taper43 ltac:(lia) eq_refl eq_refl
           RD RF).
Defined.



(* ----------------------------------------------------------------- *)
(** ** The squared wavenumbers on a square grid *)

(** X23.  On every square grid [nx = ny = n >= 2], the array [k2] that
    [init_solver] builds has the shape [(nx, nk)] with [nk = n/2 + 1], its
    entries are [k2[i, j] = kx[j]^2 + ky[i]^2], which on the square grid is
    [kx[i]^2 + ky[j]^2] as well, and it is zero at exactly one location,
    the zero wavenumber [i = 0], [j = 0]. *)
Theorem k2_on_square_grid (J : nat -> nat -> nat -> R) (n : nat)
    (re0 dt0 pad0 : R) (s : Fluid) :
  (2 <= n)%nat ->
  Fluid_init J n n re0 dt0 pad0 = Val s ->
  exists K : matrix R,
    k2 (final_state (init_solver s)) = Some K
    /\ nx s = n /\ nk s = (n / 2 + 1)%nat
    /\ rect (nx s) (nk s) K
    /\ (forall i j, (i < nx s)%nat -> (j < nk s)%nat ->
          mget 0 K i j = nth j (kx s) 0 ^ 2 + nth i (ky s) 0 ^ 2
          /\ mget 0 K i j = nth i (kx s) 0 ^ 2 + nth j (ky s) 0 ^ 2)
    /\ (forall i j, (i < nx s)%nat -> (j < nk s)%nat ->
          (mget 0 K i j = 0 <-> i = 0%nat /\ j = 0%nat)).
Proof.
  intros Hn E.
  destruct (Fluid_init_grid J n n re0 dt0 pad0 s ltac:(lia) ltac:(lia) E)
    as (Enx & Eny & Enk & Ekx & Eky & Ek2).
  pose proof (rect_k2_square s n Hn Enk Ekx Eky) as Hrect.
  assert (Hget : forall i j, (i < n)%nat -> (j < n / 2 + 1)%nat ->
            mget 0 (wavenumber_sq s) i j
            = nth j (kx s) 0 ^ 2 + nth i (ky s) 0 ^ 2).
  { intros i j Hi Hj. pose proof (Nat.div_mod_eq n 2).
    apply mget_wavenumber_sq;
      rewrite ?Eky, ?Ekx, ?Enk, ?length_wavenumbers; lia. }
  exists (wavenumber_sq s).
  split; [ now apply init_solver_k2 | ].
  split; [ exact Enx | ]. split; [ exact Enk | ].
  rewrite Enx, Enk. split; [ exact Hrect | ].
  split.
  - intros i j Hi Hj. split; [ now apply Hget | ].
    rewrite (Hget i j Hi Hj), Ekx, Eky. ring.
  - intros i j Hi Hj. exact (k2_square_zero_iff s n i j Hn Enk Ekx Eky Hi Hj).
Qed.

Lemma k2_on_square_grid_witness :
  (2 <= 4)%nat
  /\ Fluid_init (fun _ _ _ => 0) 4 4 1 default_dt default_pad = Val (fluid4 1)
  /\ exists K : matrix R,
      k2 (final_state (init_solver (fluid4 1))) = Some K
      /\ nx (fluid4 1) = 4%nat /\ nk (fluid4 1) = (4 / 2 + 1)%nat
      /\ rect (nx (fluid4 1)) (nk (fluid4 1)) K
      /\ (forall i j, (i < nx (fluid4 1))%nat -> (j < nk (fluid4 1))%nat ->
            mget 0 K i j
            = nth j (kx (fluid4 1)) 0 ^ 2 + nth i (ky (fluid4 1)) 0 ^ 2
            /\ mget 0 K i j
               = nth i (kx (fluid4 1)) 0 ^ 2 + nth j (ky (fluid4 1)) 0 ^ 2)
      /\ (forall i j, (i < nx (fluid4 1))%nat -> (j < nk (fluid4 1))%nat ->
            (mget 0 K i j = 0 <-> i = 0%nat /\ j = 0%nat)).
Proof.
  split; [ lia | ]. split; [ apply Fluid_init_4 | ].
  apply (k2_on_square_grid (fun _ _ _ => 0) 4 1 default_dt default_pad
           (fluid4 1)); [ lia | apply Fluid_init_4 ].
Defined.
